(** * termcalc: a shallow embedding of the expression evaluator

    The development follows [termcalc.c]: the variable store, the
    tokenizer, the recursive-descent parser that evaluates while it
    parses, the top-level [evaluate] and the output formatter.

    - A C [double] is an IEEE 754 binary64 value, taken from the
      Standard Library's [SpecFloat] (precision 53, [emax] 1024).
    - A [uint64_t] is a [Z] with the wrap-around written out.
    - A C string is a [string]; the cursor [p->pos] is the suffix that
      is still to be read.
    - Operations whose behaviour the C standard leaves undefined (an
      out-of-range conversion of a [double] to an integer type, a shift
      by a negative count or by 64 or more) yield [Undefined]. *)

From Stdlib Require Import ZArith List String Ascii Bool Lia.
From Stdlib Require Import Floats.SpecFloat.
Import ListNotations.

Local Open Scope string_scope.
Local Open Scope Z_scope.

(** ** Outcomes of a C computation *)

Inductive result (A : Type) : Type :=
| Ok (a : A)
| Undefined
| OutOfFuel.

Arguments Ok {A} a.
Arguments Undefined {A}.
Arguments OutOfFuel {A}.

Definition rbind {A B : Type} (r : result A) (k : A -> result B) : result B :=
  match r with
  | Ok a => k a
  | Undefined => Undefined
  | OutOfFuel => OutOfFuel
  end.

(** ** IEEE 754 binary64 *)

Module Double.

Definition prec : Z := 53.
Definition emax : Z := 1024.

Definition double : Type := spec_float.

Definition nan : double := S754_nan.
Definition zero : double := S754_zero false.

Definition add : double -> double -> double := SFadd prec emax.
Definition sub : double -> double -> double := SFsub prec emax.
Definition mul : double -> double -> double := SFmul prec emax.
Definition div : double -> double -> double := SFdiv prec emax.
Definition neg : double -> double := SFopp.
Definition eqb : double -> double -> bool := SFeqb.
Definition ltb : double -> double -> bool := SFltb.

Definition isnan (x : double) : bool :=
  match x with S754_nan => true | _ => false end.

(** Conversion of an integer to [double]: round to nearest, ties to even. *)
Definition of_Z (z : Z) : double := binary_normalize prec emax z 0 false.

(** The integral part of [x] (rounding toward zero); none for an
    infinity or a NaN. *)
Definition trunc (x : double) : option Z :=
  match x with
  | S754_zero _ => Some 0
  | S754_finite s m e =>
      let mag := if 0 <=? e then Z.shiftl (Zpos m) e
                 else Z.shiftr (Zpos m) (- e) in
      Some (if s then - mag else mag)
  | S754_infinity _ | S754_nan => None
  end.

(** [fabs] and [floor] are exact operations of IEEE 754. *)
Definition fabs : double -> double := SFabs.

Definition floor (x : double) : double :=
  match x with
  | S754_finite s m e =>
      if 0 <=? e then x
      else match Z.shiftr (if s then Zneg m else Zpos m) (- e) with
           | Z0 => S754_zero s
           | q => of_Z q
           end
  | _ => x
  end.

Definition sqrt : double -> double := SFsqrt prec emax.

(** The correctly rounded value of the decimal number [m * 10^ex],
    for [0 <= m].  This is what a C compiler does with a decimal
    floating constant and what [strtod] does with a decimal string. *)
Definition of_decimal (m ex : Z) : double :=
  match m with
  | Zpos _ =>
      if 0 <=? ex then of_Z (m * 10 ^ ex)
      else
        let '(q, e, l) := SFdiv_core_binary prec emax m 0 (10 ^ (- ex)) 0 in
        binary_round_aux prec emax false q e l
  | _ => zero
  end.

End Double.

Import Double.

(** ** Integer types of C *)

Definition UINT64_MOD : Z := 2 ^ 64.
Definition ULLONG_MAX : Z := 2 ^ 64 - 1.

Definition wrap64 (z : Z) : Z := z mod UINT64_MOD.

(** [(uint64_t)x] for a [double] [x]: defined when the integral part of
    [x] is representable (C11 6.3.1.4). *)
Definition to_uint (bits : Z) (x : double) : result Z :=
  match trunc x with
  | Some z => if (0 <=? z) && (z <? 2 ^ bits) then Ok z else Undefined
  | None => Undefined
  end.

Definition to_uint64 : double -> result Z := to_uint 64.

(** [(int)x] for a [double] [x]. *)
Definition to_int (x : double) : result Z :=
  match trunc x with
  | Some z => if (- 2 ^ 31 <=? z) && (z <? 2 ^ 31) then Ok z else Undefined
  | None => Undefined
  end.

(** [(double)u] for an unsigned integer [u]. *)
Definition of_uint64 (u : Z) : double := of_Z u.

(** [~u] at a width of [bits] bits. *)
Definition lnot (bits : Z) (u : Z) : Z := 2 ^ bits - 1 - u.

(** [l << r] and [l >> r] on [uint64_t] with an [int] count: undefined
    when the count is negative or at least the width (C11 6.5.7). *)
Definition shl64 (l r : Z) : result Z :=
  if (0 <=? r) && (r <? 64) then Ok (wrap64 (Z.shiftl l r)) else Undefined.

Definition shr64 (l r : Z) : result Z :=
  if (0 <=? r) && (r <? 64) then Ok (Z.shiftr l r) else Undefined.

(** ** Characters and C strings *)

Definition NUL : ascii := "000"%char.

Notation "c == d" := (Ascii.eqb c d) (at level 70, no associativity).

(** [*s] and [s + 1] for a pointer [s] into a NUL-terminated buffer. *)
Definition peek (s : string) : ascii :=
  match s with
  | String c _ => c
  | EmptyString => NUL
  end.

Definition advance (s : string) : string :=
  match s with
  | String _ t => t
  | EmptyString => EmptyString
  end.

(** Two pointers into the same buffer are equal when the same number of
    characters remains after them. *)
Definition ptr_eq (a b : string) : bool :=
  Nat.eqb (String.length a) (String.length b).

Definition code (c : ascii) : Z := Z.of_nat (nat_of_ascii c).

(** <ctype.h> in the C locale. *)
Definition isspace (c : ascii) : bool :=
  (code c =? 32) || ((9 <=? code c) && (code c <=? 13)).

Definition isdigit (c : ascii) : bool :=
  (48 <=? code c) && (code c <=? 57).

Definition isalpha (c : ascii) : bool :=
  ((65 <=? code c) && (code c <=? 90)) || ((97 <=? code c) && (code c <=? 122)).

Definition isalnum (c : ascii) : bool := isalpha c || isdigit c.

Fixpoint drop_while (f : ascii -> bool) (s : string) : string :=
  match s with
  | String c t => if f c then drop_while f t else s
  | EmptyString => s
  end.

(** ** <stdlib.h>: [strtoull] and [strtod] *)

Definition digit_value (c : ascii) : option Z :=
  if isdigit c then Some (code c - 48)
  else if (97 <=? code c) && (code c <=? 122) then Some (code c - 87)
  else if (65 <=? code c) && (code c <=? 90) then Some (code c - 55)
  else None.

Definition digit_in (base : Z) (c : ascii) : option Z :=
  match digit_value c with
  | Some d => if d <? base then Some d else None
  | None => None
  end.

(** The longest run of digits of [base] at the head of [s], its value
    added to [acc]; with the rest of the string. *)
Fixpoint scan_digits (base : Z) (s : string) (acc : Z) : Z * string :=
  match s with
  | String c t =>
      match digit_in base c with
      | Some d => scan_digits base t (acc * base + d)
      | None => (acc, s)
      end
  | EmptyString => (acc, s)
  end.

(** [strtoull(nptr, &end, base)] for [base] 8 or 16 (ISO C 7.22.1.4):
    white space, an optional sign, for base 16 an optional [0x], then
    the digits.  Without a digit nothing is converted and [end] is
    [nptr] (or points at the [x] of a bare [0x]); a value that does not
    fit saturates at [ULLONG_MAX]; a minus sign negates modulo 2^64. *)
Definition strtoull (nptr : string) (base : Z) : Z * string :=
  let s := drop_while isspace nptr in
  let '(negative, s) :=
    if peek s == "-" then (true, advance s)
    else if peek s == "+" then (false, advance s)
    else (false, s) in
  let prefixed :=
    (base =? 16) && (peek s == "0")
    && ((peek (advance s) == "x") || (peek (advance s) == "X")) in
  let body := if prefixed then advance (advance s) else s in
  let '(v, rest) := scan_digits base body 0 in
  if ptr_eq rest body then
    if prefixed then (0, advance s) else (0, nptr)
  else if ULLONG_MAX <? v then (ULLONG_MAX, rest)
  else (if negative then wrap64 (- v) else v, rest).

(** The digits of a decimal significand: the value continues [acc], and
    the count of digits read is added to [n]. *)
Fixpoint scan_decimal (s : string) (acc n : Z) : Z * Z * string :=
  match s with
  | String c t =>
      if isdigit c then scan_decimal t (acc * 10 + (code c - 48)) (n + 1)
      else (acc, n, s)
  | EmptyString => (acc, n, s)
  end.

(** The exponent part of a decimal floating string: [e] or [E], an
    optional sign and digits; it is only taken with at least one digit. *)
Definition scan_exponent (s : string) : Z * string :=
  if (peek s == "e") || (peek s == "E") then
    let t := advance s in
    let '(minus, t) :=
      if peek t == "-" then (true, advance t)
      else if peek t == "+" then (false, advance t)
      else (false, t) in
    let '(v, n, rest) := scan_decimal t 0 0 in
    if n =? 0 then (0, s) else (if minus then - v else v, rest)
  else (0, s).

(** [strtod(nptr, &end)] on a decimal floating string (ISO C 7.22.1.3):
    digits with an optional point, then an optional exponent; the value
    is correctly rounded.  [parse_number] calls it at a digit, or at a
    point before a digit, and never at [0x], so the white space, sign,
    hexadecimal, infinity and NaN forms of [strtod] do not arise. *)
Definition strtod (nptr : string) : double * string :=
  let '(ip, ni, s1) := scan_decimal nptr 0 0 in
  let '(m, nf, s2) :=
    if peek s1 == "." then scan_decimal (advance s1) ip 0
    else (ip, 0, s1) in
  if ni + nf =? 0 then (zero, nptr)
  else
    let '(ex, s3) := scan_exponent s2 in
    (of_decimal m (ex - nf), s3).

(** ** <stdio.h>: the conversions of [printf] that the program uses *)

Definition digit_char (d : Z) : ascii :=
  ascii_of_nat (Z.to_nat (if d <? 10 then 48 + d else 55 + d)).

Fixpoint digits_aux (fuel : nat) (base n : Z) (acc : string) : string :=
  match fuel with
  | O => acc
  | S fuel' =>
      let acc' := String (digit_char (n mod base)) acc in
      if n / base =? 0 then acc' else digits_aux fuel' base (n / base) acc'
  end.

(** The digits of [0 <= n] in [base] (upper-case above nine), without
    leading zeros. *)
Definition digits (base n : Z) : string :=
  digits_aux (S (Z.to_nat (Z.log2 n))) base n "".

(** ["%lX"] and ["%lo"]. *)
Definition printf_X (u : Z) : string := digits 16 u.
Definition printf_o (u : Z) : string := digits 8 u.

(** ["%.0f"]: the nearest integer (ties to even) in decimal, with the
    sign of the argument. *)
Definition printf_f0 (x : double) : string :=
  match x with
  | S754_nan => "nan"
  | S754_infinity s => if s then "-inf" else "inf"
  | S754_zero s => if s then "-0" else "0"
  | S754_finite s m e =>
      let n :=
        if 0 <=? e then Z.shiftl (Zpos m) e
        else
          let q := Z.shiftr (Zpos m) (- e) in
          let r := Zpos m - Z.shiftl q (- e) in
          let half := Z.shiftl 1 (- e - 1) in
          if (half <? r) || ((r =? half) && Z.odd q) then q + 1 else q in
      ((if s then "-" else "") ++ digits 10 n)%string
  end.

(** ** <math.h>

    The functions of the C library that IEEE 754 does not pin down to
    the last bit, and the ["%.12g"] conversion of [printf], are taken as
    parameters of the model. *)

Record libm : Type := {
  sin : double -> double;
  cos : double -> double;
  tan : double -> double;
  asin : double -> double;
  acos : double -> double;
  atan : double -> double;
  sinh : double -> double;
  cosh : double -> double;
  tanh : double -> double;
  exp : double -> double;
  log : double -> double;
  log10 : double -> double;
  log2 : double -> double;
  cbrt : double -> double;
  ceil : double -> double;
  round : double -> double;
  pow : double -> double -> double;
  fmod : double -> double -> double;
  atan2 : double -> double -> double;
  fmax : double -> double -> double;
  fmin : double -> double -> double;
  printf_g12 : double -> string
}.

(** ** Constants and configuration *)

Definition PI : double := Eval vm_compute in of_decimal 314159265358979323846 (-20).
Definition E : double := Eval vm_compute in of_decimal 271828182845904523536 (-20).

Definition KiB : double := Eval vm_compute in of_decimal 10240 (-1).
Definition MiB : double := Eval vm_compute in mul KiB KiB.
Definition GiB : double := Eval vm_compute in mul (mul KiB KiB) KiB.
Definition TiB : double := Eval vm_compute in mul (mul (mul KiB KiB) KiB) KiB.

Definition KB : double := Eval vm_compute in of_decimal 10000 (-1).
Definition MB : double := Eval vm_compute in of_decimal 10000000 (-1).
Definition GB : double := Eval vm_compute in of_decimal 10000000000 (-1).
Definition TB : double := Eval vm_compute in of_decimal 10000000000000 (-1).

Definition MAX_VARS : nat := 64.
Definition MAX_NAME : nat := 32.

Inductive OutputFormat : Type := FMT_DEC | FMT_HEX | FMT_BIN | FMT_OCT.

(** ** Variable storage *)

(** [Variable] of the source. *)
Record Var : Type := { name : string; value : double }.

(** The file-scope objects of the program, [g_output_fmt] and [vars]
    (with [var_count] the length of [vars]), and the two output
    streams, a list of lines each. *)
Record Globals : Type := {
  g_output_fmt : OutputFormat;
  vars : list Var;
  stderr : list string;
  stdout : list string
}.

Definition var_count (g : Globals) : nat := List.length (vars g).

Definition set_fmt (f : OutputFormat) (g : Globals) : Globals :=
  {| g_output_fmt := f; vars := vars g; stderr := stderr g; stdout := stdout g |}.

Definition set_vars (vs : list Var) (g : Globals) : Globals :=
  {| g_output_fmt := g_output_fmt g; vars := vs; stderr := stderr g; stdout := stdout g |}.

Definition eprint (line : string) (g : Globals) : Globals :=
  {| g_output_fmt := g_output_fmt g; vars := vars g;
     stderr := stderr g ++ [line]; stdout := stdout g |}.

Definition print (line : string) (g : Globals) : Globals :=
  {| g_output_fmt := g_output_fmt g; vars := vars g;
     stderr := stderr g; stdout := stdout g ++ [line] |}.

(** [strcmp(a, b) == 0]. *)
Definition streq (a b : string) : bool := String.eqb a b.

(** The loop of [get_var]: the value of the first entry named [nm]. *)
Fixpoint find_var (vs : list Var) (nm : string) : option double :=
  match vs with
  | [] => None
  | v :: rest => if streq (name v) nm then Some (value v) else find_var rest nm
  end.

Definition get_var (nm : string) (g : Globals) : double * Globals :=
  match find_var (vars g) nm with
  | Some v => (v, g)
  | None =>
      if streq nm "pi" || streq nm "PI" then (PI, g)
      else if streq nm "e" || streq nm "E" then (E, g)
      else if streq nm "ans" then
        (match vars g with v :: _ => value v | [] => zero end, g)
      else if streq nm "KiB" || streq nm "kib" then (KiB, g)
      else if streq nm "MiB" || streq nm "mib" then (MiB, g)
      else if streq nm "GiB" || streq nm "gib" then (GiB, g)
      else if streq nm "TiB" || streq nm "tib" then (TiB, g)
      else if streq nm "KB" || streq nm "kb" then (KB, g)
      else if streq nm "MB" || streq nm "mb" then (MB, g)
      else if streq nm "GB" || streq nm "gb" then (GB, g)
      else if streq nm "TB" || streq nm "tb" then (TB, g)
      else (nan, eprint ("undefined: " ++ nm) g)
  end.

(** The loop of [set_var]: the store with the first entry named [nm]
    overwritten, when there is one. *)
Fixpoint update_var (vs : list Var) (nm : string) (x : double) : option (list Var) :=
  match vs with
  | [] => None
  | v :: rest =>
      if streq (name v) nm then Some ({| name := name v; value := x |} :: rest)
      else match update_var rest nm x with
           | Some rest' => Some (v :: rest')
           | None => None
           end
  end.

(** [strncpy(dst, s, n)] into a zeroed buffer of more than [n] bytes. *)
Fixpoint strncpy (s : string) (n : nat) : string :=
  match n, s with
  | S n', String c t => String c (strncpy t n')
  | _, _ => EmptyString
  end.

Definition set_var (nm : string) (x : double) (g : Globals) : Globals :=
  match update_var (vars g) nm x with
  | Some vs => set_vars vs g
  | None =>
      if (var_count g <? MAX_VARS)%nat then
        set_vars (vars g ++ [{| name := strncpy nm (MAX_NAME - 1); value := x |}]) g
      else g
  end.

(** ** Tokenizer *)

Inductive TokenType : Type :=
  TOK_NUM | TOK_ID | TOK_OP | TOK_LPAREN | TOK_RPAREN | TOK_END | TOK_ERR.

Definition TokenType_eqb (a b : TokenType) : bool :=
  match a, b with
  | TOK_NUM, TOK_NUM | TOK_ID, TOK_ID | TOK_OP, TOK_OP
  | TOK_LPAREN, TOK_LPAREN | TOK_RPAREN, TOK_RPAREN
  | TOK_END, TOK_END | TOK_ERR, TOK_ERR => true
  | _, _ => false
  end.

Record Token : Type := {
  type : TokenType;
  num : double;
  id : string;
  op : ascii;
  op2 : ascii
}.

(** The compound literals [(Token){.type = t}] and
    [(Token){.type = TOK_OP, .op = c}]: the other members are zero. *)
Definition Token_of_type (t : TokenType) : Token :=
  {| type := t; num := zero; id := ""; op := NUL; op2 := NUL |}.

Definition Token_of_op (c : ascii) : Token :=
  {| type := TOK_OP; num := zero; id := ""; op := c; op2 := NUL |}.

Record Parser : Type := {
  src : string;
  pos : string;
  cur : Token
}.

Definition set_pos (s : string) (p : Parser) : Parser :=
  {| src := src p; pos := s; cur := cur p |}.

Definition set_cur (t : Token) (p : Parser) : Parser :=
  {| src := src p; pos := pos p; cur := t |}.

(** [p->cur.num = x; p->cur.type = TOK_NUM;] *)
Definition set_num (x : double) (p : Parser) : Parser :=
  set_cur {| type := TOK_NUM; num := x; id := id (cur p);
             op := op (cur p); op2 := op2 (cur p) |} p.

(** [p->cur.id] filled with [s]; [p->cur.type = TOK_ID;] *)
Definition set_id (s : string) (p : Parser) : Parser :=
  set_cur {| type := TOK_ID; num := num (cur p); id := s;
             op := op (cur p); op2 := op2 (cur p) |} p.

Definition skip_ws (p : Parser) : Parser :=
  set_pos (drop_while isspace (pos p)) p.

(** The loop of the binary branch of [parse_number]. *)
Fixpoint scan_binary (s : string) (val : Z) : Z * string :=
  match s with
  | String c t =>
      if (c == "0") || (c == "1")
      then scan_binary t (Z.lor (wrap64 (Z.shiftl val 1)) (code c - 48))
      else (val, s)
  | EmptyString => (val, s)
  end.

(** The last part of [parse_number]: a regular decimal/scientific number. *)
Definition parse_decimal (p : Parser) : bool * Parser :=
  let start := pos p in
  if isdigit (peek start) || ((peek start == ".") && isdigit (peek (advance start)))
  then
    let '(x, end_) := strtod start in
    (true, set_num x (set_pos end_ p))
  else (false, p).

Definition parse_number (p : Parser) : bool * Parser :=
  let start := pos p in
  let prefix := peek (advance start) in
  if (peek start == "0") && negb (prefix == NUL) then
    if (prefix == "x") || (prefix == "X") then
      (* Hexadecimal *)
      let body := advance (advance start) in
      let '(val, end_) := strtoull body 16 in
      if ptr_eq end_ body then (false, set_pos start p)
      else (true, set_num (of_uint64 val) (set_pos end_ p))
    else if (prefix == "b") || (prefix == "B") then
      (* Binary *)
      let '(val, end_) := scan_binary (advance (advance start)) 0 in
      (true, set_num (of_uint64 val) (set_pos end_ p))
    else if (prefix == "o") || (prefix == "O") then
      (* Octal *)
      let body := advance (advance start) in
      let '(val, end_) := strtoull body 8 in
      if ptr_eq end_ body then (false, set_pos start p)
      else (true, set_num (of_uint64 val) (set_pos end_ p))
    else parse_decimal p
  else parse_decimal p.

(** The loop of the identifier branch of [next_token]: at most [room]
    characters of the name are taken. *)
Fixpoint scan_ident (s : string) (room : nat) : string * string :=
  match room, s with
  | S room', String c t =>
      if isalnum c || (c == "_") then
        let '(nm, rest) := scan_ident t room' in (String c nm, rest)
      else (EmptyString, s)
  | _, _ => (EmptyString, s)
  end.

Definition next_token (p : Parser) : Parser :=
  let p := skip_ws p in
  if peek (pos p) == NUL then set_cur (Token_of_type TOK_END) p
  else
    let '(is_number, p) := parse_number p in
    if is_number then p
    else if isalpha (peek (pos p)) || (peek (pos p) == "_") then
      let '(nm, rest) := scan_ident (pos p) (MAX_NAME - 1) in
      set_id nm (set_pos rest p)
    else
      let c := peek (pos p) in
      let p := set_pos (advance (pos p)) p in
      if c == "(" then set_cur (Token_of_type TOK_LPAREN) p
      else if c == ")" then set_cur (Token_of_type TOK_RPAREN) p
      else if (c == "+") || (c == "-") || (c == "/") || (c == "%") || (c == "=")
              || (c == "&") || (c == "|") || (c == "~") || (c == ",")
      then set_cur (Token_of_op c) p
      else if c == "<" then
        if peek (pos p) == "<"
        then set_cur (Token_of_op "L") (set_pos (advance (pos p)) p)
        else set_cur (Token_of_type TOK_ERR) p
      else if c == ">" then
        if peek (pos p) == ">"
        then set_cur (Token_of_op "R") (set_pos (advance (pos p)) p)
        else set_cur (Token_of_type TOK_ERR) p
      else if c == "*" then
        if peek (pos p) == "*"
        then set_cur (Token_of_op "^") (set_pos (advance (pos p)) p)
        else set_cur (Token_of_op "*") p
      else if c == "^" then set_cur (Token_of_op "^") p
      else set_cur (Token_of_type TOK_ERR) p.

(** ** The evaluation monad

    The parser functions receive [Parser *p], read and write the
    file-scope objects, and may hit undefined behaviour. *)

Definition M (A : Type) : Type :=
  Parser -> Globals -> result (A * Parser * Globals).

Definition ret {A : Type} (a : A) : M A := fun p g => Ok (a, p, g).

Definition bind {A B : Type} (m : M A) (k : A -> M B) : M B :=
  fun p g =>
    match m p g with
    | Ok (a, p', g') => k a p' g'
    | Undefined => Undefined
    | OutOfFuel => OutOfFuel
    end.

Declare Scope eval_scope.
Delimit Scope eval_scope with eval.
Notation "x <- m ;; k" := (bind m (fun x => k))
  (at level 61, m at next level, right associativity) : eval_scope.
Notation "m ;; k" := (bind m (fun _ => k))
  (at level 61, right associativity) : eval_scope.
Notation "x <~ r ;; k" := (rbind r (fun x => k))
  (at level 61, r at next level, right associativity) : eval_scope.

Local Open Scope eval_scope.

Definition out_of_fuel {A : Type} : M A := fun _ _ => OutOfFuel.

(** A computation that touches neither the parser nor the globals. *)
Definition lift {A : Type} (r : result A) : M A :=
  fun p g => x <~ r ;; Ok (x, p, g).

(** [p->cur] *)
Definition current : M Token := fun p g => Ok (cur p, p, g).

(** [next_token(p);] *)
Definition advance_token : M unit := fun p g => Ok (tt, next_token p, g).

(** A call that only uses the globals. *)
Definition global {A : Type} (f : Globals -> result (A * Globals)) : M A :=
  fun p g => match f g with
             | Ok (a, g') => Ok (a, p, g')
             | Undefined => Undefined
             | OutOfFuel => OutOfFuel
             end.

(** [t.type == TOK_OP && t.op == c] *)
Definition is_op (t : Token) (c : ascii) : bool :=
  TokenType_eqb (type t) TOK_OP && (op t == c).

Definition is_type (t : Token) (ty : TokenType) : bool :=
  TokenType_eqb (type t) ty.

(** [if (p->cur.type == TOK_RPAREN) next_token(p);] *)
Definition skip_rparen : M unit :=
  t <- current ;; if is_type t TOK_RPAREN then advance_token else ret tt.

(** ** Bit counting: the GCC builtins on a nonzero [unsigned long long] *)

Fixpoint popcount_pos (p : positive) : Z :=
  match p with
  | xH => 1
  | xO q => popcount_pos q
  | xI q => 1 + popcount_pos q
  end.

Definition popcountll (u : Z) : Z :=
  match u with Zpos p => popcount_pos p | _ => 0 end.

Fixpoint ctz_pos (p : positive) : Z :=
  match p with
  | xO q => 1 + ctz_pos q
  | _ => 0
  end.

(** [__builtin_clzll(u)] and [__builtin_ctzll(u)]: undefined at zero. *)
Definition clzll (u : Z) : result Z :=
  match u with Zpos _ => Ok (63 - Z.log2 u) | _ => Undefined end.

Definition ctzll (u : Z) : result Z :=
  match u with Zpos p => Ok (ctz_pos p) | _ => Undefined end.

(** ** The functions of the calculator *)

Section Evaluator.

Variable m : libm.

(** Two-argument functions. *)
Definition call_func2 (nm : string) (arg1 arg2 : double) : result double :=
  if streq nm "bxor" then
    a <~ to_uint64 arg1 ;; b <~ to_uint64 arg2 ;; Ok (of_uint64 (Z.lxor a b))
  else if streq nm "band" then
    a <~ to_uint64 arg1 ;; b <~ to_uint64 arg2 ;; Ok (of_uint64 (Z.land a b))
  else if streq nm "bor" then
    a <~ to_uint64 arg1 ;; b <~ to_uint64 arg2 ;; Ok (of_uint64 (Z.lor a b))
  else if streq nm "shl" then
    a <~ to_uint64 arg1 ;; n <~ to_int arg2 ;; v <~ shl64 a n ;; Ok (of_uint64 v)
  else if streq nm "shr" then
    a <~ to_uint64 arg1 ;; n <~ to_int arg2 ;; v <~ shr64 a n ;; Ok (of_uint64 v)
  else if streq nm "pow" then Ok (pow m arg1 arg2)
  else if streq nm "mod" then Ok (fmod m arg1 arg2)
  else if streq nm "atan2" then Ok (atan2 m arg1 arg2)
  else if streq nm "max" then Ok (fmax m arg1 arg2)
  else if streq nm "min" then Ok (fmin m arg1 arg2)
  else Ok nan.

(** Built-in functions of one argument. *)
Definition call_func (nm : string) (arg : double) (g : Globals)
  : result (double * Globals) :=
  let pure (x : double) : result (double * Globals) := Ok (x, g) in
  if streq nm "sin" then pure (sin m arg)
  else if streq nm "cos" then pure (cos m arg)
  else if streq nm "tan" then pure (tan m arg)
  else if streq nm "asin" then pure (asin m arg)
  else if streq nm "acos" then pure (acos m arg)
  else if streq nm "atan" then pure (atan m arg)
  else if streq nm "sinh" then pure (sinh m arg)
  else if streq nm "cosh" then pure (cosh m arg)
  else if streq nm "tanh" then pure (tanh m arg)
  else if streq nm "exp" then pure (exp m arg)
  else if streq nm "log" then pure (log m arg)
  else if streq nm "log10" then pure (log10 m arg)
  else if streq nm "log2" then pure (log2 m arg)
  else if streq nm "sqrt" then pure (sqrt arg)
  else if streq nm "cbrt" then pure (cbrt m arg)
  else if streq nm "abs" then pure (fabs arg)
  else if streq nm "floor" then pure (floor arg)
  else if streq nm "ceil" then pure (ceil m arg)
  else if streq nm "round" then pure (round m arg)
  else if streq nm "ln" then pure (log m arg)
  else if streq nm "bnot" then
    u <~ to_uint64 arg ;; pure (of_uint64 (lnot 64 u))
  else if streq nm "not8" then
    u <~ to_uint 8 arg ;; pure (of_uint64 (lnot 8 u))
  else if streq nm "not16" then
    u <~ to_uint 16 arg ;; pure (of_uint64 (lnot 16 u))
  else if streq nm "not32" then
    u <~ to_uint 32 arg ;; pure (of_uint64 (lnot 32 u))
  else if streq nm "hex" then Ok (arg, set_fmt FMT_HEX g)
  else if streq nm "bin" then Ok (arg, set_fmt FMT_BIN g)
  else if streq nm "oct" then Ok (arg, set_fmt FMT_OCT g)
  else if streq nm "dec" then Ok (arg, set_fmt FMT_DEC g)
  else if streq nm "toKiB" || streq nm "tokib" then pure (div arg KiB)
  else if streq nm "toMiB" || streq nm "tomib" then pure (div arg MiB)
  else if streq nm "toGiB" || streq nm "togib" then pure (div arg GiB)
  else if streq nm "toTiB" || streq nm "totib" then pure (div arg TiB)
  else if streq nm "toKB" || streq nm "tokb" then pure (div arg KB)
  else if streq nm "toMB" || streq nm "tomb" then pure (div arg MB)
  else if streq nm "toGB" || streq nm "togb" then pure (div arg GB)
  else if streq nm "toTB" || streq nm "totb" then pure (div arg TB)
  else if streq nm "popcount" then
    u <~ to_uint64 arg ;; pure (of_Z (popcountll u))
  else if streq nm "clz" then
    if eqb arg zero then pure (of_Z 64)
    else u <~ to_uint64 arg ;; n <~ clzll u ;; pure (of_Z n)
  else if streq nm "ctz" then
    if eqb arg zero then pure (of_Z 64)
    else u <~ to_uint64 arg ;; n <~ ctzll u ;; pure (of_Z n)
  else Ok (nan, eprint ("unknown function: " ++ nm) g).

(** *** The binary operators *)

(** [case '*': left *= right; case '/': left /= right;
    case '%': left = fmod(left, right);] *)
Definition term_op (o : ascii) (left right : double) : result double :=
  Ok (if o == "*" then mul left right
      else if o == "/" then div left right
      else fmod m left right).

(** [left = (op == '+') ? left + right : left - right;] *)
Definition additive_op (o : ascii) (left right : double) : result double :=
  Ok (if o == "+" then add left right else sub left right).

(** [uint64_t l = (uint64_t)left; int r = (int)right;
    left = (op == 'L') ? (double)(l << r) : (double)(l >> r);] *)
Definition shift_op (o : ascii) (left right : double) : result double :=
  l <~ to_uint64 left ;;
  r <~ to_int right ;;
  v <~ (if o == "L" then shl64 l r else shr64 l r) ;;
  Ok (of_uint64 v).

(** [left = (double)((uint64_t)left & (uint64_t)right);] *)
Definition bitand_op (o : ascii) (left right : double) : result double :=
  l <~ to_uint64 left ;; r <~ to_uint64 right ;; Ok (of_uint64 (Z.land l r)).

(** [left = (double)((uint64_t)left | (uint64_t)right);] *)
Definition bitor_op (o : ascii) (left right : double) : result double :=
  l <~ to_uint64 left ;; r <~ to_uint64 right ;; Ok (of_uint64 (Z.lor l r)).

(** The loop of the five left-associative levels:
    [while (p->cur.type == TOK_OP && ops(p->cur.op)) {
       char op = p->cur.op; next_token(p);
       double right = operand(p); left = apply(op, left, right); }
     return left;] *)
Fixpoint while_op (fuel : nat) (ops : ascii -> bool) (operand : M double)
    (apply : ascii -> double -> double -> result double) (left : double)
  : M double :=
  match fuel with
  | O => out_of_fuel
  | S fuel' =>
      t <- current ;;
      if is_type t TOK_OP && ops (op t) then
        advance_token ;;
        right <- operand ;;
        left' <- lift (apply (op t) left right) ;;
        while_op fuel' ops operand apply left'
      else ret left
  end.

Definition is_term_op (c : ascii) : bool := (c == "*") || (c == "/") || (c == "%").
Definition is_additive_op (c : ascii) : bool := (c == "+") || (c == "-").
Definition is_shift_op (c : ascii) : bool := (c == "L") || (c == "R").
Definition is_bitand_op (c : ascii) : bool := c == "&".
Definition is_bitor_op (c : ascii) : bool := c == "|".

(** *** Recursive descent *)

Fixpoint parse_primary (fuel : nat) : M double :=
  match fuel with
  | O => out_of_fuel
  | S fuel' =>
      t <- current ;;
      if is_op t "-" || is_op t "+" then
        (* Unary minus/plus *)
        advance_token ;;
        val <- parse_primary fuel' ;;
        ret (if op t == "-" then neg val else val)
      else if is_op t "~" then
        (* Bitwise NOT *)
        advance_token ;;
        val <- parse_primary fuel' ;;
        u <- lift (to_uint64 val) ;;
        ret (of_uint64 (lnot 64 u))
      else if is_type t TOK_LPAREN then
        (* Parentheses *)
        advance_token ;;
        val <- parse_expr fuel' ;;
        skip_rparen ;;
        ret val
      else if is_type t TOK_NUM then
        (* Number *)
        advance_token ;;
        ret (num t)
      else if is_type t TOK_ID then
        (* Identifier or function call *)
        advance_token ;;
        t1 <- current ;;
        if is_type t1 TOK_LPAREN then
          advance_token ;;
          arg1 <- parse_expr fuel' ;;
          t2 <- current ;;
          if is_op t2 "," then
            advance_token ;;
            arg2 <- parse_expr fuel' ;;
            skip_rparen ;;
            lift (call_func2 (id t) arg1 arg2)
          else
            skip_rparen ;;
            global (call_func (id t) arg1)
        else
          global (fun g => Ok (get_var (id t) g))
      else
        global (fun g => Ok (nan, eprint "syntax error" g))
  end

with parse_power (fuel : nat) : M double :=
  match fuel with
  | O => out_of_fuel
  | S fuel' =>
      left <- parse_primary fuel' ;;
      t <- current ;;
      if is_op t "^" then
        advance_token ;;
        right <- parse_power fuel' ;;
        ret (pow m left right)
      else ret left
  end

with parse_term (fuel : nat) : M double :=
  match fuel with
  | O => out_of_fuel
  | S fuel' =>
      left <- parse_power fuel' ;;
      while_op fuel' is_term_op (parse_power fuel') term_op left
  end

with parse_additive (fuel : nat) : M double :=
  match fuel with
  | O => out_of_fuel
  | S fuel' =>
      left <- parse_term fuel' ;;
      while_op fuel' is_additive_op (parse_term fuel') additive_op left
  end

with parse_shift (fuel : nat) : M double :=
  match fuel with
  | O => out_of_fuel
  | S fuel' =>
      left <- parse_additive fuel' ;;
      while_op fuel' is_shift_op (parse_additive fuel') shift_op left
  end

with parse_bitand (fuel : nat) : M double :=
  match fuel with
  | O => out_of_fuel
  | S fuel' =>
      left <- parse_shift fuel' ;;
      while_op fuel' is_bitand_op (parse_shift fuel') bitand_op left
  end

with parse_bitor (fuel : nat) : M double :=
  match fuel with
  | O => out_of_fuel
  | S fuel' =>
      left <- parse_bitand fuel' ;;
      while_op fuel' is_bitor_op (parse_bitand fuel') bitor_op left
  end

with parse_expr (fuel : nat) : M double :=
  match fuel with
  | O => out_of_fuel
  | S fuel' => parse_bitor fuel'
  end.

(** *** Top level: assignment or expression *)

(** Recursion budget for one line: each level of the descent and
    each turn of a loop is entered with at least one character or the
    current token still to be consumed. *)
Definition parse_fuel (input : string) : nat :=
  (8 * String.length input + 16)%nat.

Definition evaluate (input : string) (g : Globals) : result (double * Globals) :=
  let g := set_fmt FMT_DEC g in
  let fuel := parse_fuel input in
  let p := {| src := input; pos := input; cur := Token_of_type TOK_NUM |} in
  let p := next_token p in
  let expression (p : Parser) :=
    match parse_expr fuel p g with
    | Ok (val, _, g') => Ok (val, g')
    | Undefined => Undefined
    | OutOfFuel => OutOfFuel
    end in
  if is_type (cur p) TOK_ID then
    let nm := id (cur p) in
    let saved := pos p in
    let saved_tok := cur p in
    let p := next_token p in
    if is_op (cur p) "=" then
      let p := next_token p in
      match parse_expr fuel p g with
      | Ok (val, _, g') => Ok (val, set_var nm val g')
      | Undefined => Undefined
      | OutOfFuel => OutOfFuel
      end
    else
      (* Not assignment, backtrack *)
      expression (set_cur saved_tok (set_pos saved p))
  else expression p.

(** ** Output formatting *)

(** The loop of [print_binary]: [slots] is [i + 1]. *)
Fixpoint print_binary_loop (slots : nat) (val : Z) (buf : string) : string :=
  match slots with
  | O => buf
  | S slots' =>
      if val =? 0 then buf
      else print_binary_loop slots' (Z.shiftr val 1)
             (String (ascii_of_nat (Z.to_nat (48 + Z.land val 1))) buf)
  end.

Definition print_binary (val : Z) : string :=
  if val =? 0 then "0b0"
  else "0b" ++ print_binary_loop 64 val "".

Definition huge : double := Eval vm_compute in of_decimal 1 15.

Definition print_result (val : double) (g : Globals) : result Globals :=
  if isnan val then Ok g
  else
    match g_output_fmt g with
    | FMT_HEX => u <~ to_uint64 val ;; Ok (print ("0x" ++ printf_X u) g)
    | FMT_BIN => u <~ to_uint64 val ;; Ok (print (print_binary u) g)
    | FMT_OCT => u <~ to_uint64 val ;; Ok (print ("0o" ++ printf_o u) g)
    | FMT_DEC =>
        (* Check if it's effectively an integer *)
        if ltb (fabs val) huge && eqb val (floor val)
        then Ok (print (printf_f0 val) g)
        else Ok (print (printf_g12 m val) g)
    end.

(** ** One turn of the interactive loop, for a line that is not a
    command: [result = evaluate(line); print_result(result);
    set_var("ans", result);] *)
Definition repl_step (line : string) (g : Globals) : result (double * Globals) :=
  match evaluate line g with
  | Ok (res, g1) => g2 <~ print_result res g1 ;; Ok (res, set_var "ans" res g2)
  | Undefined => Undefined
  | OutOfFuel => OutOfFuel
  end.

End Evaluator.

(** * Specification-side definitions *)

(** The state of a fresh process. *)
Definition initial_globals : Globals :=
  {| g_output_fmt := FMT_DEC; vars := []; stderr := []; stdout := [] |}.

(** The parser that [evaluate] builds for a line, before the first token. *)
Definition initial_parser (input : string) : Parser :=
  {| src := input; pos := input; cur := Token_of_type TOK_NUM |}.

(** [x] is the integer [z], held exactly. *)
Definition integral (x : double) (z : Z) : Prop :=
  trunc x = Some z /\ of_Z z = x.

(** What the examples of the specification need of the platform's
    [pow]: it is exact on an integer base and a natural exponent when
    the power is an integer that a [double] holds exactly. *)
Definition pow_exact_on_integers (m : libm) : Prop :=
  forall x y a n,
    integral x a -> integral y n -> 0 <= n -> Z.abs (a ^ n) <= 2 ^ 53 ->
    pow m x y = of_Z (a ^ n).

(** ISO C, F.10.7.1: [fmod] of a NaN and anything is a NaN. *)
Definition fmod_propagates_nan (m : libm) : Prop :=
  forall x, fmod m nan x = nan /\ fmod m x nan = nan.

(** A [libm] to run the model with: [pow] is exact on integers as
    above and gives up elsewhere, as do the other functions; the
    examples below do not call them. *)
Definition pow_integers (x y : double) : double :=
  match trunc x, trunc y with
  | Some a, Some n => if 0 <=? n then of_Z (a ^ n) else nan
  | _, _ => nan
  end.

Definition integers_libm : libm :=
  {| sin := fun _ => nan; cos := fun _ => nan; tan := fun _ => nan;
     asin := fun _ => nan; acos := fun _ => nan; atan := fun _ => nan;
     sinh := fun _ => nan; cosh := fun _ => nan; tanh := fun _ => nan;
     exp := fun _ => nan; log := fun _ => nan; log10 := fun _ => nan;
     log2 := fun _ => nan; cbrt := fun _ => nan; ceil := fun _ => nan;
     round := fun _ => nan;
     pow := pow_integers;
     fmod := fun _ _ => nan; atan2 := fun _ _ => nan;
     fmax := fun _ _ => nan; fmin := fun _ _ => nan;
     printf_g12 := fun _ => "" |}.

(** ** Lookup, in the words of the specification *)

Definition builtin_constants : list (string * double) :=
  [ ("pi", PI); ("PI", PI); ("e", E); ("E", E);
    ("KiB", KiB); ("kib", KiB); ("MiB", MiB); ("mib", MiB);
    ("GiB", GiB); ("gib", GiB); ("TiB", TiB); ("tib", TiB);
    ("KB", KB); ("kb", KB); ("MB", MB); ("mb", MB);
    ("GB", GB); ("gb", GB); ("TB", TB); ("tb", TB) ].

Fixpoint table_lookup (table : list (string * double)) (nm : string) : option double :=
  match table with
  | [] => None
  | (key, x) :: rest => if streq nm key then Some x else table_lookup rest nm
  end.

(** User bindings first, then the table of built-in constants, then
    the virtual [ans]; a name found nowhere is reported and yields NaN. *)
Definition lookup_spec (nm : string) (g : Globals) : double * Globals :=
  match find_var (vars g) nm with
  | Some x => (x, g)
  | None =>
      match table_lookup builtin_constants nm with
      | Some c => (c, g)
      | None =>
          if streq nm "ans" then (hd zero (map value (vars g)), g)
          else (nan, eprint ("undefined: " ++ nm) g)
      end
  end.

(** ** Names *)

Definition ident_start (c : ascii) : bool := isalpha c || (c == "_").
Definition ident_char (c : ascii) : bool := isalnum c || (c == "_").

Fixpoint all_chars (f : ascii -> bool) (s : string) : bool :=
  match s with
  | String c t => f c && all_chars f t
  | EmptyString => true
  end.

(** An identifier that the tokenizer reads as one token. *)
Definition identifier (s : string) : Prop :=
  ident_start (peek s) = true /\ all_chars ident_char s = true
  /\ (String.length s < MAX_NAME)%nat.

(** The invariant of the store: names are unique, none is longer than
    the buffer, and the store is within its capacity. *)
Definition names (g : Globals) : list string := map name (vars g).

Definition unique_names (g : Globals) : Prop := NoDup (names g).

(** ** Binary rendering, in the words of the specification *)

(** The bit pattern of a positive number, most significant bit first:
    it starts with a one. *)
Fixpoint bits_of_pos (p : positive) : string :=
  match p with
  | xH => "1"
  | xO q => bits_of_pos q ++ "0"
  | xI q => bits_of_pos q ++ "1"
  end.

(** ** Measures for termination *)

(** What is left to consume: the characters after the cursor, and the
    current token unless it is the end. *)
Definition measure (p : Parser) : nat :=
  (String.length (pos p) + if is_type (cur p) TOK_END then 0 else 1)%nat.

(** * Interactive mode and the entry point *)

Definition MAX_INPUT : nat := 1024.

(** The lines that the [help] command prints, one [puts] each. *)
Definition help_text : list string :=
  [ "termcalc - fast terminal calculator";
    "";
    "OPERATORS";
    "  arithmetic:  + - * / % ^ **";
    "  bitwise:     & | ~ << >>";
    "";
    "NUMBERS";
    "  decimal:     42, 3.14, 1e-9";
    "  hex:         0xFF, 0x1A2B";
    "  binary:      0b1010, 0b11110000";
    "  octal:       0o755, 0o644";
    "";
    "FUNCTIONS";
    "  math:        sin cos tan asin acos atan sinh cosh tanh";
    "               exp log log10 log2 ln sqrt cbrt abs floor ceil round";
    "               pow(x,y) atan2(y,x) max(a,b) min(a,b) mod(a,b)";
    "  bitwise:     popcount clz ctz bnot not8 not16 not32";
    "               bxor(a,b) band(a,b) bor(a,b) shl(x,n) shr(x,n)";
    "  format:      hex() bin() oct() dec()";
    "  bytes:       toKiB toMiB toGiB toTiB toKB toMB toGB toTB";
    "";
    "CONSTANTS";
    "  pi e ans";
    "  KiB MiB GiB TiB  (1024-based)";
    "  KB MB GB TB     (1000-based)";
    "";
    "EXAMPLES";
    "  0xFF & 0b1111        -> 15";
    "  1 << 10              -> 1024";
    "  hex(255)             -> 0xFF";
    "  bxor(0xF0, 0xFF)     -> 15";
    "  not8(0xF0)           -> 15";
    "  4*GiB                -> 4294967296";
    "  toMiB(4*GiB)         -> 4096";
    "";
    "exit: q, quit, exit, or Ctrl+D" ].

Definition print_help (g : Globals) : Globals :=
  fold_left (fun g line => print line g) help_text g.

(** [get_history_path]: [home] is [getenv("HOME")], and [snprintf]
    into [char path[512]] keeps at most 511 characters. *)
Definition get_history_path (home : option string) : option string :=
  match home with
  | Some h => Some (strncpy (h ++ "/.c_history") 511)
  | None => None
  end.

(** [strcat(dst, s)] into [char expr[MAX_INPUT]]: the result has to fit
    with its terminator. *)
Definition strcat (dst s : string) : result string :=
  if (String.length dst + String.length s <? MAX_INPUT)%nat
  then Ok (dst ++ s) else Undefined.

(** The loop of [main] that joins the arguments: [first] is [i == 1]. *)
Fixpoint concat_args (first : bool) (args : list string) (expr : string)
  : result string :=
  match args with
  | [] => Ok expr
  | a :: rest =>
      e1 <~ (if first then Ok expr else strcat expr " ") ;;
      e2 <~ strcat e1 a ;;
      concat_args false rest e2
  end.

Section Interactive.

Variable m : libm.

(** The loop of [repl].  [lines] are the lines that [readline] returns,
    call by call, before it returns [nullptr]; [hist] is the history
    list of the readline library, to which [add_history] appends. *)
Fixpoint repl_loop (lines hist : list string) (g : Globals)
  : result (list string * Globals) :=
  match lines with
  | [] => Ok (hist, g)
  | line :: rest =>
      if peek line == NUL then
        (* Skip empty lines *)
        repl_loop rest hist g
      else if streq line "q" || streq line "quit" || streq line "exit" then
        (* Exit commands *)
        Ok (hist, g)
      else if streq line "help" || streq line "?" then
        repl_loop rest hist (print_help g)
      else
        match repl_step m line g with
        | Ok (_, g') => repl_loop rest (hist ++ [line]) g'
        | Undefined => Undefined
        | OutOfFuel => OutOfFuel
        end
  end.

(** [repl].  [file] is the content of the history file, which
    [read_history] loads into the history list; the result holds the
    path and the list that [write_history] saves, when there is a path. *)
Definition repl (home : option string) (file lines : list string) (g : Globals)
  : result (option (string * list string) * Globals) :=
  let hist_path := get_history_path home in
  let hist := match hist_path with Some _ => file | None => [] end in
  match repl_loop lines hist g with
  | Ok (hist', g') =>
      Ok (match hist_path with Some path => Some (path, hist') | None => None end, g')
  | Undefined => Undefined
  | OutOfFuel => OutOfFuel
  end.

(** [main]: the exit status, the file-scope objects at exit, and the
    history that was saved.  The process starts with its file-scope
    objects zeroed. *)
Definition main (argv : list string) (home : option string) (file lines : list string)
  : result (Z * Globals * option (string * list string)) :=
  let g := initial_globals in
  if (List.length argv =? 1)%nat then
    match repl home file lines g with
    | Ok (saved, g') => Ok (0, g', saved)
    | Undefined => Undefined
    | OutOfFuel => OutOfFuel
    end
  else
    (* Concatenate all arguments into one expression *)
    match concat_args true (tl argv) "" with
    | Ok expr =>
        match evaluate m expr g with
        | Ok (res, g1) =>
            g2 <~ print_result m res g1 ;;
            Ok (if isnan res then 1 else 0, g2, None)
        | Undefined => Undefined
        | OutOfFuel => OutOfFuel
        end
    | Undefined => Undefined
    | OutOfFuel => OutOfFuel
    end.

End Interactive.

(** ** Properties of computations *)

(** A computation leaves the store and the standard output alone and
    does not move the parser backwards. *)
Definition frames_at {A : Type} (p : Parser) (c : M A) : Prop :=
  forall g a p' g',
    c p g = Ok (a, p', g') ->
    vars g' = vars g /\ stdout g' = stdout g /\ (measure p' <= measure p)%nat.

Definition frames {A : Type} (c : M A) : Prop := forall p, frames_at p c.

(** [c'] gives the result of [c] wherever [c] has enough fuel. *)
Definition refines {A : Type} (c c' : M A) : Prop :=
  forall p g, c p g = OutOfFuel \/ c p g = c' p g.

(** [c] has enough fuel for every parser of measure at most [n]. *)
Definition total_at {A : Type} (n : nat) (c : M A) : Prop :=
  forall p g, (measure p <= n)%nat -> c p g <> OutOfFuel.

Definition fueled {A : Type} (r : result A) : Prop := r <> OutOfFuel.

Definition runs {A : Type} (c : M A) (p : Parser) : Prop :=
  forall g, fueled (c p g).

(** The fuel that each level of the descent needs at measure [n]. *)
Definition parser_total_at (m : libm) (n : nat) : Prop :=
  (forall fuel, (8 * n + 1 <= fuel)%nat -> total_at n (parse_primary m fuel))
  /\ (forall fuel, (8 * n + 2 <= fuel)%nat -> total_at n (parse_power m fuel))
  /\ (forall fuel, (8 * n + 3 <= fuel)%nat -> total_at n (parse_term m fuel))
  /\ (forall fuel, (8 * n + 4 <= fuel)%nat -> total_at n (parse_additive m fuel))
  /\ (forall fuel, (8 * n + 5 <= fuel)%nat -> total_at n (parse_shift m fuel))
  /\ (forall fuel, (8 * n + 6 <= fuel)%nat -> total_at n (parse_bitand m fuel))
  /\ (forall fuel, (8 * n + 7 <= fuel)%nat -> total_at n (parse_bitor m fuel))
  /\ (forall fuel, (8 * n + 8 <= fuel)%nat -> total_at n (parse_expr m fuel)).

(** ** Literals *)

(** [c] is a digit of [base]. *)
Definition digit_of (base : Z) (c : ascii) : bool :=
  match digit_in base c with Some _ => true | None => false end.

(** The number that a string of digits of [base] denotes, continuing
    from [acc]. *)
Fixpoint digits_value (base : Z) (s : string) (acc : Z) : Z :=
  match s with
  | String c t =>
      digits_value base t
        (acc * base + match digit_value c with Some d => d | None => 0 end)
  | EmptyString => acc
  end.

(** A name that is bound nowhere: not by the user, not in the table of
    constants, and not [ans]. *)
Definition undefined_name (g : Globals) (nm : string) : Prop :=
  find_var (vars g) nm = None
  /\ table_lookup builtin_constants nm = None
  /\ nm <> "ans"%string.

(** A decimal literal: integer digits, then optionally a point and
    fraction digits, then optionally an exponent, which is the letter
    [e] or [E], a sign ([""], ["+"] or ["-"]) and digits. *)
Definition exponent_text (ex : option (ascii * string * string)) : string :=
  match ex with
  | Some (ec, sg, ed) => String ec (sg ++ ed)
  | None => ""
  end.

Definition decimal_text (ip : string) (fp : option string)
    (ex : option (ascii * string * string)) : string :=
  ip ++ match fp with Some f => "." ++ f | None => "" end ++ exponent_text ex.

Definition fraction_digits (fp : option string) : string :=
  match fp with Some f => f | None => "" end.

Definition exponent_value (ex : option (ascii * string * string)) : Z :=
  match ex with
  | Some (_, sg, ed) =>
      if String.eqb sg "-" then - digits_value 10 ed 0 else digits_value 10 ed 0
  | None => 0
  end.

Definition valid_exponent (ex : option (ascii * string * string)) : Prop :=
  match ex with
  | Some (ec, sg, ed) =>
      (ec = "e"%char \/ ec = "E"%char)
      /\ (sg = "" \/ sg = "+" \/ sg = "-")%string
      /\ ed <> ""%string /\ all_chars (digit_of 10) ed = true
  | None => True
  end.

Definition valid_decimal (ip : string) (fp : option string)
    (ex : option (ascii * string * string)) : Prop :=
  all_chars (digit_of 10) ip = true
  /\ all_chars (digit_of 10) (fraction_digits fp) = true
  /\ (ip ++ fraction_digits fp <> "")%string
  /\ valid_exponent ex.

(** The value that a decimal literal encodes, rounded to a [double]. *)
Definition decimal_value (ip : string) (fp : option string)
    (ex : option (ascii * string * string)) : double :=
  of_decimal (digits_value 10 (ip ++ fraction_digits fp) 0)
             (exponent_value ex - Z.of_nat (String.length (fraction_digits fp))).

(** ** The bounds of the store *)

(** The store fits its arrays: at most [MAX_VARS] entries, each name
    shorter than its buffer of [MAX_NAME] bytes. *)
Definition store_within_bounds (g : Globals) : Prop :=
  (var_count g <= MAX_VARS)%nat
  /\ Forall (fun v => (String.length (name v) < MAX_NAME)%nat) (vars g).

(** A store with all of its [MAX_VARS] entries in use, under the names
    [v0], [v1], ... *)
Definition full_store : Globals :=
  set_vars (map (fun n => {| name := "v" ++ digits 10 (Z.of_nat n); value := zero |})
                (seq 0 MAX_VARS))
           initial_globals.

(** ** The names of the built-in functions *)

Definition binary_function_names : list string :=
  [ "bxor"; "band"; "bor"; "shl"; "shr"; "pow"; "mod"; "atan2"; "max"; "min" ].

Definition unary_function_names : list string :=
  [ "sin"; "cos"; "tan"; "asin"; "acos"; "atan"; "sinh"; "cosh"; "tanh";
    "exp"; "log"; "log10"; "log2"; "sqrt"; "cbrt"; "abs"; "floor"; "ceil";
    "round"; "ln"; "bnot"; "not8"; "not16"; "not32"; "hex"; "bin"; "oct";
    "dec"; "toKiB"; "tokib"; "toMiB"; "tomib"; "toGiB"; "togib"; "toTiB";
    "totib"; "toKB"; "tokb"; "toMB"; "tomb"; "toGB"; "togb"; "toTB"; "totb";
    "popcount"; "clz"; "ctz" ].

(** [k] is the index of the lowest set bit of [u]. *)
Definition lowest_set_bit (u k : Z) : Prop :=
  0 <= k /\ Z.testbit u k = true /\ forall i, 0 <= i < k -> Z.testbit u i = false.

(** ** The cursor *)

(** [s] is what remains of [t] after some of its characters: a pointer
    into the buffer of [t], at or after its start. *)
Definition suffix_of (s t : string) : Prop := exists pre, t = (pre ++ s)%string.

(** The parser with another buffer address: [src] is only ever copied. *)
Definition set_src (s : string) (p : Parser) : Parser :=
  {| src := s; pos := pos p; cur := cur p |}.

(** [next_token] called [n] times. *)
Fixpoint tokens_ahead (n : nat) (p : Parser) : Parser :=
  match n with
  | O => p
  | S n' => next_token (tokens_ahead n' p)
  end.

(** The outcome of a computation, in a parser with another buffer address. *)
Definition with_src {A : Type} (s : string) (r : result (A * Parser * Globals))
  : result (A * Parser * Globals) :=
  match r with
  | Ok (a, p, g) => Ok (a, set_src s p, g)
  | Undefined => Undefined
  | OutOfFuel => OutOfFuel
  end.

(** A computation that reads the line through the cursor only. *)
Definition src_blind {A : Type} (c : M A) : Prop :=
  forall s p g, c (set_src s p) g = with_src s (c p g).

(** A computation that moves the parser by calls of [next_token] only. *)
Definition advances {A : Type} (c : M A) : Prop :=
  forall p g a p' g', c p g = Ok (a, p', g') -> exists n, p' = tokens_ahead n p.

(** ** Lines *)

(** The line read as an expression, with no regard for assignment:
    what [evaluate] does when the line does not start with a name and
    [=]. *)
Definition expression (m : libm) (line : string) (g : Globals)
  : result (double * Globals) :=
  match parse_expr m (parse_fuel line) (next_token (initial_parser line))
          (set_fmt FMT_DEC g) with
  | Ok (val, _, g') => Ok (val, g')
  | Undefined => Undefined
  | OutOfFuel => OutOfFuel
  end.

(** The first token of a line cannot start an expression and is no
    binary operator either: the end of the line, an error token, a
    closing parenthesis, [=] or a comma. *)
Definition starts_no_expression (t : Token) : bool :=
  is_type t TOK_END || is_type t TOK_ERR || is_type t TOK_RPAREN
  || is_op t "=" || is_op t ",".

(** Two tokens that the parser cannot tell apart: the same type and
    the same member for that type.  The members that the tokenizer
    leaves as they were (the name under a number, say) may differ. *)
Definition same_token (t u : Token) : Prop :=
  type t = type u
  /\ match type t with
     | TOK_NUM => num t = num u
     | TOK_ID => id t = id u
     | TOK_OP => op t = op u
     | _ => True
     end.

Definition same_parser (p q : Parser) : Prop :=
  pos p = pos q /\ same_token (cur p) (cur q).

Definition same_outcome {A : Type} (r r' : result (A * Parser * Globals)) : Prop :=
  match r, r' with
  | Ok (a, p, g), Ok (a', p', g') => a = a' /\ same_parser p p' /\ g = g'
  | Undefined, Undefined => True
  | OutOfFuel, OutOfFuel => True
  | _, _ => False
  end.

(** Two computations that agree on parsers that agree. *)
Definition alike {A : Type} (c c' : M A) : Prop :=
  forall p q g, same_parser p q -> same_outcome (c p g) (c' q g).

(** The token continues an expression: it is a binary operator. *)
Definition continues_expression (t : Token) : bool :=
  is_type t TOK_OP
  && ((op t == "^") || is_term_op (op t) || is_additive_op (op t)
      || is_shift_op (op t) || is_bitand_op (op t) || is_bitor_op (op t)).

(** ** The interactive loop *)

(** The lines that the interactive loop evaluates: those before the
    first exit command that are neither empty nor a help command. *)
Fixpoint evaluated_lines (lines : list string) : list string :=
  match lines with
  | [] => []
  | line :: rest =>
      if peek line == NUL then evaluated_lines rest
      else if streq line "q" || streq line "quit" || streq line "exit" then []
      else if streq line "help" || streq line "?" then evaluated_lines rest
      else line :: evaluated_lines rest
  end.

(** [n] times the character [c]. *)
Fixpoint replicate (n : nat) (c : ascii) : string :=
  match n with
  | O => ""
  | S n' => String c (replicate n' c)
  end.

(** ** Lines of plain arithmetic *)

(** The names of the functions that convert their argument to an
    integer type, and of those that select a format in which
    [print_result] does. *)
Definition converting_names : list string :=
  [ "bxor"; "band"; "bor"; "shl"; "shr"; "bnot"; "not8"; "not16"; "not32";
    "popcount"; "clz"; "ctz"; "hex"; "bin"; "oct" ].

(** A token that leads to no conversion of a [double] to an integer:
    not one of the operators [~], [&], [|], [<<] and [>>], and not one
    of the names above. *)
Definition plain_token (t : Token) : bool :=
  match type t with
  | TOK_OP =>
      negb ((op t == "~") || (op t == "&") || (op t == "|")
            || (op t == "L") || (op t == "R"))
  | TOK_ID => negb (existsb (streq (id t)) converting_names)
  | _ => true
  end.

(** The tokens that follow the current one are plain, up to the end of
    the line, which comes within [fuel] tokens. *)
Fixpoint plain_tokens (fuel : nat) (p : Parser) : bool :=
  match fuel with
  | O => false
  | S fuel' =>
      let q := next_token p in
      plain_token (cur q) && (is_type (cur q) TOK_END || plain_tokens fuel' q)
  end.

(** A line of plain arithmetic: numbers, names, parentheses, the
    operators [+ - * / % ^ **], [=] and the remaining functions. *)
Definition plain_line (line : string) : bool :=
  plain_tokens (S (String.length line)) (initial_parser line).

(** The current token and every token after it is plain. *)
Definition all_plain (p : Parser) : Prop :=
  forall n, plain_token (cur (tokens_ahead n p)) = true.

(** On a parser whose tokens are plain, and in the Decimal format, a
    computation has defined behaviour and stays in the Decimal format. *)
Definition defined_at {A : Type} (p : Parser) (c : M A) : Prop :=
  all_plain p ->
  forall g, g_output_fmt g = FMT_DEC ->
            c p g <> Undefined
            /\ forall a p' g', c p g = Ok (a, p', g') -> g_output_fmt g' = FMT_DEC.

Definition defined {A : Type} (c : M A) : Prop := forall p, defined_at p c.

(** ** Diagnostics *)

(** A computation only adds lines to the diagnostics. *)
Definition appends {A : Type} (c : M A) : Prop :=
  forall p g a p' g',
    c p g = Ok (a, p', g') -> exists extra, stderr g' = (stderr g ++ extra)%list.
(** ** The grammar, in the words of the specification

    The binary operators with their precedence level (1 binds loosest)
    and associativity, the unary operators, and expressions as trees. *)

Inductive binop : Type :=
| BitOr | BitAnd | ShiftL | ShiftR | Add | Sub | Mul | Div | Mod | Pow | PowStar.

Inductive unop : Type := Minus | Plus | Compl.

Inductive expr : Type :=
| Name (nm : string)
| Num (ds : string)
| Un (u : unop) (e : expr)
| Bin (o : binop) (l r : expr).

Definition level (o : binop) : nat :=
  match o with
  | BitOr => 1
  | BitAnd => 2
  | ShiftL | ShiftR => 3
  | Add | Sub => 4
  | Mul | Div | Mod => 5
  | Pow | PowStar => 6
  end.

Definition right_assoc (o : binop) : bool :=
  match o with
  | Pow | PowStar => true
  | _ => false
  end.

(** The spelling of an operator; [PowStar] is the second spelling of
    the power operator. *)
Definition symbol (o : binop) : string :=
  match o with
  | BitOr => "|"
  | BitAnd => "&"
  | ShiftL => "<<"
  | ShiftR => ">>"
  | Add => "+"
  | Sub => "-"
  | Mul => "*"
  | Div => "/"
  | Mod => "%"
  | Pow => "^"
  | PowStar => "**"
  end.

Definition unary_symbol (u : unop) : string :=
  match u with
  | Minus => "-"
  | Plus => "+"
  | Compl => "~"
  end.

(** The level of a primary: above every binary operator. *)
Definition PRIMARY : nat := 7.

Definition paren (b : bool) (s : string) : string :=
  if b then "(" ++ s ++ ")" else s.

(** The text of an expression where an operand of level [lvl] is
    expected, with the parentheses that the table makes necessary and
    no others: around a binary operation of a lower level than [lvl].
    The operands of a left-associative operator are expected at its
    level on the left and one above on the right, those of a
    right-associative operator the other way round; the operand of a
    unary operator is a primary. *)
Fixpoint show (lvl : nat) (e : expr) : string :=
  match e with
  | Name nm => nm
  | Num ds => ds
  | Un u e1 => unary_symbol u ++ show PRIMARY e1
  | Bin o l r =>
      paren (level o <? lvl)%nat
        (if right_assoc o
         then show (S (level o)) l ++ symbol o ++ show (level o) r
         else show (level o) l ++ symbol o ++ show (S (level o)) r)
  end.

(** The leaves are names that are one token, and decimal integer
    literals. *)
Fixpoint well_formed (e : expr) : Prop :=
  match e with
  | Name nm => identifier nm
  | Num ds => ds <> ""%string /\ all_chars (digit_of 10) ds = true
  | Un _ e1 => well_formed e1
  | Bin _ l r => well_formed l /\ well_formed r
  end.

Section Denotation.

Variable m : libm.

(** The operation of each operator. *)
Definition apply_binop (o : binop) (a b : double) : result double :=
  match o with
  | BitOr => bitor_op "|" a b
  | BitAnd => bitand_op "&" a b
  | ShiftL => shift_op "L" a b
  | ShiftR => shift_op "R" a b
  | Add => Ok (add a b)
  | Sub => Ok (sub a b)
  | Mul => Ok (mul a b)
  | Div => Ok (div a b)
  | Mod => Ok (fmod m a b)
  | Pow | PowStar => Ok (pow m a b)
  end.

Definition apply_unop (u : unop) (a : double) : result double :=
  match u with
  | Minus => Ok (neg a)
  | Plus => Ok a
  | Compl => (n <~ to_uint64 a ;; Ok (of_uint64 (lnot 64 n)))%eval
  end.

(** The value of a tree: the operands from left to right, then the
    operation. *)
Fixpoint denote (e : expr) (g : Globals) : result (double * Globals) :=
  match e with
  | Name nm => Ok (get_var nm g)
  | Num ds => Ok (of_Z (digits_value 10 ds 0), g)
  | Un u e1 =>
      (a <~ denote e1 g ;;
       v <~ apply_unop u (fst a) ;;
       Ok (v, snd a))%eval
  | Bin o l r =>
      (a <~ denote l g ;;
       b <~ denote r (snd a) ;;
       v <~ apply_binop o (fst a) (fst b) ;;
       Ok (v, snd b))%eval
  end.

End Denotation.

(** The tree that the table gives to [a o1 b o2 c]: the first operator
    is applied first when it binds tighter than the second, or as
    tight and associates to the left. *)
Definition first_binds (o1 o2 : binop) : bool :=
  (level o2 <? level o1)%nat || ((level o1 =? level o2)%nat && negb (right_assoc o1)).

Definition three_operands (o1 o2 : binop) (a b c : expr) : expr :=
  if first_binds o1 o2 then Bin o2 (Bin o1 a b) c else Bin o1 a (Bin o2 b c).

(** ** The parser, level by level *)

(** The function of the parser for each level of the table. *)
Definition parse_at (m : libm) (k : nat) (fuel : nat) : M double :=
  match k with
  | 0%nat => parse_expr m fuel
  | 1%nat => parse_bitor m fuel
  | 2%nat => parse_bitand m fuel
  | 3%nat => parse_shift m fuel
  | 4%nat => parse_additive m fuel
  | 5%nat => parse_term m fuel
  | 6%nat => parse_power m fuel
  | _ => parse_primary m fuel
  end.

Definition level_ops (k : nat) : ascii -> bool :=
  match k with
  | 1%nat => is_bitor_op
  | 2%nat => is_bitand_op
  | 3%nat => is_shift_op
  | 4%nat => is_additive_op
  | 5%nat => is_term_op
  | _ => fun _ => false
  end.

Definition level_apply (m : libm) (k : nat)
  : ascii -> double -> double -> result double :=
  match k with
  | 1%nat => bitor_op
  | 2%nat => bitand_op
  | 3%nat => shift_op
  | 4%nat => additive_op
  | 5%nat => term_op m
  | _ => fun _ _ _ => Ok nan
  end.

(** The operator code that the tokenizer gives to each spelling. *)
Definition opcode (o : binop) : ascii :=
  match o with
  | BitOr => "|"
  | BitAnd => "&"
  | ShiftL => "L"
  | ShiftR => "R"
  | Add => "+"
  | Sub => "-"
  | Mul => "*"
  | Div => "/"
  | Mod => "%"
  | Pow | PowStar => "^"
  end.

(** The level of the binary operator that a token is, 0 for any other
    token. *)
Definition token_level (t : Token) : nat :=
  if is_type t TOK_OP then
    if is_bitor_op (op t) then 1%nat
    else if is_bitand_op (op t) then 2%nat
    else if is_shift_op (op t) then 3%nat
    else if is_additive_op (op t) then 4%nat
    else if is_term_op (op t) then 5%nat
    else if op t == "^" then 6%nat
    else 0%nat
  else 0%nat.

(** What may come after an operand of level [k]: text that continues
    neither a name nor a number, and whose first token is no opening
    parenthesis, no [=], and no binary operator of level [k] or above. *)
Definition follow (k : nat) (rest : string) : Prop :=
  ident_char (peek rest) = false
  /\ (peek rest == ".") = false
  /\ is_type (cur (next_token (initial_parser rest))) TOK_LPAREN = false
  /\ is_op (cur (next_token (initial_parser rest))) "=" = false
  /\ (token_level (cur (next_token (initial_parser rest))) < k)%nat.

(** A computation gives [r] with every large enough recursion budget. *)
Definition eventually {A : Type} (c : nat -> result A) (r : result A) : Prop :=
  exists n0, forall n, (n0 <= n)%nat -> c n = r.

Definition eventually2 {A : Type} (c : nat -> nat -> result A) (r : result A) : Prop :=
  exists n0, forall n n', (n0 <= n)%nat -> (n0 <= n')%nat -> c n n' = r.

(** The outcome of a parser function that has evaluated a tree and
    stands at the first token of what follows. *)
Definition resume (r : result (double * Globals)) (q : Parser)
  : result (double * Parser * Globals) :=
  match r with
  | Ok (v, g) => Ok (v, next_token q, g)
  | Undefined => Undefined
  | OutOfFuel => OutOfFuel
  end.

(** The function of level [k] reads the text of [e] at level [k] as
    the tree [e]. *)
Definition parses_as (m : libm) (k : nat) (e : expr) : Prop :=
  forall rest q g,
    follow k rest -> pos q = (show k e ++ rest)%string ->
    exists q', pos q' = rest
               /\ eventually (fun fuel => parse_at m k fuel (next_token q) g)
                             (resume (denote m e g) q').

(** The function of a left-associative level [k], on the text of [e]
    at level [k] followed by more operands of that level: it goes on as
    its loop does from there, with the value of [e] on the left. *)
Definition heads_loop (m : libm) (k : nat) (e : expr) : Prop :=
  forall rest q g,
    follow (S k) rest -> pos q = (show k e ++ rest)%string ->
    match denote m e g with
    | Ok (v, g1) =>
        exists q1,
          pos q1 = rest
          /\ forall res,
               eventually2
                 (fun fw fo => while_op fw (level_ops k) (parse_at m (S k) fo)
                                 (level_apply m k) v (next_token q1) g1) res ->
               eventually (fun fuel => parse_at m k fuel (next_token q) g) res
    | Undefined =>
        eventually (fun fuel => parse_at m k fuel (next_token q) g) Undefined
    | OutOfFuel => False
    end.

Definition at_level (m : libm) (k : nat) (e : expr) : Prop :=
  parses_as m k e /\ ((k <= 5)%nat -> heads_loop m k e).

(** * Properties *)

(** ** Strings and cursors *)

Lemma advance_length (s : string) :
  (String.length (advance s) <= String.length s)%nat.
Proof. destruct s; simpl; lia. Qed.

Lemma peek_not_NUL (s : string) :
  (peek s == NUL) = false -> exists c t, s = String c t.
Proof.
  destruct s as [|c t]; simpl; intros H.
  - discriminate.
  - eauto.
Qed.

Lemma drop_while_length (f : ascii -> bool) (s : string) :
  (String.length (drop_while f s) <= String.length s)%nat.
Proof.
  induction s as [|c t IH]; simpl; [lia|].
  destruct (f c); simpl; lia.
Qed.

Lemma scan_digits_length (base : Z) (s : string) (acc : Z) :
  (String.length (snd (scan_digits base s acc)) <= String.length s)%nat.
Proof.
  revert acc. induction s as [|c t IH]; intros acc; simpl; [lia|].
  destruct (digit_in base c); simpl; [specialize (IH (acc * base + z)); lia | lia].
Qed.

Lemma scan_binary_length (s : string) (val : Z) :
  (String.length (snd (scan_binary s val)) <= String.length s)%nat.
Proof.
  revert val. induction s as [|c t IH]; intros val; simpl; [lia|].
  destruct ((c == "0") || (c == "1")); simpl; [|lia].
  match goal with |- context [scan_binary t ?v] => specialize (IH v) end. lia.
Qed.

Lemma scan_decimal_length (s : string) (acc n : Z) :
  let '(_, n', rest) := scan_decimal s acc n in
  Z.of_nat (String.length rest) + n' = Z.of_nat (String.length s) + n /\ n <= n'.
Proof.
  revert acc n. induction s as [|c t IH]; intros acc n; cbn [scan_decimal]; [lia|].
  destruct (isdigit c).
  - specialize (IH (acc * 10 + (code c - 48)) (n + 1)).
    destruct (scan_decimal t _ _) as [[v n'] rest].
    cbn [String.length]. lia.
  - lia.
Qed.

Lemma sign_length (t : string) :
  exists neg t1,
    (if peek t == "-" then (true, advance t)
     else if peek t == "+" then (false, advance t) else (false, t)) = (neg, t1)
    /\ (String.length t1 <= String.length t)%nat.
Proof.
  pose proof (advance_length t).
  destruct (peek t == "-"); [eauto|]. destruct (peek t == "+"); eauto.
Qed.

Lemma strtoull_length (s : string) (base : Z) :
  (String.length (snd (strtoull s base)) <= String.length s)%nat.
Proof.
  unfold strtoull.
  pose proof (drop_while_length isspace s) as Hws.
  destruct (sign_length (drop_while isspace s)) as (neg & s1 & -> & Hs1).
  set (prefixed := (base =? 16) && _ && _).
  pose proof (advance_length s1). pose proof (advance_length (advance s1)).
  pose proof (scan_digits_length base (if prefixed then advance (advance s1) else s1) 0) as Hd.
  destruct (scan_digits base _ 0) as [v rest]. simpl in Hd.
  destruct (ptr_eq rest _).
  - destruct prefixed; simpl; lia.
  - destruct prefixed; destruct (ULLONG_MAX <? v); simpl; lia.
Qed.

Lemma scan_decimal_digit (s : string) (acc n : Z) :
  isdigit (peek s) = true ->
  let '(_, n', _) := scan_decimal s acc n in n + 1 <= n'.
Proof.
  destruct s as [|c t]; cbn [peek scan_decimal]; intros H.
  - discriminate.
  - rewrite H.
    pose proof (scan_decimal_length t (acc * 10 + (code c - 48)) (n + 1)) as IH.
    destruct (scan_decimal t _ _) as [[v n'] rest]. lia.
Qed.

Lemma scan_decimal_nodigit (s : string) (acc n : Z) :
  isdigit (peek s) = false -> scan_decimal s acc n = (acc, n, s).
Proof.
  destruct s as [|c t]; cbn [peek scan_decimal]; intros H.
  - reflexivity.
  - rewrite H. reflexivity.
Qed.

Lemma scan_exponent_length (s : string) :
  (String.length (snd (scan_exponent s)) <= String.length s)%nat.
Proof.
  unfold scan_exponent.
  destruct ((peek s == "e") || (peek s == "E")); simpl; [|lia].
  pose proof (advance_length s) as Ha.
  destruct (sign_length (advance s)) as (neg & t1 & -> & Ht1).
  pose proof (scan_decimal_length t1 0 0) as H4.
  destruct (scan_decimal t1 0 0) as [[v n] rest].
  destruct (n =? 0); simpl; lia.
Qed.

Lemma strtod_consumes (s : string) :
  isdigit (peek s) || ((peek s == ".") && isdigit (peek (advance s))) = true ->
  (String.length (snd (strtod s)) < String.length s)%nat.
Proof.
  intros Hstart. unfold strtod.
  pose proof (scan_decimal_length s 0 0) as H1.
  destruct (isdigit (peek s)) eqn:Ed.
  - pose proof (scan_decimal_digit s 0 0 Ed) as Hd.
    destruct (scan_decimal s 0 0) as [[ip ni] s1].
    assert (Hf : exists mm nf s2,
      (if peek s1 == "." then scan_decimal (advance s1) ip 0 else (ip, 0, s1)) = (mm, nf, s2)
      /\ (String.length s2 <= String.length s1)%nat /\ 0 <= nf).
    { destruct (peek s1 == ".").
      - pose proof (scan_decimal_length (advance s1) ip 0) as H2.
        pose proof (advance_length s1).
        destruct (scan_decimal (advance s1) ip 0) as [[mm nf] s2].
        exists mm, nf, s2. repeat split; lia.
      - exists ip, 0, s1. repeat split; lia. }
    destruct Hf as (mm & nf & s2 & -> & Hs2 & Hnf).
    destruct (ni + nf =? 0) eqn:Ez; [apply Z.eqb_eq in Ez; lia|].
    pose proof (scan_exponent_length s2) as He.
    destruct (scan_exponent s2) as [ex s3]. simpl in *. lia.
  - rewrite (scan_decimal_nodigit s 0 0 Ed). simpl in Hstart.
    apply andb_prop in Hstart. destruct Hstart as [-> Hd2].
    pose proof (scan_decimal_digit (advance s) 0 0 Hd2) as Hd.
    pose proof (scan_decimal_length (advance s) 0 0) as H2.
    pose proof (advance_length s) as Ha0.
    destruct (scan_decimal (advance s) 0 0) as [[mm nf] s2].
    destruct (0 + nf =? 0) eqn:Ez; [apply Z.eqb_eq in Ez; lia|].
    pose proof (scan_exponent_length s2) as He.
    destruct (scan_exponent s2) as [ex s3]. simpl in *. lia.
Qed.

(** ** The tokenizer consumes its input *)

Lemma set_pos_same (p : Parser) : set_pos (pos p) p = p.
Proof. destruct p; reflexivity. Qed.

Lemma ptr_eq_false (a b : string) :
  ptr_eq a b = false -> String.length a <> String.length b.
Proof. unfold ptr_eq. intros H. apply Nat.eqb_neq. exact H. Qed.

Lemma parse_decimal_false (p p' : Parser) :
  parse_decimal p = (false, p') -> p' = p.
Proof.
  unfold parse_decimal. destruct (_ || _).
  - destruct (strtod (pos p)). discriminate.
  - congruence.
Qed.

Lemma parse_decimal_true (p p' : Parser) :
  parse_decimal p = (true, p') ->
  (String.length (pos p') < String.length (pos p))%nat
  /\ is_type (cur p') TOK_END = false.
Proof.
  unfold parse_decimal. destruct (_ || _) eqn:Hd; [|discriminate].
  pose proof (strtod_consumes _ Hd) as Hc.
  destruct (strtod (pos p)) as [x e]. intros [= <-]. simpl in *. auto.
Qed.

Lemma parse_number_false (p p' : Parser) :
  parse_number p = (false, p') -> p' = p.
Proof.
  unfold parse_number.
  destruct ((peek (pos p) == "0") && _); [|apply parse_decimal_false].
  destruct ((_ == "x") || _).
  { destruct (strtoull _ 16) as [v e]. destruct (ptr_eq e _); [|discriminate].
    rewrite set_pos_same. congruence. }
  destruct ((_ == "b") || _).
  { destruct (scan_binary _ 0). discriminate. }
  destruct ((_ == "o") || _).
  { destruct (strtoull _ 8) as [v e]. destruct (ptr_eq e _); [|discriminate].
    rewrite set_pos_same. congruence. }
  apply parse_decimal_false.
Qed.

Lemma parse_number_true (p p' : Parser) :
  parse_number p = (true, p') ->
  (String.length (pos p') < String.length (pos p))%nat
  /\ is_type (cur p') TOK_END = false.
Proof.
  unfold parse_number.
  destruct ((peek (pos p) == "0") && _) eqn:H0; [|apply parse_decimal_true].
  assert (Hbody : (S (S (String.length (advance (advance (pos p)))))
                   = String.length (pos p))%nat).
  { apply andb_prop in H0. destruct H0 as [Ha Hb].
    destruct (pos p) as [|c [|d t]]; simpl in *; try discriminate; reflexivity. }
  destruct ((_ == "x") || _).
  { pose proof (strtoull_length (advance (advance (pos p))) 16) as Hl.
    destruct (strtoull _ 16) as [v e]. destruct (ptr_eq e _); [discriminate|].
    intros [= <-]. simpl in *. split; [lia | reflexivity]. }
  destruct ((_ == "b") || _).
  { pose proof (scan_binary_length (advance (advance (pos p))) 0) as Hl.
    destruct (scan_binary _ 0) as [v e].
    intros [= <-]. simpl in *. split; [lia | reflexivity]. }
  destruct ((_ == "o") || _).
  { pose proof (strtoull_length (advance (advance (pos p))) 8) as Hl.
    destruct (strtoull _ 8) as [v e]. destruct (ptr_eq e _); [discriminate|].
    intros [= <-]. simpl in *. split; [lia | reflexivity]. }
  apply parse_decimal_true.
Qed.

Lemma scan_ident_length (s : string) (room : nat) :
  (String.length (snd (scan_ident s room)) <= String.length s)%nat
  /\ (String.length (fst (scan_ident s room)) <= room)%nat.
Proof.
  revert s. induction room as [|r IH]; intros s.
  - destruct s; simpl; lia.
  - destruct s as [|c t]; simpl; [lia|].
    destruct (isalnum c || (c == "_")); simpl; [|lia].
    specialize (IH t). destruct (scan_ident t r). simpl in *. lia.
Qed.

Lemma scan_ident_consumes (s : string) (room : nat) :
  isalpha (peek s) || (peek s == "_") = true ->
  (String.length (snd (scan_ident s (S room))) < String.length s)%nat.
Proof.
  destruct s as [|c t]; simpl; intros H; [discriminate|].
  unfold isalnum.
  replace (isalpha c || isdigit c || (c == "_")) with true.
  - pose proof (scan_ident_length t room) as [Hl _].
    destruct (scan_ident t room). simpl in *. lia.
  - destruct (isalpha c); simpl in *; [reflexivity|].
    rewrite H. destruct (isdigit c); reflexivity.
Qed.

(** Each call of [next_token] makes progress, unless the parser has
    already seen the end of the line. *)
Lemma next_token_measure (p : Parser) :
  is_type (cur p) TOK_END = false ->
  (measure (next_token p) < measure p)%nat.
Proof.
  intros Hcur. unfold measure at 2. rewrite Hcur.
  unfold next_token.
  pose proof (drop_while_length isspace (pos p)) as Hws.
  change (drop_while isspace (pos p)) with (pos (skip_ws p)) in Hws.
  generalize dependent (skip_ws p). intros q Hws.
  destruct (peek (pos q) == NUL) eqn:Hnul.
  { unfold measure. simpl. lia. }
  destruct (parse_number q) as [[|] q1] eqn:Hnum.
  { apply parse_number_true in Hnum. destruct Hnum as [Hl Ht].
    unfold measure. rewrite Ht. lia. }
  apply parse_number_false in Hnum. subst q1.
  destruct (isalpha (peek (pos q)) || (peek (pos q) == "_")) eqn:Hid.
  { pose proof (scan_ident_consumes (pos q) (MAX_NAME - 2) Hid) as Hl.
    change (S (MAX_NAME - 2)) with (MAX_NAME - 1)%nat in Hl.
    destruct (scan_ident (pos q) (MAX_NAME - 1)) as [nm rest].
    unfold measure. simpl in *. lia. }
  destruct (peek_not_NUL _ Hnul) as (c & t & Hq).
  rewrite Hq in *. cbn [peek advance].
  pose proof (advance_length t) as Ht.
  assert (Hlen : (String.length t < String.length (pos p))%nat) by (simpl in Hws; lia).
  repeat match goal with
         | |- context [if ?b then _ else _] => destruct b
         end;
    unfold measure; simpl; lia.
Qed.

(** ** Character classes *)

(** Facts about character classes are decided on character codes. *)
Ltac char_classes :=
  unfold digit_of, digit_in, digit_value, ident_start, ident_char,
    isalnum, isalpha, isdigit, isspace in *;
  repeat match goal with
         | H : context [?a <=? ?b] |- _ => destruct (Z.leb_spec a b)
         | |- context [?a <=? ?b] => destruct (Z.leb_spec a b)
         | H : context [?a <? ?b] |- _ => destruct (Z.ltb_spec a b)
         | |- context [?a <? ?b] => destruct (Z.ltb_spec a b)
         | H : context [?a =? ?b] |- _ => destruct (Z.eqb_spec a b)
         | |- context [?a =? ?b] => destruct (Z.eqb_spec a b)
         end;
  cbn [andb orb negb] in *; try discriminate; try reflexivity; try lia.

Lemma eqb_code (c d : ascii) : code c <> code d -> (c == d) = false.
Proof.
  intros H. apply Ascii.eqb_neq. intros ->. apply H. reflexivity.
Qed.

Lemma digit_in_range (base : Z) (c : ascii) (d : Z) :
  digit_in base c = Some d ->
  digit_value c = Some d /\ 0 <= d < base
  /\ (48 <= code c <= 57 \/ 65 <= code c <= 90 \/ 97 <= code c <= 122).
Proof.
  unfold digit_in. destruct (digit_value c) as [d'|] eqn:E; [|discriminate].
  destruct (Z.ltb_spec d' base); [|discriminate]. intros [= <-].
  split; [reflexivity|].
  revert E. char_classes; intros [= <-]; lia.
Qed.


(** ** The parser only moves forward *)

Lemma is_type_not_end (t : Token) (ty : TokenType) :
  is_type t ty = true -> ty <> TOK_END -> is_type t TOK_END = false.
Proof.
  unfold is_type. destruct (type t), ty; simpl; congruence.
Qed.

Lemma is_op_not_end (t : Token) (c : ascii) :
  is_op t c = true -> is_type t TOK_END = false.
Proof.
  unfold is_op. intros H. apply andb_prop in H. destruct H as [H _].
  apply (is_type_not_end t TOK_OP H). discriminate.
Qed.

Lemma frames_ret {A : Type} (a : A) : frames (ret a).
Proof. intros p g a' p' g' [= _ <- <-]. auto. Qed.

Lemma frames_lift {A : Type} (r : result A) : frames (lift r).
Proof.
  intros p g a p' g'. unfold lift. destruct r; simpl; try discriminate.
  intros [= _ <- <-]. auto.
Qed.

Lemma frames_at_bind {A B : Type} (p : Parser) (c : M A) (k : A -> M B) :
  frames_at p c -> (forall a p', frames_at p' (k a)) -> frames_at p (bind c k).
Proof.
  intros Hc Hk g b p2 g2. unfold bind.
  destruct (c p g) as [[[a p1] g1]| |] eqn:E; try discriminate.
  intros H2. destruct (Hc _ _ _ _ E) as (V1 & O1 & M1).
  destruct (Hk _ _ _ _ _ _ H2) as (V2 & O2 & M2).
  repeat split; try congruence. lia.
Qed.

Lemma frames_bind {A B : Type} (c : M A) (k : A -> M B) :
  frames c -> (forall a, frames (k a)) -> frames (bind c k).
Proof.
  intros Hc Hk p. apply frames_at_bind; [apply Hc|]. intros a p'. apply Hk.
Qed.

Lemma frames_at_current {A : Type} (p : Parser) (k : Token -> M A) :
  frames_at p (k (cur p)) -> frames_at p (bind current k).
Proof. intros H g a p' g'. unfold bind, current. apply H. Qed.

Lemma frames_at_advance {A : Type} (p : Parser) (c : M A) :
  is_type (cur p) TOK_END = false ->
  frames_at (next_token p) c -> frames_at p (advance_token ;; c).
Proof.
  intros Hcur Hc g a p' g'. unfold bind, advance_token. intros H.
  destruct (Hc _ _ _ _ H) as (V & O & Hm).
  pose proof (next_token_measure p Hcur). repeat split; auto. lia.
Qed.

Lemma frames_at_advance_end (p : Parser) :
  is_type (cur p) TOK_END = false -> frames_at p advance_token.
Proof.
  intros Hcur g a p' g'. unfold advance_token. intros [= _ <- <-].
  pose proof (next_token_measure p Hcur). repeat split; auto. lia.
Qed.

Lemma frames_skip_rparen : frames skip_rparen.
Proof.
  intros p. unfold skip_rparen. apply frames_at_current.
  destruct (is_type (cur p) TOK_RPAREN) eqn:E.
  - apply frames_at_advance_end. apply (is_type_not_end _ _ E). discriminate.
  - apply frames_ret.
Qed.

Lemma frames_global {A : Type} (f : Globals -> result (A * Globals)) :
  (forall g a g', f g = Ok (a, g') -> vars g' = vars g /\ stdout g' = stdout g) ->
  frames (global f).
Proof.
  intros Hf p g a p' g'. unfold global.
  destruct (f g) as [[a1 g1]| |] eqn:E; try discriminate.
  intros [= _ <- <-]. destruct (Hf _ _ _ E). auto.
Qed.

Lemma get_var_frame (nm : string) (g : Globals) :
  vars (snd (get_var nm g)) = vars g /\ stdout (snd (get_var nm g)) = stdout g.
Proof.
  unfold get_var. destruct (find_var (vars g) nm); [auto|].
  repeat match goal with
         | |- context [if ?b then _ else _] => destruct b
         end; auto.
Qed.

Lemma call_func_frame (m : libm) (nm : string) (arg : double) (g : Globals) (x : double) (g' : Globals) :
  call_func m nm arg g = Ok (x, g') ->
  vars g' = vars g /\ stdout g' = stdout g.
Proof.
  unfold call_func.
  repeat match goal with
         | |- context [if ?b then _ else _] => destruct b
         end;
  repeat match goal with
         | |- context [rbind ?r _] => destruct r; simpl
         end;
  try discriminate; intros [= _ <-]; auto.
Qed.

Section ParserFrames.

Variable m : libm.

Lemma frames_while (fuel : nat) (ops : ascii -> bool) (operand : M double)
    (apply : ascii -> double -> double -> result double) :
  frames operand -> forall left, frames (while_op fuel ops operand apply left).
Proof.
  intros Hop. induction fuel as [|fuel IH]; intros left p.
  - intros g a p' g'. discriminate.
  - cbn [while_op]. apply frames_at_current.
    destruct (is_type (cur p) TOK_OP && ops (op (cur p))) eqn:E.
    + apply andb_prop in E. destruct E as [E _].
      apply frames_at_advance; [apply (is_type_not_end _ _ E); discriminate|].
      apply frames_bind; [exact Hop|]. intros right.
      apply frames_bind; [apply frames_lift|]. intros left'. apply IH.
    + apply frames_ret.
Qed.

Lemma frames_parser (fuel : nat) :
  frames (parse_primary m fuel) /\ frames (parse_power m fuel)
  /\ frames (parse_term m fuel) /\ frames (parse_additive m fuel)
  /\ frames (parse_shift m fuel) /\ frames (parse_bitand m fuel)
  /\ frames (parse_bitor m fuel) /\ frames (parse_expr m fuel).
Proof.
  induction fuel as [|fuel (Hprimary & Hpower & Hterm & Hadd & Hshift & Hand & Hor & Hexpr)].
  - repeat split; repeat intro; discriminate.
  - assert (frames (parse_primary m (S fuel))) as Hprimary'.
    { intros p. cbn [parse_primary]. apply frames_at_current.
      destruct (is_op (cur p) "-" || is_op (cur p) "+") eqn:E1.
      { apply frames_at_advance.
        - apply orb_prop in E1. destruct E1 as [E1|E1]; apply (is_op_not_end _ _ E1).
        - apply frames_bind; [exact Hprimary|]. intros. apply frames_ret. }
      destruct (is_op (cur p) "~") eqn:E2.
      { apply frames_at_advance; [apply (is_op_not_end _ _ E2)|].
        apply frames_bind; [exact Hprimary|]. intros.
        apply frames_bind; [apply frames_lift|]. intros. apply frames_ret. }
      destruct (is_type (cur p) TOK_LPAREN) eqn:E3.
      { apply frames_at_advance; [apply (is_type_not_end _ _ E3); discriminate|].
        apply frames_bind; [exact Hexpr|]. intros.
        apply frames_bind; [apply frames_skip_rparen|]. intros. apply frames_ret. }
      destruct (is_type (cur p) TOK_NUM) eqn:E4.
      { apply frames_at_advance; [apply (is_type_not_end _ _ E4); discriminate|].
        apply frames_ret. }
      destruct (is_type (cur p) TOK_ID) eqn:E5.
      { apply frames_at_advance; [apply (is_type_not_end _ _ E5); discriminate|].
        apply frames_at_current.
        destruct (is_type (cur (next_token p)) TOK_LPAREN) eqn:E6.
        - apply frames_at_advance; [apply (is_type_not_end _ _ E6); discriminate|].
          apply frames_bind; [exact Hexpr|]. intros arg1 q.
          apply frames_at_current.
          destruct (is_op (cur q) ",") eqn:E7.
          + apply frames_at_advance; [apply (is_op_not_end _ _ E7)|].
            apply frames_bind; [exact Hexpr|]. intros.
            apply frames_bind; [apply frames_skip_rparen|]. intros. apply frames_lift.
          + apply frames_bind; [apply frames_skip_rparen|]. intros.
            apply frames_global. intros g0 x0 g1. apply call_func_frame.
        - apply frames_global. intros g0 x0 g1 [= E].
          pose proof (get_var_frame (id (cur p)) g0) as Hg. rewrite E in Hg. exact Hg. }
      apply frames_global. intros g0 x0 g1 [= _ <-]. auto. }
    assert (frames (parse_power m (S fuel))) as Hpower'.
    { cbn [parse_power]. apply frames_bind; [exact Hprimary|]. intros left p.
      apply frames_at_current.
      destruct (is_op (cur p) "^") eqn:E.
      - apply frames_at_advance; [apply (is_op_not_end _ _ E)|].
        apply frames_bind; [exact Hpower|]. intros. apply frames_ret.
      - apply frames_ret. }
    refine (conj Hprimary' (conj Hpower' (conj _ (conj _ (conj _ (conj _ (conj _ Hor))))))).
    + cbn [parse_term]. apply frames_bind; [exact Hpower|]. intros. now apply frames_while.
    + cbn [parse_additive]. apply frames_bind; [exact Hterm|]. intros. now apply frames_while.
    + cbn [parse_shift]. apply frames_bind; [exact Hadd|]. intros. now apply frames_while.
    + cbn [parse_bitand]. apply frames_bind; [exact Hshift|]. intros. now apply frames_while.
    + cbn [parse_bitor]. apply frames_bind; [exact Hand|]. intros. now apply frames_while.
Qed.

End ParserFrames.

(** ** More fuel does not change a result *)

Lemma refines_refl {A : Type} (c : M A) : refines c c.
Proof. intros p g. right. reflexivity. Qed.

Lemma refines_trans {A : Type} (c1 c2 c3 : M A) :
  refines c1 c2 -> refines c2 c3 -> refines c1 c3.
Proof.
  intros H12 H23 p g.
  destruct (H12 p g) as [E|E]; [left; exact E|].
  destruct (H23 p g) as [E'|E']; [left|right]; congruence.
Qed.

Lemma refines_bind {A B : Type} (c c' : M A) (k k' : A -> M B) :
  refines c c' -> (forall a, refines (k a) (k' a)) ->
  refines (bind c k) (bind c' k').
Proof.
  intros Hc Hk p g. unfold bind.
  destruct (Hc p g) as [E|E]; rewrite E; [left; reflexivity|].
  destruct (c' p g) as [[[a p1] g1]| |]; [apply Hk | right | right]; reflexivity.
Qed.

Lemma refines_out_of_fuel {A : Type} (c : M A) : refines out_of_fuel c.
Proof. intros p g. left. reflexivity. Qed.

Lemma refines_if {A : Type} (b : bool) (c1 c1' c2 c2' : M A) :
  refines c1 c1' -> refines c2 c2' ->
  refines (if b then c1 else c2) (if b then c1' else c2').
Proof. destruct b; auto. Qed.

Ltac refines_step :=
  first [ apply refines_refl
        | assumption
        | apply refines_out_of_fuel
        | apply refines_if
        | apply refines_bind; [| intros ? ] ].

Section ParserFuel.

Variable m : libm.

Lemma refines_while (fuel : nat) (ops : ascii -> bool) (operand operand' : M double)
    (apply : ascii -> double -> double -> result double) :
  refines operand operand' ->
  forall left,
    refines (while_op fuel ops operand apply left)
            (while_op (S fuel) ops operand' apply left).
Proof.
  intros Hop. induction fuel as [|fuel IH]; intros left.
  - apply refines_out_of_fuel.
  - change (while_op (S (S fuel)) ops operand' apply left)
      with (t <- current ;;
            if is_type t TOK_OP && ops (op t) then
              advance_token ;; right <- operand' ;;
              left' <- lift (apply (op t) left right) ;;
              while_op (S fuel) ops operand' apply left'
            else ret left).
    cbn [while_op].
    repeat refines_step. apply IH.
Qed.

Lemma refines_parser_step (fuel : nat) :
  refines (parse_primary m fuel) (parse_primary m (S fuel))
  /\ refines (parse_power m fuel) (parse_power m (S fuel))
  /\ refines (parse_term m fuel) (parse_term m (S fuel))
  /\ refines (parse_additive m fuel) (parse_additive m (S fuel))
  /\ refines (parse_shift m fuel) (parse_shift m (S fuel))
  /\ refines (parse_bitand m fuel) (parse_bitand m (S fuel))
  /\ refines (parse_bitor m fuel) (parse_bitor m (S fuel))
  /\ refines (parse_expr m fuel) (parse_expr m (S fuel)).
Proof.
  induction fuel as [|fuel (Hprimary & Hpower & Hterm & Hadd & Hshift & Hand & Hor & Hexpr)].
  - repeat apply conj; apply refines_out_of_fuel.
  - repeat apply conj.
    + cbn [parse_primary]. repeat refines_step.
    + cbn [parse_power]. repeat refines_step.
    + cbn [parse_term]. refines_step; [assumption|]. now apply refines_while.
    + cbn [parse_additive]. refines_step; [assumption|]. now apply refines_while.
    + cbn [parse_shift]. refines_step; [assumption|]. now apply refines_while.
    + cbn [parse_bitand]. refines_step; [assumption|]. now apply refines_while.
    + cbn [parse_bitor]. refines_step; [assumption|]. now apply refines_while.
    + cbn [parse_expr]. assumption.
Qed.

Lemma parse_expr_fuel_le (fuel fuel' : nat) :
  (fuel <= fuel')%nat -> refines (parse_expr m fuel) (parse_expr m fuel').
Proof.
  induction 1 as [|fuel' _ IH].
  - apply refines_refl.
  - eapply refines_trans; [exact IH|]. apply refines_parser_step.
Qed.

(** A result obtained with some fuel is the result with any more fuel. *)
Lemma parse_expr_more_fuel (fuel fuel' : nat) (p : Parser) (g : Globals)
    (r : double * Parser * Globals) :
  (fuel <= fuel')%nat ->
  parse_expr m fuel p g = Ok r -> parse_expr m fuel' p g = Ok r.
Proof.
  intros Hle H. destruct (parse_expr_fuel_le _ _ Hle p g) as [E|E]; congruence.
Qed.

End ParserFuel.

(** ** The fuel that [evaluate] provides is enough *)

Lemma fueled_rbind {A B : Type} (r : result A) (k : A -> result B) :
  fueled r -> (forall a, fueled (k a)) -> fueled (rbind r k).
Proof. unfold fueled. intros Hr Hk. destruct r; simpl; [apply Hk | discriminate | contradiction]. Qed.

Lemma fueled_Ok {A : Type} (a : A) : fueled (Ok a).
Proof. discriminate. Qed.

Lemma fueled_Undefined {A : Type} : fueled (@Undefined A).
Proof. discriminate. Qed.

Lemma fueled_to_uint (bits : Z) (x : double) : fueled (to_uint bits x).
Proof.
  unfold to_uint. destruct (trunc x); [|discriminate].
  destruct (_ && _); discriminate.
Qed.

Lemma fueled_to_int (x : double) : fueled (to_int x).
Proof.
  unfold to_int. destruct (trunc x); [|discriminate].
  destruct (_ && _); discriminate.
Qed.

Lemma fueled_shl64 (l r : Z) : fueled (shl64 l r).
Proof. unfold shl64. destruct (_ && _); discriminate. Qed.

Lemma fueled_shr64 (l r : Z) : fueled (shr64 l r).
Proof. unfold shr64. destruct (_ && _); discriminate. Qed.

Lemma fueled_clzll (u : Z) : fueled (clzll u).
Proof. destruct u; discriminate. Qed.

Lemma fueled_ctzll (u : Z) : fueled (ctzll u).
Proof. destruct u; discriminate. Qed.

Ltac solve_fueled :=
  repeat first
    [ apply fueled_Ok | apply fueled_Undefined
    | apply fueled_to_uint | apply fueled_to_int
    | apply fueled_shl64 | apply fueled_shr64
    | apply fueled_clzll | apply fueled_ctzll
    | apply fueled_rbind; [| intros ?]
    | match goal with
      | |- fueled (if ?b then _ else _) => destruct b
      end ].

Lemma fueled_call_func2 (m : libm) (nm : string) (a b : double) :
  fueled (call_func2 m nm a b).
Proof. unfold call_func2, to_uint64. solve_fueled. Qed.

Lemma fueled_call_func (m : libm) (nm : string) (a : double) (g : Globals) :
  fueled (call_func m nm a g).
Proof. unfold call_func, to_uint64. solve_fueled. Qed.

Lemma fueled_binary_ops (m : libm) (o : ascii) (l r : double) :
  fueled (term_op m o l r) /\ fueled (additive_op o l r) /\ fueled (shift_op o l r)
  /\ fueled (bitand_op o l r) /\ fueled (bitor_op o l r).
Proof.
  unfold term_op, additive_op, shift_op, bitand_op, bitor_op, to_uint64.
  repeat apply conj; solve_fueled.
Qed.

Lemma total_at_runs {A : Type} (n : nat) (c : M A) :
  total_at n c <-> (forall p, (measure p <= n)%nat -> runs c p).
Proof. unfold total_at, runs, fueled. split; intros H p; intros; apply H; assumption. Qed.

Lemma total_at_le {A : Type} (n k : nat) (c : M A) :
  (k <= n)%nat -> total_at n c -> total_at k c.
Proof. intros Hle H p g Hp. apply H. lia. Qed.

Lemma runs_ret {A : Type} (a : A) (p : Parser) : runs (ret a) p.
Proof. intros g. discriminate. Qed.

Lemma runs_lift {A : Type} (r : result A) (p : Parser) : fueled r -> runs (lift r) p.
Proof. intros Hr g. unfold lift. apply fueled_rbind; [exact Hr | discriminate]. Qed.

Lemma runs_global {A : Type} (f : Globals -> result (A * Globals)) (p : Parser) :
  (forall g, fueled (f g)) -> runs (global f) p.
Proof.
  intros Hf g. unfold global, fueled. specialize (Hf g).
  destruct (f g) as [[a g']| |]; [discriminate | discriminate | contradiction].
Qed.

Lemma runs_current {A : Type} (k : Token -> M A) (p : Parser) :
  runs (k (cur p)) p -> runs (bind current k) p.
Proof. intros H g. apply H. Qed.

Lemma runs_bind {A B : Type} (c : M A) (k : A -> M B) (p : Parser) :
  runs c p -> frames c ->
  (forall a p', (measure p' <= measure p)%nat -> runs (k a) p') ->
  runs (bind c k) p.
Proof.
  intros Hc Hf Hk g. unfold bind, fueled. specialize (Hc g).
  destruct (c p g) as [[[a p1] g1]| |] eqn:E; [| discriminate | contradiction].
  apply Hk. apply (Hf _ _ _ _ _ E).
Qed.

Lemma runs_advance {A : Type} (n : nat) (c : M A) (p : Parser) :
  is_type (cur p) TOK_END = false -> (measure p <= n)%nat ->
  (forall k, (k < n)%nat -> total_at k c) ->
  runs (advance_token ;; c) p.
Proof.
  intros Hcur Hn Hc g. unfold bind, advance_token.
  pose proof (next_token_measure p Hcur) as Hlt.
  apply (Hc (measure (next_token p))); lia.
Qed.

Lemma total_at_bind {A B : Type} (n : nat) (c : M A) (k : A -> M B) :
  total_at n c -> frames c -> (forall a, total_at n (k a)) ->
  total_at n (bind c k).
Proof.
  intros Hc Hf Hk. apply total_at_runs. intros p Hp.
  apply runs_bind; [apply total_at_runs with (n := n); assumption | exact Hf |].
  intros a p' Hp'. apply (proj1 (total_at_runs n (k a)) (Hk a)). lia.
Qed.

Lemma total_at_ret {A : Type} (n : nat) (a : A) : total_at n (ret a).
Proof. intros p g _. discriminate. Qed.

Lemma total_at_lift {A : Type} (n : nat) (r : result A) :
  fueled r -> total_at n (lift r).
Proof. intros Hr p g _. apply runs_lift. exact Hr. Qed.

Lemma total_at_skip_rparen (n : nat) : total_at n skip_rparen.
Proof.
  intros p g _. unfold skip_rparen, bind, current, advance_token, ret.
  destruct (is_type (cur p) TOK_RPAREN); discriminate.
Qed.

Section ParserTotal.

Variable m : libm.

Lemma total_at_while (ops : ascii -> bool) (operand : M double)
    (apply : ascii -> double -> double -> result double) :
  frames operand -> (forall o l r, fueled (apply o l r)) ->
  forall n fuel left,
    total_at n operand -> (n < fuel)%nat ->
    total_at n (while_op fuel ops operand apply left).
Proof.
  intros Hf Hap. induction n as [n IH] using lt_wf_ind.
  intros fuel left Hop Hfuel. apply total_at_runs. intros p Hp.
  destruct fuel as [|fuel]; [lia|]. cbn [while_op].
  apply runs_current.
  destruct (is_type (cur p) TOK_OP && ops (op (cur p))) eqn:E; [|apply runs_ret].
  apply andb_prop in E. destruct E as [E _].
  apply runs_advance with (n := n);
    [apply (is_type_not_end _ _ E); discriminate | exact Hp |].
  intros k Hk.
  assert (total_at k operand) as Hopk by (apply total_at_le with (n := n); [lia | exact Hop]).
  apply total_at_bind; [exact Hopk | exact Hf |]. intros right.
  apply total_at_bind; [apply total_at_lift, Hap | apply frames_lift |]. intros left'.
  apply IH; [exact Hk | exact Hopk | lia].
Qed.

Lemma parser_total (n : nat) : parser_total_at m n.
Proof.
  induction n as [n IH] using lt_wf_ind.
  assert (Hexpr_lt : forall k fuel, (k < n)%nat -> (8 * n <= fuel)%nat ->
                                    total_at k (parse_expr m fuel)).
  { intros k fuel Hk Hfuel. apply (IH k Hk). lia. }
  assert (Hprimary_lt : forall k fuel, (k < n)%nat -> (8 * n <= fuel)%nat ->
                                       total_at k (parse_primary m fuel)).
  { intros k fuel Hk Hfuel. apply (IH k Hk). lia. }
  assert (Hpower_lt : forall k fuel, (k < n)%nat -> (8 * n <= fuel)%nat ->
                                     total_at k (parse_power m fuel)).
  { intros k fuel Hk Hfuel. apply (IH k Hk). lia. }
  assert (Hprimary : forall fuel, (8 * n + 1 <= fuel)%nat ->
                                  total_at n (parse_primary m fuel)).
  { intros [|fuel] Hfuel; [lia|]. apply total_at_runs. intros p Hp.
    cbn [parse_primary]. apply runs_current.
    destruct (is_op (cur p) "-" || is_op (cur p) "+") eqn:E1.
    { apply runs_advance with (n := n); [|exact Hp|].
      - apply orb_prop in E1. destruct E1 as [E1|E1]; apply (is_op_not_end _ _ E1).
      - intros k Hk. apply total_at_bind;
          [apply Hprimary_lt; lia | apply frames_parser | intros; apply total_at_ret]. }
    destruct (is_op (cur p) "~") eqn:E2.
    { apply runs_advance with (n := n); [apply (is_op_not_end _ _ E2) | exact Hp |].
      intros k Hk. apply total_at_bind;
        [apply Hprimary_lt; lia | apply frames_parser | intros val].
      apply total_at_bind;
        [apply total_at_lift, fueled_to_uint | apply frames_lift
        | intros; apply total_at_ret]. }
    destruct (is_type (cur p) TOK_LPAREN) eqn:E3.
    { apply runs_advance with (n := n);
        [apply (is_type_not_end _ _ E3); discriminate | exact Hp |].
      intros k Hk. apply total_at_bind;
        [apply Hexpr_lt; lia | apply frames_parser | intros val].
      apply total_at_bind;
        [apply total_at_skip_rparen | apply frames_skip_rparen
        | intros; apply total_at_ret]. }
    destruct (is_type (cur p) TOK_NUM) eqn:E4.
    { apply runs_advance with (n := n);
        [apply (is_type_not_end _ _ E4); discriminate | exact Hp |].
      intros k Hk. apply total_at_ret. }
    destruct (is_type (cur p) TOK_ID) eqn:E5.
    { apply runs_advance with (n := n);
        [apply (is_type_not_end _ _ E5); discriminate | exact Hp |].
      intros k Hk. apply total_at_runs. intros p1 Hp1.
      apply runs_current.
      destruct (is_type (cur p1) TOK_LPAREN) eqn:E6.
      - apply runs_advance with (n := k);
          [apply (is_type_not_end _ _ E6); discriminate | exact Hp1 |].
        intros k1 Hk1. apply total_at_bind;
          [apply Hexpr_lt; lia | apply frames_parser | intros arg1].
        apply total_at_runs. intros p2 Hp2. apply runs_current.
        destruct (is_op (cur p2) ",") eqn:E7.
        + apply runs_advance with (n := k1); [apply (is_op_not_end _ _ E7) | exact Hp2 |].
          intros k2 Hk2. apply total_at_bind;
            [apply Hexpr_lt; lia | apply frames_parser | intros arg2].
          apply total_at_bind;
            [apply total_at_skip_rparen | apply frames_skip_rparen | intros].
          apply total_at_lift, fueled_call_func2.
        + apply runs_bind;
            [apply (proj1 (total_at_runs k1 _) (total_at_skip_rparen k1)); exact Hp2
            | apply frames_skip_rparen | intros].
          apply runs_global. intros g. apply fueled_call_func.
      - apply runs_global. intros g. discriminate. }
    apply runs_global. intros g. discriminate. }
  assert (Hpower : forall fuel, (8 * n + 2 <= fuel)%nat ->
                                total_at n (parse_power m fuel)).
  { intros [|fuel] Hfuel; [lia|]. cbn [parse_power].
    apply total_at_bind; [apply Hprimary; lia | apply frames_parser | intros left].
    apply total_at_runs. intros p Hp. apply runs_current.
    destruct (is_op (cur p) "^") eqn:E; [|apply runs_ret].
    apply runs_advance with (n := n); [apply (is_op_not_end _ _ E) | exact Hp |].
    intros k Hk. apply total_at_bind;
      [apply Hpower_lt; lia | apply frames_parser | intros; apply total_at_ret]. }
  assert (Hterm : forall fuel, (8 * n + 3 <= fuel)%nat ->
                               total_at n (parse_term m fuel)).
  { intros [|fuel] Hfuel; [lia|]. cbn [parse_term].
    apply total_at_bind; [apply Hpower; lia | apply frames_parser | intros left].
    apply total_at_while;
      [apply frames_parser | intros; apply fueled_binary_ops | apply Hpower; lia | lia]. }
  assert (Hadd : forall fuel, (8 * n + 4 <= fuel)%nat ->
                              total_at n (parse_additive m fuel)).
  { intros [|fuel] Hfuel; [lia|]. cbn [parse_additive].
    apply total_at_bind; [apply Hterm; lia | apply frames_parser | intros left].
    apply total_at_while;
      [apply frames_parser | intros; apply (fueled_binary_ops m) | apply Hterm; lia | lia]. }
  assert (Hshift : forall fuel, (8 * n + 5 <= fuel)%nat ->
                                total_at n (parse_shift m fuel)).
  { intros [|fuel] Hfuel; [lia|]. cbn [parse_shift].
    apply total_at_bind; [apply Hadd; lia | apply frames_parser | intros left].
    apply total_at_while;
      [apply frames_parser | intros; apply (fueled_binary_ops m) | apply Hadd; lia | lia]. }
  assert (Hand : forall fuel, (8 * n + 6 <= fuel)%nat ->
                              total_at n (parse_bitand m fuel)).
  { intros [|fuel] Hfuel; [lia|]. cbn [parse_bitand].
    apply total_at_bind; [apply Hshift; lia | apply frames_parser | intros left].
    apply total_at_while;
      [apply frames_parser | intros; apply (fueled_binary_ops m) | apply Hshift; lia | lia]. }
  assert (Hor : forall fuel, (8 * n + 7 <= fuel)%nat ->
                             total_at n (parse_bitor m fuel)).
  { intros [|fuel] Hfuel; [lia|]. cbn [parse_bitor].
    apply total_at_bind; [apply Hand; lia | apply frames_parser | intros left].
    apply total_at_while;
      [apply frames_parser | intros; apply (fueled_binary_ops m) | apply Hand; lia | lia]. }
  repeat apply conj; try assumption.
  intros [|fuel] Hfuel; [lia|]. cbn [parse_expr]. apply Hor. lia.
Qed.

End ParserTotal.

(** ** [evaluate] always has enough fuel *)

Lemma initial_measure (input : string) :
  (measure (next_token (initial_parser input)) <= String.length input)%nat.
Proof.
  pose proof (next_token_measure (initial_parser input) eq_refl) as H.
  unfold measure at 2 in H. simpl in H. lia.
Qed.

Section EvaluateTotal.

Variable m : libm.

Lemma parse_expr_total (fuel : nat) (p : Parser) (g : Globals) :
  (8 * measure p + 8 <= fuel)%nat -> fueled (parse_expr m fuel p g).
Proof.
  intros Hfuel.
  destruct (parser_total m (measure p)) as (_ & _ & _ & _ & _ & _ & _ & H).
  apply (H fuel Hfuel). lia.
Qed.

Lemma evaluate_total (input : string) (g : Globals) :
  fueled (evaluate m input g).
Proof.
  unfold evaluate. fold (initial_parser input).
  pose proof (initial_measure input) as H0.
  set (p0 := next_token (initial_parser input)) in *.
  assert (Hrun : forall p g', (measure p <= measure p0)%nat ->
                              fueled (parse_expr m (parse_fuel input) p g')).
  { intros p g' Hp. apply parse_expr_total. unfold parse_fuel. lia. }
  destruct (is_type (cur p0) TOK_ID) eqn:Eid.
  - assert (Hend : is_type (cur p0) TOK_END = false)
      by (apply (is_type_not_end _ _ Eid); discriminate).
    pose proof (next_token_measure p0 Hend) as H1.
    destruct (is_op (cur (next_token p0)) "=") eqn:Eeq.
    + pose proof (next_token_measure _ (is_op_not_end _ _ Eeq)) as H2.
      specialize (Hrun (next_token (next_token p0)) (set_fmt FMT_DEC g)).
      unfold fueled in *.
      destruct (parse_expr m _ _ _) as [[[v p'] g']| |];
        [discriminate | discriminate | exfalso; apply Hrun; [lia | reflexivity]].
    + specialize (Hrun (set_cur (cur p0) (set_pos (pos p0) (next_token p0)))
                    (set_fmt FMT_DEC g)).
      unfold fueled in *.
      destruct (parse_expr m _ _ _) as [[[v p'] g']| |];
        [discriminate | discriminate | exfalso; apply Hrun; [|reflexivity]].
      unfold measure. simpl. lia.
  - specialize (Hrun p0 (set_fmt FMT_DEC g)).
    unfold fueled in *.
    destruct (parse_expr m _ _ _) as [[[v p'] g']| |];
      [discriminate | discriminate | exfalso; apply Hrun; [lia | reflexivity]].
Qed.

End EvaluateTotal.

(** The result of [parse_expr] does not depend on the fuel, once there
    is enough of it. *)
Lemma parse_expr_fuel_irrelevant (m : libm) (fuel fuel' : nat) (p : Parser)
    (g : Globals) (r : double * Parser * Globals) :
  parse_expr m fuel p g = Ok r ->
  (8 * measure p + 8 <= fuel')%nat ->
  parse_expr m fuel' p g = Ok r.
Proof.
  intros H Hfuel. destruct (Nat.le_gt_cases fuel fuel') as [Hle|Hgt].
  - apply (parse_expr_more_fuel m fuel fuel'); assumption.
  - destruct (parse_expr_fuel_le m fuel' fuel ltac:(lia) p g) as [E|E].
    + exfalso. apply (parse_expr_total m fuel' p g Hfuel). exact E.
    + congruence.
Qed.

(** ** Integers that a [double] holds exactly *)

Lemma digits2_pos_size (p : positive) : digits2_pos p = Pos.size p.
Proof. induction p; simpl; congruence. Qed.

Lemma digits2_pos_bound (p : positive) :
  Zpos p < 2 ^ 53 -> Zpos (digits2_pos p) <= 53.
Proof.
  intros H. rewrite digits2_pos_size.
  pose proof (Pos.size_le p) as Hle.
  assert (Hpow : Zpos (2 ^ Pos.size p) = 2 ^ Zpos (Pos.size p))
    by (rewrite Pos2Z.inj_pow; reflexivity).
  assert (2 ^ Zpos (Pos.size p) < 2 ^ 54).
  { rewrite <- Hpow. change (2 ^ 54) with (2 * 2 ^ 53).
    apply Pos2Z.pos_le_pos in Hle. rewrite Pos2Z.inj_xO in Hle. lia. }
  apply Z.pow_lt_mono_r_iff in H0; lia.
Qed.

Lemma iter_xO_digits (p k : positive) :
  digits2_pos (Pos.iter xO p k) = (digits2_pos p + k)%positive.
Proof.
  induction k as [|k IH] using Pos.peano_ind.
  - simpl. lia.
  - rewrite Pos.iter_succ. simpl. rewrite IH. lia.
Qed.

Lemma iter_xO_value (p k : positive) :
  Zpos (Pos.iter xO p k) = Zpos p * 2 ^ Zpos k.
Proof.
  induction k as [|k IH] using Pos.peano_ind.
  - simpl. lia.
  - rewrite Pos.iter_succ, Pos2Z.inj_xO, IH, Pos2Z.inj_succ, Z.pow_succ_r by lia. lia.
Qed.

(** The double of an integer below 2^53 in magnitude: the integer,
    shifted to 53 bits. *)
Lemma binary_round_small (s : bool) (p : positive) :
  Zpos p < 2 ^ 53 ->
  exists mz ez,
    binary_round prec emax s p 0 = S754_finite s mz ez
    /\ ez <= 0 /\ Zpos mz = Zpos p * 2 ^ (- ez).
Proof.
  intros Hp. pose proof (digits2_pos_bound p Hp) as Hd.
  unfold binary_round.
  assert (Hfexp : forall d, 1 <= d <= 53 -> fexp prec emax d = d - 53).
  { intros d Hd'. unfold fexp, emin, prec, emax. lia. }
  rewrite Z.add_0_r, Hfexp by lia.
  set (d := digits2_pos p) in *.
  assert (Haux : forall mz ez, Zpos (digits2_pos mz) = 53 -> -52 <= ez <= 0 ->
            binary_round_aux prec emax s (Zpos mz) ez loc_Exact = S754_finite s mz ez).
  { intros mz ez Hmz Hez. unfold binary_round_aux, shr_fexp.
    cbn [Zdigits2]. rewrite Hmz, Hfexp by lia.
    replace (53 + ez - 53 - ez) with 0 by lia.
    cbn [shr shr_record_of_loc shr_m loc_of_shr_record round_nearest_even Zdigits2].
    rewrite Hmz, Hfexp by lia.
    replace (53 + ez - 53 - ez) with 0 by lia.
    cbn [shr shr_record_of_loc shr_m].
    destruct (Z.leb_spec ez (emax - prec)); [reflexivity|]. unfold emax, prec in *. lia. }
  unfold shl_align.
  destruct (Zpos d - 53 - 0) as [|k|k] eqn:Ek.
  - exists p, 0. split; [|split; [lia|simpl; lia]].
    apply Haux; lia.
  - lia.
  - exists (Pos.iter xO p k), (Zpos d - 53).
    split; [|split; [lia|]].
    + apply Haux; [|lia]. rewrite iter_xO_digits. fold d. lia.
    + rewrite iter_xO_value. f_equal. f_equal. lia.
Qed.

Lemma of_Z_exact (z : Z) :
  Z.abs z < 2 ^ 53 -> trunc (of_Z z) = Some z.
Proof.
  intros Hz. unfold of_Z, binary_normalize.
  assert (Hshift : forall p ez, ez <= 0 ->
            (if 0 <=? ez then Z.shiftl (Zpos p * 2 ^ (- ez)) ez
             else Z.shiftr (Zpos p * 2 ^ (- ez)) (- ez)) = Zpos p).
  { intros p ez Hez. destruct (Z.leb_spec 0 ez).
    - replace ez with 0 by lia. simpl. lia.
    - rewrite Z.shiftr_div_pow2 by lia. apply Z.div_mul.
      apply Z.pow_nonzero; lia. }
  destruct z as [|p|p]; [reflexivity| |].
  - destruct (binary_round_small false p Hz) as (mz & ez & -> & Hez & Hm).
    cbn [trunc]. rewrite Hm, Hshift by lia. reflexivity.
  - destruct (binary_round_small true p Hz) as (mz & ez & -> & Hez & Hm).
    cbn [trunc]. rewrite Hm, Hshift by lia. reflexivity.
Qed.

Lemma of_Z_integral (z : Z) : Z.abs z < 2 ^ 53 -> integral (of_Z z) z.
Proof. intros Hz. split; [apply of_Z_exact; exact Hz | reflexivity]. Qed.

(** A converted integer is never a NaN. *)
Lemma shr_1_nonneg (mrs : shr_record) : 0 <= shr_m mrs -> 0 <= shr_m (shr_1 mrs).
Proof.
  destruct mrs as [mm r s]. destruct mm as [|[q|q|]|[q|q|]]; simpl; lia.
Qed.

Lemma iter_pos_invariant {A : Type} (f : A -> A) (P : A -> Prop) :
  (forall x, P x -> P (f x)) -> forall n x, P x -> P (iter_pos f n x).
Proof.
  intros Hf. induction n as [n IH|n IH|]; intros x Hx; simpl; auto.
Qed.

Lemma shr_fexp_nonneg (mm e : Z) (l : location) :
  0 <= mm -> 0 <= shr_m (fst (shr_fexp prec emax mm e l)).
Proof.
  intros Hm. unfold shr_fexp, shr.
  assert (0 <= shr_m (shr_record_of_loc mm l)) by (destruct l as [|[| |]]; exact Hm).
  destruct (fexp prec emax (Zdigits2 mm + e) - e); simpl; try assumption.
  apply iter_pos_invariant; [apply shr_1_nonneg | assumption].
Qed.

Lemma binary_round_aux_not_nan (s : bool) (mm e : Z) (l : location) :
  0 <= mm -> isnan (binary_round_aux prec emax s mm e l) = false.
Proof.
  intros Hm. unfold binary_round_aux.
  pose proof (shr_fexp_nonneg mm e l Hm) as H1.
  destruct (shr_fexp prec emax mm e l) as [mrs e']. simpl in H1.
  assert (0 <= round_nearest_even (shr_m mrs) (loc_of_shr_record mrs)) as H2.
  { unfold round_nearest_even.
    destruct (loc_of_shr_record mrs) as [|[| |]]; try lia.
    destruct (Z.even (shr_m mrs)); lia. }
  pose proof (shr_fexp_nonneg _ e' loc_Exact H2) as H3.
  destruct (shr_fexp prec emax _ e' loc_Exact) as [mrs' e'']. simpl in H3.
  destruct (shr_m mrs'); [reflexivity | | lia].
  destruct (e'' <=? emax - prec); reflexivity.
Qed.

Lemma of_Z_not_nan (z : Z) : isnan (of_Z z) = false.
Proof.
  unfold of_Z, binary_normalize.
  assert (H : forall s p, isnan (binary_round prec emax s p 0) = false).
  { intros s p. unfold binary_round.
    destruct (shl_align p 0 _) as [mz ez].
    apply binary_round_aux_not_nan. lia. }
  destruct z; auto.
Qed.

(** ** Reading an identifier *)

Lemma scan_ident_app (nm rest : string) (room : nat) :
  all_chars ident_char nm = true -> (String.length nm <= room)%nat ->
  ident_char (peek rest) = false ->
  scan_ident (nm ++ rest) room = (nm, rest).
Proof.
  revert room. induction nm as [|c t IH]; intros room Hall Hlen Hrest.
  - cbn [append]. destruct room as [|room]; [destruct rest; reflexivity|].
    destruct rest as [|d rest']; [reflexivity|].
    cbn [scan_ident]. cbn [peek] in Hrest. unfold ident_char in Hrest.
    rewrite Hrest. reflexivity.
  - cbn [all_chars] in Hall. apply andb_prop in Hall. destruct Hall as [Hc Ht].
    cbn [String.length] in Hlen. destruct room as [|room]; [lia|].
    cbn [append scan_ident]. unfold ident_char in Hc. rewrite Hc.
    rewrite IH by (try assumption; lia). reflexivity.
Qed.

Lemma drop_while_app (f : ascii -> bool) (ws rest : string) :
  all_chars f ws = true -> f (peek rest) = false ->
  drop_while f (ws ++ rest) = rest.
Proof.
  intros Hws Hrest. induction ws as [|c t IH]; cbn [append].
  - destruct rest as [|d rest']; [reflexivity|]. cbn [drop_while].
    cbn [peek] in Hrest. rewrite Hrest. reflexivity.
  - cbn [all_chars] in Hws. apply andb_prop in Hws. destruct Hws as [Hc Ht].
    cbn [drop_while]. rewrite Hc. apply IH. exact Ht.
Qed.

Lemma identifier_head (nm : string) :
  identifier nm ->
  exists c t, nm = String c t /\ ident_start c = true
              /\ isspace c = false /\ isdigit c = false
              /\ (c == NUL) = false /\ (c == "0") = false /\ (c == ".") = false.
Proof.
  intros (Hstart & _ & _). destruct nm as [|c t]; [discriminate Hstart|].
  exists c, t. cbn [peek] in Hstart. split; [reflexivity|]. split; [exact Hstart|].
  assert (Hcode : 65 <= code c <= 90 \/ 97 <= code c <= 122 \/ code c = 95).
  { unfold ident_start in Hstart. apply orb_prop in Hstart. destruct Hstart as [H|H].
    - revert H. char_classes.
    - apply Ascii.eqb_eq in H. subst c. right. right. reflexivity. }
  repeat split; try (apply eqb_code; vm_compute (code _) at 2; lia).
  - char_classes.
  - char_classes.
Qed.

(** An identifier, after white space and before a character that
    cannot continue it, is read as one [TOK_ID] token. *)
Lemma next_token_identifier (p : Parser) (ws nm rest : string) :
  all_chars isspace ws = true -> identifier nm ->
  ident_char (peek rest) = false ->
  pos p = (ws ++ nm ++ rest)%string ->
  next_token p = set_id nm (set_pos rest p).
Proof.
  intros Hws Hid Hrest Hpos.
  destruct (identifier_head nm Hid) as (c & t & Hnm & Hstart & Hsp & Hdig & Hnul & H0 & Hdot).
  destruct Hid as (_ & Hall & Hlen).
  unfold next_token, skip_ws. rewrite Hpos.
  rewrite drop_while_app; [|exact Hws|subst nm; exact Hsp].
  cbn [pos set_pos]. subst nm. cbn [append peek] in *. rewrite Hnul.
  unfold parse_number, parse_decimal. cbn [pos set_pos peek advance].
  rewrite H0, Hdig, Hdot. cbn [andb orb]. cbv iota. cbn [pos set_pos peek advance].
  change (isalpha c || (c == "_")) with (ident_start c). rewrite Hstart.
  change (String c (t ++ rest)) with (String c t ++ rest)%string.
  rewrite scan_ident_app; [reflexivity | exact Hall | | exact Hrest].
  unfold MAX_NAME in *. lia.
Qed.

(** A token read as an identifier fits the name buffer. *)
Lemma next_token_id_length (p : Parser) :
  is_type (cur (next_token p)) TOK_ID = true ->
  (String.length (id (cur (next_token p))) < MAX_NAME)%nat.
Proof.
  unfold next_token. generalize (skip_ws p). intros q.
  destruct (peek (pos q) == NUL); [discriminate|].
  destruct (parse_number q) as [[|] q1] eqn:Hnum.
  { unfold parse_number, parse_decimal in Hnum.
    repeat match type of Hnum with
           | context [if ?b then _ else _] => destruct b
           | context [let '(_, _) := ?e in _] => destruct e
           end; try discriminate; injection Hnum as <-; discriminate. }
  destruct (isalpha (peek (pos q1)) || (peek (pos q1) == "_")).
  { pose proof (scan_ident_length (pos q1) (MAX_NAME - 1)) as [_ Hl].
    destruct (scan_ident (pos q1) (MAX_NAME - 1)) as [nm rest].
    intros _. unfold MAX_NAME in *. simpl in *. lia. }
  repeat match goal with
         | |- context [if ?b then _ else _] => destruct b
         end; discriminate.
Qed.

(** ** Stepping the parser through a variable *)

Lemma is_type_true (t : Token) (ty : TokenType) :
  is_type t ty = true -> type t = ty.
Proof. unfold is_type. destruct (type t), ty; simpl; congruence. Qed.

(** [parse_primary] at an identifier that is not followed by a
    parenthesis looks the variable up. *)
Lemma parse_primary_variable (m : libm) (fuel : nat) (p : Parser) (g : Globals) :
  is_type (cur p) TOK_ID = true ->
  is_type (cur (next_token p)) TOK_LPAREN = false ->
  parse_primary m (S fuel) p g
  = Ok (fst (get_var (id (cur p)) g), next_token p, snd (get_var (id (cur p)) g)).
Proof.
  intros Hid Hcall. cbn [parse_primary].
  unfold bind, current, advance_token, global.
  unfold is_op, is_type in *. apply is_type_true in Hid. rewrite Hid in *.
  cbn [TokenType_eqb andb orb]. rewrite Hcall.
  destruct (get_var (id (cur p)) g). reflexivity.
Qed.

(** The equations of the descent. *)
Lemma bind_run {A B : Type} (c : M A) (k : A -> M B) (p : Parser) (g : Globals) :
  bind c k p g
  = match c p g with
    | Ok (a, p', g') => k a p' g'
    | Undefined => Undefined
    | OutOfFuel => OutOfFuel
    end.
Proof. reflexivity. Qed.

Lemma parse_expr_S (m : libm) (fuel : nat) :
  parse_expr m (S fuel) = parse_bitor m fuel.
Proof. reflexivity. Qed.

Lemma parse_bitor_S (m : libm) (fuel : nat) :
  parse_bitor m (S fuel)
  = (left <- parse_bitand m fuel ;;
     while_op fuel is_bitor_op (parse_bitand m fuel) bitor_op left).
Proof. reflexivity. Qed.

Lemma parse_bitand_S (m : libm) (fuel : nat) :
  parse_bitand m (S fuel)
  = (left <- parse_shift m fuel ;;
     while_op fuel is_bitand_op (parse_shift m fuel) bitand_op left).
Proof. reflexivity. Qed.

Lemma parse_shift_S (m : libm) (fuel : nat) :
  parse_shift m (S fuel)
  = (left <- parse_additive m fuel ;;
     while_op fuel is_shift_op (parse_additive m fuel) shift_op left).
Proof. reflexivity. Qed.

Lemma parse_additive_S (m : libm) (fuel : nat) :
  parse_additive m (S fuel)
  = (left <- parse_term m fuel ;;
     while_op fuel is_additive_op (parse_term m fuel) additive_op left).
Proof. reflexivity. Qed.

Lemma parse_term_S (m : libm) (fuel : nat) :
  parse_term m (S fuel)
  = (left <- parse_power m fuel ;;
     while_op fuel is_term_op (parse_power m fuel) (term_op m) left).
Proof. reflexivity. Qed.

Lemma parse_power_S (m : libm) (fuel : nat) :
  parse_power m (S fuel)
  = (left <- parse_primary m fuel ;;
     t <- current ;;
     if is_op t "^" then
       advance_token ;; right <- parse_power m fuel ;; ret (pow m left right)
     else ret left).
Proof. reflexivity. Qed.

(** Expose the first call of [parse_primary] in a call of [parse_expr]. *)
Ltac descend :=
  rewrite parse_expr_S, parse_bitor_S, parse_bitand_S, parse_shift_S,
    parse_additive_S, parse_term_S, parse_power_S;
  rewrite !bind_run.

(** Reduce the record updates of a parser state. *)
Ltac parser_simpl :=
  unfold set_cur, set_pos, set_id, set_num, initial_parser;
  cbn [cur pos src type num id op op2].

(** ** Lookup in the store *)

Lemma streq_eq (a b : string) : streq a b = true <-> a = b.
Proof. apply String.eqb_eq. Qed.

Lemma find_var_Some_In (vs : list Var) (nm : string) (x : double) :
  find_var vs nm = Some x -> In nm (map name vs).
Proof.
  induction vs as [|v rest IH]; simpl; [discriminate|].
  destruct (streq (name v) nm) eqn:E.
  - intros _. left. apply streq_eq. exact E.
  - intros H. right. auto.
Qed.

Lemma find_var_None (vs : list Var) (nm : string) :
  find_var vs nm = None <-> ~ In nm (map name vs).
Proof.
  induction vs as [|v rest IH]; simpl; [tauto|].
  destruct (streq (name v) nm) eqn:E.
  - apply streq_eq in E. split; [discriminate | tauto].
  - assert (name v <> nm) by (intros Heq; apply streq_eq in Heq; congruence).
    tauto.
Qed.

Lemma get_var_is_lookup (nm : string) (g : Globals) :
  get_var nm g = lookup_spec nm g.
Proof.
  unfold get_var, lookup_spec.
  destruct (find_var (vars g) nm); [reflexivity|].
  cbn [table_lookup builtin_constants].
  repeat match goal with
         | |- context [streq nm ?k] =>
             lazymatch k with
             | "ans" => fail
             | _ =>
                 let E := fresh "E" in
                 destruct (streq nm k) eqn:E; cbn [orb];
                 [ try reflexivity;
                   apply streq_eq in E; subst nm; reflexivity | ]
             end
         end.
  destruct (streq nm "ans"); [|reflexivity].
  destruct (vars g); reflexivity.
Qed.

Lemma get_var_undefined (nm : string) (g : Globals) :
  undefined_name g nm ->
  get_var nm g = (nan, eprint ("undefined: " ++ nm) g).
Proof.
  intros (Hnone & Htable & Hans). rewrite get_var_is_lookup. unfold lookup_spec.
  rewrite Hnone, Htable.
  destruct (streq nm "ans") eqn:E; [apply streq_eq in E; contradiction | reflexivity].
Qed.

Lemma get_var_bound (nm : string) (g : Globals) (x : double) :
  find_var (vars g) nm = Some x -> get_var nm g = (x, g).
Proof. intros H. unfold get_var. rewrite H. reflexivity. Qed.


(** ** The two paths of [evaluate] *)

Lemma evaluate_expression (m : libm) (line : string) (g : Globals) (p1 p2 : Parser) :
  next_token (initial_parser line) = p1 -> is_type (cur p1) TOK_ID = true ->
  next_token p1 = p2 -> is_op (cur p2) "=" = false ->
  evaluate m line g
  = match parse_expr m (parse_fuel line) (set_cur (cur p1) (set_pos (pos p1) p2))
            (set_fmt FMT_DEC g) with
    | Ok (val, _, g') => Ok (val, g')
    | Undefined => Undefined
    | OutOfFuel => OutOfFuel
    end.
Proof.
  intros H1 Hid H2 Heq. unfold evaluate. fold (initial_parser line).
  rewrite H1, Hid, H2, Heq. reflexivity.
Qed.

Lemma evaluate_assignment (m : libm) (line : string) (g : Globals) (p1 p2 : Parser) :
  next_token (initial_parser line) = p1 -> is_type (cur p1) TOK_ID = true ->
  next_token p1 = p2 -> is_op (cur p2) "=" = true ->
  evaluate m line g
  = match parse_expr m (parse_fuel line) (next_token p2) (set_fmt FMT_DEC g) with
    | Ok (val, _, g') => Ok (val, set_var (id (cur p1)) val g')
    | Undefined => Undefined
    | OutOfFuel => OutOfFuel
    end.
Proof.
  intros H1 Hid H2 Heq. unfold evaluate. fold (initial_parser line).
  rewrite H1, Hid, H2, Heq. reflexivity.
Qed.

(** ** The store *)

Lemma strncpy_short (s : string) (n : nat) :
  (String.length s <= n)%nat -> strncpy s n = s.
Proof.
  revert n. induction s as [|c t IH]; intros n H.
  - destruct n; reflexivity.
  - destruct n as [|n]; cbn [String.length] in H; [lia|].
    cbn [strncpy]. rewrite IH by lia. reflexivity.
Qed.

Lemma update_var_names (vs vs' : list Var) (nm : string) (x : double) :
  update_var vs nm x = Some vs' -> map name vs' = map name vs.
Proof.
  revert vs'. induction vs as [|v rest IH]; intros vs'; cbn [update_var].
  - discriminate.
  - destruct (streq (name v) nm).
    + intros [= <-]. reflexivity.
    + destruct (update_var rest nm x) as [rest'|]; [|discriminate].
      intros [= <-]. cbn [map]. rewrite (IH rest' eq_refl). reflexivity.
Qed.

Lemma update_var_find (vs vs' : list Var) (nm : string) (x : double) :
  update_var vs nm x = Some vs' -> find_var vs' nm = Some x.
Proof.
  revert vs'. induction vs as [|v rest IH]; intros vs'; cbn [update_var].
  - discriminate.
  - destruct (streq (name v) nm) eqn:E.
    + intros [= <-]. cbn [find_var name value]. rewrite E. reflexivity.
    + destruct (update_var rest nm x) as [rest'|]; [|discriminate].
      intros [= <-]. cbn [find_var]. rewrite E. apply IH. reflexivity.
Qed.

Lemma update_var_None (vs : list Var) (nm : string) (x : double) :
  update_var vs nm x = None <-> find_var vs nm = None.
Proof.
  induction vs as [|v rest IH]; cbn [update_var find_var]; [tauto|].
  destruct (streq (name v) nm); [split; discriminate|].
  destruct (update_var rest nm x); split; intros H; try discriminate; try tauto.
  apply IH in H. discriminate.
Qed.

Lemma find_var_app_new (vs : list Var) (nm : string) (x : double) :
  find_var vs nm = None ->
  find_var (vs ++ [{| name := nm; value := x |}]) nm = Some x.
Proof.
  induction vs as [|v rest IH]; cbn [app find_var name value].
  - intros _. unfold streq. rewrite String.eqb_refl. reflexivity.
  - destruct (streq (name v) nm); [discriminate | exact IH].
Qed.

Lemma find_var_other_update (vs vs' : list Var) (nm other : string) (x : double) :
  update_var vs nm x = Some vs' -> other <> nm ->
  find_var vs' other = find_var vs other.
Proof.
  revert vs'. induction vs as [|v rest IH]; intros vs'; cbn [update_var].
  - discriminate.
  - destruct (streq (name v) nm) eqn:E.
    + intros [= <-] Hne. cbn [find_var name value].
      apply streq_eq in E. destruct (streq (name v) other) eqn:E'; [|reflexivity].
      apply streq_eq in E'. congruence.
    + destruct (update_var rest nm x) as [rest'|]; [|discriminate].
      intros [= <-] Hne. cbn [find_var]. rewrite (IH rest' eq_refl Hne). reflexivity.
Qed.

(** Assigning to a bound name overwrites its value in place. *)
Lemma set_var_overwrite (nm : string) (x y : double) (g : Globals) :
  find_var (vars g) nm = Some y ->
  names (set_var nm x g) = names g
  /\ find_var (vars (set_var nm x g)) nm = Some x.
Proof.
  intros H. unfold set_var, names.
  destruct (update_var (vars g) nm x) as [vs|] eqn:E.
  - cbn [vars set_vars]. split; [eapply update_var_names | eapply update_var_find]; exact E.
  - apply update_var_None in E. congruence.
Qed.

(** Assigning to a new name appends a binding, while there is room. *)
Lemma set_var_new (nm : string) (x : double) (g : Globals) :
  find_var (vars g) nm = None -> (var_count g < MAX_VARS)%nat ->
  (String.length nm < MAX_NAME)%nat ->
  names (set_var nm x g) = (names g ++ [nm])%list
  /\ find_var (vars (set_var nm x g)) nm = Some x.
Proof.
  intros H Hroom Hlen. unfold set_var, names.
  destruct (update_var_None (vars g) nm x) as [_ ->]; [|exact H].
  apply Nat.ltb_lt in Hroom. rewrite Hroom.
  rewrite strncpy_short by (unfold MAX_NAME in *; lia).
  cbn [vars set_vars]. rewrite map_app. cbn [map name].
  split; [reflexivity | apply find_var_app_new; exact H].
Qed.

Lemma set_var_bound (nm : string) (x : double) (g : Globals) :
  (In nm (names g) \/ (var_count g < MAX_VARS)%nat) ->
  (String.length nm < MAX_NAME)%nat ->
  find_var (vars (set_var nm x g)) nm = Some x.
Proof.
  intros Hroom Hlen. destruct (find_var (vars g) nm) as [y|] eqn:E.
  - apply (set_var_overwrite nm x y g E).
  - destruct Hroom as [Hin|Hroom].
    + apply find_var_None in E. contradiction.
    + apply (set_var_new nm x g E Hroom Hlen).
Qed.

(** [set_var] keeps the names unique. *)
Lemma set_var_unique (nm : string) (x : double) (g : Globals) :
  (String.length nm < MAX_NAME)%nat -> unique_names g ->
  unique_names (set_var nm x g).
Proof.
  intros Hlen Hu. unfold unique_names in *.
  destruct (find_var (vars g) nm) as [y|] eqn:E.
  - destruct (set_var_overwrite nm x y g E) as [-> _]. exact Hu.
  - unfold set_var, names in *.
    destruct (update_var_None (vars g) nm x) as [_ ->]; [|exact E].
    destruct (var_count g <? MAX_VARS)%nat; [|exact Hu].
    cbn [vars set_vars]. rewrite map_app. cbn [map name].
    rewrite strncpy_short by (unfold MAX_NAME in *; lia).
    apply find_var_None in E.
    apply NoDup_app; [exact Hu | repeat constructor; intros [] | ].
    intros a Ha [<-|[]]. contradiction.
Qed.
(** * The claims *)

(** The precedence table comes last, after the lemmas about tokens and
    lines that it builds on. *)


(** ** The order of lookup *)

(** C8.  [get_var] is the lookup of the specification: user bindings
    first, then the built-in constants, then the virtual [ans] (the
    value of the first stored binding, or 0 for an empty store), and
    NaN with a diagnostic for a name found nowhere.  So a user binding
    shadows a built-in constant of the same name. *)
Theorem get_var_lookup_order (nm : string) (g : Globals) :
  get_var nm g = lookup_spec nm g
  /\ (forall x, find_var (vars g) nm = Some x -> get_var nm g = (x, g))
  /\ (find_var (vars g) nm = None ->
      table_lookup builtin_constants nm = None -> nm <> "ans" ->
      get_var nm g = (nan, eprint ("undefined: " ++ nm) g))
  /\ (forall m, exists g1,
        evaluate m "pi = 3" initial_globals = Ok (of_Z 3, g1)
        /\ evaluate m "pi" g1 = Ok (of_Z 3, g1)).
Proof.
  repeat apply conj.
  - apply get_var_is_lookup.
  - intros x. apply get_var_bound.
  - intros H1 H2 H3. apply get_var_undefined. repeat split; assumption.
  - intros m. exists (set_vars [{| name := "pi"; value := of_Z 3 |}] initial_globals).
    split; vm_compute; reflexivity.
Qed.

Lemma get_var_lookup_order_witness :
  get_var "pi" (set_vars [{| name := "pi"; value := of_Z 3 |}] initial_globals)
  = (of_Z 3, set_vars [{| name := "pi"; value := of_Z 3 |}] initial_globals)
  /\ get_var "nowhere" initial_globals
     = (nan, eprint "undefined: nowhere" initial_globals).
Proof.
  split.
  - apply (get_var_lookup_order "pi"
             (set_vars [{| name := "pi"; value := of_Z 3 |}] initial_globals)).
    reflexivity.
  - apply (get_var_lookup_order "nowhere" initial_globals); [reflexivity | reflexivity |].
    discriminate.
Defined.

(** ** Format selectors *)

Lemma stdout_set_var (nm : string) (x : double) (g : Globals) :
  stdout (set_var nm x g) = stdout g.
Proof.
  unfold set_var. destruct (update_var (vars g) nm x); [reflexivity|].
  destruct (var_count g <? MAX_VARS)%nat; reflexivity.
Qed.

Lemma evaluate_hex_255 (m : libm) (g : Globals) :
  evaluate m "hex(255)" g = Ok (of_Z 255, set_fmt FMT_HEX g).
Proof. vm_compute. reflexivity. Qed.

Lemma evaluate_1_plus_1 (m : libm) (g : Globals) :
  evaluate m "1+1" g = Ok (of_Z 2, set_fmt FMT_DEC g).
Proof. vm_compute. reflexivity. Qed.

Lemma print_result_hex_255 (m : libm) (g : Globals) :
  print_result m (of_Z 255) (set_fmt FMT_HEX g)
  = Ok (print "0xFF" (set_fmt FMT_HEX g)).
Proof. vm_compute. reflexivity. Qed.

Lemma print_result_dec_2 (m : libm) (g : Globals) :
  print_result m (of_Z 2) (set_fmt FMT_DEC g)
  = Ok (print "2" (set_fmt FMT_DEC g)).
Proof. vm_compute. reflexivity. Qed.

(** C6.  [evaluate] starts from the Decimal format whatever the flag
    was, so neither its result nor what a turn of the interactive loop
    prints depends on the flag left by an earlier line; [hex], [bin],
    [oct] and [dec] return their argument and set the flag; and in the
    interactive loop [hex(255)] prints [0xFF] and a following [1+1]
    prints [2]. *)
Theorem format_selectors_reset (m : libm) :
  (forall input g f, evaluate m input (set_fmt f g) = evaluate m input g)
  /\ (forall input g, evaluate m input g = evaluate m input (set_fmt FMT_DEC g))
  /\ (forall line g f, repl_step m line (set_fmt f g) = repl_step m line g)
  /\ (forall arg g,
        call_func m "hex" arg g = Ok (arg, set_fmt FMT_HEX g)
        /\ call_func m "bin" arg g = Ok (arg, set_fmt FMT_BIN g)
        /\ call_func m "oct" arg g = Ok (arg, set_fmt FMT_OCT g)
        /\ call_func m "dec" arg g = Ok (arg, set_fmt FMT_DEC g))
  /\ (forall g, exists g1 g2,
        repl_step m "hex(255)" g = Ok (of_Z 255, g1)
        /\ stdout g1 = (stdout g ++ ["0xFF"])%list
        /\ repl_step m "1+1" g1 = Ok (of_Z 2, g2)
        /\ stdout g2 = (stdout g1 ++ ["2"])%list).
Proof.
  repeat apply conj.
  - intros input g f. unfold evaluate. reflexivity.
  - intros input g. unfold evaluate. reflexivity.
  - intros line g f. unfold repl_step.
    replace (evaluate m line (set_fmt f g)) with (evaluate m line g)
      by (unfold evaluate; reflexivity).
    reflexivity.
  - intros arg g. repeat apply conj; vm_compute; reflexivity.
  - intros g.
    set (g1 := set_var "ans" (of_Z 255) (print "0xFF" (set_fmt FMT_HEX g))).
    exists g1, (set_var "ans" (of_Z 2) (print "2" (set_fmt FMT_DEC g1))).
    unfold repl_step.
    rewrite evaluate_hex_255, evaluate_1_plus_1.
    rewrite print_result_hex_255, print_result_dec_2.
    repeat apply conj; try reflexivity.
    + unfold g1. rewrite stdout_set_var. reflexivity.
    + rewrite stdout_set_var. reflexivity.
Qed.

(** ** Shifts *)

(** C5, as stated, fails: the code does not guard the count of a
    shift.  [1<<64], [1>>64], [1<<-1], [shl(1,64)] and [shr(1,-1)]
    perform the native shift of C with a count outside 0..63, which is
    undefined behaviour. *)
Lemma shift_count_unguarded_counterexample :
  evaluate integers_libm "1<<64" initial_globals = Undefined
  /\ evaluate integers_libm "1>>64" initial_globals = Undefined
  /\ evaluate integers_libm "1<<-1" initial_globals = Undefined
  /\ evaluate integers_libm "shl(1,64)" initial_globals = Undefined
  /\ evaluate integers_libm "shr(1,-1)" initial_globals = Undefined.
Proof. repeat apply conj; vm_compute; reflexivity. Qed.

(** C5, amended.  For a left operand that truncates to the unsigned
    64-bit [l] and a count [r] in 0..63, [<<] and [shl] give
    [l * 2^r] modulo 2^64 and [>>] and [shr] give [l / 2^r]; for any
    other count the code performs the unguarded native shift, whose
    behaviour is undefined. *)
Theorem shift_in_range (m : libm) (left right : double) (l r : Z) :
  trunc left = Some l -> 0 <= l < 2 ^ 64 ->
  trunc right = Some r -> - 2 ^ 31 <= r < 2 ^ 31 ->
  (0 <= r < 64 ->
     shift_op "L" left right = Ok (of_uint64 ((l * 2 ^ r) mod 2 ^ 64))
     /\ shift_op "R" left right = Ok (of_uint64 (l / 2 ^ r))
     /\ call_func2 m "shl" left right = Ok (of_uint64 ((l * 2 ^ r) mod 2 ^ 64))
     /\ call_func2 m "shr" left right = Ok (of_uint64 (l / 2 ^ r)))
  /\ (~ 0 <= r < 64 ->
     shift_op "L" left right = Undefined
     /\ shift_op "R" left right = Undefined
     /\ call_func2 m "shl" left right = Undefined
     /\ call_func2 m "shr" left right = Undefined)
  /\ (forall g,
       evaluate m "1<<3" g = Ok (of_Z 8, set_fmt FMT_DEC g)
       /\ evaluate m "256>>4" g = Ok (of_Z 16, set_fmt FMT_DEC g)
       /\ evaluate m "shl(1,3)" g = Ok (of_Z 8, set_fmt FMT_DEC g)
       /\ evaluate m "shr(256,4)" g = Ok (of_Z 16, set_fmt FMT_DEC g)).
Proof.
  intros Htl Hlr Htr Hrr.
  assert (Hl : to_uint64 left = Ok l).
  { unfold to_uint64, to_uint. rewrite Htl.
    replace ((0 <=? l) && (l <? 2 ^ 64)) with true; [reflexivity|].
    symmetry. apply andb_true_iff. lia. }
  assert (Hr : to_int right = Ok r).
  { unfold to_int. rewrite Htr.
    replace ((- 2 ^ 31 <=? r) && (r <? 2 ^ 31)) with true; [reflexivity|].
    symmetry. apply andb_true_iff. lia. }
  assert (Hops : shift_op "L" left right = (v <~ shl64 l r ;; Ok (of_uint64 v))
                 /\ shift_op "R" left right = (v <~ shr64 l r ;; Ok (of_uint64 v))
                 /\ call_func2 m "shl" left right = (v <~ shl64 l r ;; Ok (of_uint64 v))
                 /\ call_func2 m "shr" left right = (v <~ shr64 l r ;; Ok (of_uint64 v))).
  { unfold shift_op, call_func2. cbn [streq String.eqb Ascii.eqb Bool.eqb].
    rewrite Hl, Hr. repeat apply conj; reflexivity. }
  destruct Hops as (-> & -> & -> & ->).
  unfold shl64, shr64, wrap64, UINT64_MOD.
  split; [|split]; [intros Hrange | intros Hrange | intros g].
  - replace ((0 <=? r) && (r <? 64)) with true by (symmetry; apply andb_true_iff; lia).
    cbn [rbind]. rewrite Z.shiftl_mul_pow2, Z.shiftr_div_pow2 by lia.
    repeat apply conj; reflexivity.
  - replace ((0 <=? r) && (r <? 64)) with false by (symmetry; apply andb_false_iff; lia).
    repeat apply conj; reflexivity.
  - repeat apply conj; vm_compute; reflexivity.
Qed.

Lemma shift_in_range_witness :
  shift_op "L" (of_Z 1) (of_Z 3) = Ok (of_uint64 ((1 * 2 ^ 3) mod 2 ^ 64))
  /\ shift_op "L" (of_Z 1) (of_Z 64) = Undefined.
Proof.
  split.
  - apply (shift_in_range integers_libm (of_Z 1) (of_Z 3) 1 3); [reflexivity | lia | reflexivity | lia | lia].
  - apply (shift_in_range integers_libm (of_Z 1) (of_Z 64) 1 64); [reflexivity | lia | reflexivity | lia | lia].
Defined.

(** ** Output formatting *)

Lemma append_assoc (a b c : string) : ((a ++ b) ++ c)%string = (a ++ (b ++ c))%string.
Proof. induction a as [|x a IH]; simpl; [reflexivity | rewrite IH; reflexivity]. Qed.

Lemma append_empty_r (a : string) : (a ++ "")%string = a.
Proof. induction a as [|x a IH]; simpl; [reflexivity | rewrite IH; reflexivity]. Qed.

Lemma print_binary_loop_bits (p : positive) :
  forall (slots : nat) (buf : string),
    (Pos.size_nat p <= slots)%nat ->
    print_binary_loop slots (Zpos p) buf = (bits_of_pos p ++ buf)%string.
Proof.
  induction p as [q IH|q IH|]; intros slots buf Hs; cbn [Pos.size_nat] in Hs;
    (destruct slots as [|slots]; [lia|]); cbn [print_binary_loop bits_of_pos].
  - change (Zpos q~1 =? 0) with false. cbv iota.
    change (Z.shiftr (Zpos q~1) 1) with (Zpos q).
    change (Z.land (Zpos q~1) 1) with 1.
    rewrite IH by lia. rewrite append_assoc. reflexivity.
  - change (Zpos q~0 =? 0) with false. cbv iota.
    change (Z.shiftr (Zpos q~0) 1) with (Zpos q).
    change (Z.land (Zpos q~0) 1) with 0.
    rewrite IH by lia. rewrite append_assoc. reflexivity.
  - destruct slots; reflexivity.
Qed.

Lemma size_nat_size (p : positive) : Pos.size_nat p = Pos.to_nat (Pos.size p).
Proof.
  induction p as [q IH|q IH|]; cbn [Pos.size_nat Pos.size];
    rewrite ?Pos2Nat.inj_succ, ?IH; reflexivity.
Qed.

Lemma size_bound (p : positive) (n : Z) :
  0 <= n -> Zpos p < 2 ^ n -> Zpos (Pos.size p) <= n.
Proof.
  intros Hn H.
  pose proof (Pos.size_le p) as Hle.
  assert (Hpow : Zpos (2 ^ Pos.size p) = 2 ^ Zpos (Pos.size p))
    by (rewrite Pos2Z.inj_pow; reflexivity).
  assert (2 ^ Zpos (Pos.size p) < 2 ^ (n + 1)) as Hlt.
  { rewrite <- Hpow. replace (n + 1) with (Z.succ n) by lia. rewrite Z.pow_succ_r by lia.
    apply Pos2Z.pos_le_pos in Hle. rewrite Pos2Z.inj_xO in Hle. lia. }
  apply Z.pow_lt_mono_r_iff in Hlt; lia.
Qed.

Lemma size_nat_bound (p : positive) : Zpos p < 2 ^ 64 -> (Pos.size_nat p <= 64)%nat.
Proof.
  intros H. rewrite size_nat_size.
  pose proof (size_bound p 64 ltac:(lia) H). lia.
Qed.

(** The binary rendering of a nonzero 64-bit value is its bit pattern. *)
Lemma print_binary_bits (p : positive) :
  Zpos p < 2 ^ 64 -> print_binary (Zpos p) = ("0b" ++ bits_of_pos p)%string.
Proof.
  intros H. unfold print_binary. change (Zpos p =? 0) with false. cbv iota.
  rewrite print_binary_loop_bits by (apply size_nat_bound; exact H).
  rewrite append_empty_r. reflexivity.
Qed.

(** The bit pattern has no leading zero, and reads back as the number. *)
Lemma bits_of_pos_leading_one (p : positive) : peek (bits_of_pos p) = "1"%char.
Proof.
  induction p as [q IH|q IH|]; cbn [bits_of_pos]; try reflexivity;
    (destruct (bits_of_pos q); [discriminate IH | exact IH]).
Qed.

Lemma digit_char_isdigit (d : Z) : 0 <= d < 10 -> isdigit (digit_char d) = true.
Proof.
  intros H.
  assert (d = 0 \/ d = 1 \/ d = 2 \/ d = 3 \/ d = 4 \/ d = 5 \/ d = 6 \/ d = 7
          \/ d = 8 \/ d = 9) as Hd by lia.
  repeat (destruct Hd as [->|Hd]; [reflexivity|]). subst d. reflexivity.
Qed.

Lemma digits_aux_decimal (fuel : nat) (n : Z) (acc : string) :
  all_chars isdigit acc = true ->
  all_chars isdigit (digits_aux fuel 10 n acc) = true.
Proof.
  revert n acc. induction fuel as [|fuel IH]; intros n acc Hacc; cbn [digits_aux].
  - exact Hacc.
  - assert (all_chars isdigit (String (digit_char (n mod 10)) acc) = true) as H.
    { cbn [all_chars]. rewrite Hacc, digit_char_isdigit; [reflexivity|].
      apply Z.mod_pos_bound. lia. }
    destruct (n / 10 =? 0); [exact H | apply IH; exact H].
Qed.

Lemma digits_aux_nonempty (fuel : nat) (base n : Z) (acc : string) :
  acc <> ""%string -> digits_aux fuel base n acc <> ""%string.
Proof.
  revert n acc. induction fuel as [|fuel IH]; intros n acc Hacc; cbn [digits_aux].
  - exact Hacc.
  - destruct (n / base =? 0); [discriminate | apply IH; discriminate].
Qed.

(** ["%.0f"] of a finite number prints an optional sign and decimal
    digits, nothing else. *)
Lemma printf_f0_plain (x : double) :
  ltb (fabs x) huge = true ->
  exists (sign : bool) (ds : string),
    printf_f0 x = ((if sign then "-" else "") ++ ds)%string
    /\ all_chars isdigit ds = true /\ ds <> ""%string.
Proof.
  destruct x as [s|s| |s mm e]; try discriminate; intros _; cbn [printf_f0].
  - exists s, "0"%string. destruct s; repeat split; discriminate.
  - eexists s, _. split; [reflexivity|]. split.
    + apply digits_aux_decimal. reflexivity.
    + unfold digits. cbn [digits_aux].
      destruct (_ =? 0); [discriminate | apply digits_aux_nonempty; discriminate].
Qed.

(** C9.  [print_result] prints nothing for a NaN.  In Decimal format a
    value below 1e15 in magnitude that equals its floor is printed by
    ["%.0f"], as a sign and digits only, and any other value by
    ["%.12g"].  In Binary format the value is truncated to an unsigned
    64-bit integer: zero is printed as [0b0] and a nonzero value as
    [0b] followed by its bit pattern, which starts with a one. *)
Theorem print_result_rendering (m : libm) (val : double) (g : Globals) :
  (isnan val = true -> print_result m val g = Ok g)
  /\ (isnan val = false -> g_output_fmt g = FMT_DEC ->
      (ltb (fabs val) huge && eqb val (floor val) = true ->
       print_result m val g = Ok (print (printf_f0 val) g)
       /\ exists (sign : bool) (ds : string),
            printf_f0 val = ((if sign then "-" else "") ++ ds)%string
            /\ all_chars isdigit ds = true /\ ds <> ""%string)
      /\ (ltb (fabs val) huge && eqb val (floor val) = false ->
          print_result m val g = Ok (print (printf_g12 m val) g)))
  /\ (isnan val = false -> g_output_fmt g = FMT_BIN ->
      forall u, trunc val = Some u -> 0 <= u < 2 ^ 64 ->
        (u = 0 -> print_result m val g = Ok (print "0b0" g))
        /\ (forall p, u = Zpos p ->
              print_result m val g = Ok (print ("0b" ++ bits_of_pos p) g)
              /\ peek (bits_of_pos p) = "1"%char)).
Proof.
  unfold print_result. repeat apply conj.
  - intros ->. reflexivity.
  - intros -> ->. split.
    + intros H. rewrite H. split; [reflexivity|].
      apply printf_f0_plain. apply andb_prop in H. tauto.
    + intros ->. reflexivity.
  - intros -> -> u Hu Hrange.
    assert (to_uint64 val = Ok u) as ->.
    { unfold to_uint64, to_uint. rewrite Hu.
      replace ((0 <=? u) && (u <? 2 ^ 64)) with true; [reflexivity|].
      symmetry. apply andb_true_iff. lia. }
    cbn [rbind]. split.
    + intros ->. reflexivity.
    + intros p ->. rewrite print_binary_bits by lia.
      split; [reflexivity | apply bits_of_pos_leading_one].
Qed.

Lemma print_result_rendering_witness :
  print_result integers_libm nan initial_globals = Ok initial_globals
  /\ print_result integers_libm (of_Z 42) initial_globals
     = Ok (print "42" initial_globals)
  /\ print_result integers_libm (of_decimal 5 (-1)) initial_globals
     = Ok (print (printf_g12 integers_libm (of_decimal 5 (-1))) initial_globals)
  /\ print_result integers_libm zero (set_fmt FMT_BIN initial_globals)
     = Ok (print "0b0" (set_fmt FMT_BIN initial_globals))
  /\ print_result integers_libm (of_Z 10) (set_fmt FMT_BIN initial_globals)
     = Ok (print "0b1010" (set_fmt FMT_BIN initial_globals)).
Proof.
  repeat apply conj.
  - apply (print_result_rendering integers_libm nan initial_globals). reflexivity.
  - apply (print_result_rendering integers_libm (of_Z 42) initial_globals);
      reflexivity.
  - apply (print_result_rendering integers_libm (of_decimal 5 (-1)) initial_globals);
      reflexivity.
  - apply (print_result_rendering integers_libm zero (set_fmt FMT_BIN initial_globals))
      with (u := 0); [reflexivity | reflexivity | reflexivity | lia | reflexivity].
  - apply (print_result_rendering integers_libm (of_Z 10)
             (set_fmt FMT_BIN initial_globals))
      with (u := 10) (p := 10%positive);
      [reflexivity | reflexivity | reflexivity | lia | reflexivity].
Defined.

(** ** Number prefixes without digits *)

(** C4, as stated, fails.  After [0x] or [0o] without a digit
    [parse_number] gives up instead of reading a decimal number, so
    that [next_token] makes an error token of the [0], where the
    decimal parse would have read the number 0; and after [0b] without
    a digit it makes a number token of the prefix. *)
Lemma prefix_without_digits_counterexample :
  parse_number (initial_parser "0x") = (false, initial_parser "0x")
  /\ parse_decimal (initial_parser "0x")
     = (true, set_num zero (set_pos "x" (initial_parser "0x")))
  /\ next_token (initial_parser "0x")
     = set_cur (Token_of_type TOK_ERR) (set_pos "x" (initial_parser "0x"))
  /\ parse_number (initial_parser "0o") = (false, initial_parser "0o")
  /\ parse_number (initial_parser "0b")
     = (true, set_num zero (set_pos "" (initial_parser "0b")))
  /\ parse_decimal (initial_parser "0b")
     = (true, set_num zero (set_pos "b" (initial_parser "0b"))).
Proof. repeat apply conj; vm_compute; reflexivity. Qed.

(** C4, amended.  At [0x], [0X], [0o] or [0O] where [strtoull]
    converts nothing, [parse_number] restores the cursor and reports
    that there is no number; [next_token] then makes an error token
    and consumes the [0] only. *)
Theorem prefix_without_digits (p : Parser) (c : ascii) (rest : string) (base : Z) :
  pos p = String "0" (String c rest) ->
  (((c == "x") || (c == "X") = true /\ base = 16)
   \/ ((c == "o") || (c == "O") = true /\ base = 8)) ->
  ptr_eq (snd (strtoull rest base)) rest = true ->
  parse_number p = (false, p)
  /\ next_token p = set_cur (Token_of_type TOK_ERR) (set_pos (String c rest) p).
Proof.
  intros Hpos Hc Hnone.
  assert (Hnum : parse_number p = (false, p)).
  { unfold parse_number. rewrite Hpos. cbn [peek advance].
    assert (c <> NUL) as Hnul.
    { intros ->. destruct Hc as [[Hc _]|[Hc _]]; discriminate Hc. }
    apply Ascii.eqb_neq in Hnul. rewrite Hnul.
    change (("0" == "0")%char && negb false) with true. cbv iota.
    destruct Hc as [[Hc ->]|[Hc ->]].
    - rewrite Hc. destruct (strtoull rest 16) as [v e]. simpl in Hnone.
      rewrite Hnone, <- Hpos, set_pos_same. reflexivity.
    - assert ((c == "x") || (c == "X") = false) as ->.
      { destruct (c == "x") eqn:Ex; [apply Ascii.eqb_eq in Ex; subst c; discriminate Hc|].
        destruct (c == "X") eqn:EX; [apply Ascii.eqb_eq in EX; subst c; discriminate Hc|].
        reflexivity. }
      assert ((c == "b") || (c == "B") = false) as ->.
      { destruct (c == "b") eqn:Ex; [apply Ascii.eqb_eq in Ex; subst c; discriminate Hc|].
        destruct (c == "B") eqn:EX; [apply Ascii.eqb_eq in EX; subst c; discriminate Hc|].
        reflexivity. }
      rewrite Hc. destruct (strtoull rest 8) as [v e]. simpl in Hnone.
      rewrite Hnone, <- Hpos, set_pos_same. reflexivity. }
  split; [exact Hnum|].
  unfold next_token.
  assert (skip_ws p = p) as ->.
  { unfold skip_ws. rewrite Hpos. cbn [drop_while].
    change (isspace "0") with false. cbv iota. rewrite <- Hpos. apply set_pos_same. }
  rewrite Hnum, Hpos. reflexivity.
Qed.

Lemma prefix_without_digits_witness :
  parse_number (initial_parser "0xg") = (false, initial_parser "0xg")
  /\ next_token (initial_parser "0xg")
     = set_cur (Token_of_type TOK_ERR) (set_pos "xg" (initial_parser "0xg")).
Proof.
  apply (prefix_without_digits (initial_parser "0xg") "x" "g" 16).
  - reflexivity.
  - left. split; reflexivity.
  - reflexivity.
Defined.

(** ** Literals *)

Lemma digit_of_not_space (base : Z) (c : ascii) :
  digit_of base c = true -> isspace c = false.
Proof.
  unfold digit_of. destruct (digit_in base c) as [d|] eqn:E; [|discriminate].
  intros _. apply digit_in_range in E. destruct E as (_ & _ & Hc).
  char_classes.
Qed.

Lemma scan_digits_all (base : Z) (s : string) (acc : Z) :
  all_chars (digit_of base) s = true ->
  scan_digits base s acc = (digits_value base s acc, ""%string).
Proof.
  revert acc. induction s as [|c t IH]; intros acc H; cbn [scan_digits digits_value].
  - reflexivity.
  - cbn [all_chars] in H. apply andb_prop in H. destruct H as [Hc Ht].
    unfold digit_of in Hc. destruct (digit_in base c) as [d|] eqn:E; [|discriminate].
    apply digit_in_range in E. destruct E as (-> & _ & _). apply IH. exact Ht.
Qed.

(** [strtoull] on nothing but digits. *)
Lemma strtoull_digits (base : Z) (s : string) :
  2 <= base <= 16 -> s <> ""%string -> all_chars (digit_of base) s = true ->
  strtoull s base
  = (if ULLONG_MAX <? digits_value base s 0 then ULLONG_MAX
     else digits_value base s 0, ""%string).
Proof.
  intros Hbase Hne Hall. destruct s as [|c t]; [contradiction|].
  assert (Hc : digit_of base c = true /\ all_chars (digit_of base) t = true)
    by (cbn [all_chars] in Hall; apply andb_prop in Hall; exact Hall).
  destruct Hc as [Hc Ht]. unfold strtoull.
  cbn [drop_while]. rewrite (digit_of_not_space base c Hc).
  cbn [peek advance].
  assert (Hrange : 48 <= code c <= 57 \/ 65 <= code c <= 90 \/ 97 <= code c <= 122).
  { unfold digit_of in Hc. destruct (digit_in base c) eqn:E; [|discriminate].
    apply digit_in_range in E. tauto. }
  rewrite (eqb_code c "-"), (eqb_code c "+") by (change (code "-") with 45;
    change (code "+") with 43; lia).
  cbv beta iota zeta. cbn [peek advance].
  assert (Hprefix : (base =? 16) && (c == "0")
                    && ((peek t == "x") || (peek t == "X")) = false).
  { destruct t as [|d t']; cbn [peek].
    - rewrite andb_false_r. reflexivity.
    - cbn [all_chars] in Ht. apply andb_prop in Ht. destruct Ht as [Hd _].
      unfold digit_of in Hd. destruct (digit_in base d) as [v|] eqn:E; [|discriminate].
      apply digit_in_range in E. destruct E as (Ev & Hv & _).
      assert ((d == "x") = false /\ (d == "X") = false) as [-> ->].
      { split; apply Ascii.eqb_neq; intros ->; vm_compute in Ev;
          injection Ev as <-; lia. }
      rewrite andb_false_r. reflexivity. }
  rewrite Hprefix.
  rewrite (scan_digits_all base (String c t) 0 Hall).
  change (ptr_eq "" (String c t)) with false. cbv iota.
  destruct (ULLONG_MAX <? digits_value base (String c t) 0); reflexivity.
Qed.

(** A line that is one number token evaluates to that number. *)
Lemma evaluate_number (m : libm) (input : string) (x : double) (g : Globals) :
  next_token (initial_parser input)
  = set_num x (set_pos "" (initial_parser input)) ->
  evaluate m input g = Ok (x, set_fmt FMT_DEC g).
Proof.
  intros H. unfold evaluate. fold (initial_parser input). rewrite H.
  unfold parse_fuel. rewrite Nat.add_comm.
  generalize (8 * String.length input)%nat. intros n.
  vm_compute. reflexivity.
Qed.

Lemma digits_value_mono (base : Z) (s : string) (acc : Z) :
  1 <= base -> 0 <= acc -> acc <= digits_value base s acc.
Proof.
  intros Hb. revert acc. induction s as [|c t IH]; intros acc Hacc; cbn [digits_value].
  - lia.
  - assert (0 <= match digit_value c with Some d => d | None => 0 end) as Hd.
    { destruct (digit_value c) as [d|] eqn:E; [|lia].
      revert E. char_classes; intros [= <-]; lia. }
    specialize (IH (acc * base + match digit_value c with Some d => d | None => 0 end)).
    nia.
Qed.

Lemma lor_bit (a b : Z) : 0 <= a -> b = 0 \/ b = 1 -> Z.lor (Z.shiftl a 1) b = a * 2 + b.
Proof.
  intros Ha [-> | ->].
  - rewrite Z.lor_0_r, Z.shiftl_mul_pow2 by lia. change (2 ^ 1) with 2. lia.
  - destruct a as [|p|p]; [reflexivity | | lia].
    simpl. lia.
Qed.

(** The loop of the binary branch reads the number, as long as it fits. *)
Lemma scan_binary_all (s : string) (acc : Z) :
  all_chars (digit_of 2) s = true -> 0 <= acc ->
  digits_value 2 s acc < 2 ^ 64 ->
  scan_binary s acc = (digits_value 2 s acc, ""%string).
Proof.
  revert acc. induction s as [|c t IH]; intros acc Hall Hacc Hfit;
    cbn [scan_binary digits_value] in *.
  - reflexivity.
  - cbn [all_chars] in Hall. apply andb_prop in Hall. destruct Hall as [Hc Ht].
    assert (Hbit : ((c == "0") || (c == "1") = true)
                   /\ digit_value c = Some (code c - 48)
                   /\ (code c - 48 = 0 \/ code c - 48 = 1)).
    { unfold digit_of in Hc. destruct (digit_in 2 c) as [d|] eqn:E; [|discriminate].
      apply digit_in_range in E. destruct E as (Ev & Hd & _).
      assert (code c = 48 \/ code c = 49) as Hcode.
      { revert Ev. char_classes; intros [= <-]; lia. }
      assert (c = "0"%char \/ c = "1"%char) as [-> | ->].
      { destruct Hcode as [Hcode|Hcode]; [left|right];
          apply (f_equal Z.to_nat) in Hcode; unfold code in Hcode;
          rewrite Nat2Z.id in Hcode; apply (f_equal ascii_of_nat) in Hcode;
          rewrite ascii_nat_embedding in Hcode; exact Hcode. }
      - repeat split; auto.
      - repeat split; auto. }
    destruct Hbit as (-> & Hv & Hb). rewrite Hv in *.
    assert (Hstep : acc * 2 + (code c - 48) < 2 ^ 64).
    { pose proof (digits_value_mono 2 t (acc * 2 + (code c - 48)) ltac:(lia)). lia. }
    assert (Hw : Z.lor (wrap64 (Z.shiftl acc 1)) (code c - 48) = acc * 2 + (code c - 48)).
    { unfold wrap64, UINT64_MOD. rewrite Z.mod_small.
      - apply lor_bit; assumption.
      - rewrite Z.shiftl_mul_pow2 by lia. lia. }
    rewrite Hw. apply IH; [exact Ht | lia | exact Hfit].
Qed.

Lemma scan_decimal_all (s : string) (acc n : Z) :
  all_chars (digit_of 10) s = true ->
  scan_decimal s acc n
  = (digits_value 10 s acc, n + Z.of_nat (String.length s), ""%string).
Proof.
  revert acc n. induction s as [|c t IH]; intros acc n Hall;
    cbn [scan_decimal digits_value String.length].
  - rewrite Z.add_0_r. reflexivity.
  - cbn [all_chars] in Hall. apply andb_prop in Hall. destruct Hall as [Hc Ht].
    assert (isdigit c = true /\ digit_value c = Some (code c - 48)) as [-> ->].
    { unfold digit_of in Hc. destruct (digit_in 10 c) as [d|] eqn:E; [|discriminate].
      apply digit_in_range in E. destruct E as (Ev & Hd & _).
      revert Ev. char_classes; intros [= <-]; try lia; auto. }
    rewrite IH by exact Ht. f_equal. f_equal. lia.
Qed.

Lemma skip_ws_none (p : Parser) : isspace (peek (pos p)) = false -> skip_ws p = p.
Proof.
  intros H. unfold skip_ws.
  replace (drop_while isspace (pos p)) with (pos p); [apply set_pos_same|].
  destruct (pos p) as [|c t]; [reflexivity|]. cbn [peek] in H. cbn [drop_while].
  rewrite H. reflexivity.
Qed.

(** Where a number starts, [next_token] is [parse_number]. *)
Lemma next_token_number (p p' : Parser) :
  isspace (peek (pos p)) = false -> (peek (pos p) == NUL) = false ->
  parse_number p = (true, p') -> next_token p = p'.
Proof.
  intros Hsp Hnul Hnum. unfold next_token.
  rewrite (skip_ws_none p Hsp), Hnul, Hnum. reflexivity.
Qed.

Lemma parse_number_hex (p : Parser) (ds : string) :
  pos p = ("0x" ++ ds)%string -> ds <> ""%string ->
  all_chars (digit_of 16) ds = true ->
  parse_number p
  = (true, set_num (of_uint64 (if ULLONG_MAX <? digits_value 16 ds 0 then ULLONG_MAX
                               else digits_value 16 ds 0)) (set_pos "" p)).
Proof.
  intros Hpos Hne Hall. unfold parse_number. rewrite Hpos.
  cbn [append peek advance].
  destruct ds as [|c t]; [contradiction|].
  assert ((c == NUL) = false) as Hc.
  { apply eqb_code. cbn [all_chars] in Hall. apply andb_prop in Hall.
    destruct Hall as [Hall _]. unfold digit_of in Hall.
    destruct (digit_in 16 c) eqn:E; [|discriminate].
    apply digit_in_range in E. change (code NUL) with 0. lia. }
  change (("0" == "0")%char && negb ("x" == NUL)%char) with true. cbv iota.
  change (("x" == "x")%char || ("x" == "X")%char) with true. cbv iota.
  rewrite strtoull_digits by (try lia; assumption).
  change (ptr_eq "" (String c t)) with false. reflexivity.
Qed.

Lemma parse_number_octal (p : Parser) (ds : string) :
  pos p = ("0o" ++ ds)%string -> ds <> ""%string ->
  all_chars (digit_of 8) ds = true ->
  parse_number p
  = (true, set_num (of_uint64 (if ULLONG_MAX <? digits_value 8 ds 0 then ULLONG_MAX
                               else digits_value 8 ds 0)) (set_pos "" p)).
Proof.
  intros Hpos Hne Hall. unfold parse_number. rewrite Hpos.
  cbn [append peek advance].
  destruct ds as [|c t]; [contradiction|].
  change (("0" == "0")%char && negb ("o" == NUL)%char) with true. cbv iota.
  change (("o" == "x")%char || ("o" == "X")%char) with false. cbv iota.
  change (("o" == "b")%char || ("o" == "B")%char) with false. cbv iota.
  change (("o" == "o")%char || ("o" == "O")%char) with true. cbv iota.
  rewrite strtoull_digits by (try lia; assumption).
  change (ptr_eq "" (String c t)) with false. reflexivity.
Qed.

Lemma parse_number_binary (p : Parser) (ds : string) :
  pos p = ("0b" ++ ds)%string ->
  all_chars (digit_of 2) ds = true -> digits_value 2 ds 0 < 2 ^ 64 ->
  parse_number p = (true, set_num (of_uint64 (digits_value 2 ds 0)) (set_pos "" p)).
Proof.
  intros Hpos Hall Hfit. unfold parse_number. rewrite Hpos.
  cbn [append peek advance].
  change (("0" == "0")%char && negb ("b" == NUL)%char) with true. cbv iota.
  change (("b" == "x")%char || ("b" == "X")%char) with false. cbv iota.
  change (("b" == "b")%char || ("b" == "B")%char) with true. cbv iota.
  rewrite scan_binary_all by (try lia; assumption). reflexivity.
Qed.

Lemma strtod_integer (ds : string) :
  ds <> ""%string -> all_chars (digit_of 10) ds = true ->
  strtod ds = (of_Z (digits_value 10 ds 0), ""%string).
Proof.
  intros Hne Hall. unfold strtod. rewrite scan_decimal_all by exact Hall.
  cbv beta iota zeta. cbn [peek].
  change (NUL == ".")%char with false. cbv beta iota zeta.
  assert ((0 + Z.of_nat (String.length ds) + 0 =? 0) = false) as ->.
  { apply Z.eqb_neq. destruct ds; [contradiction|]. cbn [String.length]. lia. }
  change (scan_exponent "") with (0, ""%string). cbv beta iota zeta.
  f_equal. unfold of_decimal. rewrite Z.sub_0_r.
  pose proof (digits_value_mono 10 ds 0 ltac:(lia) ltac:(lia)) as Hpos.
  destruct (digits_value 10 ds 0) as [|v|v] eqn:E; [reflexivity | | lia].
  change (0 <=? 0) with true. cbv iota. f_equal. change (10 ^ 0) with 1. lia.
Qed.

Lemma parse_number_decimal (p : Parser) (ds : string) :
  pos p = ds -> ds <> ""%string -> all_chars (digit_of 10) ds = true ->
  parse_number p = (true, set_num (of_Z (digits_value 10 ds 0)) (set_pos "" p)).
Proof.
  intros Hpos Hne Hall.
  assert (Hdec : parse_decimal p
                 = (true, set_num (of_Z (digits_value 10 ds 0)) (set_pos "" p))).
  { unfold parse_decimal. rewrite Hpos, (strtod_integer ds Hne Hall).
    destruct ds as [|c t]; [contradiction|]. cbn [all_chars] in Hall.
    apply andb_prop in Hall. destruct Hall as [Hc _]. cbn [peek].
    assert (isdigit c = true) as ->; [|reflexivity].
    unfold digit_of in Hc. destruct (digit_in 10 c) eqn:E; [|discriminate].
    apply digit_in_range in E. destruct E as (Ev & Hd & _).
    revert Ev. char_classes; intros [= <-]; lia. }
  unfold parse_number. rewrite Hdec, Hpos.
  destruct ((peek ds == "0") && negb (peek (advance ds) == NUL)) eqn:E0; [|reflexivity].
  destruct ds as [|c [|d t]];
    [discriminate E0 | cbn in E0; rewrite andb_false_r in E0; discriminate E0 |].
  cbn [peek advance]. cbn [all_chars] in Hall.
  apply andb_prop in Hall. destruct Hall as [_ Hall].
  apply andb_prop in Hall. destruct Hall as [Hd _].
  unfold digit_of in Hd. destruct (digit_in 10 d) as [v|] eqn:E; [|discriminate].
  apply digit_in_range in E. destruct E as (Ev & Hv & _).
  assert (Hnot : forall k : ascii, 58 <= code k -> (d == k) = false).
  { intros k Hk. apply eqb_code. revert Ev. char_classes; intros [= <-]; lia. }
  rewrite !Hnot by (vm_compute; discriminate). reflexivity.
Qed.


(** *** Decimal literals in general *)

Lemma digit10_isdigit (c : ascii) :
  digit_of 10 c = true -> isdigit c = true /\ digit_value c = Some (code c - 48).
Proof.
  unfold digit_of. destruct (digit_in 10 c) as [d|] eqn:E; [|discriminate].
  intros _. apply digit_in_range in E. destruct E as (Ev & Hd & _).
  revert Ev. char_classes; intros [= <-]; try lia; auto.
Qed.

Lemma scan_decimal_app (ds rest : string) (acc n : Z) :
  all_chars (digit_of 10) ds = true -> isdigit (peek rest) = false ->
  scan_decimal (ds ++ rest) acc n
  = (digits_value 10 ds acc, n + Z.of_nat (String.length ds), rest).
Proof.
  revert acc n. induction ds as [|c t IH]; intros acc n Hall Hrest;
    cbn [append digits_value String.length].
  - rewrite Z.add_0_r. apply scan_decimal_nodigit. exact Hrest.
  - cbn [all_chars] in Hall. apply andb_prop in Hall. destruct Hall as [Hc Ht].
    destruct (digit10_isdigit c Hc) as [Hd Hv]. cbn [scan_decimal].
    rewrite Hd, Hv, IH by assumption. f_equal. f_equal. lia.
Qed.

Lemma digits_value_app (base : Z) (a b : string) (acc : Z) :
  digits_value base (a ++ b) acc = digits_value base b (digits_value base a acc).
Proof.
  revert acc. induction a as [|c t IH]; intros acc; cbn [append digits_value].
  - reflexivity.
  - apply IH.
Qed.

Lemma exponent_text_head (ex : option (ascii * string * string)) :
  valid_exponent ex ->
  isdigit (peek (exponent_text ex)) = false
  /\ (peek (exponent_text ex) == ".") = false.
Proof.
  destruct ex as [[[ec sg] ed]|]; cbn [exponent_text peek valid_exponent].
  - intros ([-> | ->] & _); split; reflexivity.
  - intros _. split; reflexivity.
Qed.

Lemma scan_exponent_valid (ex : option (ascii * string * string)) :
  valid_exponent ex ->
  scan_exponent (exponent_text ex) = (exponent_value ex, ""%string).
Proof.
  unfold scan_exponent.
  destruct ex as [[[ec sg] ed]|]; cbn [exponent_text valid_exponent exponent_value];
    [|intros _; reflexivity].
  intros (Hec & Hsg & Hne & Hall). cbn [peek advance].
  assert ((ec == "e") || (ec == "E") = true) as -> by (destruct Hec as [-> | ->]; reflexivity).
  cbv beta iota zeta.
  assert (Hlen : (Z.of_nat (String.length ed) =? 0) = false).
  { apply Z.eqb_neq. destruct ed; [contradiction|]. cbn [String.length]. lia. }
  destruct ed as [|d ed']; [contradiction|].
  assert (Hd : (d == "-") = false /\ (d == "+") = false).
  { cbn [all_chars] in Hall. apply andb_prop in Hall.
    destruct Hall as [Hd _]. unfold digit_of in Hd.
    destruct (digit_in 10 d) eqn:E; [|discriminate]. apply digit_in_range in E.
    split; apply eqb_code; [change (code "-") with 45 | change (code "+") with 43]; lia. }
  destruct Hsg as [-> | [-> | ->]]; cbn [append peek advance String.eqb].
  - destruct Hd as [-> ->]. cbv beta iota zeta.
    rewrite scan_decimal_all by exact Hall. rewrite Z.add_0_l, Hlen. reflexivity.
  - change (("+" == "-")%char) with false. change (("+" == "+")%char) with true.
    cbv beta iota zeta.
    rewrite scan_decimal_all by exact Hall. rewrite Z.add_0_l, Hlen. reflexivity.
  - change (("-" == "-")%char) with true. cbv beta iota zeta.
    rewrite scan_decimal_all by exact Hall. rewrite Z.add_0_l, Hlen. reflexivity.
Qed.

(** [strtod] on a decimal literal. *)
Lemma strtod_decimal (ip : string) (fp : option string)
    (ex : option (ascii * string * string)) :
  valid_decimal ip fp ex ->
  strtod (decimal_text ip fp ex) = (decimal_value ip fp ex, ""%string).
Proof.
  intros (Hip & Hfp & Hne & Hex).
  destruct (exponent_text_head ex Hex) as [Hexd Hexp].
  unfold strtod, decimal_text, decimal_value.
  assert (Hcount : (Z.of_nat (String.length ip)
                    + Z.of_nat (String.length (fraction_digits fp)) =? 0) = false).
  { apply Z.eqb_neq. destruct ip; [|cbn [String.length]; lia].
    destruct (fraction_digits fp); [contradiction|]. cbn [String.length]. lia. }
  destruct fp as [f|]; cbn [fraction_digits] in *.
  - rewrite scan_decimal_app by (try assumption; reflexivity).
    cbv beta iota zeta. cbn [append peek advance].
    change (("." == ".")%char) with true. cbv iota.
    rewrite scan_decimal_app by assumption. cbv beta iota zeta.
    rewrite !Z.add_0_l, Hcount.
    rewrite (scan_exponent_valid ex Hex). rewrite digits_value_app. reflexivity.
  - cbn [append]. rewrite scan_decimal_app by assumption.
    cbv beta iota zeta. rewrite Hexp. cbv beta iota zeta.
    rewrite append_empty_r in *. rewrite Z.add_0_r in Hcount. rewrite !Z.add_0_l.
    rewrite Z.add_0_r, Hcount.
    rewrite (scan_exponent_valid ex Hex). reflexivity.
Qed.

Lemma decimal_text_head (ip : string) (fp : option string)
    (ex : option (ascii * string * string)) :
  valid_decimal ip fp ex ->
  exists c rest,
    decimal_text ip fp ex = String c rest
    /\ ((isdigit c = true) \/ (c = "."%char /\ isdigit (peek rest) = true))
    /\ (isdigit (peek rest) = true \/ peek rest = "."%char \/ peek rest = "e"%char
        \/ peek rest = "E"%char \/ peek rest = NUL).
Proof.
  intros (Hip & Hfp & Hne & Hex). unfold decimal_text.
  destruct ip as [|c0 t].
  - destruct fp as [[|d f']|]; cbn [fraction_digits append] in *;
      try (exfalso; apply Hne; reflexivity).
    cbn [all_chars] in Hfp. apply andb_prop in Hfp. destruct Hfp as [Hd _].
    apply digit10_isdigit in Hd. destruct Hd as [Hd _].
    exists "."%char, (String d (f' ++ exponent_text ex)).
    split; [reflexivity|]. split; [right|left]; auto.
  - cbn [all_chars] in Hip. apply andb_prop in Hip. destruct Hip as [Hc Ht].
    apply digit10_isdigit in Hc. destruct Hc as [Hc _].
    exists c0, (t ++ match fp with Some f => "." ++ f | None => "" end ++ exponent_text ex)%string.
    split; [reflexivity|]. split; [left; exact Hc|].
    destruct t as [|d t'].
    + destruct fp as [f|]; cbn [append peek]; [right; left; reflexivity|].
      destruct ex as [[[ec sg] ed]|]; cbn [exponent_text peek valid_exponent] in *.
      * destruct Hex as ([-> | ->] & _); tauto.
      * tauto.
    + cbn [all_chars] in Ht. apply andb_prop in Ht. destruct Ht as [Hd _].
      apply digit10_isdigit in Hd. left. exact (proj1 Hd).
Qed.

Lemma parse_number_decimal_literal (p : Parser) (ip : string) (fp : option string)
    (ex : option (ascii * string * string)) :
  pos p = decimal_text ip fp ex -> valid_decimal ip fp ex ->
  parse_number p = (true, set_num (decimal_value ip fp ex) (set_pos "" p)).
Proof.
  intros Hpos Hvalid.
  destruct (decimal_text_head ip fp ex Hvalid) as (c & rest & Htext & Hhead & Hsecond).
  assert (Hdec : parse_decimal p
                 = (true, set_num (decimal_value ip fp ex) (set_pos "" p))).
  { unfold parse_decimal. rewrite Hpos, (strtod_decimal ip fp ex Hvalid), Htext.
    cbn [peek advance].
    destruct Hhead as [-> | [-> ->]]; reflexivity. }
  unfold parse_number. rewrite Hdec, Hpos, Htext. cbn [peek advance].
  destruct ((c == "0") && negb (peek rest == NUL)); [|reflexivity].
  assert (Hnot : forall k : ascii, 58 <= code k -> k <> "e"%char -> k <> "E"%char ->
                                   (peek rest == k) = false).
  { intros k Hk He HE. apply Ascii.eqb_neq. intros Heq.
    destruct Hsecond as [H|[H|[H|[H|H]]]].
    - rewrite Heq in H. revert H. char_classes.
    - rewrite H in Heq. subst k. vm_compute in Hk. apply Hk. reflexivity.
    - congruence.
    - congruence.
    - rewrite H in Heq. subst k. vm_compute in Hk. apply Hk. reflexivity. }
  rewrite !Hnot by (try discriminate; vm_compute; discriminate). reflexivity.
Qed.

Lemma evaluate_decimal_literal (m : libm) (g : Globals) (ip : string)
    (fp : option string) (ex : option (ascii * string * string)) :
  valid_decimal ip fp ex ->
  evaluate m (decimal_text ip fp ex) g
  = Ok (decimal_value ip fp ex, set_fmt FMT_DEC g).
Proof.
  intros Hvalid. apply evaluate_number.
  destruct (decimal_text_head ip fp ex Hvalid) as (c & rest & Htext & Hhead & _).
  apply next_token_number.
  - cbn [pos initial_parser]. rewrite Htext. cbn [peek].
    destruct Hhead as [H | [-> _]]; [revert H; char_classes | reflexivity].
  - cbn [pos initial_parser]. rewrite Htext. cbn [peek].
    destruct Hhead as [H | [-> _]]; [|reflexivity].
    apply eqb_code. change (code NUL) with 0. revert H. char_classes.
  - apply parse_number_decimal_literal; [reflexivity | exact Hvalid].
Qed.

(** C3, as stated, fails beyond 64 bits: the binary literal of 2^64
    evaluates to 0 (the accumulator wraps), and the hexadecimal literal
    of 2^65 evaluates to 2^64 ([strtoull] saturates and the conversion
    rounds up), although a [double] holds 2^64 and 2^65 exactly. *)
Lemma literal_beyond_64_bits_counterexample :
  digits_value 2 "10000000000000000000000000000000000000000000000000000000000000000" 0
  = 2 ^ 64
  /\ integral (of_Z (2 ^ 64)) (2 ^ 64)
  /\ evaluate integers_libm
       "0b10000000000000000000000000000000000000000000000000000000000000000"
       initial_globals
     = Ok (zero, initial_globals)
  /\ digits_value 16 "20000000000000000" 0 = 2 ^ 65
  /\ integral (of_Z (2 ^ 65)) (2 ^ 65)
  /\ evaluate integers_libm "0x20000000000000000" initial_globals
     = Ok (of_Z (2 ^ 64), initial_globals).
Proof.
  repeat apply conj; vm_compute; reflexivity.
Qed.

(** C3, amended.  A hexadecimal, binary or octal literal whose value
    is below 2^64, and a decimal literal of any size (digits, with an
    optional fraction and an optional exponent), evaluates to the
    double nearest to the value it encodes, which is the value itself
    for an integer below 2^53; and [0xFF] is 255, [0b1010] is 10,
    [0o17] is 15 and [1e3] is 1000. *)
Theorem literal_value (m : libm) (g : Globals) (ds : string) :
  ds <> ""%string ->
  (all_chars (digit_of 16) ds = true -> digits_value 16 ds 0 < 2 ^ 64 ->
   evaluate m ("0x" ++ ds) g = Ok (of_Z (digits_value 16 ds 0), set_fmt FMT_DEC g))
  /\ (all_chars (digit_of 2) ds = true -> digits_value 2 ds 0 < 2 ^ 64 ->
      evaluate m ("0b" ++ ds) g = Ok (of_Z (digits_value 2 ds 0), set_fmt FMT_DEC g))
  /\ (all_chars (digit_of 8) ds = true -> digits_value 8 ds 0 < 2 ^ 64 ->
      evaluate m ("0o" ++ ds) g = Ok (of_Z (digits_value 8 ds 0), set_fmt FMT_DEC g))
  /\ (all_chars (digit_of 10) ds = true ->
      evaluate m ds g = Ok (of_Z (digits_value 10 ds 0), set_fmt FMT_DEC g))
  /\ (forall ip fp ex, valid_decimal ip fp ex ->
      evaluate m (decimal_text ip fp ex) g
      = Ok (decimal_value ip fp ex, set_fmt FMT_DEC g))
  /\ (forall base, 1 <= base -> digits_value base ds 0 < 2 ^ 53 ->
      integral (of_Z (digits_value base ds 0)) (digits_value base ds 0))
  /\ evaluate m "0xFF" g = Ok (of_Z 255, set_fmt FMT_DEC g)
  /\ evaluate m "0b1010" g = Ok (of_Z 10, set_fmt FMT_DEC g)
  /\ evaluate m "0o17" g = Ok (of_Z 15, set_fmt FMT_DEC g)
  /\ evaluate m "1e3" g = Ok (of_Z 1000, set_fmt FMT_DEC g).
Proof.
  intros Hne.
  assert (Hfit : forall v, v < 2 ^ 64 -> (if ULLONG_MAX <? v then ULLONG_MAX else v) = v).
  { intros v Hv. destruct (Z.ltb_spec ULLONG_MAX v) as [H|H]; [|reflexivity].
    unfold ULLONG_MAX in H. lia. }
  repeat apply conj.
  - intros Hall Hv. apply evaluate_number. apply next_token_number; try reflexivity.
    rewrite (parse_number_hex (initial_parser ("0x" ++ ds)) ds eq_refl Hne Hall), (Hfit _ Hv). reflexivity.
  - intros Hall Hv. apply evaluate_number. apply next_token_number; try reflexivity.
    rewrite (parse_number_binary (initial_parser ("0b" ++ ds)) ds eq_refl Hall Hv). reflexivity.
  - intros Hall Hv. apply evaluate_number. apply next_token_number; try reflexivity.
    rewrite (parse_number_octal (initial_parser ("0o" ++ ds)) ds eq_refl Hne Hall), (Hfit _ Hv). reflexivity.
  - intros Hall. apply evaluate_number.
    destruct ds as [|c t] eqn:Eds; [contradiction|]. rewrite <- Eds in *.
    assert (Hc : digit_of 10 c = true).
    { rewrite Eds in Hall. cbn [all_chars] in Hall. apply andb_prop in Hall. tauto. }
    apply next_token_number.
    + rewrite Eds. apply (digit_of_not_space 10 c Hc).
    + rewrite Eds. cbn [peek pos initial_parser]. apply eqb_code. unfold digit_of in Hc.
      destruct (digit_in 10 c) eqn:E; [|discriminate].
      apply digit_in_range in E. change (code NUL) with 0. lia.
    + apply (parse_number_decimal (initial_parser ds) ds eq_refl); [rewrite Eds; discriminate | exact Hall].
  - intros ip fp ex Hvalid. apply evaluate_decimal_literal. exact Hvalid.
  - intros base Hbase Hv. apply of_Z_integral.
    pose proof (digits_value_mono base ds 0 Hbase ltac:(lia)). lia.
  - vm_compute. reflexivity.
  - vm_compute. reflexivity.
  - vm_compute. reflexivity.
  - vm_compute. reflexivity.
Qed.

Lemma literal_value_witness :
  evaluate integers_libm "0x1F" initial_globals
  = Ok (of_Z (digits_value 16 "1F" 0), set_fmt FMT_DEC initial_globals).
Proof.
  apply (literal_value integers_libm initial_globals "1F").
  - discriminate.
  - reflexivity.
  - vm_compute. reflexivity.
Defined.

(** ** NaN and the operators *)

Lemma evaluate_undefined_plus_1 (m : libm) (g : Globals) (v : string) :
  identifier v -> undefined_name g v ->
  evaluate m (v ++ " + 1") g
  = Ok (nan, eprint ("undefined: " ++ v) (set_fmt FMT_DEC g)).
Proof.
  intros Hid Hundef.
  assert (Hget : get_var v (set_fmt FMT_DEC g)
                 = (nan, eprint ("undefined: " ++ v) (set_fmt FMT_DEC g))).
  { apply get_var_undefined. exact Hundef. }
  unfold evaluate. fold (initial_parser (v ++ " + 1")).
  rewrite (next_token_identifier (initial_parser (v ++ " + 1")) "" v " + 1");
    [|reflexivity | exact Hid | reflexivity | reflexivity].
  unfold parse_fuel. rewrite Nat.add_comm.
  generalize (8 * String.length (v ++ " + 1"))%nat. intros n.
  generalize dependent (set_fmt FMT_DEC g). intros g' Hget.
  set (p1 := set_id v (set_pos " + 1" (initial_parser (v ++ " + 1")))).
  assert (Hnext : next_token p1
                  = {| src := (v ++ " + 1")%string; pos := " 1"; cur := Token_of_op "+" |})
    by (vm_compute; reflexivity).
  rewrite Hnext. subst p1.
  replace (is_type _ TOK_ID) with true by (vm_compute; reflexivity).
  replace (is_op _ "=") with false by (vm_compute; reflexivity).
  cbn [Nat.add]. parser_simpl.
  descend.
  rewrite parse_primary_variable by (vm_compute; reflexivity).
  parser_simpl. rewrite Hget. cbn [fst snd].
  vm_compute. reflexivity.
Qed.

Lemma to_uint64_nan : to_uint64 nan = Undefined.
Proof. reflexivity. Qed.

Lemma rbind_undefined_r {A B : Type} (r : result A) :
  fueled r -> rbind r (fun _ => @Undefined B) = Undefined.
Proof. unfold fueled. destruct r; simpl; [reflexivity | reflexivity | contradiction]. Qed.

(** C2, as stated, fails for the bitwise operators: applied to the NaN
    of an undefined variable they do not yield NaN.  They convert the
    operand to [uint64_t], which C leaves undefined for a NaN. *)
Lemma bitwise_nan_counterexample :
  undefined_name initial_globals "x"
  /\ evaluate integers_libm "x | 1" initial_globals = Undefined
  /\ evaluate integers_libm "x & 1" initial_globals = Undefined
  /\ evaluate integers_libm "x << 1" initial_globals = Undefined
  /\ evaluate integers_libm "1 >> x" initial_globals = Undefined.
Proof.
  split; [repeat split; discriminate|].
  repeat apply conj; vm_compute; reflexivity.
Qed.

(** C2, amended.  For every undefined variable [v], [v + 1] evaluates
    to NaN (and the name is reported).  The arithmetic operators [+],
    [-], [*] and [/] yield NaN as soon as an operand is NaN, and so does
    [%] when the platform's [fmod] follows ISO C.  The bitwise
    operators [&], [|], [<<] and [>>] do not propagate NaN: on a NaN
    operand the conversion to [uint64_t] is undefined, and whatever
    they return is the conversion of an integer, never a NaN. *)
Theorem nan_propagation (m : libm) (g : Globals) (v : string) :
  identifier v -> undefined_name g v ->
  evaluate m (v ++ " + 1") g
  = Ok (nan, eprint ("undefined: " ++ v) (set_fmt FMT_DEC g))
  /\ (forall o x, additive_op o nan x = Ok nan /\ additive_op o x nan = Ok nan)
  /\ (forall o x, o = "*"%char \/ o = "/"%char ->
        term_op m o nan x = Ok nan /\ term_op m o x nan = Ok nan)
  /\ (fmod_propagates_nan m ->
      forall x, term_op m "%" nan x = Ok nan /\ term_op m "%" x nan = Ok nan)
  /\ (forall o x,
        bitand_op o nan x = Undefined /\ bitand_op o x nan = Undefined
        /\ bitor_op o nan x = Undefined /\ bitor_op o x nan = Undefined
        /\ shift_op o nan x = Undefined /\ shift_op o x nan = Undefined)
  /\ (forall o l r y,
        bitand_op o l r = Ok y \/ bitor_op o l r = Ok y \/ shift_op o l r = Ok y ->
        isnan y = false).
Proof.
  intros Hid Hundef. repeat apply conj.
  - apply evaluate_undefined_plus_1; assumption.
  - intros o x. unfold additive_op. split.
    + destruct (o == "+"); reflexivity.
    + destruct (o == "+"); destruct x; reflexivity.
  - intros o x [-> | ->]; unfold term_op; split; try reflexivity;
      destruct x; reflexivity.
  - intros Hfmod x. unfold term_op.
    change (("%" == "*")%char) with false. change (("%" == "/")%char) with false.
    cbv iota. destruct (Hfmod x) as [-> ->]. split; reflexivity.
  - intros o x. unfold bitand_op, bitor_op, shift_op.
    rewrite to_uint64_nan. cbn [rbind].
    assert (to_int nan = Undefined) as -> by reflexivity.
    pose proof (fueled_to_uint 64 x) as Hx. unfold fueled in Hx.
    fold to_uint64 in Hx.
    destruct (to_uint64 x) as [a| |]; cbn [rbind];
      [| | contradiction]; repeat apply conj; reflexivity.
  - intros o l r y. unfold bitand_op, bitor_op, shift_op.
    destruct (to_uint64 l) as [a| |]; cbn [rbind];
      try (intros [H|[H|H]]; discriminate H).
    destruct (to_uint64 r) as [b| |], (to_int r) as [n| |]; cbn [rbind];
      try (destruct (if o == "L" then shl64 a n else shr64 a n); cbn [rbind]);
      intros [H|[H|H]]; try discriminate H;
      injection H as <-; apply of_Z_not_nan.
Qed.

Lemma nan_propagation_witness :
  evaluate integers_libm "y + 1" initial_globals
  = Ok (nan, eprint "undefined: y" (set_fmt FMT_DEC initial_globals)).
Proof.
  apply (nan_propagation integers_libm initial_globals "y").
  - repeat split; unfold MAX_NAME; simpl; lia.
  - repeat split; discriminate.
Defined.

(** ** Unique names *)

Lemma evaluate_unique (m : libm) (line : string) (g : Globals) (v : double) (g' : Globals) :
  unique_names g -> evaluate m line g = Ok (v, g') -> unique_names g'.
Proof.
  intros Hu. unfold evaluate. fold (initial_parser line).
  set (p0 := next_token (initial_parser line)).
  assert (Hframe : forall fuel p a p' g'',
            parse_expr m fuel p (set_fmt FMT_DEC g) = Ok (a, p', g'') ->
            unique_names g'').
  { intros fuel p a p' g'' E.
    destruct (frames_parser m fuel) as (_ & _ & _ & _ & _ & _ & _ & Hf).
    destruct (Hf _ _ _ _ _ E) as (Hv & _). unfold unique_names, names in *.
    rewrite Hv. exact Hu. }
  destruct (is_type (cur p0) TOK_ID) eqn:Eid.
  - destruct (is_op (cur (next_token p0)) "=").
    + destruct (parse_expr m _ _ _) as [[[a p'] g'']| |] eqn:E; try discriminate.
      intros [= <- <-]. apply set_var_unique.
      * apply next_token_id_length. exact Eid.
      * eapply Hframe. exact E.
    + destruct (parse_expr m _ _ _) as [[[a p'] g'']| |] eqn:E; try discriminate.
      intros [= <- <-]. eapply Hframe. exact E.
  - destruct (parse_expr m _ _ _) as [[[a p'] g'']| |] eqn:E; try discriminate.
    intros [= <- <-]. eapply Hframe. exact E.
Qed.

Lemma print_result_vars (m : libm) (val : double) (g g' : Globals) :
  print_result m val g = Ok g' -> vars g' = vars g.
Proof.
  unfold print_result. destruct (isnan val); [intros [= <-]; reflexivity|].
  destruct (g_output_fmt g);
    try (destruct (to_uint64 val); cbn [rbind]; try discriminate;
         intros [= <-]; reflexivity).
  destruct (_ && _); intros [= <-]; reflexivity.
Qed.

Lemma repl_step_unique (m : libm) (line : string) (g : Globals) (v : double) (g' : Globals) :
  unique_names g -> repl_step m line g = Ok (v, g') -> unique_names g'.
Proof.
  intros Hu. unfold repl_step.
  destruct (evaluate m line g) as [[res g1]| |] eqn:E; try discriminate.
  destruct (print_result m res g1) as [g2| |] eqn:Ep; cbn [rbind]; try discriminate.
  intros [= <- <-]. apply set_var_unique; [unfold MAX_NAME; simpl; lia|].
  apply print_result_vars in Ep. unfold unique_names, names. rewrite Ep.
  apply (evaluate_unique m line g res g1 Hu E).
Qed.

Lemma evaluate_x_times_2 (m : libm) (g : Globals) (x : double) :
  find_var (vars g) "x" = Some x ->
  evaluate m "x*2" g = Ok (mul x (of_Z 2), set_fmt FMT_DEC g).
Proof.
  intros Hx.
  assert (Hget : get_var "x" (set_fmt FMT_DEC g) = (x, set_fmt FMT_DEC g))
    by (apply get_var_bound; exact Hx).
  rewrite (evaluate_expression m "x*2" g
             (set_id "x" (set_pos "*2" (initial_parser "x*2")))
             (set_cur (Token_of_op "*") (set_pos "2" (initial_parser "x*2"))))
    by (vm_compute; reflexivity).
  generalize dependent (set_fmt FMT_DEC g). intros g' Hget.
  assert (parse_fuel "x*2" = 40%nat) as -> by reflexivity.
  parser_simpl. descend.
  rewrite parse_primary_variable by (vm_compute; reflexivity).
  parser_simpl. rewrite Hget. cbn [fst snd].
  vm_compute. reflexivity.
Qed.

Lemma evaluate_x (m : libm) (g : Globals) (x : double) :
  find_var (vars g) "x" = Some x ->
  evaluate m "x" g = Ok (x, set_fmt FMT_DEC g).
Proof.
  intros Hx.
  assert (Hget : get_var "x" (set_fmt FMT_DEC g) = (x, set_fmt FMT_DEC g))
    by (apply get_var_bound; exact Hx).
  rewrite (evaluate_expression m "x" g
             (set_id "x" (set_pos "" (initial_parser "x")))
             (set_cur (Token_of_type TOK_END) (set_pos "" (initial_parser "x"))))
    by (vm_compute; reflexivity).
  generalize dependent (set_fmt FMT_DEC g). intros g' Hget.
  assert (parse_fuel "x" = 24%nat) as -> by reflexivity.
  parser_simpl. descend.
  rewrite parse_primary_variable by (vm_compute; reflexivity).
  parser_simpl. rewrite Hget. cbn [fst snd].
  vm_compute. reflexivity.
Qed.

Lemma evaluate_assign_x_5 (m : libm) (g : Globals) :
  evaluate m "x = 5" g = Ok (of_Z 5, set_var "x" (of_Z 5) (set_fmt FMT_DEC g)).
Proof.
  rewrite (evaluate_assignment m "x = 5" g
             (set_id "x" (set_pos " = 5" (initial_parser "x = 5")))
             (set_cur (Token_of_op "=") (set_pos " 5" (initial_parser "x = 5"))))
    by (vm_compute; reflexivity).
  replace (parse_expr m _ _ _)
    with (Ok (of_Z 5, set_cur (Token_of_type TOK_END) (set_pos "" (initial_parser "x = 5")),
              set_fmt FMT_DEC g)) by (vm_compute; reflexivity).
  reflexivity.
Qed.

Lemma evaluate_assign_x_7 (m : libm) (g : Globals) :
  evaluate m "x = 7" g = Ok (of_Z 7, set_var "x" (of_Z 7) (set_fmt FMT_DEC g)).
Proof.
  rewrite (evaluate_assignment m "x = 7" g
             (set_id "x" (set_pos " = 7" (initial_parser "x = 7")))
             (set_cur (Token_of_op "=") (set_pos " 7" (initial_parser "x = 7"))))
    by (vm_compute; reflexivity).
  replace (parse_expr m _ _ _)
    with (Ok (of_Z 7, set_cur (Token_of_type TOK_END) (set_pos "" (initial_parser "x = 7")),
              set_fmt FMT_DEC g)) by (vm_compute; reflexivity).
  reflexivity.
Qed.

(** C7.  Unique names are an invariant of [evaluate] and of a turn of
    the interactive loop, and [evaluate] always returns.  Assigning to a
    bound name overwrites its value and leaves the list of names as it
    was.  Where [x] is bound or the store has room, [x = 5] then [x*2]
    gives 10, and [x = 7] then [x] gives 7, with one binding for [x]. *)
Theorem unique_names_invariant (m : libm) (g : Globals) :
  unique_names g ->
  (forall line v g', evaluate m line g = Ok (v, g') -> unique_names g')
  /\ (forall line v g', repl_step m line g = Ok (v, g') -> unique_names g')
  /\ (forall line, fueled (evaluate m line g))
  /\ (forall nm x y, find_var (vars g) nm = Some y ->
        names (set_var nm x g) = names g
        /\ find_var (vars (set_var nm x g)) nm = Some x)
  /\ ((In "x"%string (names g) \/ (var_count g < MAX_VARS)%nat) ->
      exists g1 g2 g3 g4,
        evaluate m "x = 5" g = Ok (of_Z 5, g1)
        /\ evaluate m "x*2" g1 = Ok (of_Z 10, g2)
        /\ evaluate m "x = 7" g2 = Ok (of_Z 7, g3)
        /\ evaluate m "x" g3 = Ok (of_Z 7, g4)
        /\ count_occ string_dec (names g4) "x"%string = 1%nat).
Proof.
  intros Hu. repeat apply conj.
  - intros line v g'. apply evaluate_unique. exact Hu.
  - intros line v g'. apply repl_step_unique. exact Hu.
  - intros line. apply evaluate_total.
  - intros nm x y. apply set_var_overwrite.
  - intros Hroom.
    set (g1 := set_var "x" (of_Z 5) (set_fmt FMT_DEC g)).
    set (g2 := set_fmt FMT_DEC g1).
    set (g3 := set_var "x" (of_Z 7) (set_fmt FMT_DEC g2)).
    exists g1, g2, g3, (set_fmt FMT_DEC g3).
    assert (H1 : find_var (vars g1) "x" = Some (of_Z 5)).
    { apply set_var_bound; [exact Hroom | unfold MAX_NAME; simpl; lia]. }
    assert (H3 : find_var (vars g3) "x" = Some (of_Z 7)).
    { apply set_var_bound; [|unfold MAX_NAME; simpl; lia].
      left. apply (find_var_Some_In _ _ _ H1). }
    assert (Hu3 : unique_names g3).
    { apply set_var_unique; [unfold MAX_NAME; simpl; lia|].
      apply (set_var_unique "x" (of_Z 5) (set_fmt FMT_DEC g));
        [unfold MAX_NAME; simpl; lia | exact Hu]. }
    repeat apply conj.
    + exact (evaluate_assign_x_5 m g).
    + rewrite (evaluate_x_times_2 m g1 (of_Z 5) H1).
      replace (mul (of_Z 5) (of_Z 2)) with (of_Z 10) by (vm_compute; reflexivity).
      reflexivity.
    + exact (evaluate_assign_x_7 m g2).
    + exact (evaluate_x m g3 (of_Z 7) H3).
    + apply Nat.le_antisymm.
      * apply (proj1 (NoDup_count_occ string_dec _) Hu3).
      * apply (proj1 (count_occ_In string_dec _ _)).
        apply (find_var_Some_In _ _ _ H3).
Qed.

Lemma unique_names_invariant_witness :
  exists g1 g2 g3 g4,
    evaluate integers_libm "x = 5" initial_globals = Ok (of_Z 5, g1)
    /\ evaluate integers_libm "x*2" g1 = Ok (of_Z 10, g2)
    /\ evaluate integers_libm "x = 7" g2 = Ok (of_Z 7, g3)
    /\ evaluate integers_libm "x" g3 = Ok (of_Z 7, g4)
    /\ count_occ string_dec (names g4) "x"%string = 1%nat.
Proof.
  refine (proj2 (proj2 (proj2 (proj2
            (unique_names_invariant integers_libm initial_globals _)))) _).
  - constructor.
  - right. unfold var_count, MAX_VARS. simpl. lia.
Defined.

(** ** Assignment of a NaN *)

Lemma append_length (a b : string) :
  String.length (a ++ b) = (String.length a + String.length b)%nat.
Proof. induction a as [|c t IH]; simpl; [reflexivity | rewrite IH; reflexivity]. Qed.

(** The [=] of an assignment, after white space. *)
Lemma next_token_equals (p : Parser) (ws rest : string) :
  all_chars isspace ws = true -> pos p = (ws ++ "=" ++ rest)%string ->
  next_token p = set_cur (Token_of_op "=") (set_pos rest p).
Proof.
  intros Hws Hpos. unfold next_token, skip_ws. rewrite Hpos.
  rewrite drop_while_app; [|exact Hws|reflexivity].
  cbn [append pos set_pos peek]. change ("=" == NUL)%char with false. cbv iota.
  replace (parse_number _) with (false, set_pos (String "=" rest) p)
    by (unfold parse_number, parse_decimal; reflexivity).
  reflexivity.
Qed.

Lemma space_not_ident (c : ascii) : isspace c = true -> ident_char c = false.
Proof.
  intros H. unfold ident_char.
  assert (code c = 32 \/ 9 <= code c <= 13) as Hc by (revert H; char_classes).
  rewrite (eqb_code c "_") by (change (code "_") with 95; lia).
  rewrite orb_false_r. char_classes.
Qed.

Lemma peek_after_spaces (ws rest : string) :
  all_chars isspace ws = true ->
  ident_char (peek (ws ++ "=" ++ rest)) = false.
Proof.
  destruct ws as [|c t]; [reflexivity|]. cbn [all_chars append peek].
  intros H. apply andb_prop in H. apply space_not_ident. tauto.
Qed.

(** C10.  An assignment whose right-hand side evaluates to NaN still
    calls [set_var]: the result is NaN and the store is the one that
    [set_var] makes of the name and NaN, in which, when the name was
    bound or the store had room, the name is bound to NaN. *)
Theorem assignment_stores_nan (m : libm) (g : Globals) (nm ws rhs : string)
    (fuel : nat) (p' : Parser) (g' : Globals) :
  identifier nm -> all_chars isspace ws = true ->
  parse_expr m fuel
    (next_token {| src := (nm ++ ws ++ "=" ++ rhs)%string; pos := rhs;
                   cur := Token_of_op "=" |})
    (set_fmt FMT_DEC g)
  = Ok (nan, p', g') ->
  evaluate m (nm ++ ws ++ "=" ++ rhs) g = Ok (nan, set_var nm nan g')
  /\ ((In nm (names g) \/ (var_count g < MAX_VARS)%nat) ->
      find_var (vars (set_var nm nan g')) nm = Some nan).
Proof.
  intros Hid Hws Hrhs.
  assert (Hlen : (String.length rhs <= String.length (nm ++ ws ++ "=" ++ rhs))%nat)
    by (rewrite !append_length; cbn [String.length]; lia).
  remember (nm ++ ws ++ "=" ++ rhs)%string as line eqn:Hline.
  remember {| src := line; pos := rhs; cur := Token_of_op "=" |} as p2 eqn:Hp2.
  assert (Hfuel : parse_expr m (parse_fuel line) (next_token p2) (set_fmt FMT_DEC g)
                  = Ok (nan, p', g')).
  { apply (parse_expr_fuel_irrelevant m fuel); [exact Hrhs|].
    assert (Hend : is_type (cur p2) TOK_END = false) by (rewrite Hp2; reflexivity).
    pose proof (next_token_measure p2 Hend) as Hm.
    unfold measure at 2 in Hm. rewrite Hend in Hm.
    assert (pos p2 = rhs) as Hpos by (rewrite Hp2; reflexivity).
    rewrite Hpos in Hm. unfold parse_fuel. lia. }
  split.
  - rewrite (evaluate_assignment m line g
               (set_id nm (set_pos (ws ++ "=" ++ rhs) (initial_parser line)))
               (set_cur (Token_of_op "=") (set_pos rhs (initial_parser line)))).
    + replace (set_cur (Token_of_op "=") (set_pos rhs (initial_parser line))) with p2
        by (rewrite Hp2; reflexivity).
      rewrite Hfuel. reflexivity.
    + apply (next_token_identifier (initial_parser line) "" nm (ws ++ "=" ++ rhs));
        [reflexivity | exact Hid | apply peek_after_spaces; exact Hws | exact Hline].
    + reflexivity.
    + rewrite (next_token_equals
                 (set_id nm (set_pos (ws ++ "=" ++ rhs) (initial_parser line)))
                 ws rhs Hws eq_refl).
      reflexivity.
    + reflexivity.
  - intros Hroom.
    destruct (frames_parser m fuel) as (_ & _ & _ & _ & _ & _ & _ & Hf).
    destruct (Hf _ _ _ _ _ Hrhs) as (Hv & _).
    apply set_var_bound; [|apply Hid].
    unfold names, var_count in *. rewrite Hv. exact Hroom.
Qed.

Lemma assignment_stores_nan_witness :
  evaluate integers_libm "x = someUndefinedVar" initial_globals
  = Ok (nan, set_var "x" nan (eprint "undefined: someUndefinedVar" initial_globals))
  /\ find_var (vars (set_var "x" nan
                       (eprint "undefined: someUndefinedVar" initial_globals))) "x"
     = Some nan.
Proof.
  assert (H := assignment_stores_nan integers_libm initial_globals
                 "x" " " " someUndefinedVar" 20
                 {| src := "x = someUndefinedVar"; pos := "";
                    cur := Token_of_type TOK_END |}
                 (eprint "undefined: someUndefinedVar" initial_globals)).
  destruct H as [H1 H2].
  - repeat split; unfold MAX_NAME; simpl; lia.
  - reflexivity.
  - vm_compute. reflexivity.
  - split; [exact H1 | apply H2]. right. unfold var_count, MAX_VARS. simpl. lia.
Defined.

(** * Further properties of the code *)

(** ** The variable store *)

Lemma find_var_app_other (vs : list Var) (nm other : string) (x : double) :
  other <> nm ->
  find_var (vs ++ [{| name := nm; value := x |}]) other = find_var vs other.
Proof.
  intros Hne. induction vs as [|v rest IH]; cbn [app find_var name value].
  - destruct (streq nm other) eqn:E; [|reflexivity].
    apply streq_eq in E. congruence.
  - destruct (streq (name v) other); [reflexivity | exact IH].
Qed.

Lemma strncpy_length (s : string) (n : nat) :
  (String.length (strncpy s n) <= n)%nat.
Proof.
  revert s. induction n as [|n IH]; intros s.
  - destruct s; cbn; lia.
  - destruct s as [|c t]; cbn [strncpy String.length]; [lia|].
    specialize (IH t). lia.
Qed.

Lemma update_var_length (vs vs' : list Var) (nm : string) (x : double) :
  update_var vs nm x = Some vs' -> List.length vs' = List.length vs.
Proof.
  intros H. apply update_var_names in H.
  rewrite <- (length_map name vs'), H. apply length_map.
Qed.

Lemma Forall_names (P : string -> Prop) (vs : list Var) :
  Forall (fun v => P (name v)) vs <-> Forall P (map name vs).
Proof. symmetry. apply Forall_map. Qed.

Lemma set_var_within_bounds (nm : string) (x : double) (g : Globals) :
  store_within_bounds g -> store_within_bounds (set_var nm x g).
Proof.
  intros [Hcount Hnames]. unfold store_within_bounds, set_var, var_count in *.
  destruct (update_var (vars g) nm x) as [vs|] eqn:E.
  - cbn [vars set_vars]. split.
    + rewrite (update_var_length _ _ _ _ E). exact Hcount.
    + apply (Forall_names (fun s => (String.length s < MAX_NAME)%nat)).
      rewrite (update_var_names _ _ _ _ E).
      apply (Forall_names (fun s => (String.length s < MAX_NAME)%nat)). exact Hnames.
  - destruct (Nat.ltb_spec (List.length (vars g)) MAX_VARS) as [Hroom|Hfull].
    + cbn [vars set_vars]. split.
      * rewrite length_app. cbn [List.length]. lia.
      * apply Forall_app. split; [exact Hnames|].
        constructor; [|constructor]. cbn [name].
        pose proof (strncpy_length nm (MAX_NAME - 1)). unfold MAX_NAME in *. lia.
    + split; assumption.
Qed.

(** What [evaluate] does to the store: nothing, or one [set_var] of
    the result under a name that fits the buffer. *)
Lemma evaluate_vars (m : libm) (line : string) (g : Globals) (v : double) (g' : Globals) :
  evaluate m line g = Ok (v, g') ->
  stdout g' = stdout g
  /\ (vars g' = vars g
      \/ exists nm, (String.length nm < MAX_NAME)%nat
                    /\ vars g' = vars (set_var nm v g)).
Proof.
  unfold evaluate. fold (initial_parser line).
  set (p0 := next_token (initial_parser line)).
  assert (Hframe : forall fuel p a p' g'',
            parse_expr m fuel p (set_fmt FMT_DEC g) = Ok (a, p', g'') ->
            vars g'' = vars g /\ stdout g'' = stdout g).
  { intros fuel p a p' g'' E.
    destruct (frames_parser m fuel) as (_ & _ & _ & _ & _ & _ & _ & Hf).
    destruct (Hf _ _ _ _ _ E) as (Hv & Ho & _). split; assumption. }
  destruct (is_type (cur p0) TOK_ID) eqn:Eid.
  - destruct (is_op (cur (next_token p0)) "=").
    + destruct (parse_expr m _ _ _) as [[[a p'] g'']| |] eqn:E; try discriminate.
      intros [= <- <-]. destruct (Hframe _ _ _ _ _ E) as [Hv Ho]. split.
      * unfold set_var. destruct (update_var _ _ _); [exact Ho|].
        destruct (_ <? _)%nat; exact Ho.
      * right. exists (id (cur p0)). split; [apply next_token_id_length; exact Eid|].
        unfold set_var, var_count. rewrite Hv.
        destruct (update_var _ _ _); [reflexivity|].
        destruct (_ <? _)%nat; [reflexivity | exact Hv].
    + destruct (parse_expr m _ _ _) as [[[a p'] g'']| |] eqn:E; try discriminate.
      intros [= <- <-]. destruct (Hframe _ _ _ _ _ E). auto.
  - destruct (parse_expr m _ _ _) as [[[a p'] g'']| |] eqn:E; try discriminate.
    intros [= <- <-]. destruct (Hframe _ _ _ _ _ E). auto.
Qed.

Lemma within_bounds_vars (g g' : Globals) :
  vars g' = vars g -> store_within_bounds g -> store_within_bounds g'.
Proof. unfold store_within_bounds, var_count. intros ->. tauto. Qed.

Lemma evaluate_within_bounds (m : libm) (line : string) (g : Globals)
    (v : double) (g' : Globals) :
  store_within_bounds g -> evaluate m line g = Ok (v, g') -> store_within_bounds g'.
Proof.
  intros Hb E. destruct (evaluate_vars m line g v g' E) as (_ & [Hv | (nm & _ & Hv)]).
  - apply (within_bounds_vars g g' Hv Hb).
  - apply (within_bounds_vars _ g' Hv). apply set_var_within_bounds. exact Hb.
Qed.

Lemma repl_step_within_bounds (m : libm) (line : string) (g : Globals)
    (v : double) (g' : Globals) :
  store_within_bounds g -> repl_step m line g = Ok (v, g') -> store_within_bounds g'.
Proof.
  intros Hb. unfold repl_step.
  destruct (evaluate m line g) as [[res g1]| |] eqn:E; try discriminate.
  destruct (print_result m res g1) as [g2| |] eqn:Ep; cbn [rbind]; try discriminate.
  intros [= <- <-]. apply set_var_within_bounds.
  apply (within_bounds_vars g1 g2 (print_result_vars m res g1 g2 Ep)).
  apply (evaluate_within_bounds m line g res g1 Hb E).
Qed.

Lemma print_help_vars (g : Globals) :
  vars (print_help g) = vars g /\ stderr (print_help g) = stderr g
  /\ g_output_fmt (print_help g) = g_output_fmt g
  /\ stdout (print_help g) = (stdout g ++ help_text)%list.
Proof.
  unfold print_help. generalize help_text. intros text. revert g.
  induction text as [|l text IH]; intros g; cbn [fold_left].
  - rewrite app_nil_r. auto.
  - destruct (IH (print l g)) as (Hv & He & Hf & Ho).
    rewrite Hv, He, Hf, Ho. cbn [print vars stderr stdout g_output_fmt].
    rewrite <- app_assoc. auto.
Qed.

Lemma repl_loop_within_bounds (m : libm) (lines hist : list string) (g : Globals)
    (hist' : list string) (g' : Globals) :
  store_within_bounds g -> repl_loop m lines hist g = Ok (hist', g') ->
  store_within_bounds g'.
Proof.
  revert hist g. induction lines as [|line rest IH]; intros hist g Hb; cbn [repl_loop].
  - intros [= _ <-]. exact Hb.
  - destruct (peek line == NUL); [apply IH; exact Hb|].
    destruct (streq line "q" || streq line "quit" || streq line "exit");
      [intros [= _ <-]; exact Hb|].
    destruct (streq line "help" || streq line "?").
    + apply IH. apply (within_bounds_vars g); [apply print_help_vars | exact Hb].
    + destruct (repl_step m line g) as [[res g1]| |] eqn:E; try discriminate.
      apply IH. apply (repl_step_within_bounds m line g res g1 Hb E).
Qed.

Lemma set_var_eprint (nm line : string) (x : double) (g : Globals) :
  set_var nm x (eprint line g) = eprint line (set_var nm x g).
Proof.
  unfold set_var, var_count. cbn [vars eprint].
  destruct (update_var (vars g) nm x); [reflexivity|].
  destruct (_ <? _)%nat; reflexivity.
Qed.

Lemma get_var_after_set_var (nm other : string) (x : double) (g : Globals) :
  find_var (vars (set_var nm x g)) other = find_var (vars g) other ->
  streq other "ans" = false \/ find_var (vars g) other <> None ->
  get_var other (set_var nm x g)
  = (fst (get_var other g), set_var nm x (snd (get_var other g))).
Proof.
  intros Hfind Hans. unfold get_var. rewrite Hfind.
  destruct (find_var (vars g) other) as [y|]; [reflexivity|].
  destruct Hans as [Hans | Hans]; [|congruence]. rewrite Hans.
  repeat match goal with
         | |- context [if ?b then _ else _] => destruct b; [reflexivity|]
         end.
  cbn [fst snd]. rewrite set_var_eprint. reflexivity.
Qed.

Lemma set_var_first_entry (nm : string) (x : double) (g : Globals) :
  (In nm (names g) \/ (var_count g < MAX_VARS)%nat) ->
  match vars (set_var nm x g) with
  | v :: _ => value v
  | [] => zero
  end
  = match vars g with
    | [] => x
    | v :: _ => if streq (name v) nm then x else value v
    end.
Proof.
  intros Hroom. unfold set_var, names, var_count in *.
  destruct (vars g) as [|v vs] eqn:Ev.
  - cbn [update_var]. destruct Hroom as [[] | Hroom].
    apply Nat.ltb_lt in Hroom. rewrite Hroom. reflexivity.
  - cbn [update_var]. destruct (streq (name v) nm); [reflexivity|].
    destruct (update_var vs nm x); [reflexivity|].
    destruct (_ <? _)%nat; [reflexivity|]. rewrite Ev. reflexivity.
Qed.

(** X1.  Insert and lookup.  For a name that fits the buffer, in a
    store where it is bound or that has room, [get_var] after [set_var]
    returns the value that was set, without a diagnostic.  For every
    other name [set_var] changes neither the entry of the store nor
    what [get_var] returns and reports, with one exception: while [ans]
    is not bound, [get_var] reads it from the first entry, so it
    becomes the value that was set when the store was empty or its
    first entry has the name that was set. *)
Theorem set_var_then_get_var (nm other : string) (x : double) (g : Globals) :
  (String.length nm < MAX_NAME)%nat ->
  (In nm (names g) \/ (var_count g < MAX_VARS)%nat) ->
  get_var nm (set_var nm x g) = (x, set_var nm x g)
  /\ (other <> nm ->
      find_var (vars (set_var nm x g)) other = find_var (vars g) other
      /\ (other <> "ans"%string \/ In "ans"%string (names g) ->
          get_var other (set_var nm x g)
          = (fst (get_var other g), set_var nm x (snd (get_var other g)))))
  /\ (nm <> "ans"%string -> find_var (vars g) "ans" = None ->
      get_var "ans" (set_var nm x g)
      = (match vars g with
         | [] => x
         | v :: _ => if streq (name v) nm then x else value v
         end, set_var nm x g)).
Proof.
  intros Hlen Hroom.
  assert (Hother : forall o, o <> nm ->
            find_var (vars (set_var nm x g)) o = find_var (vars g) o).
  { intros o Hne. unfold set_var.
    destruct (update_var (vars g) nm x) as [vs|] eqn:E.
    - cbn [vars set_vars]. apply (find_var_other_update _ _ _ _ _ E Hne).
    - destruct (var_count g <? MAX_VARS)%nat; [|reflexivity].
      cbn [vars set_vars]. rewrite strncpy_short by (unfold MAX_NAME in *; lia).
      apply find_var_app_other. exact Hne. }
  split; [|split].
  - apply get_var_bound. apply set_var_bound; assumption.
  - intros Hne. split; [apply Hother, Hne|]. intros Hans.
    apply get_var_after_set_var; [apply Hother, Hne|].
    destruct Hans as [Hans | Hans].
    + left. destruct (streq other "ans") eqn:E; [|reflexivity].
      apply streq_eq in E. contradiction.
    + destruct (streq other "ans") eqn:E; [|left; reflexivity].
      right. apply streq_eq in E. subst other. intros Hnone.
      apply find_var_None in Hnone. contradiction.
  - intros Hne Hnone. unfold get_var.
    rewrite (Hother "ans"%string) by (intros H; apply Hne; symmetry; exact H).
    rewrite Hnone. cbn [streq String.eqb Ascii.eqb Bool.eqb orb].
    rewrite (set_var_first_entry nm x g Hroom). reflexivity.
Qed.

Lemma set_var_then_get_var_witness :
  get_var "x" (set_var "x" (of_Z 5) initial_globals)
  = (of_Z 5, set_var "x" (of_Z 5) initial_globals)
  /\ get_var "y" (set_var "x" (of_Z 5) initial_globals)
     = (fst (get_var "y" initial_globals),
        set_var "x" (of_Z 5) (snd (get_var "y" initial_globals)))
  /\ get_var "ans" (set_var "x" (of_Z 5) initial_globals)
     = (of_Z 5, set_var "x" (of_Z 5) initial_globals).
Proof.
  refine ((fun H => conj (proj1 H)
                      (conj (proj2 (proj1 (proj2 H) _) _) (proj2 (proj2 H) _ _)))
            (set_var_then_get_var "x" "y" (of_Z 5) initial_globals _ _)).
  - discriminate.
  - left. discriminate.
  - discriminate.
  - reflexivity.
  - unfold MAX_NAME. simpl. lia.
  - right. unfold var_count, MAX_VARS. simpl. lia.
Defined.

(** X2.  The store stays within its arrays.  Whatever the name and
    however long it is, [set_var] leaves at most [MAX_VARS] entries,
    each with a name shorter than [MAX_NAME]; so do [evaluate] on every
    line and the interactive loop on every sequence of lines. *)
Theorem store_bounds_invariant (m : libm) (g : Globals) :
  store_within_bounds g ->
  (forall nm x, store_within_bounds (set_var nm x g))
  /\ (forall line v g', evaluate m line g = Ok (v, g') -> store_within_bounds g')
  /\ (forall lines hist hist' g',
        repl_loop m lines hist g = Ok (hist', g') -> store_within_bounds g').
Proof.
  intros Hb. repeat apply conj.
  - intros nm x. apply set_var_within_bounds. exact Hb.
  - intros line v g'. apply evaluate_within_bounds. exact Hb.
  - intros lines hist hist' g'. apply repl_loop_within_bounds. exact Hb.
Qed.

Lemma store_bounds_invariant_witness :
  store_within_bounds
    (set_var "a_name_that_is_longer_than_the_buffer_of_the_store" (of_Z 1)
       initial_globals).
Proof.
  apply (store_bounds_invariant integers_libm initial_globals).
  split; [unfold var_count, MAX_VARS; simpl; lia | constructor].
Defined.

(** ** The built-in functions *)

Lemma to_uint_integral (bits : Z) (x : double) (u : Z) :
  trunc x = Some u -> 0 <= u < 2 ^ bits -> to_uint bits x = Ok u.
Proof.
  intros Ht Hu. unfold to_uint. rewrite Ht.
  replace ((0 <=? u) && (u <? 2 ^ bits)) with true; [reflexivity|].
  symmetry. apply andb_true_iff. lia.
Qed.

Lemma to_uint_out_of_range (bits : Z) (x : double) (u : Z) :
  trunc x = Some u -> ~ 0 <= u < 2 ^ bits -> to_uint bits x = Undefined.
Proof.
  intros Ht Hu. unfold to_uint. rewrite Ht.
  replace ((0 <=? u) && (u <? 2 ^ bits)) with false; [reflexivity|].
  symmetry. apply andb_false_iff. lia.
Qed.

Lemma log2_below (a n : Z) : 0 <= n -> 0 <= a < 2 ^ n -> a = 0 \/ Z.log2 a < n.
Proof.
  intros Hn Ha. destruct (Z.eq_dec a 0) as [->|Hz]; [left; reflexivity|right].
  apply Z.log2_lt_pow2; lia.
Qed.

Lemma below_log2 (a n : Z) : 0 <= n -> 0 <= a -> Z.log2 a < n -> a < 2 ^ n.
Proof.
  intros Hn Ha Hl. destruct (Z.eq_dec a 0) as [->|Hz].
  - apply Z.pow_pos_nonneg; lia.
  - apply Z.log2_lt_pow2; lia.
Qed.

Lemma lor_below (a b n : Z) :
  0 < n -> 0 <= a < 2 ^ n -> 0 <= b < 2 ^ n -> 0 <= Z.lor a b < 2 ^ n.
Proof.
  intros Hn Ha Hb.
  assert (H0 : 0 <= Z.lor a b) by (apply Z.lor_nonneg; lia).
  split; [exact H0|]. apply below_log2; [lia | exact H0 |].
  rewrite Z.log2_lor by lia.
  destruct (log2_below a n ltac:(lia) Ha) as [->|La];
    destruct (log2_below b n ltac:(lia) Hb) as [->|Lb]; cbn [Z.log2]; lia.
Qed.

Lemma lxor_below (a b n : Z) :
  0 < n -> 0 <= a < 2 ^ n -> 0 <= b < 2 ^ n -> 0 <= Z.lxor a b < 2 ^ n.
Proof.
  intros Hn Ha Hb.
  assert (H0 : 0 <= Z.lxor a b) by (apply Z.lxor_nonneg; lia).
  split; [exact H0|]. apply below_log2; [lia | exact H0 |].
  pose proof (Z.log2_lxor a b ltac:(lia) ltac:(lia)) as Hl.
  destruct (log2_below a n ltac:(lia) Ha) as [->|La];
    destruct (log2_below b n ltac:(lia) Hb) as [->|Lb]; cbn [Z.log2] in *; lia.
Qed.

Lemma land_below (a b n : Z) :
  0 < n -> 0 <= a < 2 ^ n -> 0 <= b -> 0 <= Z.land a b < 2 ^ n.
Proof.
  intros Hn Ha Hb.
  assert (H0 : 0 <= Z.land a b) by (apply Z.land_nonneg; lia).
  split; [exact H0|]. apply below_log2; [lia | exact H0 |].
  pose proof (Z.log2_land a b ltac:(lia) ltac:(lia)) as Hl.
  destruct (log2_below a n ltac:(lia) Ha) as [->|La]; [rewrite Z.land_0_l; cbn; lia | lia].
Qed.

(** X3.  The bitwise functions and operators on integers.  On doubles
    that hold the integers [a] and [b] below 2^64, [band], [bor] and
    [bxor], and the operators [&] and [|], return the conversion of the
    bitwise and, or and exclusive or of [a] and [b]; when [a] and [b]
    are below 2^53 the result holds that integer exactly. *)
Theorem bitwise_functions_exact (m : libm) (x y : double) (a b : Z) :
  trunc x = Some a -> trunc y = Some b -> 0 <= a < 2 ^ 64 -> 0 <= b < 2 ^ 64 ->
  call_func2 m "band" x y = Ok (of_Z (Z.land a b))
  /\ call_func2 m "bor" x y = Ok (of_Z (Z.lor a b))
  /\ call_func2 m "bxor" x y = Ok (of_Z (Z.lxor a b))
  /\ bitand_op "&" x y = Ok (of_Z (Z.land a b))
  /\ bitor_op "|" x y = Ok (of_Z (Z.lor a b))
  /\ (a < 2 ^ 53 -> b < 2 ^ 53 ->
      integral (of_Z (Z.land a b)) (Z.land a b)
      /\ integral (of_Z (Z.lor a b)) (Z.lor a b)
      /\ integral (of_Z (Z.lxor a b)) (Z.lxor a b)).
Proof.
  intros Hx Hy Ha Hb.
  pose proof (to_uint_integral 64 x a Hx Ha) as Ex.
  pose proof (to_uint_integral 64 y b Hy Hb) as Ey.
  unfold call_func2, bitand_op, bitor_op, to_uint64.
  cbn [streq String.eqb Ascii.eqb Bool.eqb]. rewrite Ex, Ey. cbn [rbind].
  repeat apply conj; try reflexivity.
  intros Ha' Hb'.
  pose proof (land_below a b 53 ltac:(lia) ltac:(lia) ltac:(lia)).
  pose proof (lor_below a b 53 ltac:(lia) ltac:(lia) ltac:(lia)).
  pose proof (lxor_below a b 53 ltac:(lia) ltac:(lia) ltac:(lia)).
  repeat apply conj; apply of_Z_integral; lia.
Qed.

Lemma bitwise_functions_exact_witness :
  call_func2 integers_libm "band" (of_Z 12) (of_Z 10) = Ok (of_Z (Z.land 12 10))
  /\ call_func2 integers_libm "bor" (of_Z 12) (of_Z 10) = Ok (of_Z (Z.lor 12 10))
  /\ call_func2 integers_libm "bxor" (of_Z 12) (of_Z 10) = Ok (of_Z (Z.lxor 12 10)).
Proof.
  refine ((fun H => conj (proj1 H) (conj (proj1 (proj2 H)) (proj1 (proj2 (proj2 H)))))
            (bitwise_functions_exact integers_libm (of_Z 12) (of_Z 10) 12 10 _ _ _ _));
    try reflexivity; lia.
Defined.

Lemma call_func_not (m : libm) (g : Globals) (x : double) :
  call_func m "not8" x g = (u <~ to_uint 8 x ;; Ok (of_Z (lnot 8 u), g))
  /\ call_func m "not16" x g = (u <~ to_uint 16 x ;; Ok (of_Z (lnot 16 u), g))
  /\ call_func m "not32" x g = (u <~ to_uint 32 x ;; Ok (of_Z (lnot 32 u), g))
  /\ call_func m "bnot" x g = (u <~ to_uint 64 x ;; Ok (of_Z (lnot 64 u), g)).
Proof. repeat apply conj; reflexivity. Qed.

(** X4.  The complements of 8, 16 and 32 bits.  On a double that holds
    the integer [u] with [0 <= u < 2^bits], [not8], [not16] and [not32]
    return [2^bits - 1 - u], held exactly, and applying the function
    twice gives the argument back; on an integer outside that range the
    conversion to the narrow type has no defined behaviour. *)
Theorem narrow_complement (m : libm) (g : Globals) (x : double) (u bits : Z)
    (fn : string) :
  (bits = 8 /\ fn = "not8" \/ bits = 16 /\ fn = "not16" \/ bits = 32 /\ fn = "not32") ->
  integral x u ->
  (0 <= u < 2 ^ bits ->
   call_func m fn x g = Ok (of_Z (2 ^ bits - 1 - u), g)
   /\ integral (of_Z (2 ^ bits - 1 - u)) (2 ^ bits - 1 - u)
   /\ call_func m fn (of_Z (2 ^ bits - 1 - u)) g = Ok (x, g))
  /\ (~ 0 <= u < 2 ^ bits -> call_func m fn x g = Undefined).
Proof.
  intros Hfn [Hx Hof].
  assert (Hcall : forall y, call_func m fn y g
                            = (v <~ to_uint bits y ;; Ok (of_Z (lnot bits v), g))).
  { intros y. destruct (call_func_not m g y) as (H8 & H16 & H32 & _).
    destruct Hfn as [[-> ->] | [[-> ->] | [-> ->]]]; assumption. }
  assert (Hbits : 0 < bits <= 32) by (destruct Hfn as [[-> _] | [[-> _] | [-> _]]]; lia).
  assert (Hpow : 2 ^ bits <= 2 ^ 32) by (apply Z.pow_le_mono_r; lia).
  split.
  - intros Hu.
    assert (Hv : 0 <= 2 ^ bits - 1 - u < 2 ^ bits) by lia.
    assert (Hint : integral (of_Z (2 ^ bits - 1 - u)) (2 ^ bits - 1 - u))
      by (apply of_Z_integral; lia).
    rewrite !Hcall, (to_uint_integral bits x u Hx Hu).
    rewrite (to_uint_integral bits _ _ (proj1 Hint) Hv). cbn [rbind]. unfold lnot.
    split; [reflexivity|]. split; [exact Hint|].
    replace (2 ^ bits - 1 - (2 ^ bits - 1 - u)) with u by lia. rewrite Hof. reflexivity.
  - intros Hu. rewrite Hcall, (to_uint_out_of_range bits x u Hx Hu). reflexivity.
Qed.

Lemma narrow_complement_witness :
  call_func integers_libm "not8" (of_Z 240) initial_globals
  = Ok (of_Z (2 ^ 8 - 1 - 240), initial_globals)
  /\ call_func integers_libm "not8" (of_Z (2 ^ 8 - 1 - 240)) initial_globals
     = Ok (of_Z 240, initial_globals).
Proof.
  refine ((fun H => conj (proj1 H) (proj2 (proj2 H)))
            (proj1 (narrow_complement integers_libm initial_globals (of_Z 240) 240 8 "not8"
                      _ _) _)).
  - left. split; reflexivity.
  - split; reflexivity.
  - lia.
Defined.

(** The integers within 1024 of 2^64 round to 2^64. *)
Lemma of_Z_rounds_to_2_64 (u : Z) :
  0 <= u <= 1023 -> of_Z (2 ^ 64 - 1 - u) = of_Z (2 ^ 64).
Proof.
  intros Hu.
  assert (Hall : forallb (fun n => match of_Z (2 ^ 64 - 1 - Z.of_nat n) with
                                   | S754_finite false mm e =>
                                       Pos.eqb mm 4503599627370496 && (e =? 12)
                                   | _ => false
                                   end) (seq 0 1024) = true)
    by (vm_compute; reflexivity).
  rewrite forallb_forall in Hall. specialize (Hall (Z.to_nat u)).
  rewrite Z2Nat.id in Hall by lia.
  assert (Hin : In (Z.to_nat u) (seq 0 1024)) by (apply in_seq; lia).
  specialize (Hall Hin).
  destruct (of_Z (2 ^ 64 - 1 - u)) as [| | |[|] mm e]; try discriminate.
  apply andb_prop in Hall. destruct Hall as [Hm He].
  apply Pos.eqb_eq in Hm. apply Z.eqb_eq in He. subst. reflexivity.
Qed.

(** X5.  The 64-bit complement leaves the range of [uint64_t].  On a
    double that holds the integer [u] below 2^64, [bnot] and the
    operator [~] return the conversion of [2^64 - 1 - u] to [double];
    for [u <= 1023] that conversion rounds to 2^64, which no longer
    converts to [uint64_t]: complementing twice, or printing the
    complement in the Hex, Binary or Octal format, has no defined
    behaviour. *)
Theorem complement_rounds_out_of_range (m : libm) (g : Globals) (x : double) (u : Z) :
  trunc x = Some u -> 0 <= u < 2 ^ 64 ->
  call_func m "bnot" x g = Ok (of_Z (2 ^ 64 - 1 - u), g)
  /\ (u <= 1023 ->
      call_func m "bnot" x g = Ok (of_Z (2 ^ 64), g)
      /\ call_func m "bnot" (of_Z (2 ^ 64)) g = Undefined
      /\ (g_output_fmt g <> FMT_DEC -> print_result m (of_Z (2 ^ 64)) g = Undefined))
  /\ evaluate m "~0" g = Ok (of_Z (2 ^ 64), set_fmt FMT_DEC g)
  /\ evaluate m "~~0" g = Undefined
  /\ repl_step m "hex(~0)" g = Undefined.
Proof.
  intros Hx Hu.
  assert (Hcall : call_func m "bnot" x g = Ok (of_Z (2 ^ 64 - 1 - u), g)).
  { destruct (call_func_not m g x) as (_ & _ & _ & ->).
    rewrite (to_uint_integral 64 x u Hx Hu). reflexivity. }
  split; [exact Hcall|]. split.
  - intros Hsmall. repeat apply conj.
    + rewrite Hcall, of_Z_rounds_to_2_64 by lia. reflexivity.
    + reflexivity.
    + intros Hfmt. unfold print_result.
      change (isnan (of_Z (2 ^ 64))) with false. cbv iota.
      destruct (g_output_fmt g); [contradiction | reflexivity ..].
  - repeat apply conj; vm_compute; reflexivity.
Qed.

Lemma complement_rounds_out_of_range_witness :
  call_func integers_libm "bnot" (of_Z 5) initial_globals
  = Ok (of_Z (2 ^ 64), initial_globals)
  /\ call_func integers_libm "bnot" (of_Z (2 ^ 64)) initial_globals = Undefined.
Proof.
  refine ((fun H => conj (proj1 H) (proj1 (proj2 H)))
            (proj1 (proj2 (complement_rounds_out_of_range integers_libm initial_globals
                             (of_Z 5) 5 _ _)) _)).
  - reflexivity.
  - lia.
  - lia.
Defined.

Lemma ctz_pos_lowest (p : positive) : lowest_set_bit (Zpos p) (ctz_pos p).
Proof.
  induction p as [q IH|q IH|]; cbn [ctz_pos].
  - split; [lia|]. split; [reflexivity | intros i Hi; lia].
  - destruct IH as (Hk & Hbit & Hlow). split; [|split].
    + lia.
    + change (Zpos q~0) with (2 * Zpos q). rewrite Z.add_comm.
      change (ctz_pos q + 1) with (Z.succ (ctz_pos q)).
      rewrite Z.testbit_even_succ by exact Hk. exact Hbit.
    + intros i Hi. change (Zpos q~0) with (2 * Zpos q).
      destruct (Z.eq_dec i 0) as [->|Hi0]; [apply Z.testbit_even_0|].
      replace i with (Z.succ (i - 1)) by lia.
      rewrite Z.testbit_even_succ by lia. apply Hlow. lia.
  - split; [lia|]. split; [reflexivity | intros i Hi; lia].
Qed.

Lemma lowest_set_bit_bound (u k : Z) : 0 < u -> lowest_set_bit u k -> k <= Z.log2 u.
Proof.
  intros Hu (Hk & Hbit & _). destruct (Z.le_gt_cases k (Z.log2 u)) as [H|H]; [exact H|].
  rewrite Z.bits_above_log2 in Hbit by lia. discriminate.
Qed.

(** X6.  The zero guard of [clz] and [ctz].  Both return 64 for an
    argument that compares equal to zero.  The guard tests the
    [double], not the integer that the builtin receives: an argument
    that is not zero and whose integral part is zero reaches
    [__builtin_clzll(0)] or [__builtin_ctzll(0)], whose result is
    undefined, while [popcount] returns 0 for it.  On a double whose
    integral part [u] is positive and below 2^64, [clz] is 63 minus the
    index of the highest set bit and [ctz] is the index of the lowest
    set bit of [u]. *)
Theorem bit_counting_zero_guard (m : libm) (g : Globals) (x : double) :
  (eqb x zero = true ->
   call_func m "clz" x g = Ok (of_Z 64, g) /\ call_func m "ctz" x g = Ok (of_Z 64, g))
  /\ (eqb x zero = false -> trunc x = Some 0 ->
      call_func m "clz" x g = Undefined
      /\ call_func m "ctz" x g = Undefined
      /\ call_func m "popcount" x g = Ok (of_Z 0, g))
  /\ (forall u, trunc x = Some u -> 0 < u < 2 ^ 64 ->
      call_func m "clz" x g = Ok (of_Z (63 - Z.log2 u), g)
      /\ 0 <= 63 - Z.log2 u <= 63
      /\ exists k, call_func m "ctz" x g = Ok (of_Z k, g)
                   /\ lowest_set_bit u k /\ k <= 63).
Proof.
  assert (Hclz : call_func m "clz" x g
                 = if eqb x zero then Ok (of_Z 64, g)
                   else u <~ to_uint64 x ;; n <~ clzll u ;; Ok (of_Z n, g))
    by reflexivity.
  assert (Hctz : call_func m "ctz" x g
                 = if eqb x zero then Ok (of_Z 64, g)
                   else u <~ to_uint64 x ;; n <~ ctzll u ;; Ok (of_Z n, g))
    by reflexivity.
  assert (Hpop : call_func m "popcount" x g
                 = (u <~ to_uint64 x ;; Ok (of_Z (popcountll u), g)))
    by reflexivity.
  rewrite Hclz, Hctz, Hpop. clear Hclz Hctz Hpop. repeat apply conj.
  - intros ->. split; reflexivity.
  - intros -> Ht. unfold to_uint64. rewrite (to_uint_integral 64 x 0 Ht) by lia.
    repeat apply conj; reflexivity.
  - intros u Ht Hu.
    assert (Hnz : eqb x zero = false).
    { destruct x as [s| | |s mm e]; cbn [trunc] in Ht; try discriminate;
        [injection Ht as <-; lia | destruct s; reflexivity]. }
    rewrite Hnz. unfold to_uint64. rewrite (to_uint_integral 64 x u Ht) by lia.
    destruct u as [|p|p]; try lia. cbn [rbind clzll ctzll].
    assert (Hlog : 0 <= Z.log2 (Zpos p) < 64).
    { split; [apply Z.log2_nonneg|]. apply Z.log2_lt_pow2; lia. }
    split; [reflexivity|]. split; [lia|].
    exists (ctz_pos p). pose proof (ctz_pos_lowest p) as Hlow.
    pose proof (lowest_set_bit_bound (Zpos p) _ ltac:(lia) Hlow).
    split; [reflexivity|]. split; [exact Hlow | lia].
Qed.

Lemma bit_counting_zero_guard_witness :
  call_func integers_libm "clz" (of_decimal 5 (-1)) initial_globals = Undefined
  /\ call_func integers_libm "ctz" (of_decimal 5 (-1)) initial_globals = Undefined
  /\ call_func integers_libm "popcount" (of_decimal 5 (-1)) initial_globals
     = Ok (of_Z 0, initial_globals).
Proof.
  apply (proj1 (proj2 (bit_counting_zero_guard integers_libm initial_globals
                         (of_decimal 5 (-1))))); reflexivity.
Defined.

(** X7.  Functions called with the wrong number of arguments.  A name
    of the two-argument table called with one argument is reported as
    an unknown function and yields NaN; so is every name outside the
    one-argument table.  With two arguments, every name outside the
    two-argument table, the one-argument functions included, yields NaN
    and no diagnostic at all. *)
Theorem function_arity (m : libm) (nm : string) (a b : double) (g : Globals) :
  (In nm binary_function_names ->
   call_func m nm a g = Ok (nan, eprint ("unknown function: " ++ nm) g))
  /\ (~ In nm unary_function_names ->
      call_func m nm a g = Ok (nan, eprint ("unknown function: " ++ nm) g))
  /\ (~ In nm binary_function_names -> call_func2 m nm a b = Ok nan)
  /\ evaluate m "pow(2)" g
     = Ok (nan, eprint "unknown function: pow" (set_fmt FMT_DEC g))
  /\ evaluate m "sqrt(4, 9)" g = Ok (nan, set_fmt FMT_DEC g).
Proof.
  assert (Hnot : forall names, ~ In nm names ->
                   forall s, In s names -> streq nm s = false).
  { intros names Hn s Hs. destruct (streq nm s) eqn:E; [|reflexivity].
    apply streq_eq in E. subst s. contradiction. }
  repeat apply conj.
  - intros Hin. unfold binary_function_names in Hin. cbn [In] in Hin.
    repeat (destruct Hin as [<-|Hin]; [reflexivity|]). contradiction.
  - intros Hn. specialize (Hnot _ Hn). unfold call_func.
    repeat match goal with
           | |- context [streq nm ?s] =>
               rewrite (Hnot s) by (unfold unary_function_names;
                                    repeat first [left; reflexivity | right])
           end.
    reflexivity.
  - intros Hn. specialize (Hnot _ Hn). unfold call_func2.
    repeat match goal with
           | |- context [streq nm ?s] =>
               rewrite (Hnot s) by (unfold binary_function_names;
                                    repeat first [left; reflexivity | right])
           end.
    reflexivity.
  - vm_compute. reflexivity.
  - vm_compute. reflexivity.
Qed.

Lemma function_arity_witness :
  call_func integers_libm "atan2" (of_Z 1) initial_globals
  = Ok (nan, eprint "unknown function: atan2" initial_globals)
  /\ call_func2 integers_libm "sin" (of_Z 1) (of_Z 2) = Ok nan.
Proof.
  split.
  - apply (proj1 (function_arity integers_libm "atan2" (of_Z 1) (of_Z 2) initial_globals)).
    simpl. tauto.
  - apply (proj1 (proj2 (proj2 (function_arity integers_libm "sin" (of_Z 1) (of_Z 2)
                                  initial_globals)))).
    simpl. intuition discriminate.
Defined.

(** ** The tokenizer *)

Lemma suffix_refl (s : string) : suffix_of s s.
Proof. exists ""%string. reflexivity. Qed.

Lemma suffix_trans (a b c : string) : suffix_of a b -> suffix_of b c -> suffix_of a c.
Proof.
  intros [p1 ->] [p2 ->]. exists (p2 ++ p1)%string. symmetry. apply append_assoc.
Qed.

Lemma suffix_tail (c : ascii) (s t : string) : suffix_of s t -> suffix_of s (String c t).
Proof. intros [pre ->]. exists (String c pre). reflexivity. Qed.

Lemma suffix_advance (s : string) : suffix_of (advance s) s.
Proof. destruct s; [apply suffix_refl | apply suffix_tail, suffix_refl]. Qed.

Lemma suffix_length (s t : string) :
  suffix_of s t -> (String.length s <= String.length t)%nat.
Proof. intros [pre ->]. rewrite append_length. lia. Qed.

Lemma suffix_drop_while (f : ascii -> bool) (s : string) : suffix_of (drop_while f s) s.
Proof.
  induction s as [|c t IH]; cbn [drop_while]; [apply suffix_refl|].
  destruct (f c); [apply suffix_tail, IH | apply suffix_refl].
Qed.

Lemma suffix_scan_digits (base : Z) (s : string) (acc : Z) :
  suffix_of (snd (scan_digits base s acc)) s.
Proof.
  revert acc. induction s as [|c t IH]; intros acc; cbn [scan_digits];
    [apply suffix_refl|].
  destruct (digit_in base c); [apply suffix_tail, IH | apply suffix_refl].
Qed.

Lemma suffix_scan_binary (s : string) (val : Z) : suffix_of (snd (scan_binary s val)) s.
Proof.
  revert val. induction s as [|c t IH]; intros val; cbn [scan_binary];
    [apply suffix_refl|].
  destruct ((c == "0") || (c == "1")); [apply suffix_tail, IH | apply suffix_refl].
Qed.

Lemma suffix_scan_decimal (s : string) (acc n : Z) :
  suffix_of (snd (scan_decimal s acc n)) s.
Proof.
  revert acc n. induction s as [|c t IH]; intros acc n; cbn [scan_decimal];
    [apply suffix_refl|].
  destruct (isdigit c); [apply suffix_tail, IH | apply suffix_refl].
Qed.

Lemma suffix_scan_ident (s : string) (room : nat) :
  suffix_of (snd (scan_ident s room)) s.
Proof.
  revert s. induction room as [|r IH]; intros s; [destruct s; apply suffix_refl|].
  destruct s as [|c t]; cbn [scan_ident]; [apply suffix_refl|].
  destruct (isalnum c || (c == "_")); [|apply suffix_refl].
  specialize (IH t). destruct (scan_ident t r) as [nm rest].
  apply suffix_tail. exact IH.
Qed.

Lemma suffix_sign (t : string) :
  suffix_of (snd (if peek t == "-" then (true, advance t)
                  else if peek t == "+" then (false, advance t) else (false, t))) t.
Proof.
  destruct (peek t == "-"); [apply suffix_advance|].
  destruct (peek t == "+"); [apply suffix_advance | apply suffix_refl].
Qed.

Lemma suffix_strtoull (s : string) (base : Z) : suffix_of (snd (strtoull s base)) s.
Proof.
  unfold strtoull.
  pose proof (suffix_drop_while isspace s) as Hws.
  pose proof (suffix_sign (drop_while isspace s)) as Hsign.
  destruct (if peek (drop_while isspace s) == "-" then _ else _) as [negative s1].
  cbn [snd] in Hsign.
  assert (H1 : suffix_of s1 s) by (eapply suffix_trans; eassumption).
  set (prefixed := (base =? 16) && _ && _).
  assert (Hbody : suffix_of (if prefixed then advance (advance s1) else s1) s).
  { destruct prefixed; [|exact H1].
    eapply suffix_trans; [apply suffix_advance|].
    eapply suffix_trans; [apply suffix_advance | exact H1]. }
  pose proof (suffix_scan_digits base (if prefixed then advance (advance s1) else s1) 0)
    as Hd.
  destruct (scan_digits base _ 0) as [v rest]. cbn [snd] in Hd.
  destruct (ptr_eq rest _).
  - destruct prefixed; cbn [snd]; [|apply suffix_refl].
    eapply suffix_trans; [apply suffix_advance | exact H1].
  - destruct (ULLONG_MAX <? v); cbn [snd]; eapply suffix_trans; eassumption.
Qed.

Lemma suffix_scan_exponent (s : string) : suffix_of (snd (scan_exponent s)) s.
Proof.
  unfold scan_exponent.
  destruct ((peek s == "e") || (peek s == "E")); [|apply suffix_refl].
  pose proof (suffix_sign (advance s)) as Hsign.
  destruct (if peek (advance s) == "-" then _ else _) as [minus t]. cbn [snd] in Hsign.
  pose proof (suffix_scan_decimal t 0 0) as Hd.
  destruct (scan_decimal t 0 0) as [[v n] rest]. cbn [snd] in Hd.
  destruct (n =? 0); cbn [snd]; [apply suffix_refl|].
  eapply suffix_trans; [exact Hd|].
  eapply suffix_trans; [exact Hsign | apply suffix_advance].
Qed.

Lemma suffix_strtod (s : string) : suffix_of (snd (strtod s)) s.
Proof.
  unfold strtod.
  pose proof (suffix_scan_decimal s 0 0) as H1.
  destruct (scan_decimal s 0 0) as [[ip ni] s1]. cbn [snd] in H1.
  assert (H2 : suffix_of
                 (snd (if peek s1 == "." then scan_decimal (advance s1) ip 0
                       else (ip, 0, s1))) s).
  { destruct (peek s1 == "."); [|exact H1].
    eapply suffix_trans; [apply suffix_scan_decimal|].
    eapply suffix_trans; [apply suffix_advance | exact H1]. }
  destruct (if peek s1 == "." then _ else _) as [[mm nf] s2]. cbn [snd] in H2.
  destruct (ni + nf =? 0); [apply suffix_refl|].
  pose proof (suffix_scan_exponent s2) as H3.
  destruct (scan_exponent s2) as [ex s3]. cbn [snd] in *.
  eapply suffix_trans; eassumption.
Qed.

Lemma suffix_parse_number (p : Parser) :
  suffix_of (pos (snd (parse_number p))) (pos p)
  /\ src (snd (parse_number p)) = src p.
Proof.
  assert (Hdec : suffix_of (pos (snd (parse_decimal p))) (pos p)
                 /\ src (snd (parse_decimal p)) = src p).
  { unfold parse_decimal. destruct (_ || _); [|split; [apply suffix_refl | reflexivity]].
    pose proof (suffix_strtod (pos p)) as H.
    destruct (strtod (pos p)) as [x e]. split; [exact H | reflexivity]. }
  unfold parse_number.
  destruct ((peek (pos p) == "0") && _); [|exact Hdec].
  assert (Hbody : suffix_of (advance (advance (pos p))) (pos p))
    by (eapply suffix_trans; apply suffix_advance).
  destruct ((_ == "x") || _).
  { pose proof (suffix_strtoull (advance (advance (pos p))) 16) as H.
    destruct (strtoull _ 16) as [v e]. cbn [snd] in H.
    destruct (ptr_eq e _); cbn [snd pos src set_pos set_num set_cur];
      split; try reflexivity; [apply suffix_refl | eapply suffix_trans; eassumption]. }
  destruct ((_ == "b") || _).
  { pose proof (suffix_scan_binary (advance (advance (pos p))) 0) as H.
    destruct (scan_binary _ 0) as [v e]. cbn [snd] in H.
    split; [|reflexivity]. cbn [snd pos src set_pos set_num set_cur].
    eapply suffix_trans; eassumption. }
  destruct ((_ == "o") || _).
  { pose proof (suffix_strtoull (advance (advance (pos p))) 8) as H.
    destruct (strtoull _ 8) as [v e]. cbn [snd] in H.
    destruct (ptr_eq e _); cbn [snd pos src set_pos set_num set_cur];
      split; try reflexivity; [apply suffix_refl | eapply suffix_trans; eassumption]. }
  exact Hdec.
Qed.

Lemma next_token_suffix (p : Parser) :
  suffix_of (pos (next_token p)) (pos p) /\ src (next_token p) = src p.
Proof.
  unfold next_token.
  assert (Hws : suffix_of (pos (skip_ws p)) (pos p) /\ src (skip_ws p) = src p)
    by (split; [apply suffix_drop_while | reflexivity]).
  generalize dependent (skip_ws p). intros q [Hq Hsrc].
  destruct (peek (pos q) == NUL); [split; assumption|].
  pose proof (suffix_parse_number q) as [Hn Hnsrc].
  destruct (parse_number q) as [is_number q1]. cbn [snd] in *.
  assert (H1 : suffix_of (pos q1) (pos p)) by (eapply suffix_trans; eassumption).
  assert (Hs1 : src q1 = src p) by (rewrite Hnsrc; exact Hsrc).
  destruct is_number; [split; assumption|].
  destruct (isalpha (peek (pos q1)) || (peek (pos q1) == "_")).
  { pose proof (suffix_scan_ident (pos q1) (MAX_NAME - 1)) as Hi.
    destruct (scan_ident (pos q1) (MAX_NAME - 1)) as [nm rest]. cbn [snd] in Hi.
    split; [|exact Hs1]. cbn [pos set_id set_cur set_pos].
    eapply suffix_trans; eassumption. }
  assert (H2 : suffix_of (advance (pos q1)) (pos p))
    by (eapply suffix_trans; [apply suffix_advance | exact H1]).
  assert (H3 : suffix_of (advance (advance (pos q1))) (pos p))
    by (eapply suffix_trans; [apply suffix_advance | exact H2]).
  repeat match goal with
         | |- context [if ?b then _ else _] => destruct b
         end;
    (split; [assumption | exact Hs1]).
Qed.

(** A token other than the end consumes at least one character. *)
Lemma next_token_progress (p : Parser) :
  is_type (cur (next_token p)) TOK_END = false ->
  (String.length (pos (next_token p)) < String.length (pos p))%nat.
Proof.
  unfold next_token.
  pose proof (drop_while_length isspace (pos p)) as Hws.
  change (drop_while isspace (pos p)) with (pos (skip_ws p)) in Hws.
  generalize dependent (skip_ws p). intros q Hws.
  destruct (peek (pos q) == NUL) eqn:Hnul; [discriminate|].
  destruct (parse_number q) as [[|] q1] eqn:Hnum.
  { apply parse_number_true in Hnum. intros _. lia. }
  apply parse_number_false in Hnum. subst q1.
  destruct (isalpha (peek (pos q)) || (peek (pos q) == "_")) eqn:Hid.
  { pose proof (scan_ident_consumes (pos q) (MAX_NAME - 2) Hid) as Hl.
    change (S (MAX_NAME - 2)) with (MAX_NAME - 1)%nat in Hl.
    destruct (scan_ident (pos q) (MAX_NAME - 1)) as [nm rest].
    intros _. simpl in *. lia. }
  destruct (peek_not_NUL _ Hnul) as (c & t & Hq).
  rewrite Hq in *. cbn [peek advance].
  pose proof (advance_length t) as Ht.
  assert (Hlen : (String.length t < String.length (pos p))%nat) by (simpl in Hws; lia).
  intros _.
  repeat match goal with
         | |- context [if ?b then _ else _] => destruct b
         end;
    simpl; lia.
Qed.

Lemma tokens_ahead_suffix (n : nat) (p : Parser) :
  suffix_of (pos (tokens_ahead n p)) (pos p) /\ src (tokens_ahead n p) = src p.
Proof.
  induction n as [|n [IH1 IH2]]; cbn [tokens_ahead].
  - split; [apply suffix_refl | reflexivity].
  - destruct (next_token_suffix (tokens_ahead n p)) as [H1 H2].
    split; [eapply suffix_trans; eassumption | rewrite H2; exact IH2].
Qed.

(** ** The parser moves by tokens and reads through the cursor *)

Lemma tokens_ahead_add (n k : nat) (p : Parser) :
  tokens_ahead n (tokens_ahead k p) = tokens_ahead (n + k) p.
Proof. induction n as [|n IH]; cbn [tokens_ahead Nat.add]; congruence. Qed.

Lemma advances_ret {A : Type} (a : A) : advances (ret a).
Proof. intros p g a' p' g' [= _ <- _]. exists 0%nat. reflexivity. Qed.

Lemma advances_bind {A B : Type} (c : M A) (k : A -> M B) :
  advances c -> (forall a, advances (k a)) -> advances (bind c k).
Proof.
  intros Hc Hk p g b p2 g2. unfold bind.
  destruct (c p g) as [[[a p1] g1]| |] eqn:E; try discriminate.
  intros H2. destruct (Hc _ _ _ _ _ E) as [n1 ->].
  destruct (Hk _ _ _ _ _ _ H2) as [n2 ->].
  exists (n2 + n1)%nat. apply tokens_ahead_add.
Qed.

Lemma advances_current : advances current.
Proof. intros p g a p' g' [= _ <- _]. exists 0%nat. reflexivity. Qed.

Lemma advances_advance_token : advances advance_token.
Proof. intros p g a p' g' [= _ <- _]. exists 1%nat. reflexivity. Qed.

Lemma advances_lift {A : Type} (r : result A) : advances (lift r).
Proof.
  intros p g a p' g'. unfold lift. destruct r; cbn [rbind]; try discriminate.
  intros [= _ <- _]. exists 0%nat. reflexivity.
Qed.

Lemma advances_global {A : Type} (f : Globals -> result (A * Globals)) :
  advances (global f).
Proof.
  intros p g a p' g'. unfold global. destruct (f g) as [[a1 g1]| |]; try discriminate.
  intros [= _ <- _]. exists 0%nat. reflexivity.
Qed.

Lemma advances_out_of_fuel {A : Type} : advances (@out_of_fuel A).
Proof. intros p g a p' g'. discriminate. Qed.

Lemma set_src_next_token (s : string) (p : Parser) :
  next_token (set_src s p) = set_src s (next_token p).
Proof.
  unfold next_token, skip_ws, parse_number, parse_decimal.
  repeat (cbv beta iota zeta;
          cbn [pos cur src set_src set_pos set_cur set_num set_id];
          match goal with
          | |- context [strtod ?x] => destruct (strtod x)
          | |- context [strtoull ?x ?b] => destruct (strtoull x b)
          | |- context [scan_binary ?x ?v] => destruct (scan_binary x v)
          | |- context [scan_ident ?x ?n] => destruct (scan_ident x n)
          | |- context [if ?b then _ else _] => destruct b
          end);
    reflexivity.
Qed.

Lemma src_blind_ret {A : Type} (a : A) : src_blind (ret a).
Proof. intros s p g. reflexivity. Qed.

Lemma src_blind_bind {A B : Type} (c : M A) (k : A -> M B) :
  src_blind c -> (forall a, src_blind (k a)) -> src_blind (bind c k).
Proof.
  intros Hc Hk s p g. unfold bind. rewrite Hc.
  destruct (c p g) as [[[a p1] g1]| |]; cbn [with_src]; [apply Hk | reflexivity ..].
Qed.

Lemma src_blind_current : src_blind current.
Proof. intros s p g. reflexivity. Qed.

Lemma src_blind_advance_token : src_blind advance_token.
Proof. intros s p g. unfold advance_token. rewrite set_src_next_token. reflexivity. Qed.

Lemma src_blind_lift {A : Type} (r : result A) : src_blind (lift r).
Proof. intros s p g. unfold lift. destruct r; reflexivity. Qed.

Lemma src_blind_global {A : Type} (f : Globals -> result (A * Globals)) :
  src_blind (global f).
Proof. intros s p g. unfold global. destruct (f g) as [[a1 g1]| |]; reflexivity. Qed.

Lemma src_blind_out_of_fuel {A : Type} : src_blind (@out_of_fuel A).
Proof. intros s p g. reflexivity. Qed.

(** Both properties follow the structure of the code. *)
Ltac by_structure :=
  repeat first
    [ assumption
    | apply advances_ret | apply advances_current | apply advances_advance_token
    | apply advances_lift | apply advances_global | apply advances_out_of_fuel
    | apply src_blind_ret | apply src_blind_current | apply src_blind_advance_token
    | apply src_blind_lift | apply src_blind_global | apply src_blind_out_of_fuel
    | apply advances_bind | apply src_blind_bind
    | match goal with
      | |- advances (if ?b then _ else _) => destruct b
      | |- src_blind (if ?b then _ else _) => destruct b
      | |- forall _, _ => intro
      end ].

Section ParserStructure.

Variable m : libm.

Lemma while_op_structure (fuel : nat) (ops : ascii -> bool) (operand : M double)
    (apply : ascii -> double -> double -> result double) :
  (advances operand -> forall left, advances (while_op fuel ops operand apply left))
  /\ (src_blind operand -> forall left, src_blind (while_op fuel ops operand apply left)).
Proof.
  split; intros Hop; induction fuel as [|fuel IH]; intros left; cbn [while_op];
    by_structure.
Qed.

Lemma parser_structure (fuel : nat) :
  (advances (parse_primary m fuel) /\ src_blind (parse_primary m fuel))
  /\ (advances (parse_power m fuel) /\ src_blind (parse_power m fuel))
  /\ (advances (parse_term m fuel) /\ src_blind (parse_term m fuel))
  /\ (advances (parse_additive m fuel) /\ src_blind (parse_additive m fuel))
  /\ (advances (parse_shift m fuel) /\ src_blind (parse_shift m fuel))
  /\ (advances (parse_bitand m fuel) /\ src_blind (parse_bitand m fuel))
  /\ (advances (parse_bitor m fuel) /\ src_blind (parse_bitor m fuel))
  /\ (advances (parse_expr m fuel) /\ src_blind (parse_expr m fuel)).
Proof.
  induction fuel as [|fuel ((A1 & B1) & (A2 & B2) & (A3 & B3) & (A4 & B4) & (A5 & B5)
                             & (A6 & B6) & (A7 & B7) & (A8 & B8))].
  - repeat split; by_structure.
  - repeat split;
      cbn [parse_primary parse_power parse_term parse_additive parse_shift
           parse_bitand parse_bitor parse_expr];
      unfold skip_rparen;
      by_structure;
      apply while_op_structure; assumption.
Qed.

End ParserStructure.

(** ** Expressions of one primary *)

(** A primary that is followed by no binary operator is the whole
    expression. *)
Lemma parse_expr_primary (m : libm) (fuel : nat) (p : Parser) (g : Globals)
    (v : double) (p' : Parser) (g' : Globals) :
  parse_primary m fuel p g = Ok (v, p', g') ->
  continues_expression (cur p') = false ->
  parse_expr m (7 + fuel) p g = Ok (v, p', g').
Proof.
  intros Hp Hop. cbn [Nat.add]. descend. rewrite Hp.
  unfold continues_expression in Hop.
  assert (Hops : forall ops,
            ops = is_term_op \/ ops = is_additive_op \/ ops = is_shift_op
            \/ ops = is_bitand_op \/ ops = is_bitor_op ->
            is_type (cur p') TOK_OP && ops (op (cur p')) = false).
  { intros ops Hin. destruct (is_type (cur p') TOK_OP); [|reflexivity].
    cbn [andb] in *. repeat (apply orb_false_elim in Hop; destruct Hop as [Hop ?]).
    destruct Hin as [-> | [-> | [-> | [-> | ->]]]]; assumption. }
  assert (Hpow : is_op (cur p') "^" = false).
  { unfold is_op. unfold is_type in Hop. destruct (TokenType_eqb _ _); [|reflexivity].
    cbn [andb] in *. repeat (apply orb_false_elim in Hop; destruct Hop as [Hop ?]).
    assumption. }
  assert (Hwhile : forall n ops operand apply left,
            ops = is_term_op \/ ops = is_additive_op \/ ops = is_shift_op
            \/ ops = is_bitand_op \/ ops = is_bitor_op ->
            while_op (S n) ops operand apply left p' g' = Ok (left, p', g')).
  { intros n ops operand apply left Hin. cbn [while_op]. rewrite bind_run.
    unfold current. rewrite (Hops ops Hin). reflexivity. }
  cbv beta iota. rewrite bind_run. unfold current at 1. cbv beta iota. rewrite Hpow.
  unfold ret at 1. cbv beta iota.
  rewrite !Hwhile by tauto. reflexivity.
Qed.

Lemma no_operator_continues (t : Token) :
  is_type t TOK_OP = false -> continues_expression t = false.
Proof. intros H. unfold continues_expression. rewrite H. reflexivity. Qed.

(** ** Lines *)

(** With enough fuel, the fuel does not matter. *)
Lemma parse_expr_any_fuel (m : libm) (fuel fuel' : nat) (p : Parser) (g : Globals) :
  (8 * measure p + 8 <= fuel)%nat -> (8 * measure p + 8 <= fuel')%nat ->
  parse_expr m fuel p g = parse_expr m fuel' p g.
Proof.
  intros H1 H2.
  pose proof (parse_expr_total m fuel p g H1) as T1.
  pose proof (parse_expr_total m fuel' p g H2) as T2.
  destruct (Nat.le_gt_cases fuel fuel') as [Hle|Hgt].
  - destruct (parse_expr_fuel_le m fuel fuel' Hle p g) as [E|E];
      [contradiction | exact E].
  - destruct (parse_expr_fuel_le m fuel' fuel ltac:(lia) p g) as [E|E];
      [contradiction | symmetry; exact E].
Qed.

Lemma measure_set_src (s : string) (p : Parser) : measure (set_src s p) = measure p.
Proof. reflexivity. Qed.

Lemma parse_expr_set_src (m : libm) (fuel : nat) (s : string) (p : Parser) (g : Globals) :
  parse_expr m fuel (set_src s p) g = with_src s (parse_expr m fuel p g).
Proof.
  destruct (parser_structure m fuel) as (_ & _ & _ & _ & _ & _ & _ & _ & H). apply H.
Qed.

(** Going back to the first token after a look at the second. *)
Lemma backtrack (p : Parser) :
  set_cur (cur p) (set_pos (pos p) (next_token p)) = p.
Proof.
  destruct (next_token_suffix p) as [_ Hsrc].
  unfold set_cur, set_pos. cbn [src pos cur]. rewrite Hsrc. destruct p; reflexivity.
Qed.

(** A line that is no assignment is evaluated as an expression. *)
Lemma evaluate_as_expression (m : libm) (line : string) (g : Globals) :
  is_type (cur (next_token (initial_parser line))) TOK_ID = false
  \/ is_op (cur (next_token (next_token (initial_parser line)))) "=" = false ->
  evaluate m line g = expression m line g.
Proof.
  intros H. unfold evaluate, expression. fold (initial_parser line).
  set (p0 := next_token (initial_parser line)) in *.
  destruct (is_type (cur p0) TOK_ID); [|reflexivity].
  destruct H as [H|H]; [discriminate|]. rewrite H, backtrack. reflexivity.
Qed.

(** Two lines with the same tokens have the same value. *)
Lemma evaluate_same_tokens (m : libm) (line line' : string) (g : Globals) :
  next_token (initial_parser line') = set_src line' (next_token (initial_parser line)) ->
  evaluate m line' g = evaluate m line g.
Proof.
  intros Htok.
  pose proof (initial_measure line) as M. pose proof (initial_measure line') as M'.
  unfold evaluate. fold (initial_parser line) (initial_parser line').
  rewrite Htok in *. clear Htok.
  set (p0 := next_token (initial_parser line)) in *.
  rewrite measure_set_src in M'.
  assert (Hrun : forall q, (measure q <= measure p0)%nat ->
            parse_expr m (parse_fuel line') (set_src line' q) (set_fmt FMT_DEC g)
            = with_src line' (parse_expr m (parse_fuel line) q (set_fmt FMT_DEC g))).
  { intros q Hq. rewrite parse_expr_set_src. f_equal.
    apply parse_expr_any_fuel; unfold parse_fuel; lia. }
  change (cur (set_src line' p0)) with (cur p0).
  rewrite !set_src_next_token.
  change (cur (set_src line' (next_token p0))) with (cur (next_token p0)).
  destruct (is_type (cur p0) TOK_ID) eqn:Eid.
  - assert (Hend : is_type (cur p0) TOK_END = false)
      by (apply (is_type_not_end _ _ Eid); discriminate).
    pose proof (next_token_measure p0 Hend) as H1.
    destruct (is_op (cur (next_token p0)) "=") eqn:Eeq.
    + pose proof (next_token_measure _ (is_op_not_end _ _ Eeq)) as H2.
      rewrite Hrun by lia.
      destruct (parse_expr m (parse_fuel line) _ _) as [[[v q] g']| |]; reflexivity.
    + change (set_cur (cur p0) (set_pos (pos (set_src line' p0))
                                  (set_src line' (next_token p0))))
        with (set_src line' (set_cur (cur p0) (set_pos (pos p0) (next_token p0)))).
      rewrite backtrack, Hrun by lia.
      destruct (parse_expr m (parse_fuel line) _ _) as [[[v q] g']| |]; reflexivity.
  - rewrite Hrun by lia.
    destruct (parse_expr m (parse_fuel line) _ _) as [[[v q] g']| |]; reflexivity.
Qed.

Lemma drop_while_prefix (f : ascii -> bool) (ws rest : string) :
  all_chars f ws = true -> drop_while f (ws ++ rest) = drop_while f rest.
Proof.
  induction ws as [|c t IH]; cbn [append all_chars]; [reflexivity|].
  intros H. apply andb_prop in H. destruct H as [Hc Ht].
  cbn [drop_while]. rewrite Hc. apply IH. exact Ht.
Qed.

(** [next_token] looks at the cursor only. *)
Lemma next_token_at (p q : Parser) :
  drop_while isspace (pos p) = drop_while isspace (pos q) -> cur p = cur q ->
  next_token p = set_src (src p) (next_token q).
Proof.
  intros Hpos Hcur.
  assert (Hskip : skip_ws p = set_src (src p) (skip_ws q)).
  { unfold skip_ws, set_pos, set_src. cbn [src pos cur]. rewrite Hpos, Hcur. reflexivity. }
  assert (Hnext : forall r, next_token r = next_token (skip_ws r)).
  { intros r. unfold next_token at 2.
    assert (skip_ws (skip_ws r) = skip_ws r) as ->; [|reflexivity].
    unfold skip_ws at 1. cbn [pos skip_ws set_pos].
    assert (drop_while isspace (drop_while isspace (pos r)) = drop_while isspace (pos r))
      as ->; [|reflexivity].
    induction (pos r) as [|c t IH]; [reflexivity|]. cbn [drop_while].
    destruct (isspace c) eqn:E; [exact IH|]. cbn [drop_while]. rewrite E. reflexivity. }
  rewrite (Hnext p), Hskip, set_src_next_token, <- Hnext. reflexivity.
Qed.

(** ** The parser reads the members of a token by its type *)

Lemma same_token_refl (t : Token) : same_token t t.
Proof. split; [reflexivity | destruct (type t); reflexivity]. Qed.

Lemma same_parser_refl (p : Parser) : same_parser p p.
Proof. split; [reflexivity | apply same_token_refl]. Qed.

Lemma same_parser_next_token (p q : Parser) :
  pos p = pos q -> same_parser (next_token p) (next_token q).
Proof.
  intros Hpos. unfold next_token, skip_ws, parse_number, parse_decimal.
  rewrite <- Hpos.
  repeat (cbv beta iota zeta;
          cbn [pos cur src set_pos set_cur set_num set_id];
          match goal with
          | |- context [strtod ?x] => destruct (strtod x)
          | |- context [strtoull ?x ?b] => destruct (strtoull x b)
          | |- context [scan_binary ?x ?v] => destruct (scan_binary x v)
          | |- context [scan_ident ?x ?n] => destruct (scan_ident x n)
          | |- context [if ?b then _ else _] => destruct b
          end);
    (split; [reflexivity | split; reflexivity]).
Qed.

Lemma alike_ret {A : Type} (a : A) : alike (ret a) (ret a).
Proof. intros p q g H. cbn. auto. Qed.

Lemma alike_bind {A B : Type} (c c' : M A) (k k' : A -> M B) :
  alike c c' -> (forall a, alike (k a) (k' a)) -> alike (bind c k) (bind c' k').
Proof.
  intros Hc Hk p q g H. unfold bind. specialize (Hc p q g H).
  destruct (c p g) as [[[a p1] g1]| |], (c' q g) as [[[a' q1] g1']| |];
    cbn in Hc; try contradiction; try exact I.
  destruct Hc as (<- & Hpq & <-). apply Hk. exact Hpq.
Qed.

Lemma alike_advance_token : alike advance_token advance_token.
Proof.
  intros p q g H. cbn. split; [reflexivity|]. split; [|reflexivity].
  apply same_parser_next_token. apply H.
Qed.

Lemma alike_lift {A : Type} (r : result A) : alike (lift r) (lift r).
Proof. intros p q g H. unfold lift. destruct r; cbn; auto. Qed.

Lemma alike_global {A : Type} (f : Globals -> result (A * Globals)) :
  alike (global f) (global f).
Proof. intros p q g H. unfold global. destruct (f g) as [[a g1]| |]; cbn; auto. Qed.

Lemma alike_out_of_fuel {A : Type} : alike (@out_of_fuel A) (@out_of_fuel A).
Proof. intros p q g H. exact I. Qed.

Lemma alike_current {A : Type} (k k' : Token -> M A) :
  (forall t u, same_token t u -> alike (k t) (k' u)) ->
  alike (bind current k) (bind current k').
Proof. intros Hk p q g H. unfold bind, current. apply Hk; [apply H | exact H]. Qed.

(** Split on the type of two tokens that are alike. *)
Ltac same_tokens t u H :=
  let ty := fresh "ty" in
  let ty' := fresh "ty" in
  destruct t as [ty ? ? ? ?], u as [ty' ? ? ? ?];
  destruct H as [? ?]; cbn [type num id op op2] in *;
  subst ty'; destruct ty; cbn [type num id op op2] in *; subst;
  unfold is_op, is_type; cbn [type num id op op2 TokenType_eqb andb orb].

Lemma alike_skip_rparen : alike skip_rparen skip_rparen.
Proof.
  unfold skip_rparen. apply alike_current. intros t u H.
  same_tokens t u H;
    first [apply alike_ret | apply alike_advance_token].
Qed.

Ltac alike_structure :=
  lazymatch goal with
  | |- alike (bind current _) (bind current _) => idtac
  | |- alike (bind _ _) (bind _ _) => apply alike_bind; alike_structure
  | |- alike (if ?b then _ else _) (if ?b then _ else _) => destruct b; alike_structure
  | |- alike (ret _) _ => apply alike_ret
  | |- alike advance_token _ => apply alike_advance_token
  | |- alike (lift _) _ => apply alike_lift
  | |- alike (global _) _ => apply alike_global
  | |- alike out_of_fuel _ => apply alike_out_of_fuel
  | |- alike skip_rparen _ => apply alike_skip_rparen
  | |- alike _ _ => try solve [auto]
  | |- forall _, _ => intro; alike_structure
  | _ => idtac
  end.

Section ParserTokens.

Variable m : libm.

Lemma alike_while (fuel : nat) (ops : ascii -> bool) (operand : M double)
    (apply : ascii -> double -> double -> result double) :
  alike operand operand ->
  forall left, alike (while_op fuel ops operand apply left)
                     (while_op fuel ops operand apply left).
Proof.
  intros Hop. induction fuel as [|fuel IH]; intros left; cbn [while_op].
  - apply alike_out_of_fuel.
  - apply alike_current. intros t u H. same_tokens t u H; alike_structure.
Qed.

Lemma alike_parser (fuel : nat) :
  alike (parse_primary m fuel) (parse_primary m fuel)
  /\ alike (parse_power m fuel) (parse_power m fuel)
  /\ alike (parse_term m fuel) (parse_term m fuel)
  /\ alike (parse_additive m fuel) (parse_additive m fuel)
  /\ alike (parse_shift m fuel) (parse_shift m fuel)
  /\ alike (parse_bitand m fuel) (parse_bitand m fuel)
  /\ alike (parse_bitor m fuel) (parse_bitor m fuel)
  /\ alike (parse_expr m fuel) (parse_expr m fuel).
Proof.
  induction fuel as [|fuel (H1 & H2 & H3 & H4 & H5 & H6 & H7 & H8)].
  - repeat split; apply alike_out_of_fuel.
  - assert (Hprimary : alike (parse_primary m (S fuel)) (parse_primary m (S fuel))).
    { cbn [parse_primary]. apply alike_current. intros t u H.
      same_tokens t u H; alike_structure.
      apply alike_current. intros t1 u1 H'.
      same_tokens t1 u1 H'; alike_structure.
      apply alike_current. intros t2 u2 H''.
      same_tokens t2 u2 H''; alike_structure. }
    assert (Hpower : alike (parse_power m (S fuel)) (parse_power m (S fuel))).
    { cbn [parse_power]. apply alike_bind; [exact H1|]. intros left.
      apply alike_current. intros t u H. same_tokens t u H; alike_structure. }
    refine (conj Hprimary (conj Hpower (conj _ (conj _ (conj _ (conj _ (conj _ H7))))))).
    + cbn [parse_term]. apply alike_bind; [exact H2|]. intros. now apply alike_while.
    + cbn [parse_additive]. apply alike_bind; [exact H3|]. intros. now apply alike_while.
    + cbn [parse_shift]. apply alike_bind; [exact H4|]. intros. now apply alike_while.
    + cbn [parse_bitand]. apply alike_bind; [exact H5|]. intros. now apply alike_while.
    + cbn [parse_bitor]. apply alike_bind; [exact H6|]. intros. now apply alike_while.
Qed.

End ParserTokens.

(** ** Properties of the tokenizer *)

Lemma isspace_NUL_head (s : string) :
  peek s = NUL -> drop_while isspace s = s.
Proof.
  destruct s as [|c t]; [reflexivity|]. cbn [peek drop_while]. intros ->. reflexivity.
Qed.

Lemma all_space_drop (s : string) :
  all_chars isspace s = true -> drop_while isspace s = ""%string.
Proof.
  induction s as [|c t IH]; cbn [all_chars drop_while]; [reflexivity|].
  intros H. apply andb_prop in H. destruct H as [-> Ht]. apply IH. exact Ht.
Qed.

Lemma next_token_end_iff (p : Parser) :
  is_type (cur (next_token p)) TOK_END = true
  <-> peek (drop_while isspace (pos p)) = NUL.
Proof.
  unfold next_token.
  change (drop_while isspace (pos p)) with (pos (skip_ws p)).
  generalize (skip_ws p). intros q.
  destruct (peek (pos q) == NUL) eqn:Hnul.
  - apply Ascii.eqb_eq in Hnul. split; [intros _; exact Hnul | reflexivity].
  - split; [|intros H; rewrite H in Hnul; discriminate].
    destruct (parse_number q) as [[|] q1] eqn:Hnum.
    { apply parse_number_true in Hnum. destruct Hnum as [_ Ht].
      rewrite Ht. discriminate. }
    destruct (isalpha (peek (pos q1)) || (peek (pos q1) == "_")).
    { destruct (scan_ident (pos q1) (MAX_NAME - 1)). discriminate. }
    repeat match goal with
           | |- context [if ?b then _ else _] => destruct b
           end; discriminate.
Qed.

Lemma next_token_blank (p : Parser) :
  all_chars isspace (pos p) = true ->
  next_token p = set_cur (Token_of_type TOK_END) (set_pos "" p).
Proof.
  intros Hws. unfold next_token, skip_ws. rewrite (all_space_drop _ Hws). reflexivity.
Qed.

Lemma next_token_at_end (p : Parser) :
  is_type (cur (next_token p)) TOK_END = true ->
  next_token (next_token p) = next_token p.
Proof.
  intros Hend. apply next_token_end_iff in Hend.
  assert (Hnext : next_token p
                  = set_cur (Token_of_type TOK_END)
                      (set_pos (drop_while isspace (pos p)) p)).
  { unfold next_token, skip_ws. cbn [pos set_pos]. rewrite Hend. reflexivity. }
  rewrite Hnext. unfold next_token at 1. unfold skip_ws.
  cbn [pos set_pos set_cur]. rewrite (isspace_NUL_head _ Hend), Hend. reflexivity.
Qed.

(** X8.  The end of the line.  [next_token] reports [TOK_END] exactly
    when only white space is left before the terminator; on a rest of
    white space alone it stops at the terminator; and once it has
    reported [TOK_END], calling it again changes nothing: the cursor
    never passes the terminator. *)
Theorem next_token_end_of_input (p : Parser) :
  (is_type (cur (next_token p)) TOK_END = true
   <-> peek (drop_while isspace (pos p)) = NUL)
  /\ (all_chars isspace (pos p) = true ->
      next_token p = set_cur (Token_of_type TOK_END) (set_pos "" p))
  /\ (is_type (cur (next_token p)) TOK_END = true ->
      next_token (next_token p) = next_token p).
Proof.
  split; [apply next_token_end_iff|]. split.
  - apply next_token_blank.
  - apply next_token_at_end.
Qed.

Lemma next_token_end_of_input_witness :
  next_token (initial_parser "   ")
  = set_cur (Token_of_type TOK_END) (set_pos "" (initial_parser "   ")).
Proof.
  apply (proj1 (proj2 (next_token_end_of_input (initial_parser "   ")))).
  reflexivity.
Defined.

(** X9.  The cursor stays inside the line.  [next_token] leaves the
    start of the line alone and moves the cursor forward within it,
    by at least one character unless it reports the end; and
    [parse_expr] moves the parser by whole tokens only, so that its
    cursor too ends inside the line it started in. *)
Theorem cursor_stays_in_line (m : libm) (p : Parser) :
  (src (next_token p) = src p
   /\ suffix_of (pos (next_token p)) (pos p)
   /\ (is_type (cur (next_token p)) TOK_END = false ->
       (String.length (pos (next_token p)) < String.length (pos p))%nat))
  /\ (forall fuel g v p' g',
        parse_expr m fuel p g = Ok (v, p', g') ->
        (exists n, p' = tokens_ahead n p)
        /\ src p' = src p /\ suffix_of (pos p') (pos p)).
Proof.
  split.
  - destruct (next_token_suffix p) as [Hs Hsrc].
    split; [exact Hsrc|]. split; [exact Hs | apply next_token_progress].
  - intros fuel g v p' g' H.
    destruct (parser_structure m fuel) as (_ & _ & _ & _ & _ & _ & _ & Hadv & _).
    destruct (Hadv _ _ _ _ _ H) as [n ->].
    destruct (tokens_ahead_suffix n p) as [Hs Hsrc].
    split; [exists n; reflexivity|]. split; assumption.
Qed.

Lemma cursor_stays_in_line_witness :
  (exists n, set_cur (Token_of_type TOK_END) (set_pos "" (initial_parser "1+2"))
             = tokens_ahead n (next_token (initial_parser "1+2")))
  /\ "1+2"%string = "1+2"%string /\ suffix_of "" "+2".
Proof.
  apply (proj2 (cursor_stays_in_line integers_libm (next_token (initial_parser "1+2")))
           16%nat initial_globals (of_Z 3)
           (set_cur (Token_of_type TOK_END) (set_pos "" (initial_parser "1+2")))
           initial_globals).
  vm_compute. reflexivity.
Defined.

(** ** Names longer than the buffer *)

(** [scan_ident] stops when the buffer is full, whatever follows. *)
Lemma scan_ident_full (nm rest : string) :
  all_chars ident_char nm = true ->
  scan_ident (nm ++ rest) (String.length nm) = (nm, rest).
Proof.
  induction nm as [|c t IH]; cbn [append String.length all_chars].
  - intros _. destruct rest; reflexivity.
  - intros H. apply andb_prop in H. destruct H as [Hc Ht].
    cbn [scan_ident]. unfold ident_char in Hc. rewrite Hc, IH by exact Ht. reflexivity.
Qed.

(** The token that starts at a character of a name is a number, a name
    or an error: it cannot be an operator or a parenthesis. *)
Lemma next_token_at_ident_char (p : Parser) :
  ident_char (peek (pos p)) = true ->
  is_type (cur (next_token p)) TOK_OP = false
  /\ is_type (cur (next_token p)) TOK_LPAREN = false.
Proof.
  intros Hc.
  assert (Hcode : 48 <= code (peek (pos p)) <= 57 \/ 65 <= code (peek (pos p)) <= 90
                  \/ 97 <= code (peek (pos p)) <= 122 \/ code (peek (pos p)) = 95).
  { unfold ident_char in Hc. apply orb_prop in Hc. destruct Hc as [H|H].
    - revert H. unfold isalnum. char_classes.
    - apply Ascii.eqb_eq in H. rewrite H. right. right. right. reflexivity. }
  assert (Hsp : isspace (peek (pos p)) = false) by (revert Hcode; char_classes).
  unfold next_token. rewrite (skip_ws_none p Hsp).
  destruct (peek (pos p) == NUL); [split; reflexivity|].
  destruct (parse_number p) as [[|] q1] eqn:Hnum.
  { unfold parse_number, parse_decimal in Hnum.
    repeat match type of Hnum with
           | context [if ?b then _ else _] => destruct b
           | context [let '(_, _) := ?e in _] => destruct e
           end; try discriminate; injection Hnum as <-; split; reflexivity. }
  apply parse_number_false in Hnum. subst q1.
  destruct (isalpha (peek (pos p)) || (peek (pos p) == "_")).
  { destruct (scan_ident (pos p) (MAX_NAME - 1)). split; reflexivity. }
  assert (Hnot : forall k : ascii,
            code k < 48 \/ 57 < code k < 65 \/ 90 < code k < 95 \/ 122 < code k ->
            (peek (pos p) == k) = false).
  { intros k Hk. apply eqb_code. lia. }
  cbn [pos set_pos].
  rewrite !Hnot by (vm_compute; intuition congruence).
  cbn [orb]. cbv iota. split; reflexivity.
Qed.

(** X10.  Names are cut at the buffer.  A token read as a name has at
    most [MAX_NAME - 1] characters.  When a run of name characters is
    longer, its first [MAX_NAME - 1] characters are one token and the
    rest starts another; so a line that starts with such a run is not an
    assignment, even before [=]: it looks up the cut name, which is
    reported and yields NaN when it is bound nowhere, and stores
    nothing. *)
Theorem long_name_is_cut (m : libm) (g : Globals) (nm : string) (c : ascii)
    (rest : string) :
  all_chars ident_char nm = true -> ident_start (peek nm) = true ->
  String.length nm = (MAX_NAME - 1)%nat -> ident_char c = true ->
  (forall p, is_type (cur (next_token p)) TOK_ID = true ->
     (String.length (id (cur (next_token p))) < MAX_NAME)%nat)
  /\ (forall p, pos p = (nm ++ String c rest)%string ->
      next_token p = set_id nm (set_pos (String c rest) p))
  /\ evaluate m (nm ++ String c rest) g
     = (let '(x, g') := get_var nm (set_fmt FMT_DEC g) in Ok (x, g'))
  /\ (undefined_name g nm ->
      evaluate m (nm ++ String c rest) g
      = Ok (nan, eprint ("undefined: " ++ nm) (set_fmt FMT_DEC g))).
Proof.
  intros Hall Hstart Hlen Hc.
  assert (Hid : identifier nm).
  { split; [exact Hstart|]. split; [exact Hall|]. rewrite Hlen. unfold MAX_NAME. lia. }
  assert (Hnext : forall p, pos p = (nm ++ String c rest)%string ->
                    next_token p = set_id nm (set_pos (String c rest) p)).
  { intros p Hpos.
    destruct (identifier_head nm Hid) as (c0 & t & Hnm & Hs & Hsp & Hdig & Hnul & H0 & Hdot).
    unfold next_token, skip_ws. rewrite Hpos.
    assert (drop_while isspace (nm ++ String c rest) = (nm ++ String c rest)%string) as ->.
    { rewrite Hnm. cbn [append drop_while]. rewrite Hsp. reflexivity. }
    cbn [pos set_pos]. rewrite Hnm in *. cbn [append peek] in *. rewrite Hnul.
    unfold parse_number, parse_decimal. cbn [pos set_pos peek advance].
    rewrite H0, Hdig, Hdot. cbn [andb orb]. cbv iota. cbn [pos set_pos peek advance].
    change (isalpha c0 || (c0 == "_")) with (ident_start c0). rewrite Hs.
    change (String c0 (t ++ String c rest)) with (String c0 t ++ String c rest)%string.
    rewrite <- Hlen, scan_ident_full by exact Hall. reflexivity. }
  assert (Heval : evaluate m (nm ++ String c rest) g
                  = (let '(x, g') := get_var nm (set_fmt FMT_DEC g) in Ok (x, g'))).
  { set (line := (nm ++ String c rest)%string).
    set (p0 := set_id nm (set_pos (String c rest) (initial_parser line))).
    assert (H0 : next_token (initial_parser line) = p0) by (apply Hnext; reflexivity).
    destruct (next_token_at_ident_char p0 Hc) as [Hop Hparen].
    rewrite evaluate_as_expression.
    - unfold expression. rewrite H0. unfold parse_fuel.
      replace (8 * String.length line + 16)%nat
        with (7 + S (8 * String.length line + 8))%nat by lia.
      rewrite (parse_expr_primary m _ p0 _
                 (fst (get_var nm (set_fmt FMT_DEC g))) (next_token p0)
                 (snd (get_var nm (set_fmt FMT_DEC g)))).
      + destruct (get_var nm (set_fmt FMT_DEC g)). reflexivity.
      + apply (parse_primary_variable m _ p0); [reflexivity | exact Hparen].
      + apply no_operator_continues. exact Hop.
    - right. rewrite H0. unfold is_op. unfold is_type in Hop. rewrite Hop. reflexivity. }
  split; [exact next_token_id_length|]. split; [exact Hnext|]. split; [exact Heval|].
  intros Hundef. rewrite Heval, get_var_undefined; [reflexivity|].
  destruct Hundef as (H1 & H2 & H3). repeat split; assumption.
Qed.

Lemma long_name_is_cut_witness :
  evaluate integers_libm "a_name_of_thirty_two_characters_ = 5" initial_globals
  = Ok (nan, eprint "undefined: a_name_of_thirty_two_characters"
               (set_fmt FMT_DEC initial_globals)).
Proof.
  apply (proj2 (proj2 (proj2 (long_name_is_cut integers_libm initial_globals
                         "a_name_of_thirty_two_characters" "_" " = 5"
                         eq_refl eq_refl eq_refl eq_refl)))).
  repeat split. discriminate.
Defined.

(** ** How lines compose *)

Lemma measure_same_parser (p q : Parser) : same_parser p q -> measure p = measure q.
Proof.
  intros [Hpos [Hty _]]. unfold measure, is_type. rewrite Hpos, Hty. reflexivity.
Qed.

Lemma parse_expr_alike (m : libm) (fuel : nat) (p q : Parser) (g : Globals) :
  same_parser p q -> same_outcome (parse_expr m fuel p g) (parse_expr m fuel q g).
Proof.
  intros H. destruct (alike_parser m fuel) as (_ & _ & _ & _ & _ & _ & _ & Ha).
  apply Ha. exact H.
Qed.

(** The value and the globals of two parsers that are alike, whatever
    the fuel above what the parser needs. *)
Lemma parse_expr_same (m : libm) (fuel fuel' : nat) (p q : Parser) (g : Globals) :
  same_parser p q ->
  (8 * measure p + 8 <= fuel)%nat -> (8 * measure p + 8 <= fuel')%nat ->
  match parse_expr m fuel p g with
  | Ok (v, _, g') => Ok (v, g')
  | Undefined => Undefined
  | OutOfFuel => OutOfFuel
  end
  = match parse_expr m fuel' q g with
    | Ok (v, _, g') => Ok (v, g')
    | Undefined => Undefined
    | OutOfFuel => OutOfFuel
    end.
Proof.
  intros H F F'. rewrite (parse_expr_any_fuel m fuel fuel' p g F F').
  pose proof (parse_expr_alike m fuel' p q g H) as Ho.
  destruct (parse_expr m fuel' p g) as [[[v p1] g1]| |],
           (parse_expr m fuel' q g) as [[[v' q1] g1']| |];
    cbn in Ho; try contradiction; try reflexivity.
  destruct Ho as (<- & _ & <-). reflexivity.
Qed.

(** X11.  White space before a line does not count: the line has the
    same value, the same effect on the store and the same diagnostics
    with and without it. *)
Theorem leading_white_space (m : libm) (ws line : string) (g : Globals) :
  all_chars isspace ws = true ->
  evaluate m (ws ++ line) g = evaluate m line g.
Proof.
  intros Hws. apply evaluate_same_tokens.
  apply (next_token_at (initial_parser (ws ++ line)) (initial_parser line));
    [|reflexivity].
  apply drop_while_prefix. exact Hws.
Qed.

Lemma leading_white_space_witness :
  evaluate integers_libm ("   " ++ "x = 2") initial_globals
  = evaluate integers_libm "x = 2" initial_globals.
Proof.
  apply (leading_white_space integers_libm "   " "x = 2" initial_globals).
  reflexivity.
Defined.

(** An assignment is its right-hand side, then [set_var]. *)
Lemma evaluate_assignment_expression (m : libm) (g : Globals)
    (nm ws rhs : string) :
  identifier nm -> all_chars isspace ws = true ->
  evaluate m (nm ++ ws ++ "=" ++ rhs) g
  = match expression m rhs g with
    | Ok (v, g') => Ok (v, set_var nm v g')
    | Undefined => Undefined
    | OutOfFuel => OutOfFuel
    end.
Proof.
  intros Hid Hws.
  set (line := (nm ++ ws ++ "=" ++ rhs)%string).
  set (p1 := set_id nm (set_pos (ws ++ "=" ++ rhs) (initial_parser line))).
  set (p2 := set_cur (Token_of_op "=") (set_pos rhs (initial_parser line))).
  assert (H1 : next_token (initial_parser line) = p1).
  { apply (next_token_identifier (initial_parser line) "" nm (ws ++ "=" ++ rhs));
      [reflexivity | exact Hid | apply peek_after_spaces; exact Hws | reflexivity]. }
  assert (H2 : next_token p1 = p2)
    by (apply (next_token_equals p1 ws rhs Hws); reflexivity).
  rewrite (evaluate_assignment m line g p1 p2 H1 eq_refl H2 eq_refl).
  change (id (cur p1)) with nm. unfold expression.
  assert (Hsame : same_parser (next_token p2) (next_token (initial_parser rhs)))
    by (apply same_parser_next_token; reflexivity).
  pose proof (initial_measure rhs) as Hm.
  rewrite <- (measure_same_parser _ _ Hsame) in Hm.
  assert (Hlen : (String.length rhs <= String.length line)%nat)
    by (unfold line; rewrite !append_length; cbn [String.length]; lia).
  pose proof (parse_expr_alike m (parse_fuel rhs) _ _ (set_fmt FMT_DEC g) Hsame) as Ho.
  rewrite (parse_expr_any_fuel m (parse_fuel line) (parse_fuel rhs) (next_token p2))
    by (unfold parse_fuel; lia).
  destruct (parse_expr m (parse_fuel rhs) (next_token p2) _) as [[[v q1] g1]| |],
           (parse_expr m (parse_fuel rhs) (next_token (initial_parser rhs)) _)
             as [[[v' q1'] g1']| |];
    cbn in Ho; try contradiction; try reflexivity.
  destruct Ho as (<- & _ & <-). reflexivity.
Qed.

(** X12.  An assignment is its right-hand side, then [set_var].  For
    every name that is one token, white space and right-hand side, the
    line [name = rhs] has the value that [rhs] has as an expression,
    the diagnostics of that expression, and stores the value under the
    name; where the expression has no defined behaviour, neither has
    the assignment.  The right-hand side is read as an expression even
    where it looks like an assignment itself. *)
Theorem assignment_evaluates_right_hand_side (m : libm) (g : Globals)
    (nm ws rhs : string) :
  identifier nm -> all_chars isspace ws = true ->
  evaluate m (nm ++ ws ++ "=" ++ rhs) g
  = match expression m rhs g with
    | Ok (v, g') => Ok (v, set_var nm v g')
    | Undefined => Undefined
    | OutOfFuel => OutOfFuel
    end.
Proof. apply evaluate_assignment_expression. Qed.

Lemma assignment_evaluates_right_hand_side_witness :
  evaluate integers_libm "x = y = 3" initial_globals
  = match expression integers_libm " y = 3" initial_globals with
    | Ok (v, g') => Ok (v, set_var "x" v g')
    | Undefined => Undefined
    | OutOfFuel => OutOfFuel
    end.
Proof.
  apply (assignment_evaluates_right_hand_side integers_libm initial_globals
           "x" " " " y = 3").
  - repeat split. unfold MAX_NAME. simpl. lia.
  - reflexivity.
Defined.

(** X13.  A full store drops new names silently.  With [MAX_VARS]
    entries and [nm] not among them, [set_var] changes nothing and
    reports nothing, so the name stays unbound: an assignment to it
    returns the value of its right-hand side and stores nothing.  A
    name that is bound is still overwritten. *)
Theorem set_var_full_store (nm : string) (x : double) (g : Globals) :
  var_count g = MAX_VARS ->
  (find_var (vars g) nm = None ->
   set_var nm x g = g
   /\ find_var (vars (set_var nm x g)) nm = None
   /\ forall m ws rhs v g',
        identifier nm -> all_chars isspace ws = true ->
        expression m rhs g = Ok (v, g') ->
        evaluate m (nm ++ ws ++ "=" ++ rhs) g = Ok (v, g')
        /\ find_var (vars g') nm = None)
  /\ (forall y, find_var (vars g) nm = Some y ->
      find_var (vars (set_var nm x g)) nm = Some x
      /\ var_count (set_var nm x g) = MAX_VARS).
Proof.
  intros Hfull.
  assert (Hdrop : forall v h, vars h = vars g -> find_var (vars g) nm = None ->
                    set_var nm v h = h).
  { intros v h Hv Hnone. unfold set_var, var_count. rewrite Hv.
    destruct (update_var_None (vars g) nm v) as [_ ->]; [|exact Hnone].
    unfold var_count in Hfull. rewrite Hfull, Nat.ltb_irrefl. reflexivity. }
  split.
  - intros Hnone. rewrite (Hdrop x g eq_refl Hnone).
    split; [reflexivity|]. split; [exact Hnone|].
    intros m ws rhs v g' Hid Hws Hexpr.
    rewrite (evaluate_assignment_expression m g nm ws rhs Hid Hws), Hexpr.
    assert (Hv : vars g' = vars g).
    { unfold expression in Hexpr.
      destruct (parse_expr m _ _ _) as [[[a p'] g1]| |] eqn:E; try discriminate.
      injection Hexpr as <- <-.
      destruct (frames_parser m (parse_fuel rhs)) as (_ & _ & _ & _ & _ & _ & _ & Hf).
      apply (Hf _ _ _ _ _ E). }
    rewrite (Hdrop v g' Hv Hnone), Hv. split; [reflexivity | exact Hnone].
  - intros y Hy. destruct (set_var_overwrite nm x y g Hy) as [Hn Hf].
    split; [exact Hf|]. unfold var_count, names in *.
    rewrite <- (length_map name), Hn, length_map. exact Hfull.
Qed.

Lemma set_var_full_store_witness :
  set_var "x" (of_Z 5) full_store = full_store
  /\ find_var (vars (set_var "x" (of_Z 5) full_store)) "x" = None
  /\ evaluate integers_libm "x = 5" full_store = Ok (of_Z 5, set_fmt FMT_DEC full_store).
Proof.
  refine ((fun H => conj (proj1 H)
                      (conj (proj1 (proj2 H))
                         (proj1 (proj2 (proj2 H) integers_libm " " " 5" (of_Z 5)
                                   (set_fmt FMT_DEC full_store) _ _ _))))
            (proj1 (set_var_full_store "x" (of_Z 5) full_store eq_refl) eq_refl)).
  - repeat split. unfold MAX_NAME. simpl. lia.
  - reflexivity.
  - vm_compute. reflexivity.
Defined.

(** ** Lines that are no expression *)

Lemma starts_no_expression_cases (t : Token) :
  starts_no_expression t = true ->
  is_op t "-" = false /\ is_op t "+" = false /\ is_op t "~" = false
  /\ is_type t TOK_LPAREN = false /\ is_type t TOK_NUM = false
  /\ is_type t TOK_ID = false /\ continues_expression t = false.
Proof.
  unfold starts_no_expression, continues_expression, is_op, is_type.
  destruct t as [ty x nm o o2]. cbn [type op].
  destruct ty; cbn [TokenType_eqb andb orb]; try discriminate;
    try (intros _; repeat split; reflexivity).
  intros H. apply orb_prop in H.
  destruct H as [H|H]; apply Ascii.eqb_eq in H; subst o; repeat split; reflexivity.
Qed.

Lemma parse_expr_syntax_error (m : libm) (fuel : nat) (p : Parser) (g : Globals) :
  starts_no_expression (cur p) = true ->
  parse_expr m (8 + fuel) p g = Ok (nan, p, eprint "syntax error" g).
Proof.
  intros H.
  destruct (starts_no_expression_cases _ H) as (H1 & H2 & H3 & H4 & H5 & H6 & H7).
  apply (parse_expr_primary m (S fuel)); [|exact H7].
  cbn [parse_primary]. rewrite bind_run. unfold current.
  rewrite H1, H2, H3, H4, H5, H6. reflexivity.
Qed.

(** X14.  Lines that start with no expression.  When the first token
    of a line is the end of the line, an error token, a closing
    parenthesis, [=] or a comma, [evaluate] writes the diagnostic
    [syntax error] once, returns NaN and leaves the store alone,
    whatever follows on the line.  The empty line and a line of white
    space are such lines. *)
Theorem line_without_expression (m : libm) (line : string) (g : Globals) :
  (starts_no_expression (cur (next_token (initial_parser line))) = true ->
   evaluate m line g = Ok (nan, eprint "syntax error" (set_fmt FMT_DEC g)))
  /\ (all_chars isspace line = true ->
      evaluate m line g = Ok (nan, eprint "syntax error" (set_fmt FMT_DEC g))).
Proof.
  assert (Hstart : starts_no_expression (cur (next_token (initial_parser line))) = true ->
            evaluate m line g = Ok (nan, eprint "syntax error" (set_fmt FMT_DEC g))).
  { intros H. destruct (starts_no_expression_cases _ H) as (_ & _ & _ & _ & _ & Hid & _).
    rewrite evaluate_as_expression by (left; exact Hid).
    unfold expression, parse_fuel.
    replace (8 * String.length line + 16)%nat
      with (8 + (8 * String.length line + 8))%nat by lia.
    rewrite parse_expr_syntax_error by exact H. reflexivity. }
  split; [exact Hstart|].
  intros Hws. apply Hstart.
  rewrite (next_token_blank (initial_parser line) Hws).
  reflexivity.
Qed.

Lemma line_without_expression_witness :
  evaluate integers_libm ") + 1" initial_globals
  = Ok (nan, eprint "syntax error" (set_fmt FMT_DEC initial_globals))
  /\ evaluate integers_libm "  " initial_globals
     = Ok (nan, eprint "syntax error" (set_fmt FMT_DEC initial_globals)).
Proof.
  split.
  - apply (proj1 (line_without_expression integers_libm ") + 1" initial_globals)).
    reflexivity.
  - apply (proj2 (line_without_expression integers_libm "  " initial_globals)).
    reflexivity.
Defined.

(** X15.  A parenthesis that is never closed is accepted.  When a line
    [e], read as an expression, is consumed to its end, the line [(e]
    has the same value and the same effect, without a diagnostic for
    the missing [)]. *)
Theorem unclosed_parenthesis (m : libm) (e : string) (g : Globals)
    (v : double) (p' : Parser) (g' : Globals) :
  parse_expr m (parse_fuel e) (next_token (initial_parser e)) (set_fmt FMT_DEC g)
  = Ok (v, p', g') ->
  is_type (cur p') TOK_END = true ->
  expression m e g = Ok (v, g')
  /\ evaluate m ("(" ++ e) g = Ok (v, g').
Proof.
  intros He Hend. split; [unfold expression; rewrite He; reflexivity|].
  set (line := ("(" ++ e)%string).
  set (p0 := set_cur (Token_of_type TOK_LPAREN) (set_pos e (initial_parser line))).
  assert (H0 : next_token (initial_parser line) = p0) by reflexivity.
  rewrite evaluate_as_expression by (left; rewrite H0; reflexivity).
  unfold expression. rewrite H0.
  assert (Hsame : same_parser (next_token p0) (next_token (initial_parser e)))
    by (apply same_parser_next_token; reflexivity).
  pose proof (parse_expr_alike m (parse_fuel e) _ _ (set_fmt FMT_DEC g) Hsame) as Ho.
  rewrite He in Ho.
  destruct (parse_expr m (parse_fuel e) (next_token p0) (set_fmt FMT_DEC g))
    as [[[v1 q1] g1]| |] eqn:E1; cbn in Ho; try contradiction.
  destruct Ho as (-> & Hq & ->).
  assert (Hend1 : is_type (cur q1) TOK_END = true).
  { destruct Hq as [_ [Hty _]]. unfold is_type in *. rewrite Hty. exact Hend. }
  assert (Hprimary : parse_primary m (S (parse_fuel e)) p0 (set_fmt FMT_DEC g)
                     = Ok (v, q1, g')).
  { cbn [parse_primary]. rewrite bind_run. unfold current. cbv beta iota.
    change (is_op (cur p0) "-" || is_op (cur p0) "+") with false.
    change (is_op (cur p0) "~") with false.
    change (is_type (cur p0) TOK_LPAREN) with true. cbv iota.
    rewrite bind_run. unfold advance_token at 1. cbv beta iota.
    rewrite bind_run, E1. cbv beta iota.
    rewrite bind_run. unfold skip_rparen. rewrite bind_run.
    unfold current. cbv beta iota.
    assert (is_type (cur q1) TOK_RPAREN = false) as ->.
    { unfold is_type in *. destruct (type (cur q1)); try discriminate; reflexivity. }
    reflexivity. }
  unfold parse_fuel at 1. unfold line. cbn [append String.length].
  replace (8 * S (String.length e) + 16)%nat with (7 + S (parse_fuel e))%nat
    by (unfold parse_fuel; lia).
  rewrite (parse_expr_primary m _ p0 _ v q1 g' Hprimary); [reflexivity|].
  apply no_operator_continues. unfold is_type in *.
  destruct (type (cur q1)); try discriminate; reflexivity.
Qed.

Lemma unclosed_parenthesis_witness :
  expression integers_libm "2*(3+4" initial_globals = Ok (of_Z 14, initial_globals)
  /\ evaluate integers_libm "(2*(3+4" initial_globals = Ok (of_Z 14, initial_globals).
Proof.
  apply (unclosed_parenthesis integers_libm "2*(3+4" initial_globals (of_Z 14)
           (set_cur (Token_of_type TOK_END) (set_pos "" (initial_parser "2*(3+4")))
           initial_globals).
  - vm_compute. reflexivity.
  - reflexivity.
Defined.

(** ** The interactive loop and the entry point *)

Lemma repl_loop_quit (m : libm) (pre post : list string) (q : string)
    (hist : list string) (g : Globals) :
  q = "q"%string \/ q = "quit"%string \/ q = "exit"%string ->
  repl_loop m (pre ++ q :: post)%list hist g = repl_loop m pre hist g.
Proof.
  intros Hq. revert hist g. induction pre as [|line pre IH]; intros hist g.
  - cbn [app repl_loop]. destruct Hq as [-> | [-> | ->]]; reflexivity.
  - cbn [app repl_loop]. destruct (peek line == NUL); [apply IH|].
    destruct (streq line "q" || streq line "quit" || streq line "exit"); [reflexivity|].
    destruct (streq line "help" || streq line "?"); [apply IH|].
    destruct (repl_step m line g) as [[res g1]| |]; [apply IH | reflexivity ..].
Qed.

Lemma repl_loop_blank (m : libm) (pre post : list string) (blank : string)
    (hist : list string) (g : Globals) :
  peek blank = NUL ->
  repl_loop m (pre ++ blank :: post)%list hist g = repl_loop m (pre ++ post)%list hist g.
Proof.
  intros Hb. revert hist g. induction pre as [|line pre IH]; intros hist g.
  - cbn [app repl_loop]. rewrite Hb. reflexivity.
  - cbn [app repl_loop]. destruct (peek line == NUL); [apply IH|].
    destruct (streq line "q" || streq line "quit" || streq line "exit"); [reflexivity|].
    destruct (streq line "help" || streq line "?"); [apply IH|].
    destruct (repl_step m line g) as [[res g1]| |]; [apply IH | reflexivity ..].
Qed.

(** X16.  The commands of the interactive loop.  The loop reads
    nothing after [q], [quit] or [exit]: the lines that follow have no
    effect at all, and the outcome is that of the lines before.  An
    empty line has no effect, wherever it stands: it is not evaluated,
    prints nothing, leaves [ans] and the history alone.  [help] and [?]
    print the lines of the help text, and change neither the store,
    the diagnostics nor the history. *)
Theorem repl_commands (m : libm) (pre post : list string)
    (hist : list string) (g : Globals) :
  repl_loop m (pre ++ "q" :: post)%list hist g = repl_loop m pre hist g
  /\ repl_loop m (pre ++ "quit" :: post)%list hist g = repl_loop m pre hist g
  /\ repl_loop m (pre ++ "exit" :: post)%list hist g = repl_loop m pre hist g
  /\ repl_loop m (pre ++ "" :: post)%list hist g = repl_loop m (pre ++ post)%list hist g
  /\ (forall h, h = "help" \/ h = "?" ->
      repl_loop m (h :: post) hist g
      = repl_loop m post hist
          {| g_output_fmt := g_output_fmt g; vars := vars g; stderr := stderr g;
             stdout := (stdout g ++ help_text)%list |}).
Proof.
  repeat apply conj.
  - apply repl_loop_quit. tauto.
  - apply repl_loop_quit. tauto.
  - apply repl_loop_quit. tauto.
  - apply repl_loop_blank. reflexivity.
  - intros h Hh.
    assert (Hhelp : repl_loop m (h :: post) hist g = repl_loop m post hist (print_help g))
      by (destruct Hh as [-> | ->]; reflexivity).
    rewrite Hhelp. f_equal.
    destruct (print_help_vars g) as (Hv & He & Hf & Ho).
    destruct (print_help g) as [f vs err out]. cbn [vars stderr g_output_fmt stdout] in *.
    subst. reflexivity.
Qed.

Lemma repl_commands_witness :
  repl_loop integers_libm [ "?"; "q" ] [] initial_globals
  = repl_loop integers_libm [ "q" ] []
      {| g_output_fmt := FMT_DEC; vars := []; stderr := []; stdout := help_text |}.
Proof.
  apply (proj2 (proj2 (proj2 (proj2
           (repl_commands integers_libm [] [ "q" ] [] initial_globals))))).
  right. reflexivity.
Defined.

Lemma repl_loop_history (m : libm) (lines hist : list string) (g : Globals)
    (hist' : list string) (g' : Globals) :
  repl_loop m lines hist g = Ok (hist', g') ->
  hist' = (hist ++ evaluated_lines lines)%list.
Proof.
  revert hist g. induction lines as [|line rest IH]; intros hist g;
    cbn [repl_loop evaluated_lines].
  - intros [= <- _]. rewrite app_nil_r. reflexivity.
  - destruct (peek line == NUL); [apply IH|].
    destruct (streq line "q" || streq line "quit" || streq line "exit").
    { intros [= <- _]. rewrite app_nil_r. reflexivity. }
    destruct (streq line "help" || streq line "?"); [apply IH|].
    destruct (repl_step m line g) as [[res g1]| |]; try discriminate.
    intros H. rewrite (IH _ _ H), <- app_assoc. reflexivity.
Qed.

(** X17.  The history.  When the interactive loop ends, the history
    list is the one it started with followed by the lines that were
    evaluated, in order: every line before the first exit command that
    is neither empty nor a help command, whether its evaluation
    succeeded or gave NaN.  With [HOME] set, [repl] saves that list,
    starting from the content of the history file, under
    [$HOME/.c_history]; without [HOME] it saves nothing. *)
Theorem repl_history (m : libm) (lines : list string) (g : Globals) :
  (forall hist hist' g',
     repl_loop m lines hist g = Ok (hist', g') ->
     hist' = (hist ++ evaluated_lines lines)%list)
  /\ (forall home file saved g',
        repl m (Some home) file lines g = Ok (saved, g') ->
        saved = Some (strncpy (home ++ "/.c_history") 511,
                      (file ++ evaluated_lines lines)%list))
  /\ (forall file saved g',
        repl m None file lines g = Ok (saved, g') -> saved = None).
Proof.
  repeat apply conj.
  - intros hist hist' g'. apply repl_loop_history.
  - intros home file saved g'. unfold repl, get_history_path.
    destruct (repl_loop m lines file g) as [[hist' g1]| |] eqn:E; try discriminate.
    intros [= <- _]. rewrite (repl_loop_history m lines file g hist' g1 E). reflexivity.
  - intros file saved g'. unfold repl, get_history_path.
    destruct (repl_loop m lines [] g) as [[hist' g1]| |]; try discriminate.
    intros [= <- _]. reflexivity.
Qed.

Lemma repl_history_witness :
  [ "old"; "1+1"; "nosuchname" ]
  = ([ "old" ] ++ evaluated_lines [ "1+1"; ""; "help"; "nosuchname"; "q"; "2+2" ])%list.
Proof.
  apply (proj1 (repl_history integers_libm
                  [ "1+1"; ""; "help"; "nosuchname"; "q"; "2+2" ] initial_globals)
           [ "old" ] _
           (set_vars [ {| name := "ans"; value := nan |} ]
              (eprint "undefined: nosuchname"
                 (print_help (print "2" initial_globals))))).
  vm_compute. reflexivity.
Defined.

Lemma set_var_names_incl (nm other : string) (x : double) (g : Globals) :
  In other (names g) -> In other (names (set_var nm x g)).
Proof.
  unfold set_var, names. destruct (update_var (vars g) nm x) as [vs|] eqn:E.
  - cbn [vars set_vars]. rewrite (update_var_names _ _ _ _ E). tauto.
  - destruct (var_count g <? MAX_VARS)%nat; [|tauto].
    cbn [vars set_vars]. rewrite map_app. intros H. apply in_or_app. left. exact H.
Qed.

Lemma set_var_count (nm : string) (x : double) (g : Globals) :
  (var_count (set_var nm x g) <= S (var_count g))%nat.
Proof.
  unfold set_var, var_count. destruct (update_var (vars g) nm x) as [vs|] eqn:E.
  - cbn [vars set_vars]. rewrite (update_var_length _ _ _ _ E). lia.
  - destruct (_ <? _)%nat; cbn [vars set_vars]; [|lia].
    rewrite length_app. cbn [List.length]. lia.
Qed.

(** A line that is one name looks the name up. *)
Lemma evaluate_variable (m : libm) (nm : string) (g : Globals) :
  identifier nm ->
  evaluate m nm g = (let '(x, g') := get_var nm (set_fmt FMT_DEC g) in Ok (x, g')).
Proof.
  intros Hid.
  set (p0 := set_id nm (set_pos "" (initial_parser nm))).
  assert (H0 : next_token (initial_parser nm) = p0).
  { apply (next_token_identifier (initial_parser nm) "" nm "");
      [reflexivity | exact Hid | reflexivity |].
    cbn [append pos initial_parser]. rewrite append_empty_r. reflexivity. }
  rewrite evaluate_as_expression by (right; rewrite H0; reflexivity).
  unfold expression. rewrite H0. unfold parse_fuel.
  replace (8 * String.length nm + 16)%nat
    with (7 + S (8 * String.length nm + 8))%nat by lia.
  rewrite (parse_expr_primary m _ p0 _
             (fst (get_var nm (set_fmt FMT_DEC g))) (next_token p0)
             (snd (get_var nm (set_fmt FMT_DEC g)))).
  - destruct (get_var nm (set_fmt FMT_DEC g)). reflexivity.
  - apply (parse_primary_variable m _ p0); reflexivity.
  - reflexivity.
Qed.

(** X18.  [ans] after a line.  After every line that the interactive
    loop evaluates, [ans] is bound to the result of that line, NaN
    included: a line that fails overwrites [ans] with NaN.  The next
    line [ans] then evaluates to that result.  This holds when [ans] is
    already bound or the store has two free entries; the binding is
    kept from then on. *)
Theorem repl_step_binds_ans (m : libm) (line : string) (g : Globals)
    (res : double) (g' : Globals) :
  repl_step m line g = Ok (res, g') ->
  In "ans"%string (names g) \/ (var_count g + 2 <= MAX_VARS)%nat ->
  find_var (vars g') "ans" = Some res
  /\ In "ans"%string (names g')
  /\ evaluate m "ans" g' = Ok (res, set_fmt FMT_DEC g').
Proof.
  unfold repl_step.
  destruct (evaluate m line g) as [[v g1]| |] eqn:E; try discriminate.
  destruct (print_result m v g1) as [g2| |] eqn:Ep; cbn [rbind]; try discriminate.
  intros [= <- <-] Hroom.
  assert (Hroom2 : In "ans"%string (names g2) \/ (var_count g2 < MAX_VARS)%nat).
  { pose proof (print_result_vars m v g1 g2 Ep) as Hv2.
    unfold names, var_count in *. rewrite Hv2.
    destruct (evaluate_vars m line g v g1 E) as (_ & [Hv | (nm & _ & Hv)]); rewrite Hv.
    - destruct Hroom; [left; assumption | right; lia].
    - destruct Hroom as [Hin|Hn].
      + left. apply (set_var_names_incl nm "ans" v g Hin).
      + right. pose proof (set_var_count nm v g). unfold var_count in *. lia. }
  assert (Hfind : find_var (vars (set_var "ans" v g2)) "ans" = Some v)
    by (apply set_var_bound; [exact Hroom2 | unfold MAX_NAME; simpl; lia]).
  split; [exact Hfind|]. split; [apply (find_var_Some_In _ _ _ Hfind)|].
  rewrite evaluate_variable by (repeat split; unfold MAX_NAME; simpl; lia).
  rewrite (get_var_bound "ans" (set_fmt FMT_DEC (set_var "ans" v g2)) v Hfind).
  reflexivity.
Qed.

Lemma repl_step_binds_ans_witness :
  find_var (vars (set_vars [ {| name := "ans"; value := nan |} ]
                    (eprint "undefined: nosuchname" initial_globals))) "ans"
  = Some nan.
Proof.
  apply (repl_step_binds_ans integers_libm "nosuchname" initial_globals nan
           (set_vars [ {| name := "ans"; value := nan |} ]
              (eprint "undefined: nosuchname" initial_globals))).
  - vm_compute. reflexivity.
  - right. unfold var_count, MAX_VARS. simpl. lia.
Defined.

(** ** The entry point *)

Lemma print_result_output (m : libm) (val : double) (g g' : Globals) :
  print_result m val g = Ok g' ->
  stderr g' = stderr g
  /\ if isnan val then stdout g' = stdout g
     else exists out, stdout g' = (stdout g ++ [out])%list.
Proof.
  unfold print_result. destruct (isnan val); [intros [= <-]; auto|].
  destruct (g_output_fmt g);
    try (destruct (to_uint64 val); cbn [rbind]; try discriminate;
         intros [= <-]; split; [reflexivity | eexists; reflexivity]).
  destruct (_ && _); intros [= <-]; (split; [reflexivity | eexists; reflexivity]).
Qed.

(** X19.  The exit status and the output of a one-shot run.  With
    arguments, [main] evaluates one line, saves no history and binds no
    [ans]; when the result is NaN it prints nothing and returns 1, and
    otherwise it prints exactly one line and returns 0. *)
Theorem main_exit_status (m : libm) (argv : list string) (home : option string)
    (file lines : list string) (status : Z) (g : Globals)
    (saved : option (string * list string)) :
  List.length argv <> 1%nat ->
  main m argv home file lines = Ok (status, g, saved) ->
  saved = None
  /\ exists expr res g1,
       concat_args true (tl argv) "" = Ok expr
       /\ evaluate m expr initial_globals = Ok (res, g1)
       /\ vars g = vars g1 /\ stderr g = stderr g1
       /\ (isnan res = true -> status = 1 /\ stdout g = [])
       /\ (isnan res = false -> status = 0 /\ exists out, stdout g = [out]).
Proof.
  intros Hargc. unfold main.
  destruct (Nat.eqb_spec (List.length argv) 1) as [?|_]; [contradiction|].
  destruct (concat_args true (tl argv) "") as [expr| |]; try discriminate.
  destruct (evaluate m expr initial_globals) as [[res g1]| |] eqn:E; try discriminate.
  destruct (print_result m res g1) as [g2| |] eqn:Ep; cbn [rbind]; try discriminate.
  intros [= <- <- <-]. split; [reflexivity|].
  exists expr, res, g1.
  destruct (evaluate_vars m expr initial_globals res g1 E) as [Ho _].
  destruct (print_result_output m res g1 g2 Ep) as [He Hout].
  rewrite Ho in Hout. cbn [stdout initial_globals app] in Hout.
  split; [reflexivity|]. split; [exact E|].
  split; [apply (print_result_vars m res g1 g2 Ep)|]. split; [exact He|].
  split; intros Hn; rewrite Hn in *; auto.
Qed.

Lemma main_exit_status_witness :
  exists expr res g1,
    concat_args true (tl [ "c"; "6"; "*"; "7" ]) "" = Ok expr
    /\ evaluate integers_libm expr initial_globals = Ok (res, g1)
    /\ vars (print "42" initial_globals) = vars g1
    /\ stderr (print "42" initial_globals) = stderr g1
    /\ (isnan res = true -> 0 = 1 /\ stdout (print "42" initial_globals) = [])
    /\ (isnan res = false ->
        0 = 0 /\ exists out, stdout (print "42" initial_globals) = [out]).
Proof.
  apply (proj2 (main_exit_status integers_libm [ "c"; "6"; "*"; "7" ] None [] [] 0
                  (print "42" initial_globals) None
                  ltac:(discriminate) ltac:(vm_compute; reflexivity))).
Defined.

Lemma strcat_empty (s : string) :
  strcat "" s = if (String.length s <? MAX_INPUT)%nat then Ok s else Undefined.
Proof. reflexivity. Qed.

(** X20.  The arguments are joined by single spaces.  Two consecutive
    arguments give the same run as the one argument made of them with a
    space between, the case where the joined line does not fit the
    buffer of [MAX_INPUT] bytes included. *)
Theorem main_joins_arguments (m : libm) (prog a b : string) (rest : list string)
    (home : option string) (file lines : list string) :
  main m (prog :: a :: b :: rest) home file lines
  = main m (prog :: (a ++ " " ++ b)%string :: rest) home file lines
  /\ concat_args true (a :: b :: rest) ""
     = concat_args true ((a ++ " " ++ b)%string :: rest) ""
  /\ ((MAX_INPUT <= String.length a + 1 + String.length b)%nat ->
      main m (prog :: a :: b :: rest) home file lines = Undefined).
Proof.
  assert (Hjoin : concat_args true (a :: b :: rest) ""
                  = concat_args true ((a ++ " " ++ b)%string :: rest) "").
  { cbn [concat_args]. unfold strcat. cbn [rbind append].
    destruct (Nat.lt_ge_cases (String.length a + 1 + String.length b) MAX_INPUT)
      as [Hfit|Hno].
    - repeat match goal with
             | |- context [(?x <? MAX_INPUT)%nat] =>
                 rewrite (proj2 (Nat.ltb_lt x MAX_INPUT))
                   by (rewrite ?append_length; cbn [String.length]; lia);
                 cbn [rbind]
             end.
      rewrite append_assoc. reflexivity.
    - repeat match goal with
             | |- context [(?x <? MAX_INPUT)%nat] =>
                 destruct (Nat.ltb_spec x MAX_INPUT); cbn [rbind]
             end;
        rewrite ?append_length in *; cbn [String.length] in *;
        try reflexivity; lia. }
  split; [|split; [exact Hjoin|]].
  - unfold main. cbn [List.length Nat.eqb tl]. rewrite Hjoin. reflexivity.
  - intros Hlong. unfold main. cbn [List.length Nat.eqb tl]. rewrite Hjoin.
    cbn [concat_args]. unfold strcat. cbn [rbind append].
    rewrite (proj2 (Nat.ltb_ge _ MAX_INPUT))
      by (rewrite ?append_length; cbn [String.length]; lia).
    reflexivity.
Qed.

Lemma main_joins_arguments_witness :
  main integers_libm [ "c"; replicate 1023 "1"; "+1" ] None [] [] = Undefined.
Proof.
  apply (proj2 (proj2 (main_joins_arguments integers_libm "c" (replicate 1023 "1") "+1"
                         [] None [] []))).
  apply Nat.leb_le. vm_compute. reflexivity.
Defined.

(** X21.  A one-shot run on a name that is bound nowhere.  With one
    argument that is a name, neither a built-in constant nor [ans],
    [main] writes [undefined: name] to the diagnostics, prints nothing
    to the output and returns 1; with the argument [ans] it prints [0]
    and returns 0, as no result precedes it. *)
Theorem main_undefined_name (m : libm) (prog nm : string) (home : option string)
    (file lines : list string) :
  identifier nm -> table_lookup builtin_constants nm = None -> nm <> "ans"%string ->
  main m [ prog; nm ] home file lines
  = Ok (1, eprint ("undefined: " ++ nm) initial_globals, None)
  /\ main m [ prog; "ans"%string ] home file lines
     = Ok (0, print "0" initial_globals, None).
Proof.
  intros Hid Htable Hans. split; [|vm_compute; reflexivity].
  unfold main. cbn [List.length Nat.eqb tl concat_args rbind]. rewrite strcat_empty.
  assert ((String.length nm <? MAX_INPUT)%nat = true) as ->.
  { apply Nat.ltb_lt. destruct Hid as (_ & _ & Hlen). unfold MAX_NAME, MAX_INPUT in *. lia. }
  cbn [rbind concat_args]. rewrite (evaluate_variable m nm initial_globals Hid).
  rewrite get_var_undefined by (repeat split; assumption).
  reflexivity.
Qed.

Lemma main_undefined_name_witness :
  main integers_libm [ "c"; "nosuchname" ] None [] []
  = Ok (1, eprint "undefined: nosuchname" initial_globals, None).
Proof.
  apply (proj1 (main_undefined_name integers_libm "c" "nosuchname" None [] []
                  ltac:(repeat split; unfold MAX_NAME; simpl; lia)
                  eq_refl ltac:(discriminate))).
Defined.

(** ** What is printed can be read back *)

Lemma all_chars_app (f : ascii -> bool) (a b : string) :
  all_chars f (a ++ b) = all_chars f a && all_chars f b.
Proof.
  induction a as [|c t IH]; cbn [append all_chars]; [reflexivity|].
  rewrite IH, andb_assoc. reflexivity.
Qed.

Lemma bits_of_pos_digits (p : positive) :
  all_chars (digit_of 2) (bits_of_pos p) = true
  /\ forall acc, digits_value 2 (bits_of_pos p) acc
                 = acc * 2 ^ Z.of_nat (String.length (bits_of_pos p)) + Zpos p.
Proof.
  induction p as [q [IH1 IH2]|q [IH1 IH2]|]; cbn [bits_of_pos].
  - split; [rewrite all_chars_app, IH1; reflexivity|]. intros acc.
    rewrite digits_value_app, IH2, append_length. cbn [digits_value String.length].
    change (digit_value "1") with (Some 1). cbv beta iota.
    rewrite Nat2Z.inj_add, Z.pow_add_r by lia. change (2 ^ Z.of_nat 1) with 2. lia.
  - split; [rewrite all_chars_app, IH1; reflexivity|]. intros acc.
    rewrite digits_value_app, IH2, append_length. cbn [digits_value String.length].
    change (digit_value "0") with (Some 0). cbv beta iota.
    rewrite Nat2Z.inj_add, Z.pow_add_r by lia. change (2 ^ Z.of_nat 1) with 2. lia.
  - split; [reflexivity|]. intros acc. cbn [digits_value String.length].
    change (digit_value "1") with (Some 1). cbv beta iota. change (2 ^ Z.of_nat 1) with 2. lia.
Qed.

Lemma digit_char_value (base d : Z) :
  2 <= base <= 16 -> 0 <= d < base ->
  digit_of base (digit_char d) = true /\ digit_value (digit_char d) = Some d.
Proof.
  intros Hb Hd.
  assert (Hcases : d = 0 \/ d = 1 \/ d = 2 \/ d = 3 \/ d = 4 \/ d = 5 \/ d = 6 \/ d = 7
                   \/ d = 8 \/ d = 9 \/ d = 10 \/ d = 11 \/ d = 12 \/ d = 13 \/ d = 14
                   \/ d = 15) by lia.
  assert (Hv : digit_value (digit_char d) = Some d).
  { repeat (destruct Hcases as [->|Hcases]; [reflexivity|]). subst d. reflexivity. }
  split; [|exact Hv]. unfold digit_of, digit_in. rewrite Hv.
  destruct (Z.ltb_spec d base); [reflexivity | lia].
Qed.

Lemma digits_aux_S (fuel : nat) (base n : Z) (acc : string) :
  digits_aux (S fuel) base n acc
  = if n / base =? 0 then String (digit_char (n mod base)) acc
    else digits_aux fuel base (n / base) (String (digit_char (n mod base)) acc).
Proof. reflexivity. Qed.

(** The digits that the conversions of [printf] produce denote the
    number printed. *)
Lemma digits_aux_value (base : Z) (fuel : nat) (n : Z) (acc : string) :
  2 <= base <= 16 -> 0 <= n < base ^ Z.of_nat (S fuel) ->
  exists ds, digits_aux (S fuel) base n acc = (ds ++ acc)%string
             /\ ds <> ""%string
             /\ all_chars (digit_of base) ds = true
             /\ forall a, digits_value base ds a
                          = a * base ^ Z.of_nat (String.length ds) + n.
Proof.
  intros Hb. revert n acc.
  assert (Hlast : forall n acc, 0 <= n < base ->
            exists ds, String (digit_char (n mod base)) acc = (ds ++ acc)%string
                       /\ ds <> ""%string
                       /\ all_chars (digit_of base) ds = true
                       /\ forall a, digits_value base ds a
                                    = a * base ^ Z.of_nat (String.length ds) + n).
  { intros n acc Hn. rewrite Z.mod_small by lia.
    destruct (digit_char_value base n Hb Hn) as [Hd Hv].
    exists (String (digit_char n) ""). split; [reflexivity|]. split; [discriminate|].
    split; [cbn [all_chars]; rewrite Hd; reflexivity|].
    intros a. cbn [digits_value String.length]. rewrite Hv.
    change (Z.of_nat 1) with 1. rewrite Z.pow_1_r. reflexivity. }
  induction fuel as [|fuel IH]; intros n acc Hn.
  - change (Z.of_nat 1) with 1 in Hn. rewrite Z.pow_1_r in Hn.
    rewrite digits_aux_S. cbn [digits_aux].
    destruct (n / base =? 0); apply Hlast; exact Hn.
  - rewrite digits_aux_S.
    destruct (Z.eqb_spec (n / base) 0) as [Hq|Hq].
    + apply Hlast. split; [lia|].
      destruct (Z.lt_ge_cases n base) as [H|H]; [exact H|].
      assert (1 <= n / base) by (apply Z.div_le_lower_bound; lia). lia.
    + rewrite Nat2Z.inj_succ, Z.pow_succ_r in Hn by lia.
      assert (Hdiv : 0 <= n / base < base ^ Z.of_nat (S fuel)).
      { split; [apply Z.div_pos; lia | apply Z.div_lt_upper_bound; lia]. }
      destruct (IH (n / base) (String (digit_char (n mod base)) acc) Hdiv)
        as (ds & Heq & Hne & Hall & Hval).
      assert (Hmod : 0 <= n mod base < base) by (apply Z.mod_pos_bound; lia).
      destruct (digit_char_value base (n mod base) Hb Hmod) as [Hd Hv].
      exists (ds ++ String (digit_char (n mod base)) "")%string.
      split; [rewrite Heq, append_assoc; reflexivity|].
      split; [destruct ds; [contradiction | discriminate]|].
      split; [rewrite all_chars_app, Hall; cbn [all_chars]; rewrite Hd; reflexivity|].
      intros a. rewrite digits_value_app, Hval, append_length.
      cbn [digits_value String.length]. rewrite Hv.
      rewrite Nat2Z.inj_add, Z.pow_add_r by lia.
      change (Z.of_nat 1) with 1. rewrite Z.pow_1_r.
      pose proof (Z.div_mod n base ltac:(lia)). nia.
Qed.

Lemma digits_value_read (base n : Z) :
  2 <= base <= 16 -> 0 <= n ->
  digits base n <> ""%string
  /\ all_chars (digit_of base) (digits base n) = true
  /\ digits_value base (digits base n) 0 = n.
Proof.
  intros Hb Hn. unfold digits.
  assert (Hfuel : 0 <= n < base ^ Z.of_nat (S (Z.to_nat (Z.log2 n)))).
  { split; [exact Hn|]. rewrite Nat2Z.inj_succ, Z2Nat.id by apply Z.log2_nonneg.
    destruct (Z.eq_dec n 0) as [->|Hz]; [apply Z.pow_pos_nonneg; cbn; lia|].
    pose proof (Z.log2_spec n ltac:(lia)) as [_ Hlog].
    eapply Z.lt_le_trans; [exact Hlog|].
    apply Z.pow_le_mono_l. lia. }
  destruct (digits_aux_value base _ n "" Hb Hfuel) as (ds & Heq & Hne & Hall & Hval).
  rewrite Heq, append_empty_r. split; [exact Hne|]. split; [exact Hall|].
  rewrite Hval. lia.
Qed.

(** X22.  The Hex, Binary and Octal renderings read back.  For every
    unsigned 64-bit value [u], the line that [print_result] prints for
    it in the Hex, the Binary or the Octal format is a literal that
    [evaluate] reads as the conversion of [u] to [double]: the value
    that was printed, when [u] is below 2^53. *)
Theorem prefixed_output_reads_back (m : libm) (g : Globals) (u : Z) :
  0 <= u < 2 ^ 64 ->
  evaluate m ("0x" ++ printf_X u) g = Ok (of_uint64 u, set_fmt FMT_DEC g)
  /\ evaluate m (print_binary u) g = Ok (of_uint64 u, set_fmt FMT_DEC g)
  /\ evaluate m ("0o" ++ printf_o u) g = Ok (of_uint64 u, set_fmt FMT_DEC g)
  /\ (forall val h, trunc val = Some u ->
        (g_output_fmt h = FMT_HEX ->
         print_result m val h = Ok (print ("0x" ++ printf_X u) h))
        /\ (g_output_fmt h = FMT_BIN ->
            print_result m val h = Ok (print (print_binary u) h))
        /\ (g_output_fmt h = FMT_OCT ->
            print_result m val h = Ok (print ("0o" ++ printf_o u) h))).
Proof.
  intros Hu.
  assert (Hfit : (if ULLONG_MAX <? u then ULLONG_MAX else u) = u).
  { destruct (Z.ltb_spec ULLONG_MAX u) as [H|H]; [|reflexivity].
    unfold ULLONG_MAX in H. lia. }
  repeat apply conj.
  - destruct (digits_value_read 16 u ltac:(lia) ltac:(lia)) as (Hne & Hall & Hval).
    unfold printf_X. apply evaluate_number. apply next_token_number; try reflexivity.
    rewrite (parse_number_hex (initial_parser ("0x" ++ digits 16 u)) _ eq_refl Hne Hall).
    rewrite Hval, Hfit. reflexivity.
  - destruct u as [|p|p]; [vm_compute; reflexivity | | lia].
    rewrite print_binary_bits by lia.
    destruct (bits_of_pos_digits p) as [Hall Hval].
    assert (Hv : digits_value 2 (bits_of_pos p) 0 = Zpos p) by (rewrite Hval; lia).
    apply evaluate_number. apply next_token_number; try reflexivity.
    rewrite (parse_number_binary (initial_parser ("0b" ++ bits_of_pos p)) _ eq_refl Hall)
      by (rewrite Hv; lia).
    rewrite Hv. reflexivity.
  - destruct (digits_value_read 8 u ltac:(lia) ltac:(lia)) as (Hne & Hall & Hval).
    unfold printf_o. apply evaluate_number. apply next_token_number; try reflexivity.
    rewrite (parse_number_octal (initial_parser ("0o" ++ digits 8 u)) _ eq_refl Hne Hall).
    rewrite Hval, Hfit. reflexivity.
  - intros val h Hval. unfold print_result.
    assert (isnan val = false) as -> by (destruct val; try discriminate; reflexivity).
    unfold to_uint64. rewrite (to_uint_integral 64 val u Hval Hu).
    repeat split; intros ->; reflexivity.
Qed.

Lemma prefixed_output_reads_back_witness :
  evaluate integers_libm ("0x" ++ printf_X 48879) initial_globals
  = Ok (of_uint64 48879, set_fmt FMT_DEC initial_globals)
  /\ evaluate integers_libm (print_binary 48879) initial_globals
     = Ok (of_uint64 48879, set_fmt FMT_DEC initial_globals)
  /\ evaluate integers_libm ("0o" ++ printf_o 48879) initial_globals
     = Ok (of_uint64 48879, set_fmt FMT_DEC initial_globals).
Proof.
  refine ((fun H => conj (proj1 H) (conj (proj1 (proj2 H)) (proj1 (proj2 (proj2 H)))))
            (prefixed_output_reads_back integers_libm initial_globals 48879 _)).
  lia.
Defined.

Lemma neg_of_Z (p : positive) : neg (of_Z (Zpos p)) = of_Z (Zneg p).
Proof.
  unfold neg, of_Z, binary_normalize, binary_round.
  destruct (shl_align p 0 _) as [mz ez].
  unfold binary_round_aux.
  destruct (shr_fexp prec emax (Zpos mz) ez loc_Exact) as [mrs e1].
  destruct (shr_fexp prec emax _ e1 loc_Exact) as [mrs2 e2].
  destruct (shr_m mrs2); [reflexivity | | reflexivity].
  destruct (e2 <=? emax - prec); reflexivity.
Qed.

(** ["%.0f"] of an integer that a [double] holds exactly. *)
Lemma printf_f0_of_Z (n : Z) :
  Z.abs n < 2 ^ 53 ->
  printf_f0 (of_Z n) = ((if (n <? 0)%Z then "-" else "") ++ digits 10 (Z.abs n))%string.
Proof.
  intros Hn.
  assert (Hfinite : forall s p, Zpos p < 2 ^ 53 ->
            printf_f0 (binary_round prec emax s p 0)
            = ((if s then "-" else "") ++ digits 10 (Zpos p))%string).
  { intros s p Hp. destruct (binary_round_small s p Hp) as (mz & ez & -> & Hez & Hm).
    cbn [printf_f0]. f_equal. f_equal.
    destruct (Z.leb_spec 0 ez) as [H0|H0].
    - replace ez with 0 in * by lia. rewrite Z.shiftl_0_r. cbn in Hm. lia.
    - assert (Hq : Z.shiftr (Zpos mz) (- ez) = Zpos p).
      { rewrite Z.shiftr_div_pow2, Hm by lia. apply Z.div_mul.
        apply Z.pow_nonzero; lia. }
      rewrite Hq, !Z.shiftl_mul_pow2 by lia. rewrite <- Hm, Z.sub_diag.
      assert (0 < 2 ^ (- ez - 1)) by (apply Z.pow_pos_nonneg; lia).
      destruct (Z.ltb_spec (1 * 2 ^ (- ez - 1)) 0); [lia|].
      destruct (Z.eqb_spec 0 (1 * 2 ^ (- ez - 1))); [lia|]. reflexivity. }
  destruct n as [|p|p].
  - reflexivity.
  - apply (Hfinite false p). exact Hn.
  - apply (Hfinite true p). exact Hn.
Qed.

(** A line that is a minus sign and decimal digits. *)
Lemma evaluate_negated_number (m : libm) (ds : string) (g : Globals) :
  ds <> ""%string -> all_chars (digit_of 10) ds = true ->
  evaluate m ("-" ++ ds) g = Ok (neg (of_Z (digits_value 10 ds 0)), set_fmt FMT_DEC g).
Proof.
  intros Hne Hall.
  set (line := ("-" ++ ds)%string).
  set (p0 := set_cur (Token_of_op "-") (set_pos ds (initial_parser line))).
  assert (H0 : next_token (initial_parser line) = p0) by reflexivity.
  set (x := of_Z (digits_value 10 ds 0)).
  assert (Hhead : isspace (peek ds) = false /\ (peek ds == NUL) = false).
  { destruct ds as [|c t]; [contradiction|]. cbn [all_chars] in Hall.
    apply andb_prop in Hall. destruct Hall as [Hc _]. cbn [peek].
    split; [apply (digit_of_not_space 10 c Hc)|].
    apply eqb_code. unfold digit_of in Hc. destruct (digit_in 10 c) eqn:E; [|discriminate].
    apply digit_in_range in E. change (code NUL) with 0. lia. }
  assert (H1 : next_token p0 = set_num x (set_pos "" p0)).
  { apply next_token_number; [apply Hhead | apply Hhead |].
    apply (parse_number_decimal p0 ds eq_refl Hne Hall). }
  assert (H2 : next_token (set_num x (set_pos "" p0))
               = set_cur (Token_of_type TOK_END) (set_num x (set_pos "" p0)))
    by reflexivity.
  rewrite evaluate_as_expression by (left; rewrite H0; reflexivity).
  unfold expression. rewrite H0. unfold parse_fuel.
  replace (8 * String.length line + 16)%nat
    with (7 + S (S (8 * String.length line + 7)))%nat by lia.
  rewrite (parse_expr_primary m _ p0 _ (neg x)
             (set_cur (Token_of_type TOK_END) (set_num x (set_pos "" p0)))
             (set_fmt FMT_DEC g)); [reflexivity | | reflexivity].
  cbn [parse_primary]. rewrite bind_run. unfold current at 1. cbv beta iota.
  change (is_op (cur p0) "-" || is_op (cur p0) "+") with true. cbv iota.
  rewrite bind_run. unfold advance_token at 1. cbv beta iota. rewrite H1.
  rewrite bind_run. rewrite bind_run. unfold current at 1. cbv beta iota.
  change (is_op (cur (set_num x (set_pos "" p0))) "-"
          || is_op (cur (set_num x (set_pos "" p0))) "+") with false.
  change (is_op (cur (set_num x (set_pos "" p0))) "~") with false.
  change (is_type (cur (set_num x (set_pos "" p0))) TOK_LPAREN) with false.
  change (is_type (cur (set_num x (set_pos "" p0))) TOK_NUM) with true. cbv iota.
  rewrite bind_run. unfold advance_token at 1. cbv beta iota. rewrite H2.
  reflexivity.
Qed.

(** The double of a nonzero integer below 2^53 in magnitude has a
    significand of 53 bits. *)
Lemma binary_round_normal (s : bool) (p : positive) :
  Zpos p < 2 ^ 53 ->
  exists mz ez,
    binary_round prec emax s p 0 = S754_finite s mz ez
    /\ ez <= 0 /\ Zpos mz = Zpos p * 2 ^ (- ez) /\ 2 ^ 52 <= Zpos mz.
Proof.
  intros Hp. pose proof (digits2_pos_bound p Hp) as Hd.
  unfold binary_round.
  assert (Hfexp : forall d, 1 <= d <= 53 -> fexp prec emax d = d - 53).
  { intros d Hd'. unfold fexp, emin, prec, emax. lia. }
  rewrite Z.add_0_r, Hfexp by lia.
  set (d := digits2_pos p) in *.
  assert (Haux : forall mz ez, Zpos (digits2_pos mz) = 53 -> -52 <= ez <= 0 ->
            binary_round_aux prec emax s (Zpos mz) ez loc_Exact = S754_finite s mz ez
            /\ 2 ^ 52 <= Zpos mz).
  { intros mz ez Hmz Hez. split.
    - unfold binary_round_aux, shr_fexp.
      cbn [Zdigits2]. rewrite Hmz, Hfexp by lia.
      replace (53 + ez - 53 - ez) with 0 by lia.
      cbn [shr shr_record_of_loc shr_m loc_of_shr_record round_nearest_even Zdigits2].
      rewrite Hmz, Hfexp by lia.
      replace (53 + ez - 53 - ez) with 0 by lia.
      cbn [shr shr_record_of_loc shr_m].
      destruct (Z.leb_spec ez (emax - prec)); [reflexivity|]. unfold emax, prec in *. lia.
    - rewrite digits2_pos_size in Hmz. pose proof (Pos.size_le mz) as Hle.
      assert (Hpow : Zpos (2 ^ Pos.size mz) = 2 ^ 53)
        by (rewrite Pos2Z.inj_pow, Hmz; reflexivity).
      apply Pos2Z.pos_le_pos in Hle. rewrite Pos2Z.inj_xO, Hpow in Hle.
      change (2 ^ 53) with (2 * 2 ^ 52) in Hle. lia. }
  unfold shl_align.
  destruct (Zpos d - 53 - 0) as [|k|k] eqn:Ek.
  - exists p, 0. destruct (Haux p 0 ltac:(lia) ltac:(lia)) as [H1 H2].
    split; [exact H1|]. split; [lia|]. split; [simpl; lia | exact H2].
  - lia.
  - exists (Pos.iter xO p k), (Zpos d - 53).
    assert (Hdig : Zpos (digits2_pos (Pos.iter xO p k)) = 53)
      by (rewrite iter_xO_digits; fold d; lia).
    destruct (Haux (Pos.iter xO p k) (Zpos d - 53) Hdig ltac:(lia)) as [H1 H2].
    split; [exact H1|]. split; [lia|]. split; [|exact H2].
    rewrite iter_xO_value. f_equal. f_equal. lia.
Qed.

Lemma floor_binary_round (s : bool) (p : positive) :
  Zpos p < 2 ^ 53 ->
  floor (binary_round prec emax s p 0) = binary_round prec emax s p 0.
Proof.
  intros Hp.
  destruct (binary_round_normal s p Hp) as (mz & ez & E & Hez & Hm & _).
  rewrite E. cbn [floor]. destruct (Z.leb_spec 0 ez) as [H0|H0]; [reflexivity|].
  assert (Hq : Z.shiftr (if s then Zneg mz else Zpos mz) (- ez)
               = if s then Zneg p else Zpos p).
  { rewrite Z.shiftr_div_pow2 by lia.
    destruct s.
    - change (Zneg mz) with (- Zpos mz). rewrite Hm.
      replace (- (Zpos p * 2 ^ (- ez))) with (Zneg p * 2 ^ (- ez)) by lia.
      apply Z.div_mul. apply Z.pow_nonzero; lia.
    - rewrite Hm. apply Z.div_mul. apply Z.pow_nonzero; lia. }
  rewrite Hq, <- E. destruct s; reflexivity.
Qed.

Lemma compare_cont_lt (a b : positive) :
  Zpos a < Zpos b -> PosDef.Pos.compare_cont Eq a b = Lt.
Proof.
  intros H. change (Pos.compare a b = Lt).
  rewrite Pos2Z.inj_compare. apply Z.compare_lt_iff. exact H.
Qed.

Lemma compare_cont_refl (a : positive) : PosDef.Pos.compare_cont Eq a a = Eq.
Proof. exact (Pos.compare_refl a). Qed.

Lemma eqb_finite_refl (s : bool) (mz : positive) (ez : Z) :
  eqb (S754_finite s mz ez) (S754_finite s mz ez) = true.
Proof.
  unfold eqb, SFeqb. cbn [SFcompare].
  rewrite Z.compare_refl, compare_cont_refl. destruct s; reflexivity.
Qed.

Lemma ltb_finite (m1 m2 : positive) (e1 e2 : Z) :
  e1 < e2 \/ (e1 = e2 /\ Zpos m1 < Zpos m2) ->
  ltb (S754_finite false m1 e1) (S754_finite false m2 e2) = true.
Proof.
  intros H. unfold ltb, SFltb. cbn [SFcompare].
  destruct H as [H | [-> H]].
  - rewrite (proj2 (Z.compare_lt_iff e1 e2) H). reflexivity.
  - rewrite Z.compare_refl, (compare_cont_lt m1 m2 H). reflexivity.
Qed.

(** An integer below 1e15 in magnitude is printed by ["%.0f"]. *)
Lemma of_Z_effectively_integer (n : Z) :
  Z.abs n < 10 ^ 15 ->
  ltb (fabs (of_Z n)) huge && eqb (of_Z n) (floor (of_Z n)) = true.
Proof.
  intros Hn.
  assert (Hpow : 10 ^ 15 < 2 ^ 53) by reflexivity.
  assert (Hfinite : forall s p, Zpos p < 10 ^ 15 ->
            ltb (fabs (binary_round prec emax s p 0)) huge
            && eqb (binary_round prec emax s p 0)
                 (floor (binary_round prec emax s p 0)) = true).
  { intros s p Hp. rewrite floor_binary_round by lia.
    destruct (binary_round_normal s p ltac:(lia)) as (mz & ez & E & Hez & Hm & Hnorm).
    rewrite E, eqb_finite_refl, andb_true_r. cbn [fabs SFabs].
    unfold huge. apply ltb_finite.
    destruct (Z.lt_trichotomy ez (-3)) as [He | [He | He]].
    - left. exact He.
    - right. split; [exact He|]. subst ez. change (- -3) with 3 in Hm.
      change (2 ^ 3) with 8 in Hm. lia.
    - exfalso.
      assert (2 ^ (- ez) <= 2 ^ 2) by (apply Z.pow_le_mono_r; lia).
      assert (Zpos p * 2 ^ (- ez) <= Zpos p * 2 ^ 2)
        by (apply Z.mul_le_mono_nonneg_l; lia).
      lia. }
  destruct n as [|p|p].
  - reflexivity.
  - apply (Hfinite false p). exact Hn.
  - apply (Hfinite true p). exact Hn.
Qed.

(** X23.  The Decimal rendering of an integer reads back.  For every
    integer [n] below 1e15 in magnitude, [print_result] in the Decimal
    format prints the text that ["%.0f"] makes of it, an optional minus
    sign and the decimal digits of [n]; and for every integer that a
    [double] holds exactly that text is a line that [evaluate] reads
    as [n] again. *)
Theorem decimal_output_reads_back (m : libm) (g : Globals) (n : Z) :
  Z.abs n < 2 ^ 53 ->
  printf_f0 (of_Z n) = ((if (n <? 0)%Z then "-" else "") ++ digits 10 (Z.abs n))%string
  /\ evaluate m (printf_f0 (of_Z n)) g = Ok (of_Z n, set_fmt FMT_DEC g)
  /\ (Z.abs n < 10 ^ 15 -> forall h, g_output_fmt h = FMT_DEC ->
      print_result m (of_Z n) h = Ok (print (printf_f0 (of_Z n)) h)).
Proof.
  intros Hn. split; [apply printf_f0_of_Z; exact Hn|]. split.
  - rewrite printf_f0_of_Z by exact Hn.
    destruct (digits_value_read 10 (Z.abs n) ltac:(lia) ltac:(lia)) as (Hne & Hall & Hval).
    destruct (Z.ltb_spec n 0) as [Hneg|Hpos].
    + rewrite evaluate_negated_number by assumption. rewrite Hval.
      destruct n as [|p|p]; try lia. cbn [Z.abs]. rewrite neg_of_Z. reflexivity.
    + cbn [append]. rewrite Z.abs_eq in * by lia.
      apply evaluate_number. 
      assert (Hhead : isspace (peek (digits 10 n)) = false
                      /\ (peek (digits 10 n) == NUL) = false).
      { destruct (digits 10 n) as [|c t]; [contradiction|]. cbn [all_chars] in Hall.
        apply andb_prop in Hall. destruct Hall as [Hc _]. cbn [peek].
        split; [apply (digit_of_not_space 10 c Hc)|].
        apply eqb_code. unfold digit_of in Hc.
        destruct (digit_in 10 c) eqn:E; [|discriminate].
        apply digit_in_range in E. change (code NUL) with 0. lia. }
      apply next_token_number; [apply Hhead | apply Hhead |].
      rewrite (parse_number_decimal (initial_parser (digits 10 n)) (digits 10 n)
                 eq_refl Hne Hall).
      rewrite Hval. reflexivity.
  - intros Hsmall h Hfmt. unfold print_result.
    rewrite (of_Z_not_nan n), Hfmt, (of_Z_effectively_integer n Hsmall). reflexivity.
Qed.

Lemma decimal_output_reads_back_witness :
  printf_f0 (of_Z (-1024)) = ("-" ++ digits 10 1024)%string
  /\ evaluate integers_libm (printf_f0 (of_Z (-1024))) initial_globals
     = Ok (of_Z (-1024), set_fmt FMT_DEC initial_globals).
Proof.
  refine ((fun H => conj (proj1 H) (proj1 (proj2 H)))
            (decimal_output_reads_back integers_libm initial_globals (-1024) _)).
  reflexivity.
Defined.

(** ** Where undefined behaviour cannot arise *)

Lemma tokens_ahead_S (n : nat) (p : Parser) :
  tokens_ahead (S n) p = tokens_ahead n (next_token p).
Proof.
  induction n as [|n IH]; [reflexivity|].
  change (tokens_ahead (S (S n)) p) with (next_token (tokens_ahead (S n) p)).
  rewrite IH. reflexivity.
Qed.

Lemma tokens_ahead_end (n : nat) (p : Parser) :
  is_type (cur (next_token p)) TOK_END = true ->
  tokens_ahead (S n) p = next_token p.
Proof.
  intros Hend. induction n as [|n IH]; [reflexivity|].
  change (tokens_ahead (S (S n)) p) with (next_token (tokens_ahead (S n) p)).
  rewrite IH. apply next_token_at_end. exact Hend.
Qed.

Lemma plain_tokens_all (fuel : nat) (p : Parser) :
  plain_tokens fuel p = true -> all_plain (next_token p).
Proof.
  revert p. induction fuel as [|fuel IH]; intros p; cbn [plain_tokens]; [discriminate|].
  intros H. apply andb_prop in H. destruct H as [Hcur Hrest].
  intros n. destruct n as [|n]; [exact Hcur|].
  apply orb_prop in Hrest. destruct Hrest as [Hend|Hrest].
  - rewrite <- (tokens_ahead_S (S n) p), (tokens_ahead_end (S n) p Hend).
    exact Hcur.
  - rewrite tokens_ahead_S. apply (IH (next_token p) Hrest).
Qed.

Lemma all_plain_ahead (n : nat) (p : Parser) : all_plain p -> all_plain (tokens_ahead n p).
Proof. intros H k. rewrite tokens_ahead_add. apply H. Qed.

Lemma defined_at_ret {A : Type} (p : Parser) (a : A) : defined_at p (ret a).
Proof. intros _ g Hg. split; [discriminate|]. intros a' p' g' [= _ _ <-]. exact Hg. Qed.

Lemma defined_at_bind {A B : Type} (p : Parser) (c : M A) (k : A -> M B) :
  advances c -> defined_at p c -> (forall a p', defined_at p' (k a)) ->
  defined_at p (bind c k).
Proof.
  intros Hadv Hc Hk Hp g Hg. unfold bind. destruct (Hc Hp g Hg) as [Hdef Hfmt].
  destruct (c p g) as [[[a p1] g1]| |] eqn:E; [|contradiction|].
  - destruct (Hadv _ _ _ _ _ E) as [n ->].
    apply (Hk a _ (all_plain_ahead n p Hp) g1 (Hfmt _ _ _ eq_refl)).
  - split; [discriminate | intros; discriminate].
Qed.

Lemma defined_at_current {A : Type} (p : Parser) (k : Token -> M A) :
  defined_at p (k (cur p)) -> defined_at p (bind current k).
Proof. intros H Hp g Hg. unfold bind, current. apply H; assumption. Qed.

Lemma defined_at_advance_token (p : Parser) : defined_at p advance_token.
Proof. intros _ g Hg. split; [discriminate|]. intros a p' g' [= _ _ <-]. exact Hg. Qed.

Lemma defined_at_out_of_fuel {A : Type} (p : Parser) : defined_at p (@out_of_fuel A).
Proof. intros _ g Hg. split; [discriminate | intros; discriminate]. Qed.

Lemma defined_at_lift {A : Type} (p : Parser) (r : result A) :
  r <> Undefined -> defined_at p (lift r).
Proof.
  intros Hr _ g Hg. unfold lift. destruct r; cbn [rbind]; [|contradiction|].
  - split; [discriminate|]. intros a' p' g' [= _ _ <-]. exact Hg.
  - split; [discriminate | intros; discriminate].
Qed.

Lemma defined_at_global {A : Type} (p : Parser) (f : Globals -> result (A * Globals)) :
  (forall g, g_output_fmt g = FMT_DEC ->
             f g <> Undefined
             /\ forall a g', f g = Ok (a, g') -> g_output_fmt g' = FMT_DEC) ->
  defined_at p (global f).
Proof.
  intros Hf _ g Hg. unfold global. destruct (Hf g Hg) as [Hdef Hfmt].
  destruct (f g) as [[a g1]| |]; [|contradiction|].
  - split; [discriminate|]. intros a' p' g' [= _ _ <-]. apply (Hfmt _ _ eq_refl).
  - split; [discriminate | intros; discriminate].
Qed.

Lemma defined_at_skip_rparen (p : Parser) : defined_at p skip_rparen.
Proof.
  unfold skip_rparen. apply defined_at_current.
  destruct (is_type (cur p) TOK_RPAREN);
    [apply defined_at_advance_token | apply defined_at_ret].
Qed.

Lemma advances_skip_rparen : advances skip_rparen.
Proof. unfold skip_rparen. by_structure. Qed.

Lemma plain_name (nm : string) :
  existsb (streq nm) converting_names = false ->
  forall s, In s converting_names -> streq nm s = false.
Proof.
  intros H s Hs. destruct (streq nm s) eqn:E; [|reflexivity].
  assert (existsb (streq nm) converting_names = true); [|congruence].
  apply existsb_exists. exists s. split; assumption.
Qed.

Ltac plain_names H :=
  repeat match goal with
         | |- context [streq ?nm ?s] =>
             rewrite (plain_name nm H s)
               by (unfold converting_names; repeat first [left; reflexivity | right])
         end.

Lemma call_func2_plain (m : libm) (nm : string) (a b : double) :
  existsb (streq nm) converting_names = false ->
  call_func2 m nm a b <> Undefined.
Proof.
  intros H. unfold call_func2. plain_names H.
  repeat match goal with
         | |- context [if ?c then _ else _] => destruct c
         end; discriminate.
Qed.

Lemma call_func_plain (m : libm) (nm : string) (a : double) (g : Globals) :
  existsb (streq nm) converting_names = false -> g_output_fmt g = FMT_DEC ->
  call_func m nm a g <> Undefined
  /\ forall x g', call_func m nm a g = Ok (x, g') -> g_output_fmt g' = FMT_DEC.
Proof.
  intros H Hg. unfold call_func. plain_names H.
  repeat match goal with
         | |- context [if ?c then _ else _] => destruct c
         end;
    (split; [discriminate | intros x g' [= _ <-]; first [exact Hg | reflexivity]]).
Qed.

Lemma get_var_fmt (nm : string) (g : Globals) :
  g_output_fmt (snd (get_var nm g)) = g_output_fmt g.
Proof.
  unfold get_var. destruct (find_var (vars g) nm); [reflexivity|].
  repeat match goal with
         | |- context [if ?b then _ else _] => destruct b
         end; reflexivity.
Qed.

Lemma defined_at_plain {A : Type} (p : Parser) (c : M A) :
  (plain_token (cur p) = true -> defined_at p c) -> defined_at p c.
Proof. intros H Hp. apply (H (Hp 0%nat) Hp). Qed.

Lemma plain_not_op (t : Token) :
  plain_token t = true ->
  is_op t "~" = false /\ is_op t "&" = false /\ is_op t "|" = false
  /\ is_op t "L" = false /\ is_op t "R" = false.
Proof.
  unfold plain_token, is_op. destruct (type t); cbn [TokenType_eqb andb];
    try (intros _; repeat split; reflexivity).
  intros H. apply negb_true_iff in H.
  repeat (apply orb_false_elim in H; destruct H as [H ?]).
  repeat split; assumption.
Qed.

Lemma plain_id (t : Token) :
  plain_token t = true -> is_type t TOK_ID = true ->
  existsb (streq (id t)) converting_names = false.
Proof.
  unfold plain_token. intros H Hid. apply is_type_true in Hid. rewrite Hid in H.
  apply negb_true_iff in H. exact H.
Qed.

Ltac defined_structure :=
  lazymatch goal with
  | |- defined_at _ (bind current _) => idtac
  | |- defined_at _ (bind _ _) =>
      apply defined_at_bind;
      [ first [ assumption | apply advances_skip_rparen | solve [by_structure] ]
      | defined_structure
      | intros; defined_structure ]
  | |- defined_at _ (ret _) => apply defined_at_ret
  | |- defined_at _ advance_token => apply defined_at_advance_token
  | |- defined_at _ skip_rparen => apply defined_at_skip_rparen
  | |- defined_at _ out_of_fuel => apply defined_at_out_of_fuel
  | |- defined_at _ (if ?b then _ else _) => destruct b eqn:?; defined_structure
  | |- defined_at _ ?c =>
      try match goal with H : defined c |- _ => apply H end
  | _ => idtac
  end.

Section ParserDefined.

Variable m : libm.

Lemma defined_while (fuel : nat) (ops : ascii -> bool) (operand : M double)
    (apply : ascii -> double -> double -> result double) :
  advances operand -> defined operand ->
  (forall t l r, plain_token t = true -> is_type t TOK_OP && ops (op t) = true ->
                 apply (op t) l r <> Undefined) ->
  forall left, defined (while_op fuel ops operand apply left).
Proof.
  intros Hadv Hop Happly. induction fuel as [|fuel IH]; intros left p.
  - apply defined_at_out_of_fuel.
  - cbn [while_op]. apply defined_at_current. apply defined_at_plain. intros H0.
    destruct (is_type (cur p) TOK_OP && ops (op (cur p))) eqn:E;
      [|apply defined_at_ret].
    apply defined_at_bind; [apply advances_advance_token | apply defined_at_advance_token|].
    intros _ p1. apply defined_at_bind; [exact Hadv | apply Hop|].
    intros right p2.
    apply defined_at_bind; [apply advances_lift | |intros left' p3; apply IH].
    apply defined_at_lift. apply Happly; assumption.
Qed.

Lemma defined_parser (fuel : nat) :
  defined (parse_primary m fuel) /\ defined (parse_power m fuel)
  /\ defined (parse_term m fuel) /\ defined (parse_additive m fuel)
  /\ defined (parse_shift m fuel) /\ defined (parse_bitand m fuel)
  /\ defined (parse_bitor m fuel) /\ defined (parse_expr m fuel).
Proof.
  induction fuel as [|fuel (H1 & H2 & H3 & H4 & H5 & H6 & H7 & H8)].
  - repeat apply conj; intros p; apply defined_at_out_of_fuel.
  - destruct (parser_structure m fuel)
      as ((A1 & _) & (A2 & _) & (A3 & _) & (A4 & _) & (A5 & _) & (A6 & _) & (A7 & _)
          & (A8 & _)).
    assert (Hno : forall (ops : ascii -> bool) apply,
              (forall o, ops o = true ->
                 o = "&"%char \/ o = "|"%char \/ o = "L"%char \/ o = "R"%char) ->
              forall t (l r : double), plain_token t = true ->
                is_type t TOK_OP && ops (op t) = true ->
                apply (op t) l r <> (@Undefined double)).
    { intros ops apply Hops t l r Hplain E. exfalso.
      apply andb_prop in E. destruct E as [Hty Ho].
      destruct (plain_not_op t Hplain) as (_ & Ha & Hb & Hl & Hr).
      unfold is_op in *. unfold is_type in Hty. rewrite Hty in *. cbn [andb] in *.
      destruct (Hops _ Ho) as [E | [E | [E | E]]]; rewrite E in *; discriminate. }
    assert (Hprimary : defined (parse_primary m (S fuel))).
    { intros p. cbn [parse_primary]. apply defined_at_current.
      apply defined_at_plain. intros H0.
      destruct (plain_not_op _ H0) as (Hnot & _). rewrite Hnot.
      defined_structure.
      - apply defined_at_current. defined_structure.
        + apply defined_at_current. defined_structure.
          * apply defined_at_lift. apply call_func2_plain.
            apply plain_id; assumption.
          * apply defined_at_global. intros g0 Hg0. apply call_func_plain; [|exact Hg0].
            apply plain_id; assumption.
        + apply defined_at_global. intros g0 Hg0. split; [discriminate|].
          intros val0 g1 [= E]. rewrite <- Hg0, <- (get_var_fmt (id (cur p)) g0), E.
          reflexivity.
      - apply defined_at_global. intros g0 Hg0. split; [discriminate|].
        intros val0 g1 [= _ <-]. exact Hg0. }
    assert (Hpower : defined (parse_power m (S fuel))).
    { intros p. cbn [parse_power].
      apply defined_at_bind; [exact A1 | apply H1|]. intros left p1.
      apply defined_at_current. defined_structure. }
    refine (conj Hprimary (conj Hpower (conj _ (conj _ (conj _ (conj _ (conj _ H7))))))).
    + intros p. cbn [parse_term].
      apply defined_at_bind; [exact A2 | apply H2|]. intros left p1.
      apply defined_while; [exact A2 | exact H2|]. intros; discriminate.
    + intros p. cbn [parse_additive].
      apply defined_at_bind; [exact A3 | apply H3|]. intros left p1.
      apply defined_while; [exact A3 | exact H3|]. intros; discriminate.
    + intros p. cbn [parse_shift].
      apply defined_at_bind; [exact A4 | apply H4|]. intros left p1.
      apply defined_while; [exact A4 | exact H4|]. apply Hno.
      intros o Ho. apply orb_prop in Ho.
      destruct Ho as [Ho|Ho]; apply Ascii.eqb_eq in Ho; tauto.
    + intros p. cbn [parse_bitand].
      apply defined_at_bind; [exact A5 | apply H5|]. intros left p1.
      apply defined_while; [exact A5 | exact H5|]. apply Hno.
      intros o Ho. apply Ascii.eqb_eq in Ho. tauto.
    + intros p. cbn [parse_bitor].
      apply defined_at_bind; [exact A6 | apply H6|]. intros left p1.
      apply defined_while; [exact A6 | exact H6|]. apply Hno.
      intros o Ho. apply Ascii.eqb_eq in Ho. tauto.
Qed.

End ParserDefined.

Lemma print_result_decimal (m : libm) (val : double) (g : Globals) :
  g_output_fmt g = FMT_DEC -> exists g', print_result m val g = Ok g'.
Proof.
  intros Hg. unfold print_result. rewrite Hg.
  destruct (isnan val); [eexists; reflexivity|].
  destruct (_ && _); eexists; reflexivity.
Qed.

(** X24.  Plain arithmetic has defined behaviour.  On a line whose
    tokens are numbers, names, parentheses, commas, [=] and the
    operators [+ - * / % ^ **], with none of the bitwise operators and
    none of the functions that convert to an integer or select the
    Hex, Binary or Octal format, [evaluate] always returns a value, in
    the Decimal format; and a turn of the interactive loop on such a
    line returns too. *)
Theorem plain_arithmetic_is_defined (m : libm) (line : string) (g : Globals) :
  plain_line line = true ->
  exists v g',
    evaluate m line g = Ok (v, g')
    /\ g_output_fmt g' = FMT_DEC
    /\ exists g'', repl_step m line g = Ok (v, g'').
Proof.
  intros Hplain.
  assert (Hp0 : all_plain (next_token (initial_parser line)))
    by (apply (plain_tokens_all _ _ Hplain)).
  assert (Heval : exists v g', evaluate m line g = Ok (v, g')
                               /\ g_output_fmt g' = FMT_DEC).
  { pose proof (evaluate_total m line g) as Htotal. unfold fueled in Htotal.
    revert Htotal. unfold evaluate. fold (initial_parser line).
    set (p0 := next_token (initial_parser line)) in *.
    assert (Hrun : forall fuel p, all_plain p ->
              parse_expr m fuel p (set_fmt FMT_DEC g) <> OutOfFuel ->
              exists v p' g', parse_expr m fuel p (set_fmt FMT_DEC g) = Ok (v, p', g')
                              /\ g_output_fmt g' = FMT_DEC).
    { intros fuel p Hp Hfuel.
      destruct (defined_parser m fuel) as (_ & _ & _ & _ & _ & _ & _ & Hd).
      destruct (Hd p Hp (set_fmt FMT_DEC g) eq_refl) as [Hdef Hfmt].
      destruct (parse_expr m fuel p (set_fmt FMT_DEC g)) as [[[v p'] g']| |];
        [|contradiction|contradiction].
      exists v, p', g'. split; [reflexivity | apply (Hfmt _ _ _ eq_refl)]. }
    destruct (is_type (cur p0) TOK_ID).
    - destruct (is_op (cur (next_token p0)) "=").
      + intros Htotal.
        destruct (Hrun (parse_fuel line) (next_token (next_token p0))
                    (all_plain_ahead 2 p0 Hp0)) as (v & p' & g' & E & Hfmt).
        { intros E. rewrite E in Htotal. apply Htotal. reflexivity. }
        rewrite E. exists v, (set_var (id (cur p0)) v g'). split; [reflexivity|].
        unfold set_var. destruct (update_var _ _ _); [exact Hfmt|].
        destruct (_ <? _)%nat; exact Hfmt.
      + rewrite backtrack. intros Htotal.
        destruct (Hrun (parse_fuel line) p0 Hp0) as (v & p' & g' & E & Hfmt).
        { intros E. rewrite E in Htotal. apply Htotal. reflexivity. }
        rewrite E. exists v, g'. split; [reflexivity | exact Hfmt].
    - intros Htotal.
      destruct (Hrun (parse_fuel line) p0 Hp0) as (v & p' & g' & E & Hfmt).
      { intros E. rewrite E in Htotal. apply Htotal. reflexivity. }
      rewrite E. exists v, g'. split; [reflexivity | exact Hfmt]. }
  destruct Heval as (v & g' & E & Hfmt). exists v, g'.
  split; [exact E|]. split; [exact Hfmt|].
  unfold repl_step. rewrite E.
  destruct (print_result_decimal m v g' Hfmt) as [g2 ->]. cbn [rbind].
  eexists. reflexivity.
Qed.

Lemma plain_arithmetic_is_defined_witness :
  exists v g',
    evaluate integers_libm "x = (1 + 2) * sqrt(16) / nosuchname ^ -2" initial_globals
    = Ok (v, g')
    /\ g_output_fmt g' = FMT_DEC
    /\ exists g'',
         repl_step integers_libm "x = (1 + 2) * sqrt(16) / nosuchname ^ -2"
           initial_globals
         = Ok (v, g'').
Proof.
  apply (plain_arithmetic_is_defined integers_libm
           "x = (1 + 2) * sqrt(16) / nosuchname ^ -2" initial_globals).
  vm_compute. reflexivity.
Defined.

(** ** What an evaluation can change *)

Lemma appends_ret {A : Type} (a : A) : appends (ret a).
Proof. intros p g a' p' g' [= _ _ <-]. exists []. symmetry. apply app_nil_r. Qed.

Lemma appends_bind {A B : Type} (c : M A) (k : A -> M B) :
  appends c -> (forall a, appends (k a)) -> appends (bind c k).
Proof.
  intros Hc Hk p g b p2 g2. unfold bind.
  destruct (c p g) as [[[a p1] g1]| |] eqn:E; try discriminate.
  intros H2. destruct (Hc _ _ _ _ _ E) as [e1 H1].
  destruct (Hk _ _ _ _ _ _ H2) as [e2 H3].
  exists (e1 ++ e2)%list. rewrite H3, H1, app_assoc. reflexivity.
Qed.

Lemma appends_current : appends current.
Proof. intros p g a p' g' [= _ _ <-]. exists []. symmetry. apply app_nil_r. Qed.

Lemma appends_advance_token : appends advance_token.
Proof. intros p g a p' g' [= _ _ <-]. exists []. symmetry. apply app_nil_r. Qed.

Lemma appends_lift {A : Type} (r : result A) : appends (lift r).
Proof.
  intros p g a p' g'. unfold lift. destruct r; cbn [rbind]; try discriminate.
  intros [= _ _ <-]. exists []. symmetry. apply app_nil_r.
Qed.

Lemma appends_out_of_fuel {A : Type} : appends (@out_of_fuel A).
Proof. intros p g a p' g'. discriminate. Qed.

Lemma appends_global {A : Type} (f : Globals -> result (A * Globals)) :
  (forall g a g', f g = Ok (a, g') -> exists extra, stderr g' = (stderr g ++ extra)%list) ->
  appends (global f).
Proof.
  intros Hf p g a p' g'. unfold global.
  destruct (f g) as [[a1 g1]| |] eqn:E; try discriminate.
  intros [= _ _ <-]. apply (Hf _ _ _ E).
Qed.

Lemma get_var_appends (nm : string) (g : Globals) :
  exists extra, stderr (snd (get_var nm g)) = (stderr g ++ extra)%list.
Proof.
  unfold get_var. destruct (find_var (vars g) nm);
    [exists []; symmetry; apply app_nil_r|].
  repeat match goal with
         | |- context [if ?b then _ else _] => destruct b
         end;
    first [exists []; symmetry; apply app_nil_r | eexists; reflexivity].
Qed.

Lemma call_func_appends (m : libm) (nm : string) (arg : double) (g : Globals)
    (x : double) (g' : Globals) :
  call_func m nm arg g = Ok (x, g') ->
  exists extra, stderr g' = (stderr g ++ extra)%list.
Proof.
  unfold call_func.
  repeat match goal with
         | |- context [if ?b then _ else _] => destruct b
         end;
  repeat match goal with
         | |- context [rbind ?r _] => destruct r; cbn [rbind]
         end;
  try discriminate; intros [= _ <-];
    first [exists []; symmetry; apply app_nil_r | eexists; reflexivity].
Qed.

Ltac appends_structure :=
  repeat first
    [ assumption
    | apply appends_ret | apply appends_current | apply appends_advance_token
    | apply appends_lift | apply appends_out_of_fuel
    | apply appends_bind
    | match goal with
      | |- appends (if ?b then _ else _) => destruct b
      | |- appends _ => fail 1
      | |- forall _, _ => intro
      end ].

Section ParserDiagnostics.

Variable m : libm.

Lemma appends_while (fuel : nat) (ops : ascii -> bool) (operand : M double)
    (apply : ascii -> double -> double -> result double) :
  appends operand -> forall left, appends (while_op fuel ops operand apply left).
Proof.
  intros Hop. induction fuel as [|fuel IH]; intros left; cbn [while_op];
    appends_structure.
Qed.

Lemma appends_parser (fuel : nat) :
  appends (parse_primary m fuel) /\ appends (parse_power m fuel)
  /\ appends (parse_term m fuel) /\ appends (parse_additive m fuel)
  /\ appends (parse_shift m fuel) /\ appends (parse_bitand m fuel)
  /\ appends (parse_bitor m fuel) /\ appends (parse_expr m fuel).
Proof.
  induction fuel as [|fuel (H1 & H2 & H3 & H4 & H5 & H6 & H7 & H8)].
  - repeat apply conj; apply appends_out_of_fuel.
  - repeat apply conj;
      cbn [parse_primary parse_power parse_term parse_additive parse_shift
           parse_bitand parse_bitor parse_expr];
      unfold skip_rparen;
      appends_structure;
      try (apply appends_while; assumption).
    + apply appends_global. intros g0 x g1. apply call_func_appends.
    + apply appends_global. intros g0 x g1 [= E].
      destruct (get_var_appends (id a) g0) as [extra He]. rewrite E in He.
      exists extra. exact He.
    + apply appends_global. intros g0 x g1 [= _ <-]. eexists. reflexivity.
Qed.

End ParserDiagnostics.

(** X25.  What an evaluation can change.  [evaluate] writes nothing to
    the output.  It only adds lines to the diagnostics.  It changes the
    store by at most one [set_var], of its result, under a name that
    fits the buffer; and when the first token of the line is no name,
    it leaves the store as it is. *)
Theorem evaluate_effects (m : libm) (line : string) (g : Globals)
    (v : double) (g' : Globals) :
  evaluate m line g = Ok (v, g') ->
  stdout g' = stdout g
  /\ (exists extra, stderr g' = (stderr g ++ extra)%list)
  /\ (vars g' = vars g
      \/ exists nm, (String.length nm < MAX_NAME)%nat /\ vars g' = vars (set_var nm v g))
  /\ (is_type (cur (next_token (initial_parser line))) TOK_ID = false ->
      vars g' = vars g).
Proof.
  intros E. destruct (evaluate_vars m line g v g' E) as [Hout Hvars].
  split; [exact Hout|]. split; [|split; [exact Hvars|]].
  - revert E. unfold evaluate. fold (initial_parser line).
    assert (Hrun : forall fuel p a p' g1,
              parse_expr m fuel p (set_fmt FMT_DEC g) = Ok (a, p', g1) ->
              exists extra, stderr g1 = (stderr g ++ extra)%list).
    { intros fuel p a p' g1 H.
      destruct (appends_parser m fuel) as (_ & _ & _ & _ & _ & _ & _ & Ha).
      apply (Ha _ _ _ _ _ H). }
    destruct (is_type _ TOK_ID).
    + destruct (is_op _ "=").
      * destruct (parse_expr m _ _ _) as [[[a p'] g1]| |] eqn:H; try discriminate.
        intros [= _ <-]. destruct (Hrun _ _ _ _ _ H) as [extra He]. exists extra.
        unfold set_var. destruct (update_var _ _ _); [exact He|].
        destruct (_ <? _)%nat; exact He.
      * destruct (parse_expr m _ _ _) as [[[a p'] g1]| |] eqn:H; try discriminate.
        intros [= _ <-]. apply (Hrun _ _ _ _ _ H).
    + destruct (parse_expr m _ _ _) as [[[a p'] g1]| |] eqn:H; try discriminate.
      intros [= _ <-]. apply (Hrun _ _ _ _ _ H).
  - intros Hid. revert E. unfold evaluate. fold (initial_parser line). rewrite Hid.
    destruct (parse_expr m _ _ _) as [[[a p'] g1]| |] eqn:H; try discriminate.
    intros [= _ <-].
    destruct (frames_parser m (parse_fuel line)) as (_ & _ & _ & _ & _ & _ & _ & Hf).
    apply (Hf _ _ _ _ _ H).
Qed.

Lemma evaluate_effects_witness :
  stdout (eprint "undefined: nosuchname" (set_fmt FMT_DEC initial_globals))
  = stdout initial_globals
  /\ (exists extra,
        stderr (eprint "undefined: nosuchname" (set_fmt FMT_DEC initial_globals))
        = (stderr initial_globals ++ extra)%list).
Proof.
  refine ((fun H => conj (proj1 H) (proj1 (proj2 H)))
            (evaluate_effects integers_libm "2 * nosuchname" initial_globals nan
               (eprint "undefined: nosuchname" (set_fmt FMT_DEC initial_globals)) _)).
  vm_compute. reflexivity.
Defined.
(** ** The precedence table *)

(** *** Tokens of the text of an expression *)

Lemma same_token_level (t u : Token) :
  same_token t u ->
  (forall ty, is_type t ty = is_type u ty)
  /\ (forall c, is_op t c = is_op u c)
  /\ token_level t = token_level u.
Proof.
  intros [Hty Hf]. unfold is_type, is_op, token_level, is_type.
  rewrite <- Hty. destruct (type t); cbn [TokenType_eqb andb] in *;
    try rewrite Hf; repeat split; reflexivity.
Qed.

Lemma follow_token (k : nat) (rest : string) (q : Parser) :
  follow k rest -> pos q = rest ->
  is_type (cur (next_token q)) TOK_LPAREN = false
  /\ is_op (cur (next_token q)) "=" = false
  /\ (token_level (cur (next_token q)) < k)%nat.
Proof.
  intros (_ & _ & Hl & He & Hk) Hpos.
  assert (Hs : same_parser (next_token q) (next_token (initial_parser rest))).
  { apply same_parser_next_token. exact Hpos. }
  destruct Hs as [_ Hs]. apply same_token_level in Hs.
  destruct Hs as (Hty & Hop & Hlv). rewrite Hty, Hop, Hlv. auto.
Qed.

Lemma follow_mono (k k' : nat) (rest : string) :
  (k <= k')%nat -> follow k rest -> follow k' rest.
Proof.
  intros Hle (H1 & H2 & H3 & H4 & H5). repeat split; try assumption. lia.
Qed.

(** [next_token] at a character that starts neither white space, a
    number nor a name. *)
Lemma next_token_punct (q : Parser) (c : ascii) (R : string) :
  pos q = String c R ->
  isspace c = false -> (c == NUL) = false -> isdigit c = false ->
  (c == ".") = false -> isalpha c = false -> (c == "_") = false ->
  next_token q
  = (let p := set_pos R q in
     if c == "(" then set_cur (Token_of_type TOK_LPAREN) p
     else if c == ")" then set_cur (Token_of_type TOK_RPAREN) p
     else if (c == "+") || (c == "-") || (c == "/") || (c == "%") || (c == "=")
             || (c == "&") || (c == "|") || (c == "~") || (c == ",")
     then set_cur (Token_of_op c) p
     else if c == "<" then
       if peek (pos p) == "<"
       then set_cur (Token_of_op "L") (set_pos (advance (pos p)) p)
       else set_cur (Token_of_type TOK_ERR) p
     else if c == ">" then
       if peek (pos p) == ">"
       then set_cur (Token_of_op "R") (set_pos (advance (pos p)) p)
       else set_cur (Token_of_type TOK_ERR) p
     else if c == "*" then
       if peek (pos p) == "*"
       then set_cur (Token_of_op "^") (set_pos (advance (pos p)) p)
       else set_cur (Token_of_op "*") p
     else if c == "^" then set_cur (Token_of_op "^") p
     else set_cur (Token_of_type TOK_ERR) p).
Proof.
  intros Hpos Hsp Hnul Hdig Hdot Halpha Hus.
  unfold next_token, skip_ws. rewrite Hpos. cbn [drop_while]. rewrite Hsp.
  cbn [pos set_pos peek]. rewrite Hnul.
  assert (Hnum : parse_number (set_pos (String c R) q) = (false, set_pos (String c R) q)).
  { unfold parse_number, parse_decimal. cbn [pos set_pos peek advance].
    rewrite Hdig, Hdot. cbn [andb orb].
    destruct ((c == "0") && negb (peek R == NUL)) eqn:E0; [|reflexivity].
    apply andb_prop in E0. destruct E0 as [E0 _].
    apply Ascii.eqb_eq in E0. subst c. discriminate Hdig. }
  rewrite Hnum. cbn [pos set_pos peek advance]. rewrite Halpha, Hus.
  cbn [orb]. reflexivity.
Qed.

Ltac punct q H :=
  rewrite (next_token_punct q _ _ H) by reflexivity;
  cbv beta iota zeta; cbn [Ascii.eqb Bool.eqb andb orb pos set_pos peek advance].

Lemma next_token_symbol (o : binop) (q : Parser) (R : string) :
  pos q = (symbol o ++ R)%string -> (peek R == "*") = false ->
  next_token q = set_cur (Token_of_op (opcode o)) (set_pos R q).
Proof.
  intros Hpos Hstar. destruct o; cbn [symbol append] in Hpos;
    punct q Hpos; rewrite ?Hstar; try reflexivity.
Qed.

Lemma next_token_unary (u : unop) (q : Parser) (R : string) :
  pos q = (unary_symbol u ++ R)%string ->
  next_token q = set_cur (Token_of_op (peek (unary_symbol u))) (set_pos R q).
Proof.
  intros Hpos. destruct u; cbn [unary_symbol append] in Hpos;
    punct q Hpos; reflexivity.
Qed.

Lemma next_token_lparen (q : Parser) (R : string) :
  pos q = ("(" ++ R)%string ->
  next_token q = set_cur (Token_of_type TOK_LPAREN) (set_pos R q).
Proof.
  intros Hpos. cbn [append] in Hpos. punct q Hpos. reflexivity.
Qed.

Lemma next_token_rparen (q : Parser) (R : string) :
  pos q = (")" ++ R)%string ->
  next_token q = set_cur (Token_of_type TOK_RPAREN) (set_pos R q).
Proof.
  intros Hpos. cbn [append] in Hpos. punct q Hpos. reflexivity.
Qed.

(** A decimal integer literal before text that does not continue it. *)
Lemma not_ident_char (c : ascii) :
  ident_char c = false ->
  isdigit c = false /\ isalpha c = false /\ (c == "_") = false
  /\ (c == "e") = false /\ (c == "E") = false
  /\ (c == "x") = false /\ (c == "X") = false
  /\ (c == "b") = false /\ (c == "B") = false
  /\ (c == "o") = false /\ (c == "O") = false.
Proof.
  unfold ident_char, isalnum. intros H.
  apply orb_false_elim in H. destruct H as [H Hus].
  apply orb_false_elim in H. destruct H as [Ha Hd].
  repeat split; try assumption;
    match goal with
    | |- (c == ?k) = false =>
        destruct (c == k) eqn:E; [|reflexivity];
        apply Ascii.eqb_eq in E; subst c; discriminate Ha
    end.
Qed.

Lemma strtod_integer_app (ds rest : string) :
  ds <> ""%string -> all_chars (digit_of 10) ds = true ->
  ident_char (peek rest) = false -> (peek rest == ".") = false ->
  strtod (ds ++ rest) = (of_Z (digits_value 10 ds 0), rest).
Proof.
  intros Hne Hall Hid Hdot.
  destruct (not_ident_char _ Hid) as (Hd & _ & _ & He & HE & _).
  unfold strtod. rewrite scan_decimal_app by assumption.
  cbv beta iota zeta. rewrite Hdot.
  assert ((0 + Z.of_nat (String.length ds) + 0 =? 0) = false) as ->.
  { apply Z.eqb_neq. destruct ds; [contradiction|]. cbn [String.length]. lia. }
  unfold scan_exponent. rewrite He, HE. cbn [orb]. cbv beta iota zeta.
  f_equal. unfold of_decimal. rewrite Z.sub_0_r.
  pose proof (digits_value_mono 10 ds 0 ltac:(lia) ltac:(lia)) as Hpos.
  destruct (digits_value 10 ds 0) as [|v|v] eqn:E; [reflexivity | | lia].
  change (0 <=? 0) with true. cbv iota. f_equal. change (10 ^ 0) with 1. lia.
Qed.

Lemma digits_head (ds : string) :
  ds <> ""%string -> all_chars (digit_of 10) ds = true ->
  exists c t, ds = String c t /\ isdigit c = true /\ all_chars (digit_of 10) t = true.
Proof.
  intros Hne Hall. destruct ds as [|c t]; [contradiction|].
  cbn [all_chars] in Hall. apply andb_prop in Hall. destruct Hall as [Hc Ht].
  exists c, t. repeat split; [|exact Ht]. apply digit10_isdigit. exact Hc.
Qed.

Lemma isdigit_classes (c : ascii) :
  isdigit c = true ->
  isspace c = false /\ (c == NUL) = false /\ (c == "*") = false
  /\ (c == "x") = false /\ (c == "X") = false
  /\ (c == "b") = false /\ (c == "B") = false
  /\ (c == "o") = false /\ (c == "O") = false.
Proof.
  intros H. repeat split;
    match goal with
    | |- (c == ?k) = false =>
        destruct (c == k) eqn:E; [|reflexivity];
        apply Ascii.eqb_eq in E; subst c; discriminate H
    | |- _ => idtac
    end.
  revert H. char_classes.
Qed.

Lemma next_token_literal (q : Parser) (ds rest : string) :
  ds <> ""%string -> all_chars (digit_of 10) ds = true ->
  ident_char (peek rest) = false -> (peek rest == ".") = false ->
  pos q = (ds ++ rest)%string ->
  next_token q = set_num (of_Z (digits_value 10 ds 0)) (set_pos rest q).
Proof.
  intros Hne Hall Hid Hdot Hpos.
  destruct (digits_head ds Hne Hall) as (c & t & Hds & Hc & Ht).
  destruct (isdigit_classes c Hc) as (Hsp & Hnul & _).
  assert (Hdec : parse_decimal q
                 = (true, set_num (of_Z (digits_value 10 ds 0)) (set_pos rest q))).
  { unfold parse_decimal. rewrite Hpos, (strtod_integer_app ds rest Hne Hall Hid Hdot).
    subst ds. cbn [append peek]. rewrite Hc. reflexivity. }
  apply next_token_number.
  - rewrite Hpos. subst ds. exact Hsp.
  - rewrite Hpos. subst ds. exact Hnul.
  - unfold parse_number. rewrite Hdec, Hpos.
    destruct ((peek (ds ++ rest) == "0") && negb (peek (advance (ds ++ rest)) == NUL))
      eqn:E0; [|reflexivity].
    assert (Hsecond : forall k : ascii,
              isdigit k = false -> ident_char k = true ->
              (peek (advance (ds ++ rest)) == k) = false).
    { intros k Hk1 Hk2. subst ds. cbn [append advance].
      destruct t as [|d t'].
      - cbn [append]. destruct (peek rest == k) eqn:E; [|reflexivity].
        apply Ascii.eqb_eq in E. rewrite E in Hid. congruence.
      - cbn [append peek]. cbn [all_chars] in Ht. apply andb_prop in Ht.
        destruct Ht as [Hd _]. apply digit10_isdigit in Hd. destruct Hd as [Hd _].
        destruct (d == k) eqn:E; [|reflexivity].
        apply Ascii.eqb_eq in E. subst d. congruence. }
    rewrite !Hsecond by reflexivity. reflexivity.
Qed.

(** *** What the text of an expression starts with *)

Lemma identifier_not_star (nm rest : string) :
  identifier nm -> (peek (nm ++ rest) == "*") = false.
Proof.
  intros Hid. destruct (identifier_head nm Hid) as (c & t & -> & Hstart & _).
  cbn [append peek]. destruct (c == "*") eqn:E; [|reflexivity].
  apply Ascii.eqb_eq in E. subst c. discriminate Hstart.
Qed.

Lemma show_head (e : expr) (k : nat) (rest : string) :
  well_formed e -> (peek (show k e ++ rest) == "*") = false.
Proof.
  revert k rest. induction e as [nm | ds | u e IH | o l IHl r IHr];
    intros k rest Hwf; cbn [show well_formed] in *.
  - apply identifier_not_star. exact Hwf.
  - destruct Hwf as [Hne Hall].
    destruct (digits_head ds Hne Hall) as (c & t & -> & Hc & _).
    cbn [append peek]. apply (isdigit_classes c Hc).
  - destruct u; reflexivity.
  - destruct Hwf as [Hl Hr]. unfold paren.
    destruct (level o <? k)%nat; [reflexivity|].
    destruct (right_assoc o); rewrite append_assoc; apply IHl; exact Hl.
Qed.

(** *** What may follow an operand *)

Lemma follow_end (k : nat) : (1 <= k)%nat -> follow k "".
Proof. intros Hk. repeat split; try reflexivity. cbn. lia. Qed.

Lemma follow_rparen (k : nat) (R : string) : (1 <= k)%nat -> follow k (")" ++ R).
Proof.
  intros Hk. unfold follow.
  rewrite (next_token_rparen (initial_parser (")" ++ R)) R eq_refl).
  repeat split; try reflexivity. cbn. lia.
Qed.

Lemma level_opcode (o : binop) : token_level (Token_of_op (opcode o)) = level o.
Proof. destruct o; reflexivity. Qed.

Lemma follow_symbol (k : nat) (o : binop) (R : string) :
  (level o < k)%nat -> (peek R == "*") = false -> follow k (symbol o ++ R).
Proof.
  intros Hk Hstar. unfold follow.
  rewrite (next_token_symbol o (initial_parser (symbol o ++ R)) R eq_refl Hstar).
  cbn [cur set_cur]. rewrite level_opcode.
  repeat split; try exact Hk; destruct o; reflexivity.
Qed.

(** *** The levels of the parser *)

Lemma eqb_true_eq (c d : ascii) : (c == d) = true -> c = d.
Proof. apply Ascii.eqb_eq. Qed.

Lemma level_ops_token (j : nat) (t : Token) :
  (1 <= j <= 5)%nat ->
  is_type t TOK_OP && level_ops j (op t) = true -> token_level t = j.
Proof.
  intros Hj H. apply andb_prop in H. destruct H as [Hty Hop].
  unfold token_level. rewrite Hty.
  destruct j as [|[|[|[|[|[|j]]]]]]; try lia; cbn [level_ops] in Hop;
    unfold is_bitor_op, is_bitand_op, is_shift_op, is_additive_op, is_term_op in *;
    repeat match type of Hop with
           | (_ || _) = true => apply orb_prop in Hop; destruct Hop as [Hop | Hop]
           end;
    apply eqb_true_eq in Hop; rewrite Hop; reflexivity.
Qed.

Lemma level_ops_opcode (o : binop) :
  right_assoc o = false ->
  is_type (Token_of_op (opcode o)) TOK_OP
  && level_ops (level o) (op (Token_of_op (opcode o))) = true.
Proof. destruct o; intros H; try discriminate H; reflexivity. Qed.

Lemma is_pow_token (t : Token) : is_op t "^" = true -> token_level t = 6%nat.
Proof.
  unfold is_op, token_level, is_type. intros H. apply andb_prop in H.
  destruct H as [Hty Hop]. rewrite Hty. apply eqb_true_eq in Hop. rewrite Hop.
  reflexivity.
Qed.

Section Precedence.

Variable m : libm.

Lemma level_apply_opcode (o : binop) (a b : double) :
  right_assoc o = false ->
  level_apply m (level o) (opcode o) a b = apply_binop m o a b.
Proof. destruct o; intros H; try discriminate H; reflexivity. Qed.

Lemma apply_binop_fueled (o : binop) (a b : double) : fueled (apply_binop m o a b).
Proof.
  destruct o; cbn [apply_binop]; try apply fueled_Ok;
    unfold bitor_op, bitand_op, shift_op; solve_fueled.
Qed.

Lemma apply_unop_fueled (u : unop) (a : double) : fueled (apply_unop u a).
Proof. destruct u; cbn [apply_unop]; solve_fueled. Qed.

Lemma denote_fueled (e : expr) (g : Globals) : denote m e g <> OutOfFuel.
Proof.
  revert g. induction e as [nm | ds | u e IH | o l IHl r IHr]; intros g;
    cbn [denote]; try discriminate.
  - specialize (IH g). destruct (denote m e g) as [[a g1]| |];
      cbn [rbind fst snd]; try congruence.
    pose proof (apply_unop_fueled u a) as H.
    destruct (apply_unop u a); cbn [rbind]; congruence.
  - specialize (IHl g). destruct (denote m l g) as [[a g1]| |];
      cbn [rbind fst snd]; try congruence.
    specialize (IHr g1). destruct (denote m r g1) as [[b g2]| |];
      cbn [rbind fst snd]; try congruence.
    pose proof (apply_binop_fueled o a b) as H.
    destruct (apply_binop m o a b); cbn [rbind]; congruence.
Qed.

Lemma parse_at_S (j fuel : nat) :
  (1 <= j <= 5)%nat ->
  parse_at m j (S fuel)
  = bind (parse_at m (S j) fuel)
         (while_op fuel (level_ops j) (parse_at m (S j) fuel) (level_apply m j)).
Proof.
  intros Hj. destruct j as [|[|[|[|[|[|j]]]]]]; try lia; reflexivity.
Qed.

Lemma loop_stops (j fuel : nat) (operand : M double) (v : double)
    (p : Parser) (g : Globals) :
  (1 <= j <= 5)%nat -> (token_level (cur p) < j)%nat ->
  while_op (S fuel) (level_ops j) operand (level_apply m j) v p g = Ok (v, p, g).
Proof.
  intros Hj Hlt. cbn [while_op]. rewrite bind_run. unfold current.
  destruct (is_type (cur p) TOK_OP && level_ops j (op (cur p))) eqn:E; [|reflexivity].
  apply (level_ops_token j _ Hj) in E. lia.
Qed.

(** The loop of a level stops where nothing of that level follows. *)
Lemma heads_loop_parses (j : nat) (e : expr) :
  (1 <= j <= 5)%nat -> heads_loop m j e -> parses_as m j e.
Proof.
  intros Hj Hh rest q g Hf Hpos.
  specialize (Hh rest q g (follow_mono j (S j) rest ltac:(lia) Hf) Hpos).
  destruct (denote m e g) as [[v g1]| |] eqn:Hd.
  - destruct Hh as (q1 & Hq1 & Hh). exists q1. split; [exact Hq1|].
    cbn [resume]. apply Hh. exists 1%nat. intros fw fo Hfw _.
    destruct fw as [|fw]; [lia|]. apply loop_stops; [exact Hj|].
    apply (follow_token j rest q1 Hf Hq1).
  - exists (set_pos rest q). split; [reflexivity | exact Hh].
  - contradiction.
Qed.

(** An operand of the next level starts the loop of a level. *)
Lemma parses_heads (j : nat) (e : expr) :
  (1 <= j <= 5)%nat -> show j e = show (S j) e ->
  parses_as m (S j) e -> heads_loop m j e.
Proof.
  intros Hj Hshow Hp rest q g Hf Hpos. rewrite Hshow in Hpos.
  destruct (Hp rest q g Hf Hpos) as (q1 & Hq1 & n0 & Hn0).
  pose proof (denote_fueled e g) as Hfuel.
  destruct (denote m e g) as [[v g1]| |]; cbn [resume] in Hn0.
  - exists q1. split; [exact Hq1|]. intros res (n1 & Hn1).
    exists (S (Nat.max n0 n1)). intros n Hn. destruct n as [|F]; [lia|].
    rewrite (parse_at_S j F Hj), bind_run, Hn0 by lia. apply Hn1; lia.
  - exists (S n0). intros n Hn. destruct n as [|F]; [lia|].
    rewrite (parse_at_S j F Hj), bind_run, Hn0 by lia. reflexivity.
  - congruence.
Qed.

(** A primary that no power operator follows is a power. *)
Lemma parses_power_of_primary (e : expr) :
  show 6 e = show 7 e -> parses_as m 7 e -> parses_as m 6 e.
Proof.
  intros Hshow Hp rest q g Hf Hpos. rewrite Hshow in Hpos.
  destruct (Hp rest q g (follow_mono 6 7 rest ltac:(lia) Hf) Hpos)
    as (q1 & Hq1 & n0 & Hn0).
  exists q1. split; [exact Hq1|]. exists (S n0). intros n Hn.
  destruct n as [|F]; [lia|]. cbn [parse_at]. rewrite parse_power_S, bind_run.
  change (parse_primary m F) with (parse_at m 7 F). rewrite Hn0 by lia.
  destruct (denote m e g) as [[v g1]| |]; cbn [resume]; try reflexivity.
  rewrite bind_run. unfold current.
  destruct (is_op (cur (next_token q1)) "^") eqn:E; [|reflexivity].
  apply is_pow_token in E.
  pose proof (follow_token 6 rest q1 Hf Hq1) as (_ & _ & Hlt). lia.
Qed.

(** *** Leaves, unary operators and parentheses *)

Lemma parses_var (nm : string) : identifier nm -> parses_as m 7 (Name nm).
Proof.
  intros Hid rest q g Hf Hpos. cbn [show] in Hpos.
  assert (Hq : next_token q = set_id nm (set_pos rest q)).
  { apply (next_token_identifier q "" nm rest); [reflexivity | exact Hid | apply Hf | exact Hpos]. }
  exists (next_token q). split; [rewrite Hq; reflexivity|].
  exists 1%nat. intros n Hn. destruct n as [|F]; [lia|]. cbn [parse_at].
  assert (Hnm : id (cur (next_token q)) = nm) by (rewrite Hq; reflexivity).
  rewrite parse_primary_variable.
  - rewrite Hnm. cbn [denote resume]. destruct (get_var nm g). reflexivity.
  - rewrite Hq. reflexivity.
  - apply (follow_token 7 rest (next_token q) Hf). rewrite Hq. reflexivity.
Qed.

Lemma parses_num (ds : string) :
  ds <> ""%string -> all_chars (digit_of 10) ds = true -> parses_as m 7 (Num ds).
Proof.
  intros Hne Hall rest q g Hf Hpos. cbn [show] in Hpos.
  assert (Hq : next_token q = set_num (of_Z (digits_value 10 ds 0)) (set_pos rest q)).
  { apply next_token_literal; try assumption; apply Hf. }
  exists (next_token q). split; [rewrite Hq; reflexivity|].
  exists 1%nat. intros n Hn. destruct n as [|F]; [lia|]. cbn [parse_at parse_primary].
  assert (Hty : type (cur (next_token q)) = TOK_NUM) by (rewrite Hq; reflexivity).
  assert (Hnum : num (cur (next_token q)) = of_Z (digits_value 10 ds 0))
    by (rewrite Hq; reflexivity).
  rewrite bind_run. unfold current. unfold is_op, is_type. rewrite Hty, Hnum.
  cbn [TokenType_eqb andb orb]. reflexivity.
Qed.

Lemma parses_unary (u : unop) (e : expr) :
  parses_as m 7 e -> parses_as m 7 (Un u e).
Proof.
  intros Hp rest q g Hf Hpos. cbn [show] in Hpos. rewrite append_assoc in Hpos.
  pose proof (next_token_unary u q _ Hpos) as Hq.
  destruct (Hp rest (next_token q) g Hf) as (q1 & Hq1 & n0 & Hn0).
  { rewrite Hq. reflexivity. }
  exists q1. split; [exact Hq1|]. exists (S n0). intros n Hn.
  destruct n as [|F]; [lia|]. cbn [parse_at parse_primary]. rewrite bind_run.
  assert (Hty : type (cur (next_token q)) = TOK_OP) by (rewrite Hq; reflexivity).
  assert (Hop : op (cur (next_token q)) = peek (unary_symbol u))
    by (rewrite Hq; reflexivity).
  unfold current. change (parse_primary m F) with (parse_at m 7 F).
  unfold is_op, is_type. rewrite Hty, Hop.
  destruct u;
    cbn [TokenType_eqb andb orb unary_symbol peek Ascii.eqb Bool.eqb];
    rewrite bind_run; unfold advance_token at 1; cbv beta iota;
    rewrite bind_run, Hn0 by lia; cbn [denote];
    destruct (denote m e g) as [[a g1]| |]; cbn [resume rbind fst snd apply_unop];
    try reflexivity.
  rewrite bind_run. unfold lift.
  destruct (to_uint64 a); reflexivity.
Qed.

Lemma parses_paren (e : expr) :
  parses_as m 1 e ->
  forall rest q g,
    follow 7 rest -> pos q = ("(" ++ show 1 e ++ ")" ++ rest)%string ->
    exists q', pos q' = rest
               /\ eventually (fun fuel => parse_at m 7 fuel (next_token q) g)
                             (resume (denote m e g) q').
Proof.
  intros Hp rest q g Hf Hpos.
  pose proof (next_token_lparen q _ Hpos) as Hq.
  destruct (Hp (")" ++ rest)%string (next_token q) g
              (follow_rparen 1 rest ltac:(lia))) as (q1 & Hq1 & n0 & Hn0).
  { rewrite Hq. reflexivity. }
  pose proof (next_token_rparen q1 rest Hq1) as Hq2.
  exists (next_token q1). split; [rewrite Hq2; reflexivity|].
  exists (S (S n0)). intros n Hn. destruct n as [|[|F]]; try lia.
  cbn [parse_at parse_primary]. rewrite bind_run. unfold current.
  assert (Hty : type (cur (next_token q)) = TOK_LPAREN) by (rewrite Hq; reflexivity).
  unfold is_op, is_type. rewrite Hty.
  cbn [TokenType_eqb andb orb].
  rewrite bind_run. unfold advance_token at 1. cbv beta iota.
  rewrite bind_run, parse_expr_S. change (parse_bitor m F) with (parse_at m 1 F).
  rewrite Hn0 by lia.
  destruct (denote m e g) as [[v g1]| |]; cbn [resume]; try reflexivity.
  assert (Hty2 : type (cur (next_token q1)) = TOK_RPAREN) by (rewrite Hq2; reflexivity).
  rewrite bind_run. unfold skip_rparen. rewrite bind_run. unfold current.
  unfold is_type. rewrite Hty2. reflexivity.
Qed.

(** *** Binary operators *)

Lemma heads_loop_bin (o : binop) (l r : expr) :
  right_assoc o = false -> well_formed r ->
  heads_loop m (level o) l -> parses_as m (S (level o)) r ->
  heads_loop m (level o) (Bin o l r).
Proof.
  intros Hassoc Hwf Hl Hr rest q g Hf Hpos.
  cbn [show] in Hpos. rewrite Nat.ltb_irrefl, Hassoc in Hpos. unfold paren in Hpos.
  rewrite !append_assoc in Hpos.
  specialize (Hl _ q g (follow_symbol (S (level o)) o _ ltac:(lia)
                           (show_head r (S (level o)) rest Hwf)) Hpos).
  pose proof (denote_fueled l g) as Hfl. cbn [denote].
  destruct (denote m l g) as [[a g1]| |]; cbn [rbind fst snd];
    [|exact Hl|contradiction].
  destruct Hl as (q1 & Hq1 & Hl).
  pose proof (next_token_symbol o q1 _ Hq1 (show_head r (S (level o)) rest Hwf)) as Hp1.
  destruct (Hr rest (next_token q1) g1 Hf) as (q2 & Hq2 & n2 & Hn2).
  { rewrite Hp1. reflexivity. }
  pose proof (denote_fueled r g1) as Hfr.
  pose proof (apply_binop_fueled o a) as Hfo.
  assert (Hstep : forall fw fo, (n2 <= fo)%nat ->
            while_op (S fw) (level_ops (level o)) (parse_at m (S (level o)) fo)
              (level_apply m (level o)) a (next_token q1) g1
            = match denote m r g1 with
              | Ok (b, g2) =>
                  match apply_binop m o a b with
                  | Ok v =>
                      while_op fw (level_ops (level o)) (parse_at m (S (level o)) fo)
                        (level_apply m (level o)) v (next_token q2) g2
                  | Undefined => Undefined
                  | OutOfFuel => OutOfFuel
                  end
              | Undefined => Undefined
              | OutOfFuel => OutOfFuel
              end).
  assert (Hcur : cur (next_token q1) = Token_of_op (opcode o))
    by (rewrite Hp1; reflexivity).
  { intros fw fo Hfo'. cbn [while_op]. rewrite bind_run. unfold current.
    rewrite Hcur. rewrite (level_ops_opcode o Hassoc).
    rewrite bind_run. unfold advance_token at 1. cbv beta iota.
    rewrite bind_run, Hn2 by exact Hfo'.
    destruct (denote m r g1) as [[b g2]| |]; cbn [resume]; try reflexivity.
    rewrite bind_run. unfold lift. cbn [op Token_of_op].
    rewrite (level_apply_opcode o a b Hassoc).
    destruct (apply_binop m o a b); reflexivity. }
  destruct (denote m r g1) as [[b g2]| |]; cbn [rbind fst snd];
    [| |contradiction].
  - specialize (Hfo b). destruct (apply_binop m o a b) as [v| |]; cbn [rbind].
    + exists q2. split; [exact Hq2|]. intros res (n3 & Hn3). apply Hl.
      exists (S (Nat.max n2 n3)). intros fw fo Hfw Hfo'.
      destruct fw as [|fw]; [lia|]. rewrite Hstep by lia. apply Hn3; lia.
    + apply Hl. exists (S n2). intros fw fo Hfw Hfo'.
      destruct fw as [|fw]; [lia|]. rewrite Hstep by lia. reflexivity.
    + contradiction Hfo. reflexivity.
  - apply Hl. exists (S n2). intros fw fo Hfw Hfo'.
    destruct fw as [|fw]; [lia|]. rewrite Hstep by lia. reflexivity.
Qed.

Lemma parses_power (o : binop) (l r : expr) :
  right_assoc o = true -> well_formed r ->
  parses_as m 7 l -> parses_as m 6 r -> parses_as m 6 (Bin o l r).
Proof.
  intros Hassoc Hwf Hl Hr rest q g Hf Hpos.
  assert (Hlev : level o = 6%nat) by (destruct o; try discriminate Hassoc; reflexivity).
  assert (Hcode : opcode o = "^"%char) by (destruct o; try discriminate Hassoc; reflexivity).
  assert (Happ : forall a b, apply_binop m o a b = Ok (pow m a b))
    by (destruct o; try discriminate Hassoc; reflexivity).
  cbn [show] in Hpos. rewrite Hassoc, Hlev in Hpos. cbn [Nat.ltb Nat.leb paren] in Hpos.
  rewrite !append_assoc in Hpos.
  destruct (Hl _ q g (follow_symbol 7 o _ ltac:(lia) (show_head r 6 rest Hwf)) Hpos)
    as (q1 & Hq1 & n1 & Hn1).
  pose proof (next_token_symbol o q1 _ Hq1 (show_head r 6 rest Hwf)) as Hp1.
  rewrite Hcode in Hp1.
  destruct (denote m l g) as [[a g1]| |] eqn:Hdl.
  - destruct (Hr rest (next_token q1) g1 Hf) as (q2 & Hq2 & n2 & Hn2).
    { rewrite Hp1. reflexivity. }
    exists q2. split; [exact Hq2|]. exists (S (Nat.max n1 n2)). intros n Hn.
    destruct n as [|F]; [lia|]. cbn [parse_at]. rewrite parse_power_S, bind_run.
    change (parse_primary m F) with (parse_at m 7 F). rewrite Hn1 by lia.
    cbn [resume]. rewrite bind_run. unfold current.
    assert (Hcur : cur (next_token q1) = Token_of_op "^") by (rewrite Hp1; reflexivity).
    rewrite Hcur. unfold is_op, is_type.
    cbn [Token_of_op type op TokenType_eqb andb Ascii.eqb Bool.eqb].
    rewrite bind_run. unfold advance_token at 1. cbv beta iota.
    change (parse_power m F) with (parse_at m 6 F). rewrite bind_run, Hn2 by lia.
    cbn [denote]. rewrite Hdl. cbn [rbind fst snd].
    destruct (denote m r g1) as [[b g2]| |]; cbn [resume rbind fst snd];
      try reflexivity.
    rewrite Happ. reflexivity.
  - exists (set_pos rest q). split; [reflexivity|]. exists (S n1). intros n Hn.
    destruct n as [|F]; [lia|]. cbn [parse_at]. rewrite parse_power_S, bind_run.
    change (parse_primary m F) with (parse_at m 7 F). rewrite Hn1 by lia.
    cbn [denote]. rewrite Hdl. reflexivity.
  - contradiction (denote_fueled l g).
Qed.

(** *** Every level, every tree *)

Lemma at_level_down (e : expr) (k : nat) :
  (1 <= k < 7)%nat -> show k e = show (S k) e ->
  at_level m (S k) e -> at_level m k e.
Proof.
  intros Hk Hshow [Hp _]. destruct (Nat.eq_dec k 6) as [-> | Hne].
  - split; [|lia]. apply parses_power_of_primary; assumption.
  - assert (Hh : heads_loop m k e) by (apply parses_heads; [lia | assumption..]).
    split; [|intros _; exact Hh]. apply heads_loop_parses; [lia | exact Hh].
Qed.

Lemma at_level_range (e : expr) (lo hi : nat) :
  (1 <= lo)%nat -> (hi <= 7)%nat ->
  (forall k, (lo <= k < hi)%nat -> show k e = show (S k) e) ->
  at_level m hi e ->
  forall k, (lo <= k <= hi)%nat -> at_level m k e.
Proof.
  intros Hlo Hhi Hshow Hat k Hk.
  remember (hi - k)%nat as d eqn:Hd. revert k Hk Hd.
  induction d as [|d IH]; intros k Hk Hd.
  - replace k with hi by lia. exact Hat.
  - apply at_level_down; [lia | apply Hshow; lia | apply IH; lia].
Qed.

Lemma show_unparenthesized (o : binop) (l r : expr) (k : nat) :
  (k <= level o)%nat -> show k (Bin o l r) = show (level o) (Bin o l r).
Proof.
  intros Hk. cbn [show]. rewrite Nat.ltb_irrefl.
  destruct (Nat.ltb_spec (level o) k); [lia | reflexivity].
Qed.

Lemma show_parenthesized (o : binop) (l r : expr) (k : nat) :
  (level o < k)%nat ->
  show k (Bin o l r) = ("(" ++ show 1 (Bin o l r) ++ ")")%string.
Proof.
  intros Hk. rewrite (show_unparenthesized o l r 1) by (destruct o; cbn; lia).
  cbn [show]. rewrite Nat.ltb_irrefl.
  destruct (Nat.ltb_spec (level o) k); [reflexivity | lia].
Qed.

Lemma level_range (o : binop) : (1 <= level o <= 6)%nat.
Proof. destruct o; cbn; lia. Qed.

Lemma level_assoc (o : binop) :
  (right_assoc o = true /\ level o = 6%nat)
  \/ (right_assoc o = false /\ (level o <= 5)%nat).
Proof. destruct o; cbn; (left; split; [reflexivity | lia]) || (right; split; [reflexivity | lia]). Qed.

(** The function of every level reads the text of every tree as that
    tree. *)
Lemma parser_reads_tree (e : expr) :
  well_formed e -> forall k, (1 <= k <= 7)%nat -> at_level m k e.
Proof.
  induction e as [nm | ds | u e IH | o l IHl r IHr]; cbn [well_formed]; intros Hwf.
  - apply (at_level_range _ 1 7); try lia; [reflexivity|].
    split; [apply parses_var; exact Hwf | lia].
  - apply (at_level_range _ 1 7); try lia; [reflexivity|].
    split; [apply parses_num; apply Hwf | lia].
  - apply (at_level_range _ 1 7); try lia; [reflexivity|].
    split; [|lia]. apply parses_unary. apply (IH Hwf 7%nat). lia.
  - destruct Hwf as [Hl Hr]. specialize (IHl Hl). specialize (IHr Hr).
    pose proof (level_range o) as Hlev.
    assert (Hown : at_level m (level o) (Bin o l r)).
    { destruct (level_assoc o) as [[Hassoc H6] | [Hassoc H5]].
      - rewrite H6. split; [|lia]. apply parses_power; try assumption.
        + apply (IHl 7%nat). lia.
        + apply (IHr 6%nat). lia.
      - assert (Hh : heads_loop m (level o) (Bin o l r)).
        { apply heads_loop_bin; try assumption.
          - apply (IHl (level o)); lia.
          - apply (IHr (S (level o))). lia. }
        split; [|intros _; exact Hh]. apply heads_loop_parses; [lia | exact Hh]. }
    assert (Hlow : forall k, (1 <= k <= level o)%nat -> at_level m k (Bin o l r)).
    { apply (at_level_range _ 1 (level o)); try lia; [|exact Hown].
      intros k Hk.
      rewrite (show_unparenthesized o l r k), (show_unparenthesized o l r (S k)) by lia.
      reflexivity. }
    assert (Htop : at_level m 7 (Bin o l r)).
    { split; [|lia]. intros rest q g Hf Hpos.
      rewrite show_parenthesized, !append_assoc in Hpos by lia.
      apply (parses_paren _ (proj1 (Hlow 1%nat ltac:(lia))) rest q g Hf Hpos). }
    intros k Hk. destruct (Nat.le_gt_cases k (level o)) as [Hle | Hgt].
    + apply Hlow. lia.
    + apply (at_level_range _ (S (level o)) 7); try lia; [|exact Htop].
      intros k' Hk'.
      rewrite (show_parenthesized o l r k'), (show_parenthesized o l r (S k')) by lia.
      reflexivity.
Qed.

End Precedence.

(** *** Lines *)

(** The text of a tree is no assignment. *)
Lemma show_not_assignment (e : expr) :
  well_formed e ->
  forall k rest q,
    follow 7 rest -> pos q = (show k e ++ rest)%string ->
    is_type (cur (next_token q)) TOK_ID = false
    \/ is_op (cur (next_token (next_token q))) "=" = false.
Proof.
  induction e as [nm | ds | u e IH | o l IHl r IHr]; cbn [well_formed show];
    intros Hwf k rest q Hf Hpos.
  - right. apply (follow_token 7 rest (next_token q) Hf).
    rewrite (next_token_identifier q "" nm rest); try assumption; try reflexivity.
    apply Hf.
  - left. destruct Hwf as [Hne Hall].
    rewrite (next_token_literal q ds rest); try assumption; try apply Hf. reflexivity.
  - left. rewrite append_assoc in Hpos. rewrite (next_token_unary u q _ Hpos).
    reflexivity.
  - destruct Hwf as [Hl Hr]. unfold paren in Hpos.
    destruct (level o <? k)%nat.
    + left. rewrite append_assoc in Hpos. rewrite (next_token_lparen q _ Hpos).
      reflexivity.
    + destruct (right_assoc o); rewrite !append_assoc in Hpos;
        refine (IHl Hl _ _ q _ Hpos);
        apply (follow_symbol 7 o); try apply show_head; try assumption;
        destruct o; cbn; lia.
Qed.

(** A line that is the text of a tree has the value of the tree. *)
Lemma evaluate_tree (m : libm) (e : expr) (g : Globals) :
  well_formed e ->
  evaluate m (show 1 e) g = denote m e (set_fmt FMT_DEC g).
Proof.
  intros Hwf.
  assert (Hline : pos (initial_parser (show 1 e)) = (show 1 e ++ "")%string).
  { rewrite append_empty_r. reflexivity. }
  rewrite evaluate_as_expression
    by (apply (show_not_assignment e Hwf 1%nat ""%string _
                 (follow_end 7 ltac:(lia)) Hline)).
  unfold expression.
  destruct (proj1 (parser_reads_tree m e Hwf 1%nat ltac:(lia)) ""%string
              (initial_parser (show 1 e)) (set_fmt FMT_DEC g)
              (follow_end 1 ltac:(lia)) Hline) as (q' & _ & n0 & Hn0).
  set (p := next_token (initial_parser (show 1 e))) in *.
  set (fuel := parse_fuel (show 1 e)).
  assert (Hrun : parse_expr m fuel p (set_fmt FMT_DEC g)
                 = resume (denote m e (set_fmt FMT_DEC g)) q').
  { destruct (parse_expr_fuel_le m fuel (S (Nat.max n0 fuel)) ltac:(lia) p
                (set_fmt FMT_DEC g)) as [Hout | Heq].
    - exfalso. revert Hout. apply parse_expr_total. unfold fuel, parse_fuel.
      pose proof (initial_measure (show 1 e)). unfold p. lia.
    - rewrite Heq, parse_expr_S. apply (Hn0 (Nat.max n0 fuel)). lia. }
  rewrite Hrun.
  destruct (denote m e (set_fmt FMT_DEC g)) as [[v g']| |]; reflexivity.
Qed.

Lemma show_three_operands (o1 o2 : binop) (a b c : string) :
  show 1 (three_operands o1 o2 (Name a) (Name b) (Name c))
  = (a ++ symbol o1 ++ b ++ symbol o2 ++ c)%string.
Proof.
  destruct o1, o2; cbn; rewrite ?append_assoc; reflexivity.
Qed.

(** *** The examples of the specification *)

Lemma pow_integers_exact : pow_exact_on_integers integers_libm.
Proof.
  intros x y a n [Hx _] [Hy _] Hn _. simpl. unfold pow_integers.
  rewrite Hx, Hy. destruct (Z.leb_spec 0 n); [reflexivity | lia].
Qed.

Lemma pow_at (m : libm) (a n : Z) :
  pow_exact_on_integers m ->
  trunc (of_Z a) = Some a -> trunc (of_Z n) = Some n ->
  0 <= n -> Z.abs (a ^ n) <= 2 ^ 53 ->
  pow m (of_Z a) (of_Z n) = of_Z (a ^ n).
Proof.
  intros H Ha Hb Hn Hp. apply H; try assumption; split; auto.
Qed.

(** C1.  The parser honours the table of precedence and associativity.
    For every tree of binary operators, unary operators, names and
    decimal integers, the line that renders the tree with exactly the
    parentheses that the table requires ([**], [^] right-associative
    above [* / %], above [+ -], above [<< >>], above [&], above [|],
    these five left-associative, unary operators on primaries) has the
    value of the tree, its diagnostics, and its undefined behaviour.
    In particular a line [a o1 b o2 c] of three names and any two
    binary operators is read as [(a o1 b) o2 c] when [o1] binds
    tighter than [o2], or as tight and to the left, and as
    [a o1 (b o2 c)] otherwise.  With a [pow] that is exact on integers,
    in every environment [2^3^2] is 512 (in both spellings), [2-3-4]
    is -5, [1<<2+1] is 8, [2*3^2] is 18, [6&3<<1] is 6 and [1|2&4]
    is 1. *)
Theorem precedence_and_associativity (m : libm) (g : Globals) :
  (forall e, well_formed e ->
     evaluate m (show 1 e) g = denote m e (set_fmt FMT_DEC g))
  /\ (forall o1 o2 a b c,
        identifier a -> identifier b -> identifier c ->
        evaluate m (a ++ symbol o1 ++ b ++ symbol o2 ++ c) g
        = denote m (three_operands o1 o2 (Name a) (Name b) (Name c))
            (set_fmt FMT_DEC g))
  /\ (pow_exact_on_integers m ->
      evaluate m "2^3^2" g = Ok (of_Z 512, set_fmt FMT_DEC g)
      /\ evaluate m "2**3**2" g = Ok (of_Z 512, set_fmt FMT_DEC g)
      /\ evaluate m "2-3-4" g = Ok (of_Z (-5), set_fmt FMT_DEC g)
      /\ evaluate m "1<<2+1" g = Ok (of_Z 8, set_fmt FMT_DEC g)
      /\ evaluate m "2*3^2" g = Ok (of_Z 18, set_fmt FMT_DEC g)
      /\ evaluate m "6&3<<1" g = Ok (of_Z 6, set_fmt FMT_DEC g)
      /\ evaluate m "1|2&4" g = Ok (of_Z 1, set_fmt FMT_DEC g)).
Proof.
  split; [|split].
  - intros e Hwf. apply evaluate_tree. exact Hwf.
  - intros o1 o2 a b c Ha Hb Hc. rewrite <- show_three_operands.
    apply evaluate_tree. unfold three_operands.
    destruct (first_binds o1 o2); cbn [well_formed]; auto.
  - intros H.
    assert (H32 := pow_at m 3 2 H eq_refl eq_refl ltac:(lia)
                     ltac:(vm_compute; discriminate)).
    assert (H29 := pow_at m 2 9 H eq_refl eq_refl ltac:(lia)
                     ltac:(vm_compute; discriminate)).
    vm_compute in H32, H29.
    repeat apply conj; vm_compute; rewrite ?H32, ?H29; reflexivity.
Qed.

Lemma precedence_and_associativity_witness :
  well_formed (Bin Sub (Name "x") (Bin Mul (Name "y") (Name "z")))
  /\ evaluate integers_libm "x-y*z" initial_globals
     = denote integers_libm (Bin Sub (Name "x") (Bin Mul (Name "y") (Name "z")))
         (set_fmt FMT_DEC initial_globals)
  /\ pow_exact_on_integers integers_libm
  /\ evaluate integers_libm "2^3^2" initial_globals
     = Ok (of_Z 512, set_fmt FMT_DEC initial_globals).
Proof.
  assert (Hwf : well_formed (Bin Sub (Name "x") (Bin Mul (Name "y") (Name "z")))).
  { unfold well_formed, identifier, MAX_NAME. simpl. repeat split; lia. }
  split; [exact Hwf|]. split; [|split].
  - apply (proj1 (precedence_and_associativity integers_libm initial_globals)
             (Bin Sub (Name "x") (Bin Mul (Name "y") (Name "z"))) Hwf).
  - exact pow_integers_exact.
  - apply (proj2 (proj2 (precedence_and_associativity integers_libm initial_globals))
             pow_integers_exact).
Defined.
